(** * Pixel format catalog, colour codec, bulk conversion and resampling

    A shallow embedding of [CmPixelUtil.cpp] (namespace [BansheeEngine],
    class [PixelUtil] and the resampler kernels that precede it).

    Conventions of the embedding:
    - [UINT8], [UINT16], [UINT32] and [UINT64] values are integers of [Z];
      every operation that can leave the range is followed by its
      wrap-around ([u8], [u16], [u32], [u64]);
    - [float] is IEEE 754 binary32, taken from the standard library's
      executable specification [SpecFloat] at precision 24 and [emax] 128;
      expressions are evaluated in binary32, one rounding per operation;
    - memory is a finite map from allocation ids to byte lists, a pointer is
      an allocation id and a byte offset, the null pointer is [None];
    - a call either returns, throws one of the engine's exceptions, or
      aborts (failed [assert], access outside an allocation, arithmetic
      with no defined result).  The memory at that point is always kept. *)

From Stdlib Require Import ZArith Lia List Bool QArith Qabs Lqa String.
From Stdlib Require Import SpecFloat.
From stdpp Require Import base option list gmap.

Local Open Scope Z_scope.

(* ===================================================================== *)
(** * Part I: the model                                                   *)
(* ===================================================================== *)

(** ** Machine integers *)

Definition u8 (x : Z) : Z := x mod 2 ^ 8.
Definition u16 (x : Z) : Z := x mod 2 ^ 16.
Definition u32 (x : Z) : Z := x mod 2 ^ 32.
Definition u64 (x : Z) : Z := x mod 2 ^ 64.

(** [a / b] on unsigned operands; a zero divisor has no defined result. *)
Definition udiv (a b : Z) : option Z :=
  if b =? 0 then None else Some (a / b).

(** ** The format catalog *)

(** The enumeration [PixelFormat], in the order of the table below
    ([PF_COUNT] entries; the declaration itself lives in the pixel data
    header). *)
Inductive PixelFormat : Set :=
| PF_UNKNOWN
| PF_R8 | PF_R8G8 | PF_R8G8B8 | PF_B8G8R8
| PF_A8R8G8B8 | PF_A8B8G8R8 | PF_B8G8R8A8 | PF_R8G8B8A8
| PF_X8R8G8B8 | PF_X8B8G8R8 | PF_R8G8B8X8 | PF_B8G8R8X8
| PF_DXT1 | PF_DXT2 | PF_DXT3 | PF_DXT4 | PF_DXT5
| PF_FLOAT16_R | PF_FLOAT16_RG | PF_FLOAT16_RGB | PF_FLOAT16_RGBA
| PF_FLOAT32_R | PF_FLOAT32_RG | PF_FLOAT32_RGB | PF_FLOAT32_RGBA
| PF_D32_S8X24 | PF_D24_S8 | PF_D32 | PF_D16.

#[global] Instance PixelFormat_eq_dec : EqDecision PixelFormat.
Proof. solve_decision. Defined.

Definition all_formats : list PixelFormat :=
  [ PF_UNKNOWN; PF_R8; PF_R8G8; PF_R8G8B8; PF_B8G8R8;
    PF_A8R8G8B8; PF_A8B8G8R8; PF_B8G8R8A8; PF_R8G8B8A8;
    PF_X8R8G8B8; PF_X8B8G8R8; PF_R8G8B8X8; PF_B8G8R8X8;
    PF_DXT1; PF_DXT2; PF_DXT3; PF_DXT4; PF_DXT5;
    PF_FLOAT16_R; PF_FLOAT16_RG; PF_FLOAT16_RGB; PF_FLOAT16_RGBA;
    PF_FLOAT32_R; PF_FLOAT32_RG; PF_FLOAT32_RGB; PF_FLOAT32_RGBA;
    PF_D32_S8X24; PF_D24_S8; PF_D32; PF_D16 ].

(** The ordinal of a format, [(int)fmt]. *)
Definition ord (fmt : PixelFormat) : nat :=
  match fmt with
  | PF_UNKNOWN => 0
  | PF_R8 => 1 | PF_R8G8 => 2 | PF_R8G8B8 => 3 | PF_B8G8R8 => 4
  | PF_A8R8G8B8 => 5 | PF_A8B8G8R8 => 6 | PF_B8G8R8A8 => 7 | PF_R8G8B8A8 => 8
  | PF_X8R8G8B8 => 9 | PF_X8B8G8R8 => 10 | PF_R8G8B8X8 => 11 | PF_B8G8R8X8 => 12
  | PF_DXT1 => 13 | PF_DXT2 => 14 | PF_DXT3 => 15 | PF_DXT4 => 16 | PF_DXT5 => 17
  | PF_FLOAT16_R => 18 | PF_FLOAT16_RG => 19 | PF_FLOAT16_RGB => 20
  | PF_FLOAT16_RGBA => 21
  | PF_FLOAT32_R => 22 | PF_FLOAT32_RG => 23 | PF_FLOAT32_RGB => 24
  | PF_FLOAT32_RGBA => 25
  | PF_D32_S8X24 => 26 | PF_D24_S8 => 27 | PF_D32 => 28 | PF_D16 => 29
  end%nat.

Definition PF_COUNT : nat := 30.

(** Modelled from the spec: the capability flags [PixelFormatFlags]
    (has-alpha, compressed, floating-point, depth, native-endian-packed).
    Their declaration is in the pixel data header; each is one bit of the
    [flags] word, and nothing below depends on which bit. *)
Definition PFF_HASALPHA : Z := 0x1.
Definition PFF_COMPRESSED : Z := 0x2.
Definition PFF_FLOAT : Z := 0x4.
Definition PFF_DEPTH : Z := 0x8.
Definition PFF_NATIVEENDIAN : Z := 0x10.

(** The component types named by the table. *)
Inductive PixelComponentType : Set :=
| PCT_BYTE | PCT_SHORT | PCT_FLOAT16 | PCT_FLOAT32.

(** [struct PixelFormatDescription]. *)
Record PixelFormatDescription : Set := mkDesc {
  name : string;
  elemBytes : Z;
  flags : Z;
  componentType : PixelComponentType;
  componentCount : Z;
  rbits : Z; gbits : Z; bbits : Z; abits : Z;
  rmask : Z; gmask : Z; bmask : Z; amask : Z;
  rshift : Z; gshift : Z; bshift : Z; ashift : Z
}.

(** [_pixelFormats[PF_COUNT]], entry by entry. *)
Definition _pixelFormats : list PixelFormatDescription :=
  [ mkDesc "PF_UNKNOWN" 0 0 PCT_BYTE 0
      0 0 0 0
      0 0 0 0 0 0 0 0;
    mkDesc "PF_R8" 1 0 PCT_BYTE 1
      8 0 0 0
      0x000000FF 0 0 0
      0 0 0 0;
    mkDesc "PF_R8G8" 2 0 PCT_BYTE 2
      8 8 0 0
      0x000000FF 0x0000FF00 0 0
      0 8 0 0;
    mkDesc "PF_R8G8B8" 3 PFF_NATIVEENDIAN PCT_BYTE 3
      8 8 8 0
      0x000000FF 0x0000FF00 0x00FF0000 0
      0 8 16 0;
    mkDesc "PF_B8G8R8" 3 PFF_NATIVEENDIAN PCT_BYTE 3
      8 8 8 0
      0x00FF0000 0x0000FF00 0x000000FF 0
      16 8 0 0;
    mkDesc "PF_A8R8G8B8" 4 (Z.lor PFF_HASALPHA PFF_NATIVEENDIAN) PCT_BYTE 4
      8 8 8 8
      0x0000FF00 0x00FF0000 0xFF000000 0x000000FF
      8 16 24 0;
    mkDesc "PF_A8B8G8R8" 4 (Z.lor PFF_HASALPHA PFF_NATIVEENDIAN) PCT_BYTE 4
      8 8 8 8
      0xFF000000 0x00FF0000 0x0000FF00 0x000000FF
      24 16 8 0;
    mkDesc "PF_B8G8R8A8" 4 (Z.lor PFF_HASALPHA PFF_NATIVEENDIAN) PCT_BYTE 4
      8 8 8 8
      0x00FF0000 0x0000FF00 0x000000FF 0xFF000000
      16 8 0 24;
    mkDesc "PF_R8G8B8A8" 4 (Z.lor PFF_HASALPHA PFF_NATIVEENDIAN) PCT_BYTE 4
      8 8 8 8
      0x000000FF 0x0000FF00 0x00FF0000 0xFF000000
      0 8 16 24;
    mkDesc "PF_X8R8G8B8" 4 PFF_NATIVEENDIAN PCT_BYTE 3
      8 8 8 0
      0x0000FF00 0x00FF0000 0xFF000000 0x000000FF
      8 16 24 0;
    mkDesc "PF_X8B8G8R8" 4 PFF_NATIVEENDIAN PCT_BYTE 3
      8 8 8 0
      0xFF000000 0x00FF0000 0x0000FF00 0x000000FF
      24 16 8 0;
    mkDesc "PF_R8G8B8X8" 4 (Z.lor PFF_HASALPHA PFF_NATIVEENDIAN) PCT_BYTE 3
      8 8 8 0
      0x000000FF 0x0000FF00 0x00FF0000 0xFF000000
      0 8 16 0;
    mkDesc "PF_B8G8R8X8" 4 (Z.lor PFF_HASALPHA PFF_NATIVEENDIAN) PCT_BYTE 3
      8 8 8 0
      0x00FF0000 0x0000FF00 0x000000FF 0xFF000000
      16 8 0 0;
    mkDesc "PF_DXT1" 0 (Z.lor PFF_COMPRESSED PFF_HASALPHA) PCT_BYTE 3
      0 0 0 0
      0 0 0 0 0 0 0 0;
    mkDesc "PF_DXT2" 0 (Z.lor PFF_COMPRESSED PFF_HASALPHA) PCT_BYTE 4
      0 0 0 0
      0 0 0 0 0 0 0 0;
    mkDesc "PF_DXT3" 0 (Z.lor PFF_COMPRESSED PFF_HASALPHA) PCT_BYTE 4
      0 0 0 0
      0 0 0 0 0 0 0 0;
    mkDesc "PF_DXT4" 0 (Z.lor PFF_COMPRESSED PFF_HASALPHA) PCT_BYTE 4
      0 0 0 0
      0 0 0 0 0 0 0 0;
    mkDesc "PF_DXT5" 0 (Z.lor PFF_COMPRESSED PFF_HASALPHA) PCT_BYTE 4
      0 0 0 0
      0 0 0 0 0 0 0 0;
    mkDesc "PF_FLOAT16_R" 2 PFF_FLOAT PCT_FLOAT16 1
      16 0 0 0
      0 0 0 0 0 0 0 0;
    mkDesc "PF_FLOAT16_RG" 4 PFF_FLOAT PCT_FLOAT16 2
      16 16 0 0
      0 0 0 0 0 0 0 0;
    mkDesc "PF_FLOAT16_RGB" 6 PFF_FLOAT PCT_FLOAT16 3
      16 16 16 0
      0 0 0 0 0 0 0 0;
    mkDesc "PF_FLOAT16_RGBA" 8 (Z.lor PFF_FLOAT PFF_HASALPHA) PCT_FLOAT16 4
      16 16 16 16
      0 0 0 0 0 0 0 0;
    mkDesc "PF_FLOAT32_R" 4 PFF_FLOAT PCT_FLOAT32 1
      32 0 0 0
      0 0 0 0 0 0 0 0;
    mkDesc "PF_FLOAT32_RG" 8 PFF_FLOAT PCT_FLOAT32 2
      32 32 0 0
      0 0 0 0 0 0 0 0;
    mkDesc "PF_FLOAT32_RGB" 12 PFF_FLOAT PCT_FLOAT32 3
      32 32 32 0
      0 0 0 0 0 0 0 0;
    mkDesc "PF_FLOAT32_RGBA" 16 (Z.lor PFF_FLOAT PFF_HASALPHA) PCT_FLOAT32 4
      32 32 32 32
      0 0 0 0 0 0 0 0;
    mkDesc "PF_D32_S8X24" 4 (Z.lor PFF_DEPTH PFF_FLOAT) PCT_FLOAT32 1
      0 0 0 0
      0 0 0 0 0 0 0 0;
    mkDesc "PF_D24_S8" 8 (Z.lor PFF_DEPTH PFF_FLOAT) PCT_FLOAT32 2
      0 0 0 0
      0 0 0 0 0 0 0 0;
    mkDesc "PF_D32" 4 (Z.lor PFF_DEPTH PFF_FLOAT) PCT_FLOAT32 1
      0 0 0 0
      0 0 0 0 0 0 0 0;
    mkDesc "PF_D16" 2 (Z.lor PFF_DEPTH PFF_FLOAT) PCT_FLOAT16 1
      0 0 0 0
      0 0 0 0 0 0 0 0 ].

(** [getDescriptionFor]: the table entry at the format's ordinal.  The
    assertion on the ordinal cannot fail for a value of the enumeration
    (see [ord_in_range]); the default entry is never used. *)
Definition getDescriptionFor (fmt : PixelFormat) : PixelFormatDescription :=
  nth (ord fmt) _pixelFormats
      (mkDesc "" 0 0 PCT_BYTE 0 0 0 0 0 0 0 0 0 0 0 0 0).

(** The truth value of [flags & F] in a condition. *)
Definition has_flag (fl F : Z) : bool := negb (Z.land fl F =? 0).

(** ** Calls: results, exceptions, memory *)

(** The two exception classes raised through [CM_EXCEPT] in this file. *)
Inductive exn : Set :=
| InvalidParametersException
| NotImplementedException.

Inductive outcome (A : Type) : Type :=
| Ret (a : A)
| Throw (e : exn)
| Abort.
Arguments Ret {A} a.
Arguments Throw {A} e.
Arguments Abort {A}.

(** A pointer: the allocation it points into ([None] for a pointer derived
    from the null pointer) and a byte offset. *)
Record ptr : Set := mkPtr { pblock : option nat; poff : Z }.

#[global] Instance ptr_eq_dec : EqDecision ptr.
Proof. solve_decision. Defined.

Definition ptr_add (p : ptr) (d : Z) : ptr := mkPtr (pblock p) (poff p + d).

(** One attempted read of [acc_len] bytes at [acc_off] of an allocation. *)
Record access : Set := mkAccess { acc_block : nat; acc_off : Z; acc_len : Z }.

(** The machine state: the allocations, and the reads attempted so far in
    program order (kept to state where a kernel samples its source). *)
Record state : Type := mkState {
  heap : gmap nat (list Z);
  reads : list access
}.

Definition M (A : Type) : Type := state -> outcome A * state.

Definition ret {A} (a : A) : M A := fun s => (Ret a, s).
Definition throw {A} (e : exn) : M A := fun s => (Throw e, s).
Definition abort {A} : M A := fun s => (Abort, s).

Definition bind {A B} (c : M A) (k : A -> M B) : M B :=
  fun s =>
    match c s with
    | (Ret a, s') => k a s'
    | (Throw e, s') => (Throw e, s')
    | (Abort, s') => (Abort, s')
    end.

Notation "'let*' x := c 'in' k" := (bind c (fun x => k))
  (at level 10, x pattern, c at level 200, k at level 200).
Notation "c ;;; k" := (bind c (fun _ => k))
  (at level 100, k at level 200, right associativity).

(** A partial operation: no defined result aborts the call. *)
Definition lift {A} (o : option A) : M A :=
  match o with Some a => ret a | None => abort end.

(** [assert(b)]. *)
Definition assert (b : bool) : M unit := if b then ret tt else abort.

(** Bytes [off .. off+n) of a list, when they exist. *)
Definition slice (l : list Z) (off n : Z) : option (list Z) :=
  if (0 <=? off) && (0 <=? n) && (off + n <=? Z.of_nat (length l))
  then Some (take (Z.to_nat n) (drop (Z.to_nat off) l))
  else None.

(** A list with bytes [off ..) overwritten by [bs], when they fit. *)
Definition splice (l : list Z) (off : Z) (bs : list Z) : option (list Z) :=
  if (0 <=? off) && (off + Z.of_nat (length bs) <=? Z.of_nat (length l))
  then Some (take (Z.to_nat off) l ++ bs ++
             drop (Z.to_nat off + length bs) l)
  else None.

(** Read [n] bytes at [p]; the attempt is logged before it is checked. *)
Definition load (p : ptr) (n : Z) : M (list Z) :=
  fun s =>
    match pblock p with
    | None => (Abort, s)
    | Some b =>
        let s' := mkState (heap s) (reads s ++ [mkAccess b (poff p) n]) in
        match heap s !! b with
        | None => (Abort, s')
        | Some l =>
            match slice l (poff p) n with
            | Some bs => (Ret bs, s')
            | None => (Abort, s')
            end
        end
    end.

(** Write the bytes [bs] at [p]. *)
Definition store (p : ptr) (bs : list Z) : M unit :=
  fun s =>
    match pblock p with
    | None => (Abort, s)
    | Some b =>
        match heap s !! b with
        | None => (Abort, s)
        | Some l =>
            match splice l (poff p) bs with
            | Some l' => (Ret tt, mkState (<[b := l']> (heap s)) (reads s))
            | None => (Abort, s)
            end
        end
    end.

(** [memcpy(dst, src, n)]. *)
Definition memcpy (dst src : ptr) (n : Z) : M unit :=
  let* bs := load src n in store dst bs.

(** A fresh allocation of [n] bytes (its initial contents are never read
    by the code below; they are taken to be zero). *)
Definition alloc (n : Z) : M nat :=
  fun s =>
    let b := fresh (dom (heap s)) in
    (Ret b, mkState (<[b := replicate (Z.to_nat n) 0]> (heap s)) (reads s)).

Definition free (b : nat) : M unit :=
  fun s => (Ret tt, mkState (delete b (heap s)) (reads s)).

(** [for (i = lo; i < hi; i++) body]: the loop runs [n = hi - lo] times and
    threads the loop-carried variables [S] through the body. *)
Fixpoint loop {S : Type} (n : nat) (body : S -> M S) (s : S) : M S :=
  match n with
  | O => ret s
  | Datatypes.S n' => let* s' := body s in loop n' body s'
  end.

(** Little-endian bytes of an unsigned value, and back. *)
Fixpoint le_bytes (n : nat) (v : Z) : list Z :=
  match n with
  | O => []
  | Datatypes.S n' => (v mod 256) :: le_bytes n' (v / 256)
  end.

Fixpoint le_word (bs : list Z) : Z :=
  match bs with
  | [] => 0
  | b :: bs' => b + 256 * le_word bs'
  end.

(** ** binary32 arithmetic *)

Module F32.

Definition prec : Z := 24.
Definition emax : Z := 128.

Definition add : spec_float -> spec_float -> spec_float := SFadd prec emax.
Definition sub : spec_float -> spec_float -> spec_float := SFsub prec emax.
Definition mul : spec_float -> spec_float -> spec_float := SFmul prec emax.
Definition div : spec_float -> spec_float -> spec_float := SFdiv prec emax.

(** [(float)n] for an integer [n]: the nearest binary32. *)
Definition of_Z (n : Z) : spec_float := binary_normalize prec emax n 0 false.

Definition zero : spec_float := S754_zero false.
Definition one : spec_float := of_Z 1.

(** Comparisons; each is false when an operand is a NaN. *)
Definition leb (x y : spec_float) : bool := SFleb x y.
Definition ltb (x y : spec_float) : bool := SFltb x y.
Definition geb (x y : spec_float) : bool := SFleb y x.
Definition gtb (x y : spec_float) : bool := SFltb y x.
Definition eqb (x y : spec_float) : bool := SFeqb x y.

(** Truncation toward zero; infinities and NaNs have no integer part. *)
Definition trunc (f : spec_float) : option Z :=
  match f with
  | S754_zero _ => Some 0
  | S754_finite s m e =>
      Some (cond_Zopp s (if 0 <=? e then Zpos m * 2 ^ e
                         else Zpos m / 2 ^ (- e)))
  | _ => None
  end.

(** A conversion to an unsigned integer type of [w] bits: defined when the
    truncated value is representable. *)
Definition to_unsigned (w : Z) (f : spec_float) : option Z :=
  match trunc f with
  | Some z => if (0 <=? z) && (z <? 2 ^ w) then Some z else None
  | None => None
  end.

(** The exact value of a finite float (0 for the others):
    [m * 2^e] with the sign. *)
Definition to_Q (f : spec_float) : Q :=
  match f with
  | S754_finite s m e =>
      if 0 <=? e then inject_Z (cond_Zopp s (Zpos m) * 2 ^ e)
      else Qmake (cond_Zopp s (Zpos m)) (Z.to_pos (2 ^ (- e)))
  | _ => 0%Q
  end.

Definition is_nan (f : spec_float) : bool :=
  match f with S754_nan => true | _ => false end.

(** A float of the format: finite values are canonical binary32. *)
Definition valid (f : spec_float) : bool := valid_binary prec emax f.

(** The 32-bit pattern of a float and the float of a pattern.  A NaN
    carries no payload here: every NaN pattern reads as the one NaN, which
    is written back as the default quiet NaN. *)
Definition sign_bit (s : bool) : Z := if s then 0x80000000 else 0.

Definition bits_of (f : spec_float) : Z :=
  match f with
  | S754_zero s => sign_bit s
  | S754_infinity s => sign_bit s + 0x7F800000
  | S754_nan => 0x7FC00000
  | S754_finite s m e =>
      if Zpos m <? 0x800000 then sign_bit s + Zpos m
      else sign_bit s + (e + 150) * 0x800000 + (Zpos m - 0x800000)
  end.

Definition of_bits (w : Z) : spec_float :=
  let s := Z.testbit w 31 in
  let e := Z.land (Z.shiftr w 23) 0xFF in
  let m := Z.land w 0x7FFFFF in
  if e =? 0 then
    match m with
    | Zpos p => S754_finite s p (-149)
    | _ => S754_zero s
    end
  else if e =? 255 then
    (if m =? 0 then S754_infinity s else S754_nan)
  else
    match m + 0x800000 with
    | Zpos p => S754_finite s p (e - 150)
    | _ => S754_nan
    end.

End F32.

(** [((float* )p)[i]] and [((UINT8* )p)[i]] as rvalues, the latter also as
    an lvalue. *)
Definition loadFloat (p : ptr) (i : Z) : M spec_float :=
  let* bs := load (ptr_add p (4 * i)) 4 in
  ret (F32.of_bits (le_word bs)).

Definition loadU8 (p : ptr) (i : Z) : M Z :=
  let* bs := load (ptr_add p i) 1 in ret (le_word bs).

Definition storeU8 (p : ptr) (i : Z) (v : Z) : M unit :=
  store (ptr_add p i) (le_bytes 1 v).

(** ** The fixed-point and half-float helpers *)

Module Bitwise.

(** Modelled from the spec: the class [Bitwise] (header [CmBitwise.h]) is
    not part of the sources at hand.  The spec names its primitives
    (fixed-to-fixed, fixed-to-float, float-to-fixed, half-float
    conversions, and the read and write of an integer's low bytes in
    native byte order) and fixes their behaviour at these points:
    widening a fixed-point value preserves the full dynamic range
    (1 bit to 8 bits maps to 0 or 255), narrowing drops low bits, a float
    is clamped to [0,1] and scaled to an N-bit fraction, and an N-bit
    fraction [v] reads back as [v / (2^N - 1)]. *)

(** [fixedToFixed(value, n, p)]: an [n]-bit fraction as a [p]-bit one. *)
Definition fixedToFixed (value n p : Z) : option Z :=
  if n >? p then Some (Z.shiftr value (n - p))
  else if n <? p then
    if value =? 0 then Some 0
    else if value =? u32 (Z.shiftl 1 n - 1) then Some (u32 (Z.shiftl 1 p - 1))
    else udiv (u32 (value * Z.shiftl 1 p)) (u32 (Z.shiftl 1 n - 1))
  else Some value.

(** [floatToFixed(value, bits)]. *)
Definition floatToFixed (value : spec_float) (bits : Z) : option Z :=
  if F32.leb value F32.zero then Some 0
  else if F32.geb value F32.one then Some (u32 (Z.shiftl 1 bits - 1))
  else F32.to_unsigned 32 (F32.mul value (F32.of_Z (Z.shiftl 1 bits))).

(** [fixedToFloat(value, bits)]. *)
Definition fixedToFloat (value bits : Z) : spec_float :=
  F32.div (F32.of_Z value) (F32.of_Z (Z.shiftl 1 bits - 1)).

(** [intWrite(dest, n, value)]: the bytes it writes at [dest], the low
    [n] bytes of [value] in little-endian order (nothing for an [n]
    outside 1..4). *)
Definition intWrite (n : Z) (value : Z) : list Z :=
  if (1 <=? n) && (n <=? 4) then le_bytes (Z.to_nat n) value else [].

(** [intRead(src, n)]: the value of the [n] bytes at [src] (0 for an [n]
    outside 1..4). *)
Definition intRead (bs : list Z) (n : Z) : Z :=
  if (1 <=? n) && (n <=? 4) then le_word (take (Z.to_nat n) bs) else 0.

(** [floatToHalfI]: the 16-bit pattern for a binary32 pattern. *)
Definition floatToHalfI (i : Z) : Z :=
  let s := Z.land (Z.shiftr i 16) 0x8000 in
  let e := Z.land (Z.shiftr i 23) 0xFF - (127 - 15) in
  let m := Z.land i 0x007FFFFF in
  if e <=? 0 then
    if e <? -10 then 0
    else
      let m' := Z.shiftr (Z.lor m 0x00800000) (1 - e) in
      u16 (Z.lor s (Z.shiftr m' 13))
  else if e =? 0xFF - (127 - 15) then
    if m =? 0 then u16 (Z.lor s 0x7C00)
    else
      let m' := Z.shiftr m 13 in
      u16 (Z.lor (Z.lor (Z.lor s 0x7C00) m') (if m' =? 0 then 1 else 0))
  else
    if e >? 30 then u16 (Z.lor s 0x7C00)
    else u16 (Z.lor (Z.lor s (Z.shiftl e 10)) (Z.shiftr m 13)).

(** The renormalisation loop of [halfToFloatI]: shift a denormal's
    mantissa up until bit 10 is set. *)
Fixpoint renormalize (fuel : nat) (m e : Z) : Z * Z :=
  match fuel with
  | O => (m, e)
  | S fuel' =>
      if Z.land m 0x400 =? 0 then renormalize fuel' (Z.shiftl m 1) (e - 1)
      else (m, e)
  end.

(** [halfToFloatI]: the binary32 pattern for a 16-bit pattern. *)
Definition halfToFloatI (y : Z) : Z :=
  let s := Z.land (Z.shiftr y 15) 0x1 in
  let e := Z.land (Z.shiftr y 10) 0x1F in
  let m := Z.land y 0x3FF in
  let finish (e m : Z) : Z :=
    Z.lor (Z.lor (Z.shiftl s 31) (Z.shiftl (e + (127 - 15)) 23))
          (Z.shiftl m 13) in
  if e =? 0 then
    if m =? 0 then Z.shiftl s 31
    else
      let '(m', e') := renormalize 10 m e in
      finish (e' + 1) (Z.land m' 0x3FF)
  else if e =? 31 then
    if m =? 0 then Z.lor (Z.shiftl s 31) 0x7F800000
    else Z.lor (Z.lor (Z.shiftl s 31) 0x7F800000) (Z.shiftl m 13)
  else finish e m.

Definition floatToHalf (f : spec_float) : Z := floatToHalfI (F32.bits_of f).
Definition halfToFloat (y : Z) : spec_float := F32.of_bits (halfToFloatI y).

End Bitwise.

(** ** [PixelUtil]: catalog queries

    The static members of [PixelUtil] keep their names. *)

(** A pure call: a result or an exception, without memory. *)
Definition run_pure {A} (o : outcome A) : M A := fun s => (o, s).

(** Modelled from the spec: [Color], four float components (header
    [CmColor.h]); its operators act component by component. *)
Record Color : Set := mkColor {
  cr : spec_float; cg : spec_float; cb : spec_float; ca : spec_float
}.

Definition Color_scale (c : Color) (f : spec_float) : Color :=
  mkColor (F32.mul (cr c) f) (F32.mul (cg c) f)
          (F32.mul (cb c) f) (F32.mul (ca c) f).

Definition Color_add (c d : Color) : Color :=
  mkColor (F32.add (cr c) (cr d)) (F32.add (cg c) (cg d))
          (F32.add (cb c) (cb d)) (F32.add (ca c) (ca d)).

Definition getNumElemBytes (format : PixelFormat) : Z :=
  elemBytes (getDescriptionFor format).

Definition getNumElemBits (format : PixelFormat) : Z :=
  u32 (elemBytes (getDescriptionFor format) * 8).

Definition getFlags (format : PixelFormat) : Z :=
  flags (getDescriptionFor format).

Definition hasAlpha (format : PixelFormat) : bool :=
  Z.land (getFlags format) PFF_HASALPHA >? 0.

Definition isFloatingPoint (format : PixelFormat) : bool :=
  Z.land (getFlags format) PFF_FLOAT >? 0.

Definition isCompressed (format : PixelFormat) : bool :=
  Z.land (getFlags format) PFF_COMPRESSED >? 0.

Definition isDepth (format : PixelFormat) : bool :=
  Z.land (getFlags format) PFF_DEPTH >? 0.

Definition isNativeEndian (format : PixelFormat) : bool :=
  Z.land (getFlags format) PFF_NATIVEENDIAN >? 0.

(** [getMemorySize]; all arithmetic is [UINT32]. *)
Definition getMemorySize (width height depth : Z) (format : PixelFormat)
  : outcome Z :=
  if isCompressed format then
    match format with
    | PF_DXT1 =>
        Ret (u32 (u32 (u32 (u32 (width + 3) / 4 * (u32 (height + 3) / 4)) * 8)
                  * depth))
    | PF_DXT2 | PF_DXT3 | PF_DXT4 | PF_DXT5 =>
        Ret (u32 (u32 (u32 (u32 (width + 3) / 4 * (u32 (height + 3) / 4)) * 16)
                  * depth))
    | _ => Throw InvalidParametersException
    end
  else
    Ret (u32 (u32 (u32 (width * height) * depth) * getNumElemBytes format)).

Definition isValidExtent (width height depth : Z) (format : PixelFormat)
  : bool :=
  if isCompressed format then
    match format with
    | PF_DXT1 | PF_DXT2 | PF_DXT3 | PF_DXT4 | PF_DXT5 =>
        (Z.land width 3 =? 0) && (Z.land height 3 =? 0) && (depth =? 1)
    | _ => true
    end
  else true.

Definition getBitDepths (format : PixelFormat) : Z * Z * Z * Z :=
  let des := getDescriptionFor format in
  (rbits des, gbits des, bbits des, abits des).

Definition getBitMasks (format : PixelFormat) : Z * Z * Z * Z :=
  let des := getDescriptionFor format in
  (rmask des, gmask des, bmask des, amask des).

Definition getBitShifts (format : PixelFormat) : Z * Z * Z * Z :=
  let des := getDescriptionFor format in
  (rshift des, gshift des, bshift des, ashift des).

Definition getFormatName (srcformat : PixelFormat) : string :=
  name (getDescriptionFor srcformat).

Definition isAccessible (srcformat : PixelFormat) : bool :=
  if bool_decide (srcformat = PF_UNKNOWN) then false
  else
    let flags := getFlags srcformat in
    negb (has_flag flags PFF_COMPRESSED || has_flag flags PFF_DEPTH).

Definition getElementType (format : PixelFormat) : PixelComponentType :=
  componentType (getDescriptionFor format).

Definition getNumElements (format : PixelFormat) : Z :=
  componentCount (getDescriptionFor format).

(** *** The colour codec

    Each overload is split in two: the bytes of one pixel computed from
    the colour (or the colour from the bytes), and the access to memory,
    which moves the [elemBytes] bytes of the pixel at once. *)

(** One channel of a native-endian pack: [(v << shift) & mask]. *)
Definition channel_bits (v shift mask : Z) : Z :=
  Z.land (u32 (Z.shiftl v shift)) mask.

(** One channel of a native-endian unpack: [(value & mask) >> shift]. *)
Definition channel_field (value mask shift : Z) : Z :=
  Z.shiftr (Z.land value mask) shift.

(** The four channels of a native-endian pack joined by [|]. *)
Definition packed_value (des : PixelFormatDescription) (fr fg fb fa : Z)
  : Z :=
  Z.lor (Z.lor (Z.lor (channel_bits fr (rshift des) (rmask des))
                      (channel_bits fg (gshift des) (gmask des)))
               (channel_bits fb (bshift des) (bmask des)))
        (channel_bits fa (ashift des) (amask des)).

(** The bytes of a float and of a 16-bit value as stored in memory. *)
Definition floatBytes (v : spec_float) : list Z := le_bytes 4 (F32.bits_of v).
Definition halfBytes (v : Z) : list Z := le_bytes 2 v.

(** [((float* )src)[i]], [((UINT16* )src)[i]] and [((UINT8* )src)[i]] for a
    pixel whose bytes are [bs]. *)
Definition floatAt (bs : list Z) (i : nat) : spec_float :=
  F32.of_bits (le_word (take 4 (drop (4 * i) bs))).
Definition halfAt (bs : list Z) (i : nat) : Z :=
  le_word (take 2 (drop (2 * i) bs)).
Definition byteAt (bs : list Z) (i : nat) : Z := nth i bs 0.

(** The formats the two float overloads handle: the native-endian ones by
    the generic path, ten others by a case of their own. *)
Definition hasCodec (format : PixelFormat) : bool :=
  has_flag (flags (getDescriptionFor format)) PFF_NATIVEENDIAN
  || match format with
     | PF_FLOAT32_R | PF_FLOAT32_RG | PF_FLOAT32_RGB | PF_FLOAT32_RGBA
     | PF_FLOAT16_R | PF_FLOAT16_RG | PF_FLOAT16_RGB | PF_FLOAT16_RGBA
     | PF_R8G8 | PF_R8 => true
     | _ => false
     end.

(** A partial operation inside a pure call. *)
Definition olift {A} (o : option A) : outcome A :=
  match o with Some a => Ret a | None => Abort end.

Definition obind {A B} (o : outcome A) (k : A -> outcome B) : outcome B :=
  match o with
  | Ret a => k a
  | Throw e => Throw e
  | Abort => Abort
  end.

Notation "'let?' x := c 'in' k" := (obind c (fun x => k))
  (at level 10, x pattern, c at level 200, k at level 200).

(** [packColor(float r, float g, float b, float a, format, dest)]: the
    bytes written at [dest]. *)
Definition packColor_bytes (r g b a : spec_float) (format : PixelFormat)
  : outcome (list Z) :=
  let des := getDescriptionFor format in
  if has_flag (flags des) PFF_NATIVEENDIAN then
    let? fr := olift (Bitwise.floatToFixed r (rbits des)) in
    let? fg := olift (Bitwise.floatToFixed g (gbits des)) in
    let? fb := olift (Bitwise.floatToFixed b (bbits des)) in
    let? fa := olift (Bitwise.floatToFixed a (abits des)) in
    Ret (Bitwise.intWrite (elemBytes des) (packed_value des fr fg fb fa))
  else
    match format with
    | PF_FLOAT32_R => Ret (floatBytes r)
    | PF_FLOAT32_RG => Ret (floatBytes r ++ floatBytes g)
    | PF_FLOAT32_RGB => Ret (floatBytes r ++ floatBytes g ++ floatBytes b)
    | PF_FLOAT32_RGBA =>
        Ret (floatBytes r ++ floatBytes g ++ floatBytes b ++ floatBytes a)
    | PF_FLOAT16_R => Ret (halfBytes (Bitwise.floatToHalf r))
    | PF_FLOAT16_RG =>
        Ret (halfBytes (Bitwise.floatToHalf r)
             ++ halfBytes (Bitwise.floatToHalf g))
    | PF_FLOAT16_RGB =>
        Ret (halfBytes (Bitwise.floatToHalf r)
             ++ halfBytes (Bitwise.floatToHalf g)
             ++ halfBytes (Bitwise.floatToHalf b))
    | PF_FLOAT16_RGBA =>
        Ret (halfBytes (Bitwise.floatToHalf r)
             ++ halfBytes (Bitwise.floatToHalf g)
             ++ halfBytes (Bitwise.floatToHalf b)
             ++ halfBytes (Bitwise.floatToHalf a))
    | PF_R8G8 =>
        let? fr := olift (Bitwise.floatToFixed r 8) in
        let? fg := olift (Bitwise.floatToFixed g 8) in
        Ret [u8 fr; u8 fg]
    | PF_R8 =>
        let? fr := olift (Bitwise.floatToFixed r 8) in
        Ret [u8 fr]
    | _ => Throw NotImplementedException
    end.

Definition packColor (r g b a : spec_float) (format : PixelFormat)
    (dest : ptr) : M unit :=
  let* bs := run_pure (packColor_bytes r g b a format) in
  store dest bs.

(** [packColor(const Color&, format, dest)]. *)
Definition packColor_Color (color : Color) (format : PixelFormat)
    (dest : ptr) : M unit :=
  packColor (cr color) (cg color) (cb color) (ca color) format dest.

(** [packColor(UINT8 r, UINT8 g, UINT8 b, UINT8 a, format, dest)]: the
    bytes written at [dest]. *)
Definition packColor_UINT8_bytes (r g b a : Z) (format : PixelFormat)
  : outcome (list Z) :=
  let des := getDescriptionFor format in
  if has_flag (flags des) PFF_NATIVEENDIAN then
    let? fr := olift (Bitwise.fixedToFixed r 8 (rbits des)) in
    let? fg := olift (Bitwise.fixedToFixed g 8 (gbits des)) in
    let? fb := olift (Bitwise.fixedToFixed b 8 (bbits des)) in
    let? fa := olift (Bitwise.fixedToFixed a 8 (abits des)) in
    Ret (Bitwise.intWrite (elemBytes des) (packed_value des fr fg fb fa))
  else
    let f255 := F32.of_Z 255 in
    packColor_bytes (F32.div (F32.of_Z r) f255) (F32.div (F32.of_Z g) f255)
                    (F32.div (F32.of_Z b) f255) (F32.div (F32.of_Z a) f255)
                    format.

Definition packColor_UINT8 (r g b a : Z) (format : PixelFormat)
    (dest : ptr) : M unit :=
  let* bs := run_pure (packColor_UINT8_bytes r g b a format) in
  store dest bs.

(** [unpackColor(float* r, float* g, float* b, float* a, format, src)] on
    the bytes [bs] of the pixel at [src]. *)
Definition unpackColor_bytes (format : PixelFormat) (bs : list Z)
  : outcome (spec_float * spec_float * spec_float * spec_float) :=
  let des := getDescriptionFor format in
  if has_flag (flags des) PFF_NATIVEENDIAN then
    let value := Bitwise.intRead bs (elemBytes des) in
    let r := Bitwise.fixedToFloat
               (channel_field value (rmask des) (rshift des)) (rbits des) in
    let g := Bitwise.fixedToFloat
               (channel_field value (gmask des) (gshift des)) (gbits des) in
    let b := Bitwise.fixedToFloat
               (channel_field value (bmask des) (bshift des)) (bbits des) in
    if has_flag (flags des) PFF_HASALPHA then
      Ret (r, g, b,
           Bitwise.fixedToFloat
             (channel_field value (amask des) (ashift des)) (abits des))
    else
      Ret (r, g, b, F32.one)
  else
    match format with
    | PF_FLOAT32_R =>
        Ret (floatAt bs 0, floatAt bs 0, floatAt bs 0, F32.one)
    | PF_FLOAT32_RG =>
        Ret (floatAt bs 0, floatAt bs 1, floatAt bs 1, F32.one)
    | PF_FLOAT32_RGB =>
        Ret (floatAt bs 0, floatAt bs 1, floatAt bs 2, F32.one)
    | PF_FLOAT32_RGBA =>
        Ret (floatAt bs 0, floatAt bs 1, floatAt bs 2, floatAt bs 3)
    | PF_FLOAT16_R =>
        let x := Bitwise.halfToFloat (halfAt bs 0) in Ret (x, x, x, F32.one)
    | PF_FLOAT16_RG =>
        Ret (Bitwise.halfToFloat (halfAt bs 0),
             Bitwise.halfToFloat (halfAt bs 1),
             Bitwise.halfToFloat (halfAt bs 1), F32.one)
    | PF_FLOAT16_RGB =>
        Ret (Bitwise.halfToFloat (halfAt bs 0),
             Bitwise.halfToFloat (halfAt bs 1),
             Bitwise.halfToFloat (halfAt bs 2), F32.one)
    | PF_FLOAT16_RGBA =>
        Ret (Bitwise.halfToFloat (halfAt bs 0),
             Bitwise.halfToFloat (halfAt bs 1),
             Bitwise.halfToFloat (halfAt bs 2),
             Bitwise.halfToFloat (halfAt bs 3))
    | PF_R8G8 =>
        Ret (Bitwise.fixedToFloat (byteAt bs 0) 8,
             Bitwise.fixedToFloat (byteAt bs 1) 8, F32.zero, F32.one)
    | PF_R8 =>
        Ret (Bitwise.fixedToFloat (byteAt bs 0) 8,
             F32.zero, F32.zero, F32.one)
    | _ => Throw NotImplementedException
    end.

Definition unpackColor (format : PixelFormat) (src : ptr)
  : M (spec_float * spec_float * spec_float * spec_float) :=
  if hasCodec format then
    let* bs := load src (getNumElemBytes format) in
    run_pure (unpackColor_bytes format bs)
  else throw NotImplementedException.

(** [unpackColor(Color*, format, src)]. *)
Definition unpackColor_Color (format : PixelFormat) (src : ptr) : M Color :=
  let* (r, g, b, a) := unpackColor format src in ret (mkColor r g b a).

(** [unpackColor(UINT8* r, UINT8* g, UINT8* b, UINT8* a, format, src)] on
    the bytes [bs] of the pixel at [src]. *)
Definition unpackColor_UINT8_bytes (format : PixelFormat) (bs : list Z)
  : outcome (Z * Z * Z * Z) :=
  let des := getDescriptionFor format in
  if has_flag (flags des) PFF_NATIVEENDIAN then
    let value := Bitwise.intRead bs (elemBytes des) in
    let? r := olift (Bitwise.fixedToFixed
                       (channel_field value (rmask des) (rshift des))
                       (rbits des) 8) in
    let? g := olift (Bitwise.fixedToFixed
                       (channel_field value (gmask des) (gshift des))
                       (gbits des) 8) in
    let? b := olift (Bitwise.fixedToFixed
                       (channel_field value (bmask des) (bshift des))
                       (bbits des) 8) in
    if has_flag (flags des) PFF_HASALPHA then
      let? a := olift (Bitwise.fixedToFixed
                         (channel_field value (amask des) (ashift des))
                         (abits des) 8) in
      Ret (u8 r, u8 g, u8 b, u8 a)
    else
      Ret (u8 r, u8 g, u8 b, 255)
  else
    let? (rr, gg, bb, aa) := unpackColor_bytes format bs in
    let? r := olift (Bitwise.floatToFixed rr 8) in
    let? g := olift (Bitwise.floatToFixed gg 8) in
    let? b := olift (Bitwise.floatToFixed bb 8) in
    let? a := olift (Bitwise.floatToFixed aa 8) in
    Ret (u8 r, u8 g, u8 b, u8 a).

Definition unpackColor_UINT8 (format : PixelFormat) (src : ptr)
  : M (Z * Z * Z * Z) :=
  if hasCodec format then
    let* bs := load src (getNumElemBytes format) in
    run_pure (unpackColor_UINT8_bytes format bs)
  else throw NotImplementedException.

(** ** Pixel buffers *)

(** Modelled from the spec: [PixelData] (header [CmPixelData.h]), a region
    of raw memory described by its bounds, row pitch and slice pitch (both
    in pixels), a format and a backing allocation that is set from outside
    ([setExternalBuffer]) or allocated by the buffer itself
    ([allocateInternalBuffer]); a buffer constructed from extents and a
    format alone has no backing memory yet.  The skips are the stride left
    over beyond the logical bounds at the end of a row or slice, and a
    buffer is consecutive when there is none. *)
Record PixelData : Set := mkPixelData {
  mLeft : Z; mTop : Z; mRight : Z; mBottom : Z; mFront : Z; mBack : Z;
  mRowPitch : Z; mSlicePitch : Z;
  mFormat : PixelFormat;
  mData : option nat
}.

Definition getWidth (p : PixelData) : Z := u32 (mRight p - mLeft p).
Definition getHeight (p : PixelData) : Z := u32 (mBottom p - mTop p).
Definition getDepth (p : PixelData) : Z := u32 (mBack p - mFront p).

Definition getRowSkip (p : PixelData) : Z := u32 (mRowPitch p - getWidth p).
Definition getSliceSkip (p : PixelData) : Z :=
  u32 (mSlicePitch p - u32 (getHeight p * mRowPitch p)).

Definition isConsecutive (p : PixelData) : bool :=
  (mRowPitch p =? getWidth p)
  && (mSlicePitch p =? u32 (getWidth p * getHeight p)).

Definition getConsecutiveSize (p : PixelData) : outcome Z :=
  getMemorySize (getWidth p) (getHeight p) (getDepth p) (mFormat p).

Definition getData (p : PixelData) : ptr := mkPtr (mData p) 0.

(** [PixelData(width, height, depth, format)]. *)
Definition PixelData_new (width height depth : Z) (format : PixelFormat)
  : PixelData :=
  mkPixelData 0 0 width height 0 depth width (u32 (width * height)) format
              None.

Definition setExternalBuffer (p : PixelData) (data : ptr) : PixelData :=
  mkPixelData (mLeft p) (mTop p) (mRight p) (mBottom p) (mFront p) (mBack p)
              (mRowPitch p) (mSlicePitch p) (mFormat p) (pblock data).

Definition allocateInternalBuffer (p : PixelData) : M PixelData :=
  let* n := run_pure (getConsecutiveSize p) in
  let* b := alloc n in
  ret (setExternalBuffer p (mkPtr (Some b) 0)).

Definition freeInternalBuffer (p : PixelData) : M unit :=
  match mData p with
  | Some b => free b
  | None => ret tt
  end.

(** The number of iterations of [for (i = lo; i < hi; i++)]. *)
Definition trip (lo hi : Z) : nat := Z.to_nat (hi - lo).

(** The byte offset of the first addressed pixel,
    [(left + top * rowPitch + front * slicePitch) * pixelSize]. *)
Definition originBytes (p : PixelData) (pixelSize : Z) : Z :=
  u32 (u32 (u32 (mLeft p + u32 (mTop p * mRowPitch p))
            + u32 (mFront p * mSlicePitch p)) * pixelSize).

(** ** [PixelUtil::bulkPixelConversion] *)

(** The row-by-row copy of the same-format case. *)
Definition copyRows (src dst : PixelData) : M unit :=
  let srcPixelSize := getNumElemBytes (mFormat src) in
  let dstPixelSize := getNumElemBytes (mFormat dst) in
  let srcptr := ptr_add (getData src) (originBytes src srcPixelSize) in
  let dstptr := ptr_add (getData dst) (originBytes dst dstPixelSize) in
  let srcRowPitchBytes := u32 (mRowPitch src * srcPixelSize) in
  let srcSliceSkipBytes := u32 (getSliceSkip src * srcPixelSize) in
  let dstRowPitchBytes := u32 (mRowPitch dst * dstPixelSize) in
  let dstSliceSkipBytes := u32 (getSliceSkip dst * dstPixelSize) in
  let rowSize := u32 (getWidth src * srcPixelSize) in
  loop (trip (mFront src) (mBack src))
    (fun '(srcptr, dstptr) =>
       let* (srcptr, dstptr) :=
         loop (trip (mTop src) (mBottom src))
           (fun '(srcptr, dstptr) =>
              memcpy dstptr srcptr rowSize ;;;
              ret (ptr_add srcptr srcRowPitchBytes,
                   ptr_add dstptr dstRowPitchBytes))
           (srcptr, dstptr) in
       ret (ptr_add srcptr srcSliceSkipBytes,
            ptr_add dstptr dstSliceSkipBytes))
    (srcptr, dstptr) ;;;
  ret tt.

(** The brute force fallback: unpack and repack pixel by pixel. *)
Definition convertPixels (src dst : PixelData) : M unit :=
  let srcPixelSize := getNumElemBytes (mFormat src) in
  let dstPixelSize := getNumElemBytes (mFormat dst) in
  let srcptr := ptr_add (getData src) (originBytes src srcPixelSize) in
  let dstptr := ptr_add (getData dst) (originBytes dst dstPixelSize) in
  let srcRowSkipBytes := u32 (getRowSkip src * srcPixelSize) in
  let srcSliceSkipBytes := u32 (getSliceSkip src * srcPixelSize) in
  let dstRowSkipBytes := u32 (getRowSkip dst * dstPixelSize) in
  let dstSliceSkipBytes := u32 (getSliceSkip dst * dstPixelSize) in
  loop (trip (mFront src) (mBack src))
    (fun '(srcptr, dstptr) =>
       let* (srcptr, dstptr) :=
         loop (trip (mTop src) (mBottom src))
           (fun '(srcptr, dstptr) =>
              let* (srcptr, dstptr) :=
                loop (trip (mLeft src) (mRight src))
                  (fun '(srcptr, dstptr) =>
                     let* (r, g, b, a) := unpackColor (mFormat src) srcptr in
                     packColor r g b a (mFormat dst) dstptr ;;;
                     ret (ptr_add srcptr srcPixelSize,
                          ptr_add dstptr dstPixelSize))
                  (srcptr, dstptr) in
              ret (ptr_add srcptr srcRowSkipBytes,
                   ptr_add dstptr dstRowSkipBytes))
           (srcptr, dstptr) in
       ret (ptr_add srcptr srcSliceSkipBytes,
            ptr_add dstptr dstSliceSkipBytes))
    (srcptr, dstptr) ;;;
  ret tt.

(** The body of [bulkPixelConversion]; [fuel] bounds the depth of its two
    self-calls (see [bulkPixelConversion_fuel]: depth three is never
    reached). *)
Fixpoint bulkPixelConversion_rec (fuel : nat) (src dst : PixelData)
  : M unit :=
  match fuel with
  | O => abort
  | S fuel' =>
    assert ((getWidth src =? getWidth dst)
            && (getHeight src =? getHeight dst)
            && (getDepth src =? getDepth dst)) ;;;
    if isCompressed (mFormat src) || isCompressed (mFormat dst) then
      if bool_decide (mFormat src = mFormat dst) then
        let* n := run_pure (getConsecutiveSize src) in
        memcpy (getData dst) (getData src) n
      else throw NotImplementedException
    else if bool_decide (mFormat src = mFormat dst) then
      if isConsecutive src && isConsecutive dst then
        let* n := run_pure (getConsecutiveSize src) in
        memcpy (getData dst) (getData src) n
      else copyRows src dst
    else if bool_decide (mFormat dst = PF_X8R8G8B8)
            || bool_decide (mFormat dst = PF_X8B8G8R8) then
      let tempFormat :=
        if bool_decide (mFormat dst = PF_X8R8G8B8) then PF_A8R8G8B8
        else PF_A8B8G8R8 in
      let tempdst :=
        PixelData_new (getWidth dst) (getHeight dst) (getDepth dst)
                      tempFormat in
      bulkPixelConversion_rec fuel' src tempdst
    else if (bool_decide (mFormat src = PF_X8R8G8B8)
             || bool_decide (mFormat src = PF_X8B8G8R8))
            && negb (hasAlpha (mFormat dst)) then
      let tempFormat :=
        if bool_decide (mFormat src = PF_X8R8G8B8) then PF_A8R8G8B8
        else PF_A8B8G8R8 in
      let tempsrc :=
        setExternalBuffer
          (PixelData_new (getWidth src) (getHeight src) (getDepth src)
                         tempFormat)
          (getData src) in
      bulkPixelConversion_rec fuel' tempsrc dst
    else convertPixels src dst
  end.

Definition bulkPixelConversion (src dst : PixelData) : M unit :=
  bulkPixelConversion_rec 3 src dst.

(** ** The resampling kernels *)

(** The step along one axis in 16/48 fixed point,
    [((UINT64)srcExtent << 48) / dstExtent]. *)
Definition fixedStep (srcExtent dstExtent : Z) : option Z :=
  udiv (u64 (Z.shiftl srcExtent 48)) dstExtent.

(** The first sampling position, [(step >> 1) - 1]. *)
Definition startCoord (step : Z) : Z := u64 (Z.shiftr step 1 - 1).

(** The sampling position of the [k]-th iteration along an axis: the
    start followed by [k] times [cur += step]. *)
Fixpoint coordAt (step : Z) (k : nat) : Z :=
  match k with
  | O => startCoord step
  | S k' => u64 (coordAt step k' + step)
  end.

(** Nearest filter: the source coordinate, [(UINT32)(cur >> 48)]. *)
Definition nearestCoord (cur : Z) : Z := u32 (Z.shiftr cur 48).

(** Linear filters: from the position [cur] and the source extent, the two
    sample coordinates and the fractional part.  [fracBits] is 16 for the
    float kernels and 12 for the byte kernel:
    [temp = (UINT32)(cur >> (48 - fracBits));
     temp = (temp > half) ? temp - half : 0;
     c1 = temp >> fracBits; c2 = min(c1 + 1, lastCoord);
     frac = temp & (2^fracBits - 1)]. *)
Definition linearSample (fracBits cur lastCoord : Z) : Z * Z * Z :=
  let half := Z.shiftl 1 (fracBits - 1) in
  let temp := u32 (Z.shiftr cur (48 - fracBits)) in
  let temp := if temp >? half then u32 (temp - half) else 0 in
  let c1 := Z.shiftr temp fracBits in
  let c2 := Z.min (u32 (c1 + 1)) lastCoord in
  (c1, c2, Z.land temp (Z.shiftl 1 fracBits - 1)).

(** [NearestResampler<elementSize>::scale]. *)
Definition NearestResampler_scale (elementSize : Z)
    (source dest : PixelData) : M unit :=
  let sourceData := getData source in
  let destPtr := getData dest in
  let* stepX := lift (fixedStep (getWidth source) (getWidth dest)) in
  let* stepY := lift (fixedStep (getHeight source) (getHeight dest)) in
  let* stepZ := lift (fixedStep (getDepth source) (getDepth dest)) in
  loop (trip (mFront dest) (mBack dest))
    (fun '(curZ, destPtr) =>
       let offsetZ := u32 (nearestCoord curZ * mSlicePitch source) in
       let* (_, destPtr) :=
         loop (trip (mTop dest) (mBottom dest))
           (fun '(curY, destPtr) =>
              let offsetY := u32 (nearestCoord curY * mRowPitch source) in
              let* (_, destPtr) :=
                loop (trip (mLeft dest) (mRight dest))
                  (fun '(curX, destPtr) =>
                     let offsetX := nearestCoord curX in
                     let offsetBytes :=
                       u32 (elementSize
                            * u32 (u32 (offsetX + offsetY) + offsetZ)) in
                     let curSourcePtr := ptr_add sourceData offsetBytes in
                     memcpy destPtr curSourcePtr elementSize ;;;
                     ret (u64 (curX + stepX), ptr_add destPtr elementSize))
                  (startCoord stepX, destPtr) in
              ret (u64 (curY + stepY),
                   ptr_add destPtr (u32 (elementSize * getRowSkip dest))))
           (startCoord stepY, destPtr) in
       ret (u64 (curZ + stepZ),
            ptr_add destPtr (u32 (elementSize * getSliceSkip dest))))
    (startCoord stepZ, destPtr) ;;;
  ret tt.

(** The blend weight [(temp & 0xFFFF) / 65536.0f]. *)
Definition sampleWeight (frac : Z) : spec_float :=
  F32.div (F32.of_Z frac) (F32.of_Z 65536).

(** [1.0f - w]. *)
Definition oneMinus (w : spec_float) : spec_float := F32.sub F32.one w.

(** The eight trilinear factors, in the order the kernels use them:
    x1y1z1, x2y1z1, x1y2z1, x2y2z1, x1y1z2, x2y1z2, x1y2z2, x2y2z2. *)
Definition blendFactors (wx wy wz : spec_float) : list spec_float :=
  [ F32.mul (F32.mul (oneMinus wx) (oneMinus wy)) (oneMinus wz);
    F32.mul (F32.mul wx (oneMinus wy)) (oneMinus wz);
    F32.mul (F32.mul (oneMinus wx) wy) (oneMinus wz);
    F32.mul (F32.mul wx wy) (oneMinus wz);
    F32.mul (F32.mul (oneMinus wx) (oneMinus wy)) wz;
    F32.mul (F32.mul wx (oneMinus wy)) wz;
    F32.mul (F32.mul (oneMinus wx) wy) wz;
    F32.mul (F32.mul wx wy) wz ].

(** The eight sample positions, in the same order. *)
Definition sampleCorners (x1 x2 y1 y2 z1 z2 : Z) : list (Z * Z * Z) :=
  [ (x1, y1, z1); (x2, y1, z1); (x1, y2, z1); (x2, y2, z1);
    (x1, y1, z2); (x2, y1, z2); (x1, y2, z2); (x2, y2, z2) ].

(** The element index [x + y * rowPitch + z * slicePitch]. *)
Definition elemIndex (source : PixelData) (c : Z * Z * Z) : Z :=
  let '(x, y, z) := c in
  u32 (u32 (x + u32 (y * mRowPitch source)) + u32 (z * mSlicePitch source)).

(** Run a call on every element of a list, in order. *)
Fixpoint mapM {A B : Type} (f : A -> M B) (l : list A) : M (list B) :=
  match l with
  | [] => ret []
  | a :: l' => let* b := f a in let* bs := mapM f l' in ret (b :: bs)
  end.

(** [c1 * f1 + c2 * f2 + ... + c8 * f8], summed from the left. *)
Definition blendColors (cs : list Color) (fs : list spec_float) : Color :=
  match zip_with Color_scale cs fs with
  | [] => mkColor F32.zero F32.zero F32.zero F32.zero
  | p :: ps => fold_left Color_add ps p
  end.

(** [LinearResampler::scale]. *)
Definition LinearResampler_scale (source dest : PixelData) : M unit :=
  let sourceElemSize := getNumElemBytes (mFormat source) in
  let destElemSize := getNumElemBytes (mFormat dest) in
  let sourceData := getData source in
  let destPtr := getData dest in
  let* stepX := lift (fixedStep (getWidth source) (getWidth dest)) in
  let* stepY := lift (fixedStep (getHeight source) (getHeight dest)) in
  let* stepZ := lift (fixedStep (getDepth source) (getDepth dest)) in
  loop (trip (mFront dest) (mBack dest))
    (fun '(curZ, destPtr) =>
       let '(z1, z2, fz) :=
         linearSample 16 curZ (u32 (getDepth source - 1)) in
       let* (_, destPtr) :=
         loop (trip (mTop dest) (mBottom dest))
           (fun '(curY, destPtr) =>
              let '(y1, y2, fy) :=
                linearSample 16 curY (u32 (getHeight source - 1)) in
              let* (_, destPtr) :=
                loop (trip (mLeft dest) (mRight dest))
                  (fun '(curX, destPtr) =>
                     let '(x1, x2, fx) :=
                       linearSample 16 curX (u32 (getWidth source - 1)) in
                     let* cs :=
                       mapM (fun c =>
                               unpackColor_Color (mFormat source)
                                 (ptr_add sourceData
                                    (u32 (sourceElemSize
                                          * elemIndex source c))))
                            (sampleCorners x1 x2 y1 y2 z1 z2) in
                     let accum :=
                       blendColors cs
                         (blendFactors (sampleWeight fx) (sampleWeight fy)
                                       (sampleWeight fz)) in
                     packColor_Color accum (mFormat dest) destPtr ;;;
                     ret (u64 (curX + stepX), ptr_add destPtr destElemSize))
                  (startCoord stepX, destPtr) in
              ret (u64 (curY + stepY),
                   ptr_add destPtr (u32 (destElemSize * getRowSkip dest))))
           (startCoord stepY, destPtr) in
       ret (u64 (curZ + stepZ),
            ptr_add destPtr (u32 (destElemSize * getSliceSkip dest))))
    (startCoord stepZ, destPtr) ;;;
  ret tt.

(** [ACCUM3] / [ACCUM4]: add [channels] source floats at element [c],
    each times [f], to the accumulators. *)
Definition accumulate (channels : nat) (source : PixelData)
    (numSourceChannels : Z) (acc : list spec_float)
    (cf : (Z * Z * Z) * spec_float) : M (list spec_float) :=
  let '(c, f) := cf in
  let offset := u32 (elemIndex source c * numSourceChannels) in
  let* vs := mapM (fun i => loadFloat (getData source) (u32 (offset + i)))
                  (map Z.of_nat (seq 0 channels)) in
  ret (zip_with (fun a v => F32.add a (F32.mul v f)) (take channels acc) vs
       ++ drop channels acc).

(** Thread an accumulator through a list of calls. *)
Fixpoint foldM {A B : Type} (f : A -> B -> M A) (a : A) (l : list B) : M A :=
  match l with
  | [] => ret a
  | b :: l' => let* a' := f a b in foldM f a' l'
  end.

(** [LinearResampler_Float32::scale]. *)
Definition LinearResampler_Float32_scale (source dest : PixelData)
  : M unit :=
  let numSourceChannels := getNumElemBytes (mFormat source) / 4 in
  let numDestChannels := getNumElemBytes (mFormat dest) / 4 in
  let destPtr := getData dest in
  let* stepX := lift (fixedStep (getWidth source) (getWidth dest)) in
  let* stepY := lift (fixedStep (getHeight source) (getHeight dest)) in
  let* stepZ := lift (fixedStep (getDepth source) (getDepth dest)) in
  loop (trip (mFront dest) (mBack dest))
    (fun '(curZ, destPtr) =>
       let '(z1, z2, fz) :=
         linearSample 16 curZ (u32 (getDepth source - 1)) in
       let* (_, destPtr) :=
         loop (trip (mTop dest) (mBottom dest))
           (fun '(curY, destPtr) =>
              let '(y1, y2, fy) :=
                linearSample 16 curY (u32 (getHeight source - 1)) in
              let* (_, destPtr) :=
                loop (trip (mLeft dest) (mRight dest))
                  (fun '(curX, destPtr) =>
                     let '(x1, x2, fx) :=
                       linearSample 16 curX (u32 (getWidth source - 1)) in
                     let zeros :=
                       [F32.zero; F32.zero; F32.zero; F32.zero] in
                     let samples :=
                       zip (sampleCorners x1 x2 y1 y2 z1 z2)
                           (blendFactors (sampleWeight fx) (sampleWeight fy)
                                         (sampleWeight fz)) in
                     let* accum :=
                       if (numSourceChannels =? 3) || (numDestChannels =? 3)
                       then
                         let* acc :=
                           foldM (accumulate 3 source numSourceChannels)
                                 zeros samples in
                         ret (take 3 acc ++ [F32.one])
                       else
                         foldM (accumulate 4 source numSourceChannels)
                               zeros samples in
                     store destPtr
                       (flat_map (fun v => le_bytes 4 (F32.bits_of v))
                                 (take (Z.to_nat numDestChannels) accum)) ;;;
                     ret (u64 (curX + stepX),
                          ptr_add destPtr (4 * numDestChannels)))
                  (startCoord stepX, destPtr) in
              ret (u64 (curY + stepY),
                   ptr_add destPtr
                     (4 * u32 (numDestChannels * getRowSkip dest))))
           (startCoord stepY, destPtr) in
       ret (u64 (curZ + stepZ),
            ptr_add destPtr (4 * u32 (numDestChannels * getSliceSkip dest))))
    (startCoord stepZ, destPtr) ;;;
  ret tt.

(** The 2^24-scaled weights of the byte kernel for the four neighbours
    (x1,y1), (x2,y1), (x1,y2), (x2,y2); arithmetic is [UINT32]. *)
Definition byteWeights (sampleWeightX sampleWeightY : Z) : Z * Z * Z * Z :=
  let sxfsyf := u32 (sampleWeightX * sampleWeightY) in
  (u32 (u32 (u32 (0x1000000 - u32 (Z.shiftl sampleWeightX 12))
             - u32 (Z.shiftl sampleWeightY 12)) + sxfsyf),
   u32 (u32 (Z.shiftl sampleWeightX 12) - sxfsyf),
   u32 (u32 (Z.shiftl sampleWeightY 12) - sxfsyf),
   sxfsyf).

(** The rounding back to a byte, [(UINT8)((accum + 0x800000) >> 24)]. *)
Definition roundToByte (accum : Z) : Z :=
  u8 (Z.shiftr (u32 (accum + 0x800000)) 24).

(** [LinearResampler_Byte<channels>::scale]. *)
Definition LinearResampler_Byte_scale (channels : Z)
    (source dest : PixelData) : M unit :=
  if (getDepth source >? 1) || (getDepth dest >? 1) then
    LinearResampler_scale source dest
  else
    let sourceData := getData source in
    let destPtr := getData dest in
    let* stepX := lift (fixedStep (getWidth source) (getWidth dest)) in
    let* stepY := lift (fixedStep (getHeight source) (getHeight dest)) in
    loop (trip (mTop dest) (mBottom dest))
      (fun '(curY, destPtr) =>
         let '(sampleCoordY1, sampleCoordY2, sampleWeightY) :=
           linearSample 12 curY
             (u32 (u32 (mBottom source - mTop source) - 1)) in
         let sampleY1Offset := u32 (sampleCoordY1 * mRowPitch source) in
         let sampleY2Offset := u32 (sampleCoordY2 * mRowPitch source) in
         let* (_, destPtr) :=
           loop (trip (mLeft dest) (mRight dest))
             (fun '(curX, destPtr) =>
                let '(sampleCoordX1, sampleCoordX2, sampleWeightX) :=
                  linearSample 12 curX
                    (u32 (u32 (mRight source - mLeft source) - 1)) in
                let '(w11, w21, w12, w22) :=
                  byteWeights sampleWeightX sampleWeightY in
                let* (_, destPtr) :=
                  loop (Z.to_nat channels)
                    (fun '(k, destPtr) =>
                       let at_ (x yoff : Z) : ptr :=
                         ptr_add sourceData
                           (u32 (u32 (u32 (x + yoff) * channels) + k)) in
                       let* s11 :=
                         loadU8 (at_ sampleCoordX1 sampleY1Offset) 0 in
                       let* s21 :=
                         loadU8 (at_ sampleCoordX2 sampleY1Offset) 0 in
                       let* s12 :=
                         loadU8 (at_ sampleCoordX1 sampleY2Offset) 0 in
                       let* s22 :=
                         loadU8 (at_ sampleCoordX2 sampleY2Offset) 0 in
                       let accum :=
                         u32 (u32 (u32 (u32 (s11 * w11) + u32 (s21 * w21))
                                   + u32 (s12 * w12)) + u32 (s22 * w22)) in
                       storeU8 destPtr 0 (roundToByte accum) ;;;
                       ret (k + 1, ptr_add destPtr 1))
                    (0, destPtr) in
                ret (u64 (curX + stepX), destPtr))
             (startCoord stepX, destPtr) in
         ret (u64 (curY + stepY),
              ptr_add destPtr (u32 (channels * getRowSkip dest))))
      (startCoord stepY, destPtr) ;;;
    ret tt.

(** ** [PixelUtil::scale] *)

Inductive Filter : Set := FILTER_NEAREST | FILTER_BILINEAR.

(** The destination the kernels write to: the scaled buffer itself when
    the formats agree, else a temporary of the destination's size in the
    source's format. *)
Definition scaleTarget (src scaled : PixelData) : M PixelData :=
  if bool_decide (mFormat src = mFormat scaled) then ret scaled
  else
    allocateInternalBuffer
      (PixelData_new (getWidth scaled) (getHeight scaled) (getDepth scaled)
                     (mFormat src)).

(** [if (temp.getData() != scaled.getData()) { blit; free }]. *)
Definition scaleFinish (temp scaled : PixelData) : M unit :=
  if bool_decide (getData temp = getData scaled) then ret tt
  else bulkPixelConversion temp scaled ;;; freeInternalBuffer temp.

Definition scale (src scaled : PixelData) (filter : Filter) : M unit :=
  assert (isAccessible (mFormat src)) ;;;
  assert (isAccessible (mFormat scaled)) ;;;
  match filter with
  | FILTER_NEAREST =>
      let* temp := scaleTarget src scaled in
      (match getNumElemBytes (mFormat src) with
       | 1 => NearestResampler_scale 1 src temp
       | 2 => NearestResampler_scale 2 src temp
       | 3 => NearestResampler_scale 3 src temp
       | 4 => NearestResampler_scale 4 src temp
       | 6 => NearestResampler_scale 6 src temp
       | 8 => NearestResampler_scale 8 src temp
       | 12 => NearestResampler_scale 12 src temp
       | 16 => NearestResampler_scale 16 src temp
       | _ => assert false
       end) ;;;
      scaleFinish temp scaled
  | FILTER_BILINEAR =>
      match mFormat src with
      | PF_R8G8
      | PF_R8G8B8 | PF_B8G8R8
      | PF_R8G8B8A8 | PF_B8G8R8A8
      | PF_A8B8G8R8 | PF_A8R8G8B8
      | PF_X8B8G8R8 | PF_X8R8G8B8 =>
          let* temp := scaleTarget src scaled in
          (match getNumElemBytes (mFormat src) with
           | 1 => LinearResampler_Byte_scale 1 src temp
           | 2 => LinearResampler_Byte_scale 2 src temp
           | 3 => LinearResampler_Byte_scale 3 src temp
           | 4 => LinearResampler_Byte_scale 4 src temp
           | _ => assert false
           end) ;;;
          scaleFinish temp scaled
      | PF_FLOAT32_RGB | PF_FLOAT32_RGBA =>
          if bool_decide (mFormat scaled = PF_FLOAT32_RGB)
             || bool_decide (mFormat scaled = PF_FLOAT32_RGBA)
          then LinearResampler_Float32_scale src scaled
          else LinearResampler_scale src scaled
      | _ => LinearResampler_scale src scaled
      end
  end.

(** ** [PixelUtil::applyGamma] *)

(** One pixel: scale R, G and B by [gamma] and clip them by a shared
    factor. *)
Definition gammaPixel (gamma : spec_float) (r0 g0 b0 : Z)
  : spec_float * spec_float * spec_float :=
  let f255 := F32.of_Z 255 in
  let r := F32.mul (F32.of_Z r0) gamma in
  let g := F32.mul (F32.of_Z g0) gamma in
  let b := F32.mul (F32.of_Z b0) gamma in
  let clip (c scale : spec_float) : spec_float :=
    if F32.gtb c f255 && F32.ltb (F32.div f255 c) scale
    then F32.div f255 c else scale in
  let scale := clip b (clip g (clip r F32.one)) in
  (F32.mul r scale, F32.mul g scale, F32.mul b scale).

(** [applyGamma(buffer, gamma, size, bpp)].  The conversion [(UINT8)r] is
    defined when the truncated value fits a byte. *)
Definition applyGamma (buffer : ptr) (gamma : spec_float) (size bpp : Z)
  : M unit :=
  if F32.eqb gamma F32.one then ret tt
  else
    let stride := Z.shiftr bpp 3 in
    let* j := lift (udiv size stride) in
    loop (Z.to_nat j)
      (fun buffer =>
         let* r0 := loadU8 buffer 0 in
         let* g0 := loadU8 buffer 1 in
         let* b0 := loadU8 buffer 2 in
         let '(r, g, b) := gammaPixel gamma r0 g0 b0 in
         let* r8 := lift (F32.to_unsigned 8 r) in
         storeU8 buffer 0 r8 ;;;
         let* g8 := lift (F32.to_unsigned 8 g) in
         storeU8 buffer 1 g8 ;;;
         let* b8 := lift (F32.to_unsigned 8 b) in
         storeU8 buffer 2 b8 ;;;
         ret (ptr_add buffer stride))
      buffer ;;;
    ret tt.

(** ** [PixelUtil::getMaxMipmaps] *)

(** One turn of the [do ... while] loop: halve every extent above 1, count,
    and stop when the three extents are 1.  [fuel] bounds the number of
    turns. *)
Fixpoint getMaxMipmaps_loop (fuel : nat) (width height depth count : Z)
  : option Z :=
  match fuel with
  | O => None
  | S fuel' =>
      let width := if width >? 1 then width / 2 else width in
      let height := if height >? 1 then height / 2 else height in
      let depth := if depth >? 1 then depth / 2 else depth in
      let count := u32 (count + 1) in
      if negb ((width =? 1) && (height =? 1) && (depth =? 1))
      then getMaxMipmaps_loop fuel' width height depth count
      else Some count
  end.

Definition getMaxMipmaps (fuel : nat) (width height depth : Z)
    (format : PixelFormat) : option Z :=
  if (width >? 0) && (height >? 0)
  then getMaxMipmaps_loop fuel width height depth 0
  else Some 0.

(** ** Vocabulary of the statements *)

(** The mask that a channel of [bits] bits at position [shift] occupies. *)
Definition channelMask (bits shift : Z) : Z :=
  Z.shiftl (Z.shiftl 1 bits - 1) shift.

(** A float component of a colour that lies in [0,1]. *)
Definition in_unit (v : spec_float) : Prop :=
  F32.valid v = true /\
  F32.leb F32.zero v = true /\ F32.leb v F32.one = true.

(** [n] bytes can be written (and read) at [p]. *)
Definition writable (s : state) (p : ptr) (n : Z) : Prop :=
  exists b l, pblock p = Some b /\ heap s !! b = Some l /\
              0 <= poff p /\ poff p + n <= Z.of_nat (length l).

(** The quantization step of a channel of [bits] bits, [1 / (2^bits - 1)]. *)
Definition quantum (bits : Z) : Q := (1 / inject_Z (2 ^ bits - 1))%Q.

(** The channel [x] is reproduced as [x'] within the quantization step of
    its width. *)
Definition within_quantum (bits : Z) (x x' : spec_float) : Prop :=
  (Qabs (F32.to_Q x' - F32.to_Q x) <= quantum bits)%Q.

(** All byte values. *)
Definition all_bytes : list Z := map Z.of_nat (seq 0 256).

(** The channel [x] comes back as [x'] from a half float: no larger than
    it went in, and less than [2^-11] below. *)
Definition within_half (x x' : spec_float) : Prop :=
  (F32.to_Q x' <= F32.to_Q x)%Q /\ (F32.to_Q x - F32.to_Q x' < 1 # 2048)%Q.

(** A channel of width [bits] is reproduced as [x']: within the
    quantization step when it is stored as an 8-bit fraction or as a
    32-bit float, exactly in the latter case, and to the precision of a
    half float when it is stored as one. *)
Definition reproduced (bits : Z) (x x' : spec_float) : Prop :=
  (bits = 8 \/ bits = 32 -> within_quantum bits x x') /\
  (bits = 32 -> x' = x) /\
  (bits = 16 -> within_half x x').

(** The value of the half float with the pattern [h], for the patterns of
    the numbers from 0 to 1: [h / 2^24] below the least normal one, then
    [(1024 + mantissa) / 2^(25 - exponent)]. *)
Definition halfValue (h : Z) : Q :=
  if h <? 1024 then h # 16777216
  else (1024 + h mod 1024) # Z.to_pos (2 ^ (25 - h / 1024)).

(** The half-float patterns from 0 to that of 1.0. *)
Definition half_patterns : list Z :=
  map Z.of_nat (seq 0 (Z.to_nat 15361)).

(** Every channel the format stores is 8 bits wide. *)
Definition eight_bit_channels (f : PixelFormat) : Prop :=
  let d := getDescriptionFor f in
  (rbits d = 8 \/ rbits d = 0) /\ (gbits d = 8 \/ gbits d = 0) /\
  (bbits d = 8 \/ bbits d = 0) /\ (abits d = 8 \/ abits d = 0).

Definition is_byte (x : Z) : Prop := 0 <= x < 256.

(** A state with one allocation of sixteen zero bytes, and the pointer to
    its start, for the concrete instances below. *)
Definition one_block : state := mkState (<[0%nat := replicate 16 0]> ∅) [].
Definition block_start : ptr := mkPtr (Some 0%nat) 0.

(** The floats 0.5f and 0.7f (the binary32 nearest to 0.7). *)
Definition f_half : spec_float := F32.of_bits 0x3F000000.
Definition f_0_7 : spec_float := F32.of_bits 0x3F333333.

(** [n] bytes can be read at [p], and the block they lie in holds bytes. *)
Definition holds_bytes (s : state) (p : ptr) (n : Z) : Prop :=
  exists b l, pblock p = Some b /\ heap s !! b = Some l /\
              Forall is_byte l /\
              0 <= poff p /\ poff p + n <= Z.of_nat (length l).

(** A call that leaves every allocation as it found it. *)
Definition heap_stable {A} (c : M A) : Prop :=
  forall s, heap (snd (c s)) = heap s.

(** A state with an eight-byte and a sixteen-byte allocation, and buffers
    over them, for the concrete instances below. *)
Definition two_blocks : state :=
  mkState (<[1%nat := replicate 16 0]>
             (<[0%nat := [10; 20; 30; 40; 50; 60; 70; 80]]> ∅)) [].
Definition buffer_at (b : nat) (w h d : Z) (f : PixelFormat) : PixelData :=
  setExternalBuffer (PixelData_new w h d f) (mkPtr (Some b) 0).

(** The destination pointer of a pair of walking pointers is null. *)
Definition null_dst (x : ptr * ptr) : Prop := pblock (snd x) = None.

(** The second pixel of a row of two, as a region of its own. *)
Definition second_pixel (f : PixelFormat) : PixelData :=
  mkPixelData 1 0 2 1 0 1 2 2 f (Some 0%nat).

(** A call that takes every state to one related to it by [R], whatever
    its outcome. *)
Definition keeps (R : state -> state -> Prop) {A} (c : M A) : Prop :=
  forall s, R s (snd (c s)).

(** The reads attempted between two states all satisfy [P]. *)
Definition reads_more (P : access -> Prop) (s s' : state) : Prop :=
  exists new, reads s' = reads s ++ new /\ Forall P new.

(** A call all of whose reads satisfy [P]. *)
Definition reads_only (P : access -> Prop) {A} (c : M A) : Prop :=
  keeps (reads_more P) c.

(** The size of a pixel of a buffer. *)
Definition elemSize (p : PixelData) : Z := getNumElemBytes (mFormat p).

(** The byte offset of the pixel [(x, y, z)] of a buffer in its memory,
    and the number of pixels from the first to the last one. *)
Definition pixelStart (p : PixelData) (x y z : Z) : Z :=
  elemSize p * (x + y * mRowPitch p + z * mSlicePitch p).

Definition pixelSpan (p : PixelData) : Z :=
  (getWidth p - 1) + (getHeight p - 1) * mRowPitch p
  + (getDepth p - 1) * mSlicePitch p + 1.

Definition in_extent (p : PixelData) (x y z : Z) : Prop :=
  0 <= x < getWidth p /\ 0 <= y < getHeight p /\ 0 <= z < getDepth p.

(** A read of exactly one pixel of the source, and a read inside one. *)
Definition whole_pixel (source : PixelData) (a : access) : Prop :=
  mData source = Some (acc_block a) /\ acc_len a = elemSize source /\
  exists x y z, in_extent source x y z /\
                acc_off a = pixelStart source x y z.

Definition within_pixel (source : PixelData) (a : access) : Prop :=
  mData source = Some (acc_block a) /\ 1 <= acc_len a /\
  exists x y z, in_extent source x y z /\
                pixelStart source x y z <= acc_off a /\
                acc_off a + acc_len a
                <= pixelStart source x y z + elemSize source.

(** A source that can be sampled: it has at least one pixel along each
    axis, and the byte offsets of its pixels fit 32 bits. *)
Definition samplable (source : PixelData) : Prop :=
  1 <= elemSize source /\
  1 <= getWidth source /\ 1 <= getHeight source /\ 1 <= getDepth source /\
  0 <= mRowPitch source /\ 0 <= mSlicePitch source /\
  elemSize source * pixelSpan source <= 2 ^ 32.

(** Bounds that are 32-bit values. *)
Definition bounded_region (dest : PixelData) : Prop :=
  mRight dest - mLeft dest < 2 ^ 32 /\
  mBottom dest - mTop dest < 2 ^ 32 /\
  mBack dest - mFront dest < 2 ^ 32.

(** The byte at index [i] of the allocation [b], when there is one. *)
Definition byte_at (s : state) (b : nat) (i : Z) : option Z :=
  match heap s !! b with
  | Some l => l !! Z.to_nat i
  | None => None
  end.

(** Two states that hold the same bytes everywhere but, possibly, at the
    indices [W] of the allocations. *)
Definition same_outside (W : nat -> Z -> Prop) (s s' : state) : Prop :=
  forall b i, 0 <= i -> ~ W b i -> byte_at s' b i = byte_at s b i.

(** The bytes [applyGamma] may write: the first three of each of the [j]
    groups of [stride] bytes that start at [buffer]. *)
Definition gamma_written (buffer : ptr) (stride j : Z) (b : nat) (i : Z)
  : Prop :=
  pblock buffer = Some b /\
  exists g c, 0 <= g < j /\ 0 <= c < 3 /\ i = poff buffer + g * stride + c.

(** An allocation of five bytes, and one of two four-byte pixels. *)
Definition five_bytes : state :=
  mkState (<[0%nat := [10; 10; 10; 10; 10]]> ∅) [].
Definition two_pixels : state :=
  mkState (<[0%nat := [100; 200; 50; 7; 255; 255; 255; 9]]> ∅) [].

(** Two float pixels, 0.0f and 1.0f, and room for two more. *)
Definition float_pair : state :=
  mkState (<[1%nat := replicate 8 0]>
             (<[0%nat := [0; 0; 0; 0; 0; 0; 128; 63]]> ∅)) [].

(** A call that returns from every state satisfying [P], in a state
    satisfying [Q]. *)
Definition triple (P : state -> Prop) {A} (c : M A)
    (Q : A -> state -> Prop) : Prop :=
  forall s, P s -> exists a s', c s = (Ret a, s') /\ Q a s'.

(** The order in which the kernels visit the pixels of a buffer. *)
Definition rank (p : PixelData) (x y z : Z) : Z :=
  x + getWidth p * (y + getHeight p * z).

(** A buffer that starts at the origin of the allocation [b], whose
    contents are [l]: extents of at least one pixel that fit the 16 integer
    bits of the kernels' fixed-point positions, rows within the row pitch,
    slices within the slice pitch, and all its slices within the
    allocation and within 32-bit offsets. *)
Definition laid_out (p : PixelData) (b : nat) (l : list Z) : Prop :=
  mLeft p = 0 /\ mTop p = 0 /\ mFront p = 0 /\
  1 <= mRight p < 2 ^ 16 /\ 1 <= mBottom p < 2 ^ 16 /\
  1 <= mBack p < 2 ^ 16 /\
  mRight p <= mRowPitch p /\ mBottom p * mRowPitch p <= mSlicePitch p /\
  1 <= elemSize p /\
  elemSize p * (mBack p * mSlicePitch p) <= Z.of_nat (length l) /\
  elemSize p * (mBack p * mSlicePitch p) < 2 ^ 32 /\
  mData p = Some b.

(** A buffer that starts at the origin of the allocation [b], whose
    contents are [l], whatever its extents: as [laid_out], without the
    bound of the kernels' fixed-point positions. *)
Definition placed (p : PixelData) (b : nat) (l : list Z) : Prop :=
  mLeft p = 0 /\ mTop p = 0 /\ mFront p = 0 /\
  1 <= mRight p < 2 ^ 32 /\ 1 <= mBottom p < 2 ^ 32 /\
  1 <= mBack p < 2 ^ 32 /\
  mRight p <= mRowPitch p /\ mBottom p * mRowPitch p <= mSlicePitch p /\
  1 <= elemSize p /\
  elemSize p * (mBack p * mSlicePitch p) <= Z.of_nat (length l) /\
  elemSize p * (mBack p * mSlicePitch p) < 2 ^ 32 /\
  mData p = Some b.

(** The destination while a kernel fills it from the source: the source
    allocation [bs] still holds [ls], and the first [n] bytes of the
    destination's pixels, in the order of the visit, hold the bytes of the
    source's pixels at the same coordinates. *)
Definition copied (src dst : PixelData) (bs bd : nat) (ls ld : list Z)
    (n : Z) (s : state) : Prop :=
  heap s !! bs = Some ls /\
  exists ld',
    heap s !! bd = Some ld' /\ length ld' = length ld /\
    forall x y z c,
      in_extent dst x y z -> 0 <= c < elemSize dst ->
      elemSize dst * rank dst x y z + c < n ->
      ld' !! Z.to_nat (pixelStart dst x y z + c)
      = ls !! Z.to_nat (pixelStart src x y z + c).

(** The formats [scale] gives to the byte kernel. *)
Definition byteKernelFormat (f : PixelFormat) : bool :=
  match f with
  | PF_R8G8
  | PF_R8G8B8 | PF_B8G8R8
  | PF_R8G8B8A8 | PF_B8G8R8A8
  | PF_A8B8G8R8 | PF_A8R8G8B8
  | PF_X8B8G8R8 | PF_X8R8G8B8 => true
  | _ => false
  end.

(** The width in bits of one component of each type. *)
Definition componentBits (t : PixelComponentType) : Z :=
  match t with
  | PCT_BYTE => 8
  | PCT_SHORT => 16
  | PCT_FLOAT16 => 16
  | PCT_FLOAT32 => 32
  end.

(** The four formats whose fourth byte is padding. *)
Definition isPadded (f : PixelFormat) : bool :=
  match f with
  | PF_X8R8G8B8 | PF_X8B8G8R8 | PF_R8G8B8X8 | PF_B8G8R8X8 => true
  | _ => false
  end.

(** The number of channels of non-zero width. *)
Definition channelsPresent (depths : Z * Z * Z * Z) : Z :=
  let '(r, g, b, a) := depths in
  Z.b2z (0 <? r) + Z.b2z (0 <? g) + Z.b2z (0 <? b) + Z.b2z (0 <? a).

(** No two of four bit masks share a bit. *)
Definition disjoint_masks (masks : Z * Z * Z * Z) : Prop :=
  let '(r, g, b, a) := masks in
  Z.land r g = 0 /\ Z.land r b = 0 /\ Z.land r a = 0 /\
  Z.land g b = 0 /\ Z.land g a = 0 /\ Z.land b a = 0.

(** A call that raises an exception from the state [s]. *)
Definition raises {A} (c : M A) (s : state) : Prop :=
  exists e, fst (c s) = Throw e.

(** Two states with the same allocations, each of the same size. *)
Definition same_sizes (s s' : state) : Prop :=
  forall b, length <$> heap s' !! b = length <$> heap s !! b.

(** The indices of the [n] bytes at [p]. *)
Definition bytes_at (p : ptr) (n : Z) (b : nat) (i : Z) : Prop :=
  pblock p = Some b /\ poff p <= i < poff p + n.

(** A run that ends without a result, by undefined behaviour or by
    [NotImplementedException], with the allocations as they are in [s]. *)
Definition fails_from {A} (s : state) (r : outcome A * state) : Prop :=
  heap (snd r) = heap s /\
  (fst r = Abort \/ fst r = Throw NotImplementedException).

(** A region with at least one pixel along each axis, and 32-bit
    extents. *)
Definition nonempty_region (p : PixelData) : Prop :=
  0 < mRight p - mLeft p < 2 ^ 32 /\
  0 < mBottom p - mTop p < 2 ^ 32 /\
  0 < mBack p - mFront p < 2 ^ 32.

(** Two states that differ at most in the contents of the allocation [d]:
    the same allocations of the same sizes, and the same bytes in every
    other one. *)
Definition only_block (d : option nat) (s s' : state) : Prop :=
  same_sizes s s' /\ forall b, d <> Some b -> heap s' !! b = heap s !! b.

(** A call that changes at most the allocation [d] and, when it returns,
    returns a pointer into [d] as the second component of its result. *)
Definition walks (d : option nat) {U} (c : M (U * ptr)) : Prop :=
  keeps (only_block d) c /\
  forall s y s', c s = (Ret y, s') -> pblock (snd y) = d.

(** Every allocation of [s] is still there in [s'], with its size, and
    with its bytes unless it is the allocation [d]. *)
Definition survives (d : option nat) (s s' : state) : Prop :=
  forall b l,
    heap s !! b = Some l ->
    exists l', heap s' !! b = Some l' /\ length l' = length l /\
               (d <> Some b -> l' = l).

(** The source coordinate the nearest kernel takes for the destination
    coordinate [x] along an axis whose step is [step]. *)
Definition nearestSource (step : Z) (x : Z) : Z :=
  nearestCoord (coordAt step (Z.to_nat x)).

(** The destination while a kernel fills it from the source, pixel
    [(x, y, z)] from the source pixel [(fx x, fy y, fz z)]: the source
    allocation [bs] still holds [ls], and the first [n] bytes of the
    destination's pixels, in the order of the visit, hold the bytes of
    those source pixels. *)
Definition sampled (src dst : PixelData) (bs bd : nat) (ls ld : list Z)
    (fx fy fz : Z -> Z) (n : Z) (s : state) : Prop :=
  heap s !! bs = Some ls /\
  exists ld',
    heap s !! bd = Some ld' /\ length ld' = length ld /\
    forall x y z c,
      in_extent dst x y z -> 0 <= c < elemSize dst ->
      elemSize dst * rank dst x y z + c < n ->
      ld' !! Z.to_nat (pixelStart dst x y z + c)
      = ls !! Z.to_nat (pixelStart src (fx x) (fy y) (fz z) + c).

(** An image of one colour: every pixel of the buffer holds the bytes of
    its first pixel. *)
Definition flat (src : PixelData) (ls : list Z) : Prop :=
  forall x y z c,
    in_extent src x y z -> 0 <= c < elemSize src ->
    ls !! Z.to_nat (pixelStart src x y z + c) = ls !! Z.to_nat c.

(** A flat image of two by two pixels, and room for three by three. *)
Definition flat_blocks : state :=
  mkState (<[1%nat := replicate 18 0]>
             (<[0%nat := [10; 20; 10; 20; 10; 20; 10; 20]]> ∅)) [].

(** A source without a pixel along its width, and a destination of one
    pixel. *)
Definition zero_width : PixelData := buffer_at 0 0 1 1 PF_R8.
Definition one_pixel : PixelData := buffer_at 1 1 1 1 PF_R8.


(** A non-negative number of the format: a zero, or a positive float in
    canonical form. *)
Definition nonneg_finite (x : spec_float) : Prop :=
  match x with
  | S754_zero _ => True
  | S754_finite false m e => bounded 24 128 m e = true
  | _ => False
  end.

(** The value of a non-negative float in units of [2^-149], the least
    positive float. *)
Definition sval (x : spec_float) : Z :=
  match x with
  | S754_finite false m e => Zpos m * 2 ^ (e + 149)
  | _ => 0
  end.

(** A gamma whose products with a byte stay finite: a number from 0 to
    [2^120], the largest power of two that 255 can be multiplied by. *)
Definition gamma_range (gamma : spec_float) : Prop :=
  F32.valid gamma = true /\ F32.leb F32.zero gamma = true /\
  F32.leb gamma (F32.of_Z (2 ^ 120)) = true.

(* ===================================================================== *)
(** * Part II: properties                                                 *)
(* ===================================================================== *)

(** ** Machine arithmetic *)

Lemma u32_mul_l (a b : Z) : u32 (u32 a * b) = u32 (a * b).
Proof. unfold u32. apply Z.mul_mod_idemp_l. lia. Qed.

Lemma u32_small (a : Z) : 0 <= a < 2 ^ 32 -> u32 a = a.
Proof. intros H. unfold u32. apply Z.mod_small. exact H. Qed.

Lemma u32_range (a : Z) : 0 <= u32 a < 2 ^ 32.
Proof. unfold u32. apply Z.mod_pos_bound. lia. Qed.

(** ** The catalog *)

Lemma ord_in_range (f : PixelFormat) : (ord f < PF_COUNT)%nat.
Proof. destruct f; vm_compute; lia. Qed.

Lemma table_length : length _pixelFormats = PF_COUNT.
Proof. reflexivity. Qed.

Lemma all_formats_complete (f : PixelFormat) : In f all_formats.
Proof. destruct f; simpl; tauto. Qed.

(** C3 (as amended).  For every format of the catalog that carries the
    native-endian flag, the red, green and blue masks are [bits] ones
    shifted left by the channel's shift, and so is the alpha mask whenever
    the alpha width is not zero; every compressed or depth format carries
    zero masks and zero shifts on all four channels.  (The four X8 formats
    keep a mask on their padding byte although their alpha width is zero.) *)
Theorem catalog_masks_consistent (f : PixelFormat) :
  let d := getDescriptionFor f in
  (isNativeEndian f = true ->
     rmask d = channelMask (rbits d) (rshift d) /\
     gmask d = channelMask (gbits d) (gshift d) /\
     bmask d = channelMask (bbits d) (bshift d) /\
     (abits d <> 0 -> amask d = channelMask (abits d) (ashift d))) /\
  (isCompressed f = true \/ isDepth f = true ->
     (rmask d, gmask d, bmask d, amask d) = (0, 0, 0, 0) /\
     (rshift d, gshift d, bshift d, ashift d) = (0, 0, 0, 0)).
Proof.
  destruct f; vm_compute; split; intros H;
    repeat match goal with
           | |- _ /\ _ => split
           | |- _ -> _ => intro
           | H : _ \/ _ |- _ => destruct H
           end;
    congruence.
Qed.

Lemma catalog_masks_consistent_witness :
  (let d := getDescriptionFor PF_A8R8G8B8 in
   rmask d = channelMask (rbits d) (rshift d) /\
   gmask d = channelMask (gbits d) (gshift d) /\
   bmask d = channelMask (bbits d) (bshift d) /\
   (abits d <> 0 -> amask d = channelMask (abits d) (ashift d))) /\
  (let d := getDescriptionFor PF_DXT1 in
   (rmask d, gmask d, bmask d, amask d) = (0, 0, 0, 0) /\
   (rshift d, gshift d, bshift d, ashift d) = (0, 0, 0, 0)).
Proof.
  split.
  - apply (proj1 (catalog_masks_consistent PF_A8R8G8B8)). reflexivity.
  - apply (proj2 (catalog_masks_consistent PF_DXT1)). left. reflexivity.
Defined.

(** C3 as stated fails: [PF_X8R8G8B8] is native-endian, its alpha width is
    zero, and its alpha mask is [0xFF]. *)
Lemma catalog_masks_counterexample :
  ~ (forall f : PixelFormat,
       isNativeEndian f = true ->
       amask (getDescriptionFor f)
       = channelMask (abits (getDescriptionFor f))
                     (ashift (getDescriptionFor f))).
Proof.
  intros H. specialize (H PF_X8R8G8B8 eq_refl). vm_compute in H. discriminate H.
Qed.

(** C4 (as amended).  [isAccessible] holds exactly of the formats other
    than [PF_UNKNOWN] that carry neither the compressed nor the depth
    flag. *)
Theorem isAccessible_iff (f : PixelFormat) :
  isAccessible f = true <->
  f <> PF_UNKNOWN /\ isCompressed f = false /\ isDepth f = false.
Proof.
  destruct f; vm_compute; split; intros H;
    repeat match goal with
           | H : _ /\ _ |- _ => destruct H
           | |- _ /\ _ => split
           end;
    congruence.
Qed.

(** C4 as stated fails at [PF_UNKNOWN]: no flag is set and the format is
    not accessible. *)
Lemma isAccessible_counterexample :
  ~ (forall f : PixelFormat,
       isAccessible f = true <->
       isCompressed f = false /\ isDepth f = false).
Proof.
  intros H. destruct (H PF_UNKNOWN) as [_ H2].
  specialize (H2 (conj eq_refl eq_refl)). discriminate H2.
Qed.

(** The five block-compressed formats. *)
Lemma isCompressed_iff (f : PixelFormat) :
  isCompressed f = true <->
  f = PF_DXT1 \/ f = PF_DXT2 \/ f = PF_DXT3 \/ f = PF_DXT4 \/ f = PF_DXT5.
Proof.
  destruct f; vm_compute; split; intros H;
    repeat match goal with H : _ \/ _ |- _ => destruct H end;
    try discriminate; tauto.
Qed.

(** C7 (as amended).  In [UINT32] arithmetic, [getMemorySize(w, h, 1, f)]
    of an uncompressed format with [N]-byte elements is [w * h * N] reduced
    modulo [2^32], hence [w * h * N] itself whenever that product fits 32
    bits; [PF_DXT1] takes 8 bytes per 4x4 block, the block counts rounded
    up (8 bytes for 4x4, 32 for 5x5), and the other four compressed formats
    take 16 bytes per block. *)
Theorem getMemorySize_single_slice (w h : Z) (f : PixelFormat) :
  0 <= w < 2 ^ 32 -> 0 <= h < 2 ^ 32 ->
  (isCompressed f = false ->
     getMemorySize w h 1 f = Ret (u32 (w * h * getNumElemBytes f)) /\
     (w * h * getNumElemBytes f < 2 ^ 32 ->
      getMemorySize w h 1 f = Ret (w * h * getNumElemBytes f))) /\
  getMemorySize w h 1 PF_DXT1
    = Ret (u32 (u32 (w + 3) / 4 * (u32 (h + 3) / 4) * 8)) /\
  getMemorySize 4 4 1 PF_DXT1 = Ret 8 /\
  getMemorySize 5 5 1 PF_DXT1 = Ret 32 /\
  (f = PF_DXT2 \/ f = PF_DXT3 \/ f = PF_DXT4 \/ f = PF_DXT5 ->
     getMemorySize w h 1 f
       = Ret (u32 (u32 (w + 3) / 4 * (u32 (h + 3) / 4) * 16))).
Proof.
  intros Hw Hh.
  assert (Hblocks : forall k,
            u32 (u32 (u32 (u32 (w + 3) / 4 * (u32 (h + 3) / 4)) * k) * 1)
            = u32 (u32 (w + 3) / 4 * (u32 (h + 3) / 4) * k)).
  { intros k. rewrite Z.mul_1_r.
    rewrite (u32_small (u32 _)) by apply u32_range.
    apply u32_mul_l. }
  assert (Hplain : isCompressed f = false ->
            getMemorySize w h 1 f = Ret (u32 (w * h * getNumElemBytes f))).
  { intros Hc. unfold getMemorySize. rewrite Hc.
    rewrite Z.mul_1_r. rewrite (u32_small (u32 _)) by apply u32_range.
    rewrite u32_mul_l. reflexivity. }
  split; [|split; [|split; [|split]]].
  - intros Hc. split; [exact (Hplain Hc)|].
    intros Hfit. rewrite (Hplain Hc). f_equal. apply u32_small.
    split; [|exact Hfit].
    assert (0 <= getNumElemBytes f) by (destruct f; vm_compute; discriminate).
    nia.
  - unfold getMemorySize. change (isCompressed PF_DXT1) with true.
    cbv iota. f_equal. apply Hblocks.
  - reflexivity.
  - reflexivity.
  - intros [-> | [-> | [-> | ->]]]; unfold getMemorySize;
      match goal with |- context [isCompressed ?f] =>
        change (isCompressed f) with true end;
      cbv iota; f_equal; apply Hblocks.
Qed.

Lemma getMemorySize_single_slice_witness :
  getMemorySize 640 480 1 PF_A8R8G8B8 = Ret 1228800 /\
  getMemorySize 8 8 1 PF_DXT5 = Ret 64.
Proof.
  assert (Hw : 0 <= 640 < 2 ^ 32) by lia.
  assert (Hh : 0 <= 480 < 2 ^ 32) by lia.
  assert (H8 : 0 <= 8 < 2 ^ 32) by lia.
  split.
  - apply (proj1 (getMemorySize_single_slice 640 480 PF_A8R8G8B8 Hw Hh)).
    + reflexivity.
    + vm_compute. reflexivity.
  - apply (proj2 (proj2 (proj2 (proj2
             (getMemorySize_single_slice 8 8 PF_DXT5 H8 H8))))).
    right. right. right. reflexivity.
Defined.

(** C7 as stated fails where the product leaves 32 bits: a 65536 x 65536
    buffer of 4-byte pixels has memory size 0. *)
Lemma getMemorySize_counterexample :
  getMemorySize 65536 65536 1 PF_A8R8G8B8
  <> Ret (65536 * 65536 * getNumElemBytes PF_A8R8G8B8).
Proof. vm_compute. discriminate. Qed.

(** ** binary32: scaling by a power of two is exact *)

(** Name the powers of two of the goal and the context, so that linear
    arithmetic sees them as unknowns. *)
Ltac name_pows :=
  repeat match goal with
         | |- context [Z.pow ?a ?b] =>
             let x := fresh "pw" in
             let E := fresh "Epw" in
             remember (Z.pow a b) as x eqn:E; clear E
         | H : context [Z.pow ?a ?b] |- _ =>
             let x := fresh "pw" in
             let E := fresh "Epw" in
             remember (Z.pow a b) as x eqn:E; clear E
         end.


Lemma digits2_pos_spec (m : positive) :
  2 ^ (Zpos (digits2_pos m) - 1) <= Zpos m < 2 ^ Zpos (digits2_pos m).
Proof.
  induction m as [m IH | m IH |]; cbn [digits2_pos].
  - rewrite Pos2Z.inj_succ. change (Zpos m~1) with (2 * Zpos m + 1).
    replace (Z.succ (Zpos (digits2_pos m)) - 1)
      with (Z.succ (Zpos (digits2_pos m) - 1)) by lia.
    rewrite !Z.pow_succ_r by lia.
    remember (2 ^ (Zpos (digits2_pos m) - 1)) as a eqn:Ea.
    remember (2 ^ Zpos (digits2_pos m)) as b eqn:Eb. clear Ea Eb. lia.
  - rewrite Pos2Z.inj_succ. change (Zpos m~0) with (2 * Zpos m).
    replace (Z.succ (Zpos (digits2_pos m)) - 1)
      with (Z.succ (Zpos (digits2_pos m) - 1)) by lia.
    rewrite !Z.pow_succ_r by lia.
    remember (2 ^ (Zpos (digits2_pos m) - 1)) as a eqn:Ea.
    remember (2 ^ Zpos (digits2_pos m)) as b eqn:Eb. clear Ea Eb. lia.
  - simpl. lia.
Qed.

Lemma digits2_pos_unique (m : positive) (d : Z) :
  2 ^ (d - 1) <= Zpos m < 2 ^ d -> Zpos (digits2_pos m) = d.
Proof.
  intros [Hlo Hhi]. pose proof (digits2_pos_spec m) as [Hlo' Hhi'].
  assert (Hd : 0 < d).
  { destruct (Z.lt_ge_cases 0 d) as [|Hle]; [assumption|].
    exfalso. destruct (Z.eq_dec d 0) as [->|Hne].
    - simpl in Hhi. lia.
    - rewrite Z.pow_neg_r in Hhi by lia. lia. }
  destruct (Z.lt_trichotomy (Zpos (digits2_pos m)) d) as [Hlt | [Heq | Hgt]].
  - exfalso.
    assert (2 ^ Zpos (digits2_pos m) <= 2 ^ (d - 1))
      by (apply Z.pow_le_mono_r; lia).
    lia.
  - exact Heq.
  - exfalso.
    assert (2 ^ d <= 2 ^ (Zpos (digits2_pos m) - 1))
      by (apply Z.pow_le_mono_r; lia).
    lia.
Qed.

Lemma iter_pos_nat {A} (f : A -> A) (p : positive) (x : A) :
  SpecFloat.iter_pos f p x = @Nat.iter (Pos.to_nat p) A f x.
Proof.
  revert x. induction p as [p IH | p IH |]; intros x;
    cbn [SpecFloat.iter_pos].
  - rewrite !IH, Pos2Nat.inj_xI.
    replace (S (2 * Pos.to_nat p))%nat
      with (Pos.to_nat p + (Pos.to_nat p + 1))%nat by lia.
    rewrite !Nat.iter_add. reflexivity.
  - rewrite !IH, Pos2Nat.inj_xO.
    replace (2 * Pos.to_nat p)%nat
      with (Pos.to_nat p + Pos.to_nat p)%nat by lia.
    rewrite Nat.iter_add. reflexivity.
  - reflexivity.
Qed.

Lemma shr_1_even (k : Z) :
  0 <= k ->
  shr_1 (Build_shr_record (2 * k) false false) = Build_shr_record k false false.
Proof. intros Hk. destruct k as [|k|k]; [reflexivity|reflexivity|lia]. Qed.

Lemma iter_shr_1_exact (n : nat) (k : Z) :
  0 <= k ->
  @Nat.iter n shr_record shr_1
    (Build_shr_record (k * 2 ^ Z.of_nat n) false false)
  = Build_shr_record k false false.
Proof.
  intros Hk. revert k Hk. induction n as [|n IH]; intros k Hk.
  - simpl. rewrite Z.mul_1_r. reflexivity.
  - rewrite Nat.iter_succ_r.
    replace (k * 2 ^ Z.of_nat (S n)) with (2 * (k * 2 ^ Z.of_nat n))
      by (rewrite Nat2Z.inj_succ, Z.pow_succ_r by lia; ring).
    rewrite shr_1_even by (apply Z.mul_nonneg_nonneg; lia).
    apply IH. exact Hk.
Qed.

Lemma shr_exact (k e n : Z) :
  0 <= k -> 0 <= n ->
  shr (Build_shr_record (k * 2 ^ n) false false) e n
  = (Build_shr_record k false false, e + n).
Proof.
  intros Hk Hn. destruct n as [|p|p]; [| |lia].
  - simpl. rewrite Z.mul_1_r, Z.add_0_r. reflexivity.
  - cbn [shr]. rewrite iter_pos_nat.
    rewrite <- (positive_nat_Z p) at 1.
    rewrite iter_shr_1_exact by exact Hk. reflexivity.
Qed.

Lemma bounded_canonical (m : positive) (e : Z) :
  bounded F32.prec F32.emax m e = true ->
  Z.max (Zpos (digits2_pos m) + e - 24) (-149) = e /\ e <= 104.
Proof.
  unfold bounded, canonical_mantissa, fexp, emin, F32.prec, F32.emax.
  intros H. apply andb_prop in H as [H1 H2].
  apply Z.eqb_eq in H1. apply Z.leb_le in H2.
  change (3 - 128 - 24) with (-149) in H1. change (128 - 24) with 104 in H2.
  split; assumption.
Qed.

Lemma Zdigits2_mul_pow2 (m : positive) (j : Z) :
  0 <= j -> Zdigits2 (Zpos m * 2 ^ j) = Zpos (digits2_pos m) + j.
Proof.
  intros Hj. pose proof (digits2_pos_spec m) as [Hlo Hhi].
  assert (Hp : 0 < 2 ^ j) by (apply Z.pow_pos_nonneg; lia).
  destruct (Zpos m * 2 ^ j) as [|q|q] eqn:E; [lia| |lia].
  cbn [Zdigits2]. apply digits2_pos_unique. rewrite <- E.
  replace (Zpos (digits2_pos m) + j - 1)
    with ((Zpos (digits2_pos m) - 1) + j) by lia.
  rewrite !Z.pow_add_r by lia. split.
  - apply Z.mul_le_mono_nonneg_r; lia.
  - apply Z.mul_lt_mono_pos_r; lia.
Qed.

(** The product of a float below one and [2^k] (written with a 24-bit
    mantissa) is the float with the same digits and the exponent raised by
    [k]: nothing is rounded away. *)
Lemma mul_pow2_exact (m : positive) (e k : Z) :
  bounded F32.prec F32.emax m e = true ->
  0 <= k <= 23 -> e + k < 0 ->
  exists (M : positive) (e1 : Z),
    F32.mul (S754_finite false m e) (S754_finite false 8388608 (k - 23))
    = S754_finite false M e1 /\
    e1 <= e + k /\
    Zpos M = Zpos m * 2 ^ (e + k - e1).
Proof.
  intros Hb Hk He.
  apply bounded_canonical in Hb as [Hcan Hmax].
  set (d := Zpos (digits2_pos m)) in *.
  assert (Hd : 0 < d) by (unfold d; lia).
  set (e0 := e + (k - 23)).
  set (e1 := Z.max (d + 23 + e0 - 24) (-149)).
  set (n := e1 - e0).
  assert (Hn : 0 <= n <= 23) by (unfold n, e1, e0; lia).
  assert (Hprod' : Zpos m * 2 ^ 23 = (Zpos m * 2 ^ (23 - n)) * 2 ^ n).
  { rewrite <- Z.mul_assoc, <- Z.pow_add_r by lia.
    replace (23 - n + n) with 23 by lia. reflexivity. }
  assert (HM : exists M, Zpos M = Zpos m * 2 ^ (23 - n)).
  { assert (0 < 2 ^ (23 - n)) by (apply Z.pow_pos_nonneg; lia).
    destruct (Zpos m * 2 ^ (23 - n)) as [|q|q] eqn:E; [lia| |lia].
    exists q. reflexivity. }
  destruct HM as [M HM].
  exists M, e1. split; [|split].
  - unfold F32.mul, SFmul. cbn [xorb]. fold e0.
    unfold binary_round_aux, shr_fexp.
    change (Zpos (m * 8388608)) with (Zpos m * 2 ^ 23).
    rewrite Zdigits2_mul_pow2 by lia. fold d.
    rewrite Hprod'.
    unfold fexp, emin, F32.prec, F32.emax.
    change (3 - 128 - 24) with (-149).
    fold e1. fold n. cbn [shr_record_of_loc].
    rewrite shr_exact by lia.
    cbn [shr_m loc_of_shr_record round_nearest_even].
    rewrite Zdigits2_mul_pow2 by lia. fold d.
    replace (Z.max (d + (23 - n) + (e0 + n) - 24) (-149) - (e0 + n))
      with 0 by (unfold n, e1; lia).
    cbn [shr shr_m]. rewrite <- HM.
    replace (e0 + n) with e1 by (unfold n; lia).
    replace (e1 <=? 128 - 24) with true
      by (symmetry; apply Z.leb_le; unfold e1, e0; lia).
    reflexivity.
  - unfold e1, e0. lia.
  - rewrite HM. f_equal. f_equal. unfold n, e0. lia.
Qed.

(** ** [floatToFixed] on the unit interval *)

Lemma F32_one_eq : F32.one = S754_finite false 8388608 (-23).
Proof. reflexivity. Qed.

Lemma unit_cases (v : spec_float) :
  F32.valid v = true ->
  F32.leb F32.zero v = true -> F32.leb v F32.one = true ->
  (exists s, v = S754_zero s) \/
  v = F32.one \/
  (exists m e, v = S754_finite false m e /\
               bounded F32.prec F32.emax m e = true /\ e <= -24 /\
               F32.geb v F32.one = false).
Proof.
  intros Hv H0 H1. destruct v as [s | s | | s m e].
  - left. exists s. reflexivity.
  - destruct s; discriminate.
  - discriminate.
  - right. destruct s; [discriminate|].
    unfold F32.valid, valid_binary in Hv.
    pose proof (bounded_canonical m e Hv) as [Hcan Hmax].
    pose proof (digits2_pos_spec m) as [Hlo Hhi].
    rewrite F32_one_eq in *.
    unfold F32.leb, SFleb, SFcompare in H1.
    destruct (Z.compare_spec e (-23)) as [He | He | He].
    + (* e = -23: the mantissa has 24 digits and is at most 2^23 *)
      left. subst e.
      assert (Hd : Zpos (digits2_pos m) = 24) by (clear - Hcan; lia).
      rewrite Hd in Hlo. change (2 ^ (24 - 1)) with 8388608 in Hlo.
      rewrite Pos.compare_cont_spec in H1. cbn [Pos.switch_Eq] in H1.
      destruct (Pos.compare_spec m 8388608) as [Hc | Hc | Hc];
        try discriminate.
      * rewrite Hc. reflexivity.
      * exfalso. apply Pos2Z.pos_lt_pos in Hc. clear - Hc Hlo. lia.
    + right. exists m, e. clear Hlo Hhi. repeat split; try assumption; try lia.
      unfold F32.geb, SFleb, SFcompare.
      replace (Z.compare (-23) e) with Gt; [reflexivity|].
      symmetry. apply Z.compare_gt_iff. lia.
    + discriminate.
Qed.

Lemma floatToFixed_unit (v : spec_float) (k : Z) :
  k = 0 \/ k = 8 ->
  F32.valid v = true ->
  F32.leb F32.zero v = true -> F32.leb v F32.one = true ->
  exists q,
    Bitwise.floatToFixed v k = Some q /\ 0 <= q < 2 ^ k /\
    (inject_Z q <= inject_Z (2 ^ k) * F32.to_Q v)%Q /\
    ((v = F32.one /\ q = 2 ^ k - 1) \/
     (inject_Z (2 ^ k) * F32.to_Q v < inject_Z (q + 1))%Q).
Proof.
  intros Hk Hv H0 H1.
  assert (Hpk : 0 < 2 ^ k) by (destruct Hk as [-> | ->]; reflexivity).
  destruct (unit_cases v Hv H0 H1) as [[s ->] | [-> | (m & e & -> & Hb & He & Hg)]].
  - exists 0. split; [destruct s; reflexivity|].
    split; [lia|]. cbn [F32.to_Q]. split.
    + rewrite Qmult_0_r. apply Qle_refl.
    + right. rewrite Qmult_0_r. reflexivity.
  - exists (2 ^ k - 1). split; [destruct Hk as [-> | ->]; reflexivity|].
    split; [lia|]. split.
    + destruct Hk as [-> | ->]; vm_compute; discriminate.
    + left. split; reflexivity.
  - destruct (mul_pow2_exact m e k Hb) as (M & e1 & Hmul & He1 & HM);
      [lia | lia |].
    set (b := - (e + k)). set (a := e + k - e1).
    assert (Hb0 : 0 < b) by (unfold b; lia).
    assert (Ha0 : 0 <= a) by (unfold a; lia).
    assert (Hpa : 0 < 2 ^ a) by (apply Z.pow_pos_nonneg; lia).
    assert (Hpb : 0 < 2 ^ b) by (apply Z.pow_pos_nonneg; lia).
    assert (Hq : Zpos M / 2 ^ (- e1) = Zpos m / 2 ^ b).
    { rewrite HM. fold a. replace (- e1) with (a + b) by (unfold a, b; lia).
      rewrite Z.pow_add_r by lia. rewrite (Z.mul_comm (Zpos m)).
      apply Z.div_mul_cancel_l; lia. }
    pose proof (Z.div_mod (Zpos m) (2 ^ b) ltac:(lia)) as Hdm.
    pose proof (Z.mod_pos_bound (Zpos m) (2 ^ b) Hpb) as Hmb.
    set (q := Zpos m / 2 ^ b) in *.
    assert (Hq0 : 0 <= q) by (apply Z.div_pos; lia).
    assert (Hm24 : Zpos m < 2 ^ 24).
    { pose proof (digits2_pos_spec m) as [_ Hhi].
      apply bounded_canonical in Hb as [Hcan _].
      assert (Zpos (digits2_pos m) <= 24) by lia.
      eapply Z.lt_le_trans; [exact Hhi|].
      apply Z.pow_le_mono_r; lia. }
    assert (Hqk : q < 2 ^ k).
    { assert (H24b : 2 ^ 24 <= 2 ^ k * 2 ^ b).
      { rewrite <- Z.pow_add_r by lia. apply Z.pow_le_mono_r; unfold b; lia. }
      clear - Hdm Hmb Hm24 H24b Hq0 Hpk Hpb. nia. }
    exists q. split; [|split; [lia|]].
    + unfold Bitwise.floatToFixed.
      replace (F32.leb (S754_finite false m e) F32.zero) with false
        by reflexivity.
      rewrite Hg.
      replace (F32.of_Z (Z.shiftl 1 k))
        with (S754_finite false 8388608 (k - 23))
        by (destruct Hk as [-> | ->]; reflexivity).
      rewrite Hmul. unfold F32.to_unsigned, F32.trunc.
      replace (0 <=? e1) with false by (symmetry; apply Z.leb_gt; lia).
      cbn [cond_Zopp]. rewrite Hq.
      replace ((0 <=? q) && (q <? 2 ^ 32)) with true; [reflexivity|].
      symmetry. apply andb_true_intro. split.
      * apply Z.leb_le. lia.
      * apply Z.ltb_lt. destruct Hk as [-> | ->]; simpl in Hqk; lia.
    + assert (HD : 2 ^ (- e) = 2 ^ k * 2 ^ b).
      { rewrite <- Z.pow_add_r by lia. f_equal. unfold b. lia. }
      assert (HQ : F32.to_Q (S754_finite false m e)
                   = Qmake (Zpos m) (Z.to_pos (2 ^ k * 2 ^ b))).
      { cbn [F32.to_Q cond_Zopp].
        replace (0 <=? e) with false by (symmetry; apply Z.leb_gt; lia).
        rewrite HD. reflexivity. }
      rewrite HQ. unfold Qle, Qlt. cbn [Qnum Qden Qmult inject_Z].
      rewrite Pos.mul_1_l, !Z.mul_1_r, !Z2Pos.id by lia.
      split.
      * clear - Hdm Hmb Hpk Hpb Hq0. nia.
      * right. clear - Hdm Hmb Hpk Hpb Hq0. nia.
Qed.

(** ** Bytes and words *)

Lemma le_bytes_length (n : nat) (v : Z) : length (le_bytes n v) = n.
Proof. revert v. induction n as [|n IH]; intros v; simpl; [|rewrite IH]; reflexivity. Qed.

Lemma le_word_le_bytes (n : nat) (v : Z) :
  le_word (le_bytes n v) = v mod 2 ^ (8 * Z.of_nat n).
Proof.
  revert v. induction n as [|n IH]; intros v.
  - simpl. rewrite Z.mod_1_r. reflexivity.
  - cbn [le_bytes le_word]. rewrite IH.
    replace (8 * Z.of_nat (S n)) with (8 + 8 * Z.of_nat n) by lia.
    rewrite Z.pow_add_r by lia. change (2 ^ 8) with 256.
    rewrite Z.rem_mul_r by lia. reflexivity.
Qed.

Lemma intRead_intWrite (n V : Z) :
  1 <= n <= 4 ->
  Bitwise.intRead (Bitwise.intWrite n V) n = V mod 2 ^ (8 * n).
Proof.
  intros Hn. unfold Bitwise.intRead, Bitwise.intWrite.
  replace ((1 <=? n) && (n <=? 4)) with true
    by (symmetry; apply andb_true_intro; split;
        [apply Z.leb_le | apply Z.leb_le]; lia).
  rewrite firstn_all2 by (rewrite le_bytes_length; lia).
  rewrite le_word_le_bytes, Z2Nat.id by lia. reflexivity.
Qed.

(** A property of all byte values is decided by running through them. *)
Lemma byte_forall (P : Z -> bool) :
  forallb P all_bytes = true -> forall x, 0 <= x < 256 -> P x = true.
Proof.
  intros H x Hx. rewrite forallb_forall in H. apply H.
  unfold all_bytes. apply in_map_iff. exists (Z.to_nat x). split.
  - apply Z2Nat.id. lia.
  - apply in_seq. lia.
Qed.

(** Extracting a field distributes over the [|] of the packed channels,
    also through the truncation to the pixel's bytes. *)
Lemma channel_field_lor4 (R G B A n m s : Z) :
  0 <= n ->
  channel_field (Z.lor (Z.lor (Z.lor R G) B) A mod 2 ^ n) m s
  = Z.lor (Z.lor (Z.lor (channel_field (R mod 2 ^ n) m s)
                        (channel_field (G mod 2 ^ n) m s))
                 (channel_field (B mod 2 ^ n) m s))
          (channel_field (A mod 2 ^ n) m s).
Proof.
  intros Hn. unfold channel_field.
  rewrite <- !Z.land_ones by exact Hn.
  rewrite !Z.land_lor_distr_l, !Z.shiftr_lor. reflexivity.
Qed.

(** What one packed channel contributes to an extracted field: itself
    when [keep], nothing otherwise; checked on the 256 byte values. *)
Lemma single_field (t mt n m s : Z) (keep : bool) :
  forallb (fun x =>
             channel_field (channel_bits x t mt mod 2 ^ n) m s
             =? (if keep then x else 0)) all_bytes = true ->
  forall x, 0 <= x < 256 ->
    channel_field (channel_bits x t mt mod 2 ^ n) m s
    = if keep then x else 0.
Proof.
  intros H x Hx. apply Z.eqb_eq.
  exact (byte_forall _ H x Hx).
Qed.

(** ** The native-endian layout keeps its fields apart *)

Ltac field_step :=
  match goal with
  | |- context [channel_field (channel_bits ?x ?t ?mt mod 2 ^ ?n) ?m ?s] =>
      tryif constr_eq mt m then
        first
          [ rewrite (single_field t mt n m s true
                       ltac:(vm_compute; reflexivity) x) by assumption
          | rewrite (single_field t mt n m s false
                       ltac:(vm_compute; reflexivity) x) by assumption ]
      else
        rewrite (single_field t mt n m s false
                   ltac:(vm_compute; reflexivity) x) by assumption
  end.

Lemma native_fields (f : PixelFormat) (fr fg fb fa : Z) :
  isNativeEndian f = true ->
  0 <= fr < 256 -> 0 <= fg < 256 -> 0 <= fb < 256 -> 0 <= fa < 256 ->
  (abits (getDescriptionFor f) = 0 -> fa = 0) ->
  let des := getDescriptionFor f in
  let V := packed_value des fr fg fb fa mod 2 ^ (8 * elemBytes des) in
  channel_field V (rmask des) (rshift des) = fr /\
  channel_field V (gmask des) (gshift des) = fg /\
  channel_field V (bmask des) (bshift des) = fb /\
  channel_field V (amask des) (ashift des) = fa.
Proof.
  intros Hn Hr Hg Hb Ha Hfa.
  destruct f; try discriminate Hn;
    cbv [getDescriptionFor ord nth _pixelFormats packed_value
         rmask gmask bmask amask rshift gshift bshift ashift elemBytes abits]
      in *;
    cbv zeta;
    rewrite !channel_field_lor4 by lia;
    repeat field_step;
    rewrite ?Z.lor_0_r, ?Z.lor_0_l;
    repeat split; try reflexivity;
    symmetry; apply Hfa; reflexivity.
Qed.

(** ** The bit pattern of a float *)

Lemma small_testbit (w n : Z) : 0 <= w < 2 ^ n -> 0 <= n -> Z.testbit w n = false.
Proof.
  intros [H0 H1] Hn. destruct (Z.eq_dec w 0) as [-> | Hne].
  - apply Z.bits_0.
  - apply Z.bits_above_log2; [lia|]. apply Z.log2_lt_pow2; lia.
Qed.

Lemma bits_of_range (m : positive) (e : Z) :
  bounded F32.prec F32.emax m e = true -> e <= -24 ->
  0 <= F32.bits_of (S754_finite false m e) < 2 ^ 31.
Proof.
  intros Hb He. pose proof (bounded_canonical m e Hb) as [Hcan _].
  pose proof (digits2_pos_spec m) as [Hlo Hhi].
  assert (Hd : Zpos (digits2_pos m) <= 24) by (clear - Hcan; lia).
  assert (Hm : Zpos m < 2 ^ 24).
  { eapply Z.lt_le_trans; [exact Hhi|]. apply Z.pow_le_mono_r; lia. }
  clear Hlo Hhi. cbn [F32.bits_of F32.sign_bit].
  destruct (Z.ltb_spec (Zpos m) 0x800000) as [Hs | Hs].
  - change (2 ^ 31) with 2147483648. lia.
  - change (2 ^ 24) with 16777216 in Hm. change (2 ^ 31) with 2147483648.
    assert (-149 <= e) by (clear - Hcan; lia). lia.
Qed.

Lemma of_bits_bits_of (m : positive) (e : Z) :
  bounded F32.prec F32.emax m e = true -> e <= -24 ->
  F32.of_bits (F32.bits_of (S754_finite false m e)) = S754_finite false m e.
Proof.
  intros Hb He. pose proof (bits_of_range m e Hb He) as Hr.
  pose proof (bounded_canonical m e Hb) as [Hcan _].
  pose proof (digits2_pos_spec m) as [Hlo Hhi].
  assert (Hd : Zpos (digits2_pos m) <= 24) by (clear - Hcan; lia).
  assert (Hm : Zpos m < 16777216).
  { change 16777216 with (2 ^ 24).
    eapply Z.lt_le_trans; [exact Hhi|]. apply Z.pow_le_mono_r; lia. }
  unfold F32.of_bits.
  rewrite (small_testbit _ 31 Hr) by lia.
  rewrite Z.shiftr_div_pow2 by lia.
  change 0xFF with (Z.ones 8). change 0x7FFFFF with (Z.ones 23).
  rewrite !Z.land_ones by lia. change (Z.ones 8) with 255.
  revert Hr. cbn [F32.bits_of F32.sign_bit].
  change (2 ^ 23) with 8388608. change (2 ^ 8) with 256.
  destruct (Z.ltb_spec (Zpos m) 0x800000) as [Hs | Hs]; intros Hr.
  - (* subnormal: the exponent is the least one *)
    assert (Hds : Zpos (digits2_pos m) <= 23).
    { destruct (Z.le_gt_cases (Zpos (digits2_pos m)) 23) as [|Hgt];
        [assumption|].
      exfalso. assert (H23 : 2 ^ 23 <= 2 ^ (Zpos (digits2_pos m) - 1))
        by (apply Z.pow_le_mono_r; lia).
      change (2 ^ 23) with 8388608 in H23. clear - H23 Hlo Hs. lia. }
    assert (Hemin : e = -149) by (clear - Hcan Hds; lia).
    subst e. rewrite Z.add_0_l.
    rewrite (Z.div_small (Zpos m)) by lia.
    rewrite Z.mod_0_l by lia. cbn [Z.eqb].
    rewrite Z.mod_small by lia. reflexivity.
  - (* normal *)
    assert (He' : -149 <= e) by (clear - Hcan; lia).
    rewrite Z.add_0_l.
    replace ((e + 150) * 8388608 + (Zpos m - 8388608))
      with ((Zpos m - 8388608) + (e + 150) * 8388608) by ring.
    rewrite Z.div_add by lia. rewrite Z.mod_add by lia.
    rewrite (Z.div_small (Zpos m - 8388608)) by lia. rewrite Z.add_0_l.
    rewrite (Z.mod_small (e + 150)) by lia.
    rewrite (Z.mod_small (Zpos m - 8388608)) by lia.
    replace (e + 150 =? 0) with false by (symmetry; apply Z.eqb_neq; lia).
    replace (e + 150 =? 255) with false by (symmetry; apply Z.eqb_neq; lia).
    replace (Zpos m - 8388608 + 8388608) with (Zpos m) by ring.
    replace (e + 150 - 150) with e by ring. reflexivity.
Qed.

(** A float of the unit interval survives the trip through its four
    bytes. *)
Lemma floatAt_floatBytes (v : spec_float) :
  in_unit v -> F32.of_bits (le_word (floatBytes v)) = v.
Proof.
  intros (Hv & H0 & H1). unfold floatBytes. rewrite le_word_le_bytes.
  change (2 ^ (8 * Z.of_nat 4)) with (2 ^ 32).
  destruct (unit_cases v Hv H0 H1)
    as [[s ->] | [-> | (m & e & -> & Hb & He & _)]].
  - destruct s; reflexivity.
  - reflexivity.
  - pose proof (bits_of_range m e Hb He) as Hr.
    rewrite Z.mod_small.
    + apply of_bits_bits_of; assumption.
    + change (2 ^ 31) with 2147483648 in Hr.
      change (2 ^ 32) with 4294967296. lia.
Qed.

(** ** An 8-bit channel through [floatToFixed] and [fixedToFloat] *)

Lemma fixed8_window :
  forallb (fun q =>
             let F := F32.to_Q (Bitwise.fixedToFloat q 8) in
             Qle_bool (256 * (F - (1 # 255))) (inject_Z q)
             && Qle_bool (inject_Z (q + 1)) (256 * (F + (1 # 255))))
          all_bytes = true.
Proof. vm_compute. reflexivity. Qed.

Lemma fixed8_roundtrip (v : spec_float) :
  in_unit v ->
  exists q, Bitwise.floatToFixed v 8 = Some q /\ 0 <= q < 256 /\
            within_quantum 8 v (Bitwise.fixedToFloat q 8).
Proof.
  intros (Hv & H0 & H1).
  destruct (floatToFixed_unit v 8 (or_intror eq_refl) Hv H0 H1)
    as (q & Hq & Hrange & Hlo & Hhi).
  change (2 ^ 8) with 256 in *.
  exists q. split; [exact Hq|]. split; [exact Hrange|].
  unfold within_quantum. change (quantum 8) with (1 # 255)%Q.
  destruct Hhi as [[-> ->] | Hhi].
  - vm_compute. discriminate.
  - pose proof (byte_forall _ fixed8_window q Hrange) as Hw.
    cbv zeta in Hw. apply andb_prop in Hw as [Hw1 Hw2].
    apply Qle_bool_iff in Hw1. apply Qle_bool_iff in Hw2.
    apply Qabs_Qle_condition.
    set (F := F32.to_Q (Bitwise.fixedToFloat q 8)) in *.
    set (V := F32.to_Q v) in *.
    set (Q1 := inject_Z (q + 1)) in *. set (Q0 := inject_Z q) in *.
    change (inject_Z 256) with (256 # 1)%Q in *.
    split; lra.
Qed.

(** ** A channel through [floatToHalf] and [halfToFloat] *)

(** A property of the first [n] integers is decided by running through
    them. *)
Lemma range_forall (n : nat) (P : Z -> bool) :
  forallb P (map Z.of_nat (seq 0 n)) = true ->
  forall x, 0 <= x < Z.of_nat n -> P x = true.
Proof.
  intros H x Hx. rewrite forallb_forall in H. apply H.
  apply in_map_iff. exists (Z.to_nat x). split.
  - apply Z2Nat.id. lia.
  - apply in_seq. lia.
Qed.

Lemma halfToFloat_table :
  forallb (fun h => Qeq_bool (F32.to_Q (Bitwise.halfToFloat h)) (halfValue h))
          half_patterns = true.
Proof. vm_compute. reflexivity. Qed.

Lemma halfToFloat_value (h : Z) :
  0 <= h <= 15360 ->
  (F32.to_Q (Bitwise.halfToFloat h) == halfValue h)%Q.
Proof.
  intros Hh. apply Qeq_bool_iff.
  apply (range_forall (Z.to_nat 15361) _ halfToFloat_table h).
  rewrite Z2Nat.id; lia.
Qed.

Lemma lor_disjoint (a b k : Z) :
  0 <= k -> 0 <= b < 2 ^ k -> Z.lor (a * 2 ^ k) b = a * 2 ^ k + b.
Proof.
  intros Hk Hb.
  assert (Hl : Z.land (a * 2 ^ k) b = 0).
  { apply Z.bits_inj'. intros n Hn. rewrite Z.land_spec, Z.bits_0.
    destruct (Z.lt_ge_cases n k) as [Hlt | Hge].
    - rewrite Z.mul_pow2_bits_low by lia. reflexivity.
    - rewrite (small_testbit b n); [apply andb_false_r| |lia].
      split; [lia|]. eapply Z.lt_le_trans; [apply Hb|].
      apply Z.pow_le_mono_r; lia. }
  rewrite <- Z.lxor_lor by exact Hl. symmetry.
  apply Z.add_nocarry_lxor. exact Hl.
Qed.

Lemma land_high_bit (x n : Z) :
  0 <= n -> 0 <= x < 2 ^ n -> Z.land x (2 ^ n) = 0.
Proof.
  intros Hn Hx. apply Z.bits_inj'. intros k Hk.
  rewrite Z.land_spec, Z.bits_0, Z.pow2_bits_eqb by lia.
  destruct (Z.eqb_spec n k) as [<- | Hne].
  - rewrite (small_testbit x n) by lia. reflexivity.
  - apply andb_false_r.
Qed.

Lemma floatToHalfI_pattern (E M : Z) :
  0 <= E <= 126 -> 0 <= M < 2 ^ 23 ->
  Bitwise.floatToHalfI (E * 2 ^ 23 + M)
  = if E <? 102 then 0
    else if E <=? 112 then (2 ^ 23 + M) / 2 ^ (126 - E)
    else (E - 112) * 1024 + M / 2 ^ 13.
Proof.
  intros HE HM. unfold Bitwise.floatToHalfI.
  set (i := E * 2 ^ 23 + M).
  assert (Hi : 0 <= i < 2 ^ 30).
  { unfold i. change (2 ^ 30) with (128 * 2 ^ 23). nia. }
  assert (Hs : Z.land (Z.shiftr i 16) 0x8000 = 0).
  { change 0x8000 with (2 ^ 15). apply land_high_bit; [lia|].
    rewrite Z.shiftr_div_pow2 by lia. split.
    - apply Z.div_pos; lia.
    - apply Z.div_lt_upper_bound; [lia|].
      change (2 ^ 16 * 2 ^ 15) with (2 ^ 31).
      change (2 ^ 30) with 1073741824 in Hi.
      change (2 ^ 31) with 2147483648. lia. }
  assert (He : Z.land (Z.shiftr i 23) 0xFF = E).
  { change 0xFF with (Z.ones 8). rewrite Z.land_ones, Z.shiftr_div_pow2 by lia.
    unfold i. rewrite Z.div_add_l by lia.
    rewrite (Z.div_small M) by lia. rewrite Z.add_0_r.
    apply Z.mod_small. change (2 ^ 8) with 256. lia. }
  assert (Hm : Z.land i 0x007FFFFF = M).
  { change 0x007FFFFF with (Z.ones 23). rewrite Z.land_ones by lia.
    unfold i. rewrite Z.add_comm, Z.mod_add by lia.
    apply Z.mod_small. lia. }
  cbv zeta. rewrite Hs, He, Hm.
  change (127 - 15) with 112. change (0xFF - 112) with 143.
  destruct (Z.ltb_spec E 102) as [H102 | H102].
  - replace (E - 112 <=? 0) with true by (symmetry; apply Z.leb_le; lia).
    replace (E - 112 <? -10) with true by (symmetry; apply Z.ltb_lt; lia).
    reflexivity.
  - destruct (Z.leb_spec E 112) as [H112 | H112].
    + replace (E - 112 <=? 0) with true by (symmetry; apply Z.leb_le; lia).
      replace (E - 112 <? -10) with false by (symmetry; apply Z.ltb_ge; lia).
      rewrite Z.lor_0_l.
      replace (Z.lor M 0x00800000) with (2 ^ 23 + M).
      2:{ rewrite Z.lor_comm. change 0x00800000 with (1 * 2 ^ 23).
          rewrite lor_disjoint by lia. lia. }
      rewrite !Z.shiftr_div_pow2 by lia.
      rewrite Z.div_div by (try apply Z.pow_pos_nonneg; lia).
      rewrite <- Z.pow_add_r by lia.
      replace (1 - (E - 112) + 13) with (126 - E) by lia.
      unfold u16. apply Z.mod_small. split.
      * apply Z.div_pos; [lia | apply Z.pow_pos_nonneg; lia].
      * apply Z.div_lt_upper_bound; [apply Z.pow_pos_nonneg; lia|].
        rewrite <- Z.pow_add_r by lia.
        assert (2 ^ 24 <= 2 ^ (126 - E + 16))
          by (apply Z.pow_le_mono_r; lia).
        change (2 ^ 24) with (2 * 2 ^ 23) in *. lia.
    + replace (E - 112 <=? 0) with false by (symmetry; apply Z.leb_gt; lia).
      replace (E - 112 =? 143) with false by (symmetry; apply Z.eqb_neq; lia).
      replace (E - 112 >? 30) with false
        by (symmetry; rewrite Z.gtb_ltb; apply Z.ltb_ge; lia).
      rewrite Z.lor_0_l, Z.shiftl_mul_pow2, Z.shiftr_div_pow2 by lia.
      assert (Hq : 0 <= M / 2 ^ 13 < 2 ^ 10).
      { split; [apply Z.div_pos; lia|].
        apply Z.div_lt_upper_bound; [lia|].
        change (2 ^ 13 * 2 ^ 10) with (2 ^ 23). lia. }
      rewrite lor_disjoint by lia.
      change (2 ^ 10) with 1024 in *.
      unfold u16. apply Z.mod_small. change (2 ^ 16) with 65536. lia.
Qed.

Lemma within_half_finite (m : positive) (e : Z) (x' : spec_float) (a k : Z) :
  e < 0 -> 0 <= k <= - e -> 0 <= a ->
  (F32.to_Q x' == a # Z.to_pos (2 ^ k))%Q ->
  a * 2 ^ (- e - k) <= Zpos m ->
  (Zpos m - a * 2 ^ (- e - k)) * 2048 < 2 ^ (- e) ->
  within_half (S754_finite false m e) x'.
Proof.
  intros He Hk Ha Hq Hle Hlt. unfold within_half. rewrite Hq.
  cbn [F32.to_Q cond_Zopp].
  replace (0 <=? e) with false by (symmetry; apply Z.leb_gt; lia).
  assert (HD : 2 ^ (- e) = 2 ^ (- e - k) * 2 ^ k).
  { rewrite <- Z.pow_add_r by lia. f_equal. lia. }
  assert (HP : 0 < 2 ^ (- e - k)) by (apply Z.pow_pos_nonneg; lia).
  assert (HK : 0 < 2 ^ k) by (apply Z.pow_pos_nonneg; lia).
  unfold Qle, Qlt, Qminus, Qplus, Qopp. cbn [Qnum Qden].
  rewrite !Pos2Z.inj_mul, !Z2Pos.id by lia.
  rewrite HD in *.
  set (P := 2 ^ (- e - k)) in *. set (K := 2 ^ k) in *.
  clearbody P K. split; nia.
Qed.

Lemma half_roundtrip (v : spec_float) :
  in_unit v ->
  0 <= Bitwise.floatToHalf v <= 15360 /\
  within_half v (Bitwise.halfToFloat (Bitwise.floatToHalf v)).
Proof.
  intros (Hv & H0 & H1).
  destruct (unit_cases v Hv H0 H1)
    as [[s ->] | [-> | (m & e & -> & Hb & He & _)]].
  - destruct s; (split; [vm_compute; split; discriminate|]);
      (split; [vm_compute; discriminate | vm_compute; reflexivity]).
  - split; [vm_compute; split; discriminate|].
    split; [vm_compute; discriminate | vm_compute; reflexivity].
  - pose proof (bounded_canonical m e Hb) as [Hcan _].
    pose proof (digits2_pos_spec m) as [Hlo Hhi].
    assert (Hd : Zpos (digits2_pos m) <= 24) by (clear - Hcan; lia).
    assert (Hm : Zpos m < 2 ^ 24).
    { eapply Z.lt_le_trans; [exact Hhi|]. apply Z.pow_le_mono_r; lia. }
    assert (He' : -149 <= e) by (clear - Hcan; lia).
    set (E := if Zpos m <? 0x800000 then 0 else e + 150).
    set (M := if Zpos m <? 0x800000 then Zpos m else Zpos m - 0x800000).
    assert (Hbits : Bitwise.floatToHalf (S754_finite false m e)
                    = Bitwise.floatToHalfI (E * 2 ^ 23 + M)).
    { unfold Bitwise.floatToHalf, E, M. cbn [F32.bits_of F32.sign_bit].
      destruct (Zpos m <? 0x800000); f_equal; change (2 ^ 23) with 0x800000;
        lia. }
    assert (HE : 0 <= E <= 126)
      by (unfold E; destruct (Zpos m <? 0x800000); lia).
    assert (HM : 0 <= M < 2 ^ 23).
    { unfold M. change (2 ^ 23) with 0x800000.
      change (2 ^ 24) with 16777216 in Hm.
      destruct (Z.ltb_spec (Zpos m) 0x800000); lia. }
    assert (Hnorm : 102 <= E -> Zpos m = 2 ^ 23 + M /\ e = E - 150).
    { unfold E, M. change (2 ^ 23) with 0x800000.
      destruct (Z.ltb_spec (Zpos m) 0x800000); lia. }
    assert (Hsmall : E < 102 -> e <= -49).
    { unfold E. destruct (Z.ltb_spec (Zpos m) 0x800000) as [Hs | Hs];
        [|lia].
      intros _.
      assert (Hds : Zpos (digits2_pos m) <= 23).
      { destruct (Z.le_gt_cases (Zpos (digits2_pos m)) 23) as [|Hgt];
          [assumption|].
        exfalso. assert (H23 : 2 ^ 23 <= 2 ^ (Zpos (digits2_pos m) - 1))
          by (apply Z.pow_le_mono_r; lia).
        change (2 ^ 23) with 8388608 in H23. clear - H23 Hlo Hs. lia. }
      clear - Hcan Hds. lia. }
    rewrite Hbits, (floatToHalfI_pattern E M HE HM).
    destruct (Z.ltb_spec E 102) as [H102 | H102].
    + split; [lia|].
      apply (within_half_finite m e _ 0 0); try lia.
      * vm_compute. reflexivity.
      * rewrite Z.mul_0_l, Z.sub_0_r.
        assert (2 ^ 49 <= 2 ^ (- e)) by (apply Z.pow_le_mono_r; lia).
        change (2 ^ 24) with 16777216 in Hm.
        change (2 ^ 49) with 562949953421312 in *. lia.
    + destruct (Hnorm H102) as (Em & Ee).
      destruct (Z.leb_spec E 112) as [H112 | H112].
      * set (P := 2 ^ (126 - E)).
        assert (HP : 0 < P) by (apply Z.pow_pos_nonneg; lia).
        assert (HP14 : 2 ^ 14 <= P) by (apply Z.pow_le_mono_r; lia).
        set (h := (2 ^ 23 + M) / P).
        assert (Hh : 0 <= h < 1024).
        { split; [apply Z.div_pos; lia|].
          apply Z.div_lt_upper_bound; [lia|].
          change (2 ^ 14) with 16384 in HP14.
          change (2 ^ 23) with 8388608 in *. nia. }
        split; [lia|].
        apply (within_half_finite m e _ h 24); try lia.
        -- rewrite halfToFloat_value by lia. unfold halfValue.
           replace (h <? 1024) with true by (symmetry; apply Z.ltb_lt; lia).
           reflexivity.
        -- replace (- e - 24) with (126 - E) by lia. fold P.
           rewrite Em. unfold h. rewrite Z.mul_comm.
           apply Z.mul_div_le. lia.
        -- replace (- e - 24) with (126 - E) by lia. fold P.
           replace (- e) with (126 - E + 24) by lia.
           rewrite Z.pow_add_r by lia. fold P.
           rewrite Em. unfold h.
           pose proof (Z.div_mod (2 ^ 23 + M) P ltac:(lia)) as Hdm.
           pose proof (Z.mod_pos_bound (2 ^ 23 + M) P HP) as Hmb.
           change (2 ^ 24) with 16777216. nia.
      * set (hm := M / 2 ^ 13).
        assert (Hhm : 0 <= hm < 1024).
        { split; [apply Z.div_pos; lia|].
          apply Z.div_lt_upper_bound; [lia|].
          change (2 ^ 13 * 1024) with (2 ^ 23). lia. }
        set (h := (E - 112) * 1024 + hm).
        assert (Hdiv : h / 1024 = E - 112).
        { unfold h. rewrite Z.div_add_l by lia.
          rewrite (Z.div_small hm) by lia. lia. }
        assert (Hmod : h mod 1024 = hm).
        { unfold h. rewrite Z.add_comm, Z.mod_add by lia.
          apply Z.mod_small. lia. }
        split; [unfold h; lia|].
        apply (within_half_finite m e _ (1024 + hm) (25 - (E - 112)));
          try lia.
        -- rewrite halfToFloat_value by (unfold h; lia). unfold halfValue.
           replace (h <? 1024) with false
             by (symmetry; apply Z.ltb_ge; unfold h; lia).
           rewrite Hdiv, Hmod. reflexivity.
        -- replace (- e - (25 - (E - 112))) with 13 by lia.
           rewrite Em. unfold hm.
           pose proof (Z.div_mod M (2 ^ 13) ltac:(lia)) as Hdm.
           pose proof (Z.mod_pos_bound M (2 ^ 13) ltac:(lia)) as Hmb.
           change (2 ^ 13) with 8192 in *.
           change (2 ^ 23) with 8388608 in *. lia.
        -- replace (- e - (25 - (E - 112))) with 13 by lia.
           assert (2 ^ 24 <= 2 ^ (- e)) by (apply Z.pow_le_mono_r; lia).
           rewrite Em. unfold hm.
           pose proof (Z.div_mod M (2 ^ 13) ltac:(lia)) as Hdm.
           pose proof (Z.mod_pos_bound M (2 ^ 13) ltac:(lia)) as Hmb.
           change (2 ^ 13) with 8192 in *.
           change (2 ^ 23) with 8388608 in *.
           change (2 ^ 24) with 16777216 in *. lia.
Qed.

(** ** The float overloads through a native-endian format *)

Lemma native_desc (f : PixelFormat) :
  isNativeEndian f = true ->
  let des := getDescriptionFor f in
  has_flag (flags des) PFF_NATIVEENDIAN = true /\
  rbits des = 8 /\ gbits des = 8 /\ bbits des = 8 /\
  (elemBytes des = 3 \/ elemBytes des = 4) /\
  ((abits des = 8 /\ has_flag (flags des) PFF_HASALPHA = true) \/
   abits des = 0).
Proof.
  destruct f; intros H; try discriminate H; vm_compute;
    repeat split; auto.
Qed.

Lemma intWrite_length (n V : Z) :
  1 <= n <= 4 -> Z.of_nat (length (Bitwise.intWrite n V)) = n.
Proof.
  intros Hn. unfold Bitwise.intWrite.
  replace ((1 <=? n) && (n <=? 4)) with true
    by (symmetry; apply andb_true_intro; split; apply Z.leb_le; lia).
  rewrite le_bytes_length. lia.
Qed.

Lemma native_float_roundtrip (f : PixelFormat) (r g b a : spec_float) :
  isNativeEndian f = true ->
  in_unit r -> in_unit g -> in_unit b -> in_unit a ->
  exists bs r' g' b' a',
    packColor_bytes r g b a f = Ret bs /\
    Z.of_nat (length bs) = getNumElemBytes f /\
    unpackColor_bytes f bs = Ret (r', g', b', a') /\
    within_quantum 8 r r' /\ within_quantum 8 g g' /\
    within_quantum 8 b b' /\
    (abits (getDescriptionFor f) = 8 -> within_quantum 8 a a').
Proof.
  intros Hn Hr Hg Hb Ha.
  destruct (native_desc f Hn) as (Hflag & Hrb & Hgb & Hbb & Hbytes & Halpha).
  destruct (fixed8_roundtrip r Hr) as (qr & Eqr & Rr & Wr).
  destruct (fixed8_roundtrip g Hg) as (qg & Eqg & Rg & Wg).
  destruct (fixed8_roundtrip b Hb) as (qb & Eqb & Rb & Wb).
  assert (Hqa : exists qa,
             Bitwise.floatToFixed a (abits (getDescriptionFor f)) = Some qa /\
             0 <= qa < 256 /\
             (abits (getDescriptionFor f) = 0 -> qa = 0) /\
             (abits (getDescriptionFor f) = 8 ->
              within_quantum 8 a (Bitwise.fixedToFloat qa 8))).
  { destruct Halpha as [[Hab _] | Hab]; rewrite Hab.
    - destruct (fixed8_roundtrip a Ha) as (qa & Eqa & Ra & Wa).
      exists qa. split; [exact Eqa|]. split; [exact Ra|].
      split; [discriminate | intros _; exact Wa].
    - destruct Ha as (Hv & H0 & H1).
      destruct (floatToFixed_unit a 0 (or_introl eq_refl) Hv H0 H1)
        as (qa & Eqa & Ra & _).
      change (2 ^ 0) with 1 in Ra.
      exists qa. split; [exact Eqa|]. split; [lia|].
      split; [intros _; lia | discriminate]. }
  destruct Hqa as (qa & Eqa & Ra & Za & Wa).
  set (des := getDescriptionFor f) in *.
  assert (Hn14 : 1 <= elemBytes des <= 4) by lia.
  pose proof (native_fields f qr qg qb qa Hn Rr Rg Rb Ra Za)
    as (Fr & Fg & Fb & Fa).
  fold des in Fr, Fg, Fb, Fa. cbv zeta in Fr, Fg, Fb, Fa.
  exists (Bitwise.intWrite (elemBytes des) (packed_value des qr qg qb qa)).
  exists (Bitwise.fixedToFloat qr 8), (Bitwise.fixedToFloat qg 8),
         (Bitwise.fixedToFloat qb 8).
  exists (if has_flag (flags des) PFF_HASALPHA
          then Bitwise.fixedToFloat qa (abits des) else F32.one).
  split; [|split; [|split]].
  - unfold packColor_bytes. fold des. cbv zeta. rewrite Hflag.
    rewrite Hrb, Hgb, Hbb, Eqr, Eqg, Eqb, Eqa. reflexivity.
  - apply intWrite_length. exact Hn14.
  - unfold unpackColor_bytes. fold des. cbv zeta. rewrite Hflag.
    rewrite intRead_intWrite by exact Hn14.
    rewrite Fr, Fg, Fb, Fa, Hrb, Hgb, Hbb.
    destruct (has_flag (flags des) PFF_HASALPHA); reflexivity.
  - repeat split; try assumption.
    intros Hab. destruct Halpha as [[_ Hha] | Hab0]; [|congruence].
    rewrite Hha, Hab. apply Wa. exact Hab.
Qed.

(** ** Memory: a store followed by a load of the same bytes *)

Lemma slice_splice (l bs : list Z) (off : Z) :
  0 <= off -> off + Z.of_nat (length bs) <= Z.of_nat (length l) ->
  exists l', splice l off bs = Some l' /\
             length l' = length l /\
             slice l' off (Z.of_nat (length bs)) = Some bs.
Proof.
  intros H0 H1. unfold splice.
  replace ((0 <=? off) && (off + Z.of_nat (length bs) <=? Z.of_nat (length l)))
    with true
    by (symmetry; apply andb_true_intro; split; apply Z.leb_le; lia).
  eexists. split; [reflexivity|].
  assert (Hlen : length (take (Z.to_nat off) l ++ bs
                         ++ drop (Z.to_nat off + length bs) l) = length l).
  { rewrite !length_app, length_take, length_drop. lia. }
  split; [exact Hlen|].
  unfold slice. rewrite Hlen.
  replace ((0 <=? off) && (0 <=? Z.of_nat (length bs))
           && (off + Z.of_nat (length bs) <=? Z.of_nat (length l)))
    with true
    by (symmetry; repeat (apply andb_true_intro; split); apply Z.leb_le; lia).
  f_equal. rewrite Nat2Z.id.
  rewrite drop_app_length' by (rewrite length_take; lia).
  apply take_app_length.
Qed.

Lemma store_then_load (s : state) (p : ptr) (bs : list Z) :
  writable s p (Z.of_nat (length bs)) ->
  exists s1 s2,
    store p bs s = (Ret tt, s1) /\
    load p (Z.of_nat (length bs)) s1 = (Ret bs, s2).
Proof.
  intros (b & l & Hp & Hl & H0 & H1).
  destruct (slice_splice l bs (poff p) H0 H1) as (l' & Hsp & Hlen & Hsl).
  exists (mkState (<[b := l']> (heap s)) (reads s)).
  eexists. unfold store, load. rewrite Hp, Hl, Hsp. cbn [heap reads].
  rewrite lookup_insert_eq, Hsl. split; reflexivity.
Qed.

(** Packing a pixel and unpacking it again goes through its bytes. *)
Lemma pack_unpack_through_bytes (f : PixelFormat) (s : state) (p : ptr)
    (r g b a : spec_float) (bs : list Z) :
  hasCodec f = true ->
  packColor_bytes r g b a f = Ret bs ->
  Z.of_nat (length bs) = getNumElemBytes f ->
  writable s p (getNumElemBytes f) ->
  exists s',
    (packColor r g b a f p ;;; unpackColor f p) s
    = (unpackColor_bytes f bs, s').
Proof.
  intros Hc Hpack Hlen Hw. rewrite <- Hlen in Hw.
  destruct (store_then_load s p bs Hw) as (s1 & s2 & Hst & Hld).
  exists s2. unfold bind, packColor, unpackColor, run_pure, bind.
  rewrite Hpack, Hst, Hc, <- Hlen, Hld.
  destruct (unpackColor_bytes f bs); reflexivity.
Qed.

Lemma pack_unpack_UINT8_through_bytes (f : PixelFormat) (s : state)
    (p : ptr) (r g b a : Z) (bs : list Z) :
  hasCodec f = true ->
  packColor_UINT8_bytes r g b a f = Ret bs ->
  Z.of_nat (length bs) = getNumElemBytes f ->
  writable s p (getNumElemBytes f) ->
  exists s',
    (packColor_UINT8 r g b a f p ;;; unpackColor_UINT8 f p) s
    = (unpackColor_UINT8_bytes f bs, s').
Proof.
  intros Hc Hpack Hlen Hw. rewrite <- Hlen in Hw.
  destruct (store_then_load s p bs Hw) as (s1 & s2 & Hst & Hld).
  exists s2. unfold bind, packColor_UINT8, unpackColor_UINT8, run_pure, bind.
  rewrite Hpack, Hst, Hc, <- Hlen, Hld.
  destruct (unpackColor_UINT8_bytes f bs); reflexivity.
Qed.

(** ** The float overloads through every accessible format *)

Lemma reproduced_8 (x x' : spec_float) :
  within_quantum 8 x x' -> reproduced 8 x x'.
Proof.
  intros H. split; [intros _; exact H | split; discriminate].
Qed.

Lemma reproduced_32 (x : spec_float) : reproduced 32 x x.
Proof.
  split; [|split; [reflexivity | discriminate]].
  intros _. unfold within_quantum.
  assert (E : (F32.to_Q x - F32.to_Q x == 0)%Q) by ring.
  rewrite E. vm_compute. discriminate.
Qed.

Lemma reproduced_16 (x : spec_float) :
  in_unit x ->
  reproduced 16 x (Bitwise.halfToFloat (Bitwise.floatToHalf x)).
Proof.
  intros Hx. split; [intros [?|?]; discriminate|].
  split; [discriminate|]. intros _. apply half_roundtrip. exact Hx.
Qed.

Lemma reproduced_other (bits : Z) (x x' : spec_float) :
  bits <> 8 -> bits <> 16 -> bits <> 32 -> reproduced bits x x'.
Proof.
  intros H8 H16 H32.
  split; [intros [?|?]|split; intros ?]; congruence.
Qed.

Lemma halfAt_halfBytes (h : Z) :
  0 <= h <= 15360 -> le_word (halfBytes h) = h.
Proof.
  intros Hh. unfold halfBytes. rewrite le_word_le_bytes.
  apply Z.mod_small. change (2 ^ (8 * Z.of_nat 2)) with 65536. lia.
Qed.

Lemma halfAt_here (x rest : list Z) :
  length x = 2%nat -> halfAt (x ++ rest) 0 = le_word x.
Proof.
  intros Hx. unfold halfAt. change (2 * 0)%nat with 0%nat. rewrite drop_0.
  rewrite take_app_length' by lia. reflexivity.
Qed.

Lemma halfAt_last (x : list Z) :
  length x = 2%nat -> halfAt x 0 = le_word x.
Proof.
  intros Hx. unfold halfAt. change (2 * 0)%nat with 0%nat. rewrite drop_0.
  rewrite take_ge by lia. reflexivity.
Qed.

Lemma halfAt_next (x rest : list Z) (i : nat) :
  length x = 2%nat -> halfAt (x ++ rest) (S i) = halfAt rest i.
Proof.
  intros Hx. unfold halfAt.
  replace (2 * S i)%nat with (2 + 2 * i)%nat by lia.
  rewrite <- drop_drop, drop_app_length' by lia. reflexivity.
Qed.

Lemma floatBytes_length (v : spec_float) : length (floatBytes v) = 4%nat.
Proof. apply le_bytes_length. Qed.

Lemma halfBytes_length (v : Z) : length (halfBytes v) = 2%nat.
Proof. apply le_bytes_length. Qed.

Lemma floatAt_here (x rest : list Z) :
  length x = 4%nat -> floatAt (x ++ rest) 0 = F32.of_bits (le_word x).
Proof.
  intros Hx. unfold floatAt. change (4 * 0)%nat with 0%nat. rewrite drop_0.
  rewrite take_app_length' by lia. reflexivity.
Qed.

Lemma floatAt_last (x : list Z) :
  length x = 4%nat -> floatAt x 0 = F32.of_bits (le_word x).
Proof.
  intros Hx. unfold floatAt. change (4 * 0)%nat with 0%nat. rewrite drop_0.
  rewrite take_ge by lia. reflexivity.
Qed.

Lemma floatAt_next (x rest : list Z) (i : nat) :
  length x = 4%nat -> floatAt (x ++ rest) (S i) = floatAt rest i.
Proof.
  intros Hx. unfold floatAt.
  replace (4 * S i)%nat with (4 + 4 * i)%nat by lia.
  rewrite <- drop_drop, drop_app_length' by lia. reflexivity.
Qed.

Ltac split4 := split; [|split; [|split]].

Ltac float_chunks :=
  repeat first
    [ rewrite floatAt_next by apply floatBytes_length
    | rewrite floatAt_here by apply floatBytes_length
    | rewrite floatAt_last by apply floatBytes_length ];
  rewrite ?floatAt_floatBytes by assumption.

Ltac half_chunks :=
  repeat first
    [ rewrite halfAt_next by apply halfBytes_length
    | rewrite halfAt_here by apply halfBytes_length
    | rewrite halfAt_last by apply halfBytes_length ];
  rewrite ?halfAt_halfBytes by (apply half_roundtrip; assumption).

Lemma float_bytes_roundtrip (f : PixelFormat) (r g b a : spec_float) :
  isAccessible f = true ->
  in_unit r -> in_unit g -> in_unit b -> in_unit a ->
  exists bs r' g' b' a',
    packColor_bytes r g b a f = Ret bs /\
    Z.of_nat (length bs) = getNumElemBytes f /\
    unpackColor_bytes f bs = Ret (r', g', b', a') /\
    reproduced (rbits (getDescriptionFor f)) r r' /\
    reproduced (gbits (getDescriptionFor f)) g g' /\
    reproduced (bbits (getDescriptionFor f)) b b' /\
    reproduced (abits (getDescriptionFor f)) a a'.
Proof.
  intros Hacc Hr Hg Hb Ha.
  destruct (isNativeEndian f) eqn:Hn.
  - destruct (native_float_roundtrip f r g b a Hn Hr Hg Hb Ha)
      as (bs & r' & g' & b' & a' & Hp & Hl & Hu & Wr & Wg & Wb & Wa).
    destruct (native_desc f Hn) as (_ & Hrb & Hgb & Hbb & _ & Halpha).
    exists bs, r', g', b', a'. rewrite Hrb, Hgb, Hbb.
    split; [exact Hp|]. split; [exact Hl|]. split; [exact Hu|].
    split4; try (apply reproduced_8; assumption).
    destruct Halpha as [[Hab _] | Hab]; rewrite Hab.
    + apply reproduced_8. apply Wa. exact Hab.
    + apply reproduced_other; discriminate.
  - destruct (fixed8_roundtrip r Hr) as (qr & Eqr & Rr & Wr).
    destruct (fixed8_roundtrip g Hg) as (qg & Eqg & Rg & Wg).
    assert (Hur : u8 qr = qr) by (apply Z.mod_small; exact Rr).
    assert (Hug : u8 qg = qg) by (apply Z.mod_small; exact Rg).
    destruct f; try discriminate Hacc; try discriminate Hn.
    + (* PF_R8 *)
      exists [qr]. do 4 eexists.
      split; [|split; [reflexivity|split; [reflexivity|]]].
      * change (packColor_bytes r g b a PF_R8)
          with (let? fr := olift (Bitwise.floatToFixed r 8) in Ret [u8 fr]).
        rewrite Eqr. cbn [olift obind]. rewrite Hur. reflexivity.
      * split4; try (apply reproduced_other; discriminate).
        apply reproduced_8. exact Wr.
    + (* PF_R8G8 *)
      exists [qr; qg]. do 4 eexists.
      split; [|split; [reflexivity|split; [reflexivity|]]].
      * change (packColor_bytes r g b a PF_R8G8)
          with (let? fr := olift (Bitwise.floatToFixed r 8) in
                let? fg := olift (Bitwise.floatToFixed g 8) in
                Ret [u8 fr; u8 fg]).
        rewrite Eqr, Eqg. cbn [olift obind]. rewrite Hur, Hug. reflexivity.
      * split4; try (apply reproduced_other; discriminate);
          apply reproduced_8; assumption.
    + (* PF_FLOAT16_R *)
      do 5 eexists. split; [reflexivity|]. split; [reflexivity|].
      split; [reflexivity|].
      change (rbits (getDescriptionFor PF_FLOAT16_R)) with 16.
      half_chunks.
      split4; try (apply reproduced_other; discriminate);
        apply reproduced_16; assumption.
    + do 5 eexists. split; [reflexivity|]. split; [reflexivity|].
      split; [reflexivity|].
      change (rbits (getDescriptionFor PF_FLOAT16_RG)) with 16.
      change (gbits (getDescriptionFor PF_FLOAT16_RG)) with 16.
      half_chunks.
      split4; try (apply reproduced_other; discriminate);
        apply reproduced_16; assumption.
    + do 5 eexists. split; [reflexivity|]. split; [reflexivity|].
      split; [reflexivity|].
      change (rbits (getDescriptionFor PF_FLOAT16_RGB)) with 16.
      change (gbits (getDescriptionFor PF_FLOAT16_RGB)) with 16.
      change (bbits (getDescriptionFor PF_FLOAT16_RGB)) with 16.
      half_chunks.
      split4; try (apply reproduced_other; discriminate);
        apply reproduced_16; assumption.
    + do 5 eexists. split; [reflexivity|]. split; [reflexivity|].
      split; [reflexivity|].
      change (rbits (getDescriptionFor PF_FLOAT16_RGBA)) with 16.
      change (gbits (getDescriptionFor PF_FLOAT16_RGBA)) with 16.
      change (bbits (getDescriptionFor PF_FLOAT16_RGBA)) with 16.
      change (abits (getDescriptionFor PF_FLOAT16_RGBA)) with 16.
      half_chunks.
      split4; try (apply reproduced_other; discriminate);
        apply reproduced_16; assumption.
    + (* PF_FLOAT32_R *)
      do 5 eexists. split; [reflexivity|]. split; [reflexivity|].
      split; [reflexivity|].
      change (rbits (getDescriptionFor PF_FLOAT32_R)) with 32.
      float_chunks.
      split4; try (apply reproduced_other; discriminate);
        apply reproduced_32.
    + do 5 eexists. split; [reflexivity|]. split; [reflexivity|].
      split; [reflexivity|].
      change (rbits (getDescriptionFor PF_FLOAT32_RG)) with 32.
      change (gbits (getDescriptionFor PF_FLOAT32_RG)) with 32.
      float_chunks.
      split4; try (apply reproduced_other; discriminate);
        apply reproduced_32.
    + do 5 eexists. split; [reflexivity|]. split; [reflexivity|].
      split; [reflexivity|].
      change (rbits (getDescriptionFor PF_FLOAT32_RGB)) with 32.
      change (gbits (getDescriptionFor PF_FLOAT32_RGB)) with 32.
      change (bbits (getDescriptionFor PF_FLOAT32_RGB)) with 32.
      float_chunks.
      split4; try (apply reproduced_other; discriminate);
        apply reproduced_32.
    + do 5 eexists. split; [reflexivity|]. split; [reflexivity|].
      split; [reflexivity|].
      change (rbits (getDescriptionFor PF_FLOAT32_RGBA)) with 32.
      change (gbits (getDescriptionFor PF_FLOAT32_RGBA)) with 32.
      change (bbits (getDescriptionFor PF_FLOAT32_RGBA)) with 32.
      change (abits (getDescriptionFor PF_FLOAT32_RGBA)) with 32.
      float_chunks.
      split4; try (apply reproduced_other; discriminate);
        apply reproduced_32.
Qed.

(** ** The byte overloads through the 8-bit formats *)

Lemma byte_float_byte (x : Z) :
  is_byte x ->
  Bitwise.floatToFixed (F32.div (F32.of_Z x) (F32.of_Z 255)) 8 = Some x.
Proof.
  intros Hx.
  assert (H : forallb
                (fun x =>
                   match Bitwise.floatToFixed
                           (F32.div (F32.of_Z x) (F32.of_Z 255)) 8 with
                   | Some q => q =? x
                   | None => false
                   end) all_bytes = true)
    by (vm_compute; reflexivity).
  pose proof (byte_forall _ H x Hx) as Hq. cbv beta in Hq.
  destruct (Bitwise.floatToFixed (F32.div (F32.of_Z x) (F32.of_Z 255)) 8);
    [|discriminate].
  apply Z.eqb_eq in Hq. rewrite Hq. reflexivity.
Qed.

Lemma native_byte_roundtrip (f : PixelFormat) (r g b a : Z) :
  isNativeEndian f = true ->
  is_byte r -> is_byte g -> is_byte b -> is_byte a ->
  exists bs r' g' b' a',
    packColor_UINT8_bytes r g b a f = Ret bs /\
    Z.of_nat (length bs) = getNumElemBytes f /\
    unpackColor_UINT8_bytes f bs = Ret (r', g', b', a') /\
    r' = r /\ g' = g /\ b' = b /\
    (abits (getDescriptionFor f) = 8 -> a' = a).
Proof.
  intros Hn Hr Hg Hb Ha. unfold is_byte in *.
  destruct (native_desc f Hn) as (Hflag & Hrb & Hgb & Hbb & Hbytes & Halpha).
  set (des := getDescriptionFor f) in *.
  set (qa := if abits des =? 0 then 0 else a).
  assert (Eqa : Bitwise.fixedToFixed a 8 (abits des) = Some qa).
  { unfold qa. destruct Halpha as [[Hab _] | Hab]; rewrite Hab.
    - reflexivity.
    - unfold Bitwise.fixedToFixed. cbn [Z.gtb Z.compare Z.eqb].
      rewrite Z.shiftr_div_pow2 by lia. change (2 ^ (8 - 0)) with 256.
      rewrite Z.div_small by lia. reflexivity. }
  assert (Ra : 0 <= qa < 256) by (unfold qa; destruct (abits des =? 0); lia).
  assert (Za : abits des = 0 -> qa = 0)
    by (intros E; unfold qa; rewrite E; reflexivity).
  assert (Hn14 : 1 <= elemBytes des <= 4) by lia.
  pose proof (native_fields f r g b qa Hn Hr Hg Hb Ra Za)
    as (Fr & Fg & Fb & Fa).
  fold des in Fr, Fg, Fb, Fa. cbv zeta in Fr, Fg, Fb, Fa.
  exists (Bitwise.intWrite (elemBytes des) (packed_value des r g b qa)).
  exists r, g, b.
  exists (if has_flag (flags des) PFF_HASALPHA then qa else 255).
  split; [|split; [|split]].
  - unfold packColor_UINT8_bytes. fold des. cbv zeta. rewrite Hflag.
    rewrite Hrb, Hgb, Hbb, Eqa. reflexivity.
  - apply intWrite_length. exact Hn14.
  - unfold unpackColor_UINT8_bytes. fold des. cbv zeta. rewrite Hflag.
    rewrite intRead_intWrite by exact Hn14.
    rewrite Fr, Fg, Fb, Fa, Hrb, Hgb, Hbb.
    change (Bitwise.fixedToFixed ?x 8 8) with (Some x).
    cbn [olift obind].
    assert (Hu8 : forall x, 0 <= x < 256 -> u8 x = x)
      by (intros x Hx; apply Z.mod_small; exact Hx).
    rewrite (Hu8 r), (Hu8 g), (Hu8 b) by assumption.
    destruct (has_flag (flags des) PFF_HASALPHA); [|reflexivity].
    replace (Bitwise.fixedToFixed qa (abits des) 8) with (Some qa).
    + cbn [olift obind]. rewrite (Hu8 qa) by assumption. reflexivity.
    + unfold qa. destruct Halpha as [[Hab _] | Hab]; rewrite Hab; reflexivity.
  - repeat split. intros Hab. destruct Halpha as [[_ Hha] | Hab0]; [|congruence].
    rewrite Hha. unfold qa. rewrite Hab. reflexivity.
Qed.

Lemma byte_bytes_roundtrip (f : PixelFormat) (r g b a : Z) :
  isAccessible f = true -> eight_bit_channels f ->
  is_byte r -> is_byte g -> is_byte b -> is_byte a ->
  exists bs r' g' b' a',
    packColor_UINT8_bytes r g b a f = Ret bs /\
    Z.of_nat (length bs) = getNumElemBytes f /\
    unpackColor_UINT8_bytes f bs = Ret (r', g', b', a') /\
    (rbits (getDescriptionFor f) = 8 -> r' = r) /\
    (gbits (getDescriptionFor f) = 8 -> g' = g) /\
    (bbits (getDescriptionFor f) = 8 -> b' = b) /\
    (abits (getDescriptionFor f) = 8 -> a' = a).
Proof.
  intros Hacc H8 Hr Hg Hb Ha.
  destruct (isNativeEndian f) eqn:Hn.
  - destruct (native_byte_roundtrip f r g b a Hn Hr Hg Hb Ha)
      as (bs & r' & g' & b' & a' & Hp & Hl & Hu & -> & -> & -> & Ea).
    exists bs, r, g, b, a'. repeat split; auto.
  - pose proof (byte_float_byte r Hr) as Er.
    pose proof (byte_float_byte g Hg) as Eg.
    assert (Hu8 : forall x, is_byte x -> u8 x = x)
      by (intros x Hx; apply Z.mod_small; exact Hx).
    destruct H8 as (Hr8 & Hg8 & Hb8 & Ha8).
    destruct f; try discriminate Hacc; try discriminate Hn;
      try (exfalso; clear - Hr8; vm_compute in Hr8;
           destruct Hr8; discriminate).
    + (* PF_R8 *)
      exists [r], r, 0, 0, 255.
      split; [|split; [reflexivity|split]].
      * change (packColor_UINT8_bytes r g b a PF_R8)
          with (let? fr := olift (Bitwise.floatToFixed
                                    (F32.div (F32.of_Z r) (F32.of_Z 255)) 8)
                in Ret [u8 fr]).
        rewrite Er. cbn [olift obind]. rewrite Hu8 by exact Hr. reflexivity.
      * change (unpackColor_UINT8_bytes PF_R8 [r])
          with (let? fr := olift (Bitwise.floatToFixed
                                    (F32.div (F32.of_Z r) (F32.of_Z 255)) 8)
                in Ret (u8 fr, 0, 0, 255)).
        rewrite Er. cbn [olift obind]. rewrite Hu8 by exact Hr. reflexivity.
      * repeat split; auto; discriminate.
    + (* PF_R8G8 *)
      exists [r; g], r, g, 0, 255.
      split; [|split; [reflexivity|split]].
      * change (packColor_UINT8_bytes r g b a PF_R8G8)
          with (let? fr := olift (Bitwise.floatToFixed
                                    (F32.div (F32.of_Z r) (F32.of_Z 255)) 8)
                in
                let? fg := olift (Bitwise.floatToFixed
                                    (F32.div (F32.of_Z g) (F32.of_Z 255)) 8)
                in Ret [u8 fr; u8 fg]).
        rewrite Er, Eg. cbn [olift obind].
        rewrite !Hu8 by assumption. reflexivity.
      * change (unpackColor_UINT8_bytes PF_R8G8 [r; g])
          with (let? fr := olift (Bitwise.floatToFixed
                                    (F32.div (F32.of_Z r) (F32.of_Z 255)) 8)
                in
                let? fg := olift (Bitwise.floatToFixed
                                    (F32.div (F32.of_Z g) (F32.of_Z 255)) 8)
                in Ret (u8 fr, u8 fg, 0, 255)).
        rewrite Er, Eg. cbn [olift obind].
        rewrite !Hu8 by assumption. reflexivity.
      * repeat split; auto; discriminate.
Qed.

Lemma accessible_hasCodec (f : PixelFormat) :
  isAccessible f = true -> hasCodec f = true.
Proof. destruct f; intros H; try discriminate H; reflexivity. Qed.

(** C1 (as amended).  For every accessible format and every pixel that can
    be written at [p]: packing a colour whose components are floats of
    [0,1] and unpacking it again (float overloads) returns, and reproduces
    every channel that the format stores as an 8-bit fraction or as a
    32-bit float within [1 / (2^bits - 1)], the 32-bit ones exactly, and
    every channel that the format stores as a 16-bit half float to the
    precision of a half float: the channel comes back no larger than it
    went in and less than [2^-11] below; and when every stored channel is
    8 bits wide, packing four bytes and unpacking them again (byte
    overloads) returns every stored channel unchanged.  Nothing is
    promised of the channels a format does not store. *)
Theorem pack_unpack_roundtrip (f : PixelFormat) (s : state) (p : ptr) :
  isAccessible f = true ->
  writable s p (getNumElemBytes f) ->
  (forall r g b a : spec_float,
     in_unit r -> in_unit g -> in_unit b -> in_unit a ->
     exists r' g' b' a' s',
       (packColor r g b a f p ;;; unpackColor f p) s
       = (Ret (r', g', b', a'), s') /\
       reproduced (rbits (getDescriptionFor f)) r r' /\
       reproduced (gbits (getDescriptionFor f)) g g' /\
       reproduced (bbits (getDescriptionFor f)) b b' /\
       reproduced (abits (getDescriptionFor f)) a a') /\
  (forall r g b a : Z,
     eight_bit_channels f ->
     is_byte r -> is_byte g -> is_byte b -> is_byte a ->
     exists r' g' b' a' s',
       (packColor_UINT8 r g b a f p ;;; unpackColor_UINT8 f p) s
       = (Ret (r', g', b', a'), s') /\
       (rbits (getDescriptionFor f) = 8 -> r' = r) /\
       (gbits (getDescriptionFor f) = 8 -> g' = g) /\
       (bbits (getDescriptionFor f) = 8 -> b' = b) /\
       (abits (getDescriptionFor f) = 8 -> a' = a)).
Proof.
  intros Hacc Hw. pose proof (accessible_hasCodec f Hacc) as Hc. split.
  - intros r g b a Hr Hg Hb Ha.
    destruct (float_bytes_roundtrip f r g b a Hacc Hr Hg Hb Ha)
      as (bs & r' & g' & b' & a' & Hp & Hl & Hu & Hrep).
    destruct (pack_unpack_through_bytes f s p r g b a bs Hc Hp Hl Hw)
      as (s' & Hrun).
    exists r', g', b', a', s'. rewrite Hrun, Hu. split; [reflexivity|exact Hrep].
  - intros r g b a H8 Hr Hg Hb Ha.
    destruct (byte_bytes_roundtrip f r g b a Hacc H8 Hr Hg Hb Ha)
      as (bs & r' & g' & b' & a' & Hp & Hl & Hu & Hrep).
    destruct (pack_unpack_UINT8_through_bytes f s p r g b a bs Hc Hp Hl Hw)
      as (s' & Hrun).
    exists r', g', b', a', s'. rewrite Hrun, Hu. split; [reflexivity|exact Hrep].
Qed.

Lemma one_block_writable (n : Z) : n <= 16 -> writable one_block block_start n.
Proof.
  intros Hn. exists 0%nat, (replicate 16 0).
  split; [reflexivity|]. split; [reflexivity|]. split; [reflexivity|].
  exact Hn.
Qed.

Lemma pack_unpack_roundtrip_witness :
  (exists r' g' b' a' s',
     (packColor f_half f_half f_half f_half PF_A8R8G8B8 block_start ;;;
      unpackColor PF_A8R8G8B8 block_start) one_block
     = (Ret (r', g', b', a'), s') /\
     reproduced (rbits (getDescriptionFor PF_A8R8G8B8)) f_half r' /\
     reproduced (gbits (getDescriptionFor PF_A8R8G8B8)) f_half g' /\
     reproduced (bbits (getDescriptionFor PF_A8R8G8B8)) f_half b' /\
     reproduced (abits (getDescriptionFor PF_A8R8G8B8)) f_half a') /\
  (exists r' g' b' a' s',
     (packColor_UINT8 10 20 30 40 PF_A8R8G8B8 block_start ;;;
      unpackColor_UINT8 PF_A8R8G8B8 block_start) one_block
     = (Ret (r', g', b', a'), s') /\
     (rbits (getDescriptionFor PF_A8R8G8B8) = 8 -> r' = 10) /\
     (gbits (getDescriptionFor PF_A8R8G8B8) = 8 -> g' = 20) /\
     (bbits (getDescriptionFor PF_A8R8G8B8) = 8 -> b' = 30) /\
     (abits (getDescriptionFor PF_A8R8G8B8) = 8 -> a' = 40)).
Proof.
  assert (Hw : writable one_block block_start (getNumElemBytes PF_A8R8G8B8))
    by (apply one_block_writable; vm_compute; discriminate).
  assert (Hu : in_unit f_half) by (repeat split; reflexivity).
  destruct (pack_unpack_roundtrip PF_A8R8G8B8 one_block block_start
              eq_refl Hw) as [HF HB].
  split.
  - apply HF; exact Hu.
  - apply HB.
    + repeat split; left; reflexivity.
    + unfold is_byte; lia.
    + unfold is_byte; lia.
    + unfold is_byte; lia.
    + unfold is_byte; lia.
Defined.

(** C1 as stated fails on the half-float formats: 0.7f packed into
    [PF_FLOAT16_R] comes back as 0.69970703125, which is further from it
    than 1/65535. *)
Lemma half_float_counterexample :
  in_unit f_0_7 /\
  isAccessible PF_FLOAT16_R = true /\
  fst ((packColor f_0_7 f_0_7 f_0_7 f_0_7 PF_FLOAT16_R block_start ;;;
        unpackColor PF_FLOAT16_R block_start) one_block)
  = Ret (F32.of_bits 0x3F332000, F32.of_bits 0x3F332000,
         F32.of_bits 0x3F332000, F32.one) /\
  ~ within_quantum (rbits (getDescriptionFor PF_FLOAT16_R))
      f_0_7 (F32.of_bits 0x3F332000).
Proof.
  split; [repeat split; reflexivity|]. split; [reflexivity|].
  split; [vm_compute; reflexivity|].
  intros H. vm_compute in H. apply H. reflexivity.
Qed.

(** ** [floatToFixed] is defined on every number *)

Lemma of_bits_valid (w : Z) : F32.valid (F32.of_bits w) = true.
Proof.
  unfold F32.of_bits.
  change 0xFF with (Z.ones 8). change 0x7FFFFF with (Z.ones 23).
  rewrite !Z.land_ones by lia.
  pose proof (Z.mod_pos_bound (Z.shiftr w 23) (2 ^ 8) ltac:(lia)) as He.
  pose proof (Z.mod_pos_bound w (2 ^ 23) ltac:(lia)) as Hm.
  set (E := Z.shiftr w 23 mod 2 ^ 8) in *. set (m := w mod 2 ^ 23) in *.
  change (2 ^ 8) with 256 in He. change (2 ^ 23) with 8388608 in Hm.
  destruct (Z.eqb_spec E 0) as [HE0 | HE0].
  - destruct m as [|p|p] eqn:Em; [reflexivity| |reflexivity].
    unfold F32.valid, valid_binary, bounded, canonical_mantissa, fexp, emin,
      F32.prec, F32.emax.
    pose proof (digits2_pos_spec p) as [Hlo _].
    assert (Hd : Zpos (digits2_pos p) <= 23).
    { destruct (Z.le_gt_cases (Zpos (digits2_pos p)) 23) as [|Hgt];
        [assumption|]. exfalso.
      assert (H23 : 2 ^ 23 <= 2 ^ (Zpos (digits2_pos p) - 1))
        by (apply Z.pow_le_mono_r; lia).
      change (2 ^ 23) with 8388608 in H23. clear - H23 Hlo Hm. lia. }
    clear Hlo. apply andb_true_intro. split.
    + apply Z.eqb_eq. lia.
    + apply Z.leb_le. lia.
  - destruct (Z.eqb_spec E (Z.ones 8)) as [HE1 | HE1].
    + destruct (m =? 0); reflexivity.
    + change (Z.ones 8) with 255 in HE1.
      destruct (m + 8388608) as [|p|p] eqn:Ep; [reflexivity| |reflexivity].
      unfold F32.valid, valid_binary, bounded, canonical_mantissa, fexp,
        emin, F32.prec, F32.emax.
      assert (Hd : Zpos (digits2_pos p) = 24).
      { apply digits2_pos_unique. rewrite <- Ep.
        change (2 ^ (24 - 1)) with 8388608. change (2 ^ 24) with 16777216.
        lia. }
      rewrite Hd. apply andb_true_intro. split.
      * apply Z.eqb_eq. lia.
      * apply Z.leb_le. lia.
Qed.

Lemma floatToFixed_total (v : spec_float) (k : Z) :
  k = 0 \/ k = 8 ->
  F32.valid v = true -> F32.is_nan v = false ->
  exists q, Bitwise.floatToFixed v k = Some q /\ 0 <= q < 2 ^ k.
Proof.
  intros Hk Hv Hnan.
  assert (Hpk : 0 < 2 ^ k) by (destruct Hk as [-> | ->]; reflexivity).
  assert (Htop : Bitwise.floatToFixed F32.one k = Some (2 ^ k - 1))
    by (destruct Hk as [-> | ->]; reflexivity).
  destruct v as [s | s | | s m e]; try discriminate Hnan.
  - exists 0. split; [destruct s; reflexivity | lia].
  - destruct s.
    + exists 0. split; [reflexivity | lia].
    + exists (2 ^ k - 1). split; [|lia].
      destruct Hk as [-> | ->]; reflexivity.
  - destruct s.
    + exists 0. split; [reflexivity | lia].
    + destruct (F32.geb (S754_finite false m e) F32.one) eqn:Hg.
      * exists (2 ^ k - 1). split; [|lia].
        unfold Bitwise.floatToFixed.
        replace (F32.leb (S754_finite false m e) F32.zero) with false
          by reflexivity.
        rewrite Hg. destruct Hk as [-> | ->]; reflexivity.
      * assert (H1 : F32.leb (S754_finite false m e) F32.one = true).
        { revert Hg. rewrite F32_one_eq.
          unfold F32.geb, F32.leb, SFleb, SFcompare.
          rewrite !Pos.compare_cont_spec. cbn [Pos.switch_Eq].
          rewrite (Z.compare_antisym e (-23)).
          rewrite (Pos.compare_antisym m 8388608).
          destruct (Z.compare e (-23)); cbn [CompOpp];
            try (intros; reflexivity); try discriminate.
          destruct (Pos.compare m 8388608); cbn [CompOpp];
            try (intros; reflexivity); discriminate. }
        destruct (floatToFixed_unit _ k Hk Hv eq_refl H1) as (q & Hq & Hr & _).
        exists q. split; assumption.
Qed.

(** ** The alpha default *)

Lemma load_holds_bytes (s : state) (p : ptr) (n : Z) :
  0 <= n -> holds_bytes s p n ->
  exists bs s', load p n s = (Ret bs, s') /\ Forall is_byte bs /\
                heap s' = heap s.
Proof.
  intros Hn (b & l & Hp & Hl & Hb & H0 & H1).
  unfold load. rewrite Hp, Hl. unfold slice.
  replace ((0 <=? poff p) && (0 <=? n) && (poff p + n <=? Z.of_nat (length l)))
    with true
    by (symmetry; repeat (apply andb_true_intro; split); apply Z.leb_le; lia).
  eexists _, _. split; [reflexivity|]. split; [|reflexivity].
  apply Forall_take, Forall_drop, Hb.
Qed.

Lemma byteAt_byte (bs : list Z) (i : nat) :
  Forall is_byte bs -> is_byte (byteAt bs i).
Proof.
  intros Hb. unfold byteAt.
  destruct (nth_in_or_default i bs 0) as [Hin | ->].
  - rewrite List.Forall_forall in Hb. apply Hb, Hin.
  - unfold is_byte. lia.
Qed.

Lemma unpack_UINT8_via_float (f : PixelFormat) (bs : list Z)
    (r g b a : spec_float) (r8 g8 b8 a8 : Z) :
  has_flag (flags (getDescriptionFor f)) PFF_NATIVEENDIAN = false ->
  unpackColor_bytes f bs = Ret (r, g, b, a) ->
  Bitwise.floatToFixed r 8 = Some r8 ->
  Bitwise.floatToFixed g 8 = Some g8 ->
  Bitwise.floatToFixed b 8 = Some b8 ->
  Bitwise.floatToFixed a 8 = Some a8 ->
  unpackColor_UINT8_bytes f bs = Ret (u8 r8, u8 g8, u8 b8, u8 a8).
Proof.
  intros Hn Hu Hr Hg Hb Ha. unfold unpackColor_UINT8_bytes. cbv zeta.
  rewrite Hn, Hu. cbn [obind olift]. rewrite Hr, Hg, Hb, Ha. reflexivity.
Qed.

Lemma number_to_byte (v : spec_float) :
  F32.valid v = true -> F32.is_nan v = false ->
  exists q, Bitwise.floatToFixed v 8 = Some q.
Proof.
  intros Hv Hn.
  destruct (floatToFixed_total v 8 (or_intror eq_refl) Hv Hn) as (q & Hq & _).
  exists q. exact Hq.
Qed.

Lemma fixedToFloat_byte (x : Z) :
  is_byte x -> Bitwise.floatToFixed (Bitwise.fixedToFloat x 8) 8 = Some x.
Proof. intros Hx. apply byte_float_byte, Hx. Qed.

Lemma unpack_alpha_bytes (f : PixelFormat) (bs : list Z) :
  isAccessible f = true -> hasAlpha f = false -> Forall is_byte bs ->
  exists r g b,
    unpackColor_bytes f bs = Ret (r, g, b, F32.one) /\
    (F32.is_nan r = false -> F32.is_nan g = false -> F32.is_nan b = false ->
     exists r8 g8 b8,
       unpackColor_UINT8_bytes f bs = Ret (r8, g8, b8, 255)).
Proof.
  intros Hacc Halpha Hbs.
  assert (Hone : Bitwise.floatToFixed F32.one 8 = Some 255) by reflexivity.
  assert (Hzero : Bitwise.floatToFixed F32.zero 8 = Some 0) by reflexivity.
  pose proof (fixedToFloat_byte _ (byteAt_byte bs 0 Hbs)) as Hb0.
  pose proof (fixedToFloat_byte _ (byteAt_byte bs 1 Hbs)) as Hb1.
  destruct f; try discriminate Hacc; try discriminate Halpha;
    eexists _, _, _; (split; [reflexivity|]); intros Hr Hg Hb;
    try (eexists _, _, _; reflexivity).
  all: try (destruct (number_to_byte _ (of_bits_valid _) Hr) as (r8 & Hr8));
    try (destruct (number_to_byte _ (of_bits_valid _) Hg) as (g8 & Hg8));
    try (destruct (number_to_byte _ (of_bits_valid _) Hb) as (b8 & Hb8)).
  all: eexists (u8 _), (u8 _), (u8 _); change 255 with (u8 255) at 1;
    match goal with
    | |- unpackColor_UINT8_bytes ?f _ = _ =>
        eapply (unpack_UINT8_via_float f bs _ _ _ _ _ _ _ 255 eq_refl eq_refl)
    end;
    first [eassumption | exact Hone | exact Hzero].
Qed.

Lemma elemBytes_nonneg (f : PixelFormat) : 0 <= getNumElemBytes f.
Proof. destruct f; vm_compute; discriminate. Qed.

Lemma no_alpha_no_width (f : PixelFormat) :
  hasAlpha f = false -> abits (getDescriptionFor f) = 0.
Proof. destruct f; intros H; try discriminate H; reflexivity. Qed.

Lemma no_alpha_flag (f : PixelFormat) :
  hasAlpha f = false ->
  has_flag (flags (getDescriptionFor f)) PFF_HASALPHA = false.
Proof. destruct f; intros H; try discriminate H; reflexivity. Qed.

Lemma packColor_bytes_alpha (f : PixelFormat) (r g b a a' : spec_float) :
  isAccessible f = true -> hasAlpha f = false ->
  F32.valid a = true -> F32.valid a' = true ->
  F32.is_nan a = false -> F32.is_nan a' = false ->
  packColor_bytes r g b a f = packColor_bytes r g b a' f.
Proof.
  intros Hacc Halpha Hv Hv' Hn Hn'.
  destruct (floatToFixed_total a 0 (or_introl eq_refl) Hv Hn) as (q & Hq & Hr).
  destruct (floatToFixed_total a' 0 (or_introl eq_refl) Hv' Hn')
    as (q' & Hq' & Hr').
  assert (q = 0) by (change (2 ^ 0) with 1 in Hr; lia).
  assert (q' = 0) by (change (2 ^ 0) with 1 in Hr'; lia).
  subst q q'.
  unfold packColor_bytes. cbv zeta. rewrite (no_alpha_no_width f Halpha).
  rewrite Hq, Hq'.
  destruct (has_flag (flags (getDescriptionFor f)) PFF_NATIVEENDIAN) eqn:Hnat;
    [reflexivity|].
  destruct f; try discriminate Hacc; try discriminate Halpha;
    try discriminate Hnat; reflexivity.
Qed.

Lemma packColor_UINT8_bytes_alpha (f : PixelFormat) (r g b a a' : Z) :
  isAccessible f = true -> hasAlpha f = false ->
  is_byte a -> is_byte a' ->
  packColor_UINT8_bytes r g b a f = packColor_UINT8_bytes r g b a' f.
Proof.
  intros Hacc Halpha Ha Ha'.
  assert (Hshift : forall x, is_byte x -> Bitwise.fixedToFixed x 8 0 = Some 0).
  { intros x Hx. unfold Bitwise.fixedToFixed. cbn [Z.gtb Z.compare].
    change (8 - 0) with 8. rewrite Z.shiftr_div_pow2 by lia.
    f_equal. apply Z.div_small. exact Hx. }
  unfold packColor_UINT8_bytes. cbv zeta. rewrite (no_alpha_no_width f Halpha).
  rewrite (Hshift a Ha), (Hshift a' Ha').
  destruct (has_flag (flags (getDescriptionFor f)) PFF_NATIVEENDIAN) eqn:Hnat;
    [reflexivity|].
  destruct f; try discriminate Hacc; try discriminate Halpha;
    try discriminate Hnat; reflexivity.
Qed.

(** C5 (as amended).  For every accessible format without the alpha flag:
    unpacking any pixel held in memory returns alpha [1.0] on the float path
    and, when the three colour channels read are numbers, alpha [255] on the
    byte path, whatever the bytes are, and leaves memory as it was; and the
    bytes [packColor] writes do not depend on the alpha passed (a number on
    the float path, a byte on the byte path): the alpha width of the format
    is zero, so the alpha field that is or-ed in is zero. *)
Theorem alpha_default (f : PixelFormat) :
  isAccessible f = true -> hasAlpha f = false ->
  (forall (s : state) (src : ptr),
     holds_bytes s src (getNumElemBytes f) ->
     exists r g b s',
       unpackColor f src s = (Ret (r, g, b, F32.one), s') /\
       heap s' = heap s /\
       (F32.is_nan r = false -> F32.is_nan g = false ->
        F32.is_nan b = false ->
        exists r8 g8 b8,
          unpackColor_UINT8 f src s = (Ret (r8, g8, b8, 255), s'))) /\
  (forall (r g b a a' : spec_float) (dest : ptr) (s : state),
     F32.valid a = true -> F32.valid a' = true ->
     F32.is_nan a = false -> F32.is_nan a' = false ->
     packColor r g b a f dest s = packColor r g b a' f dest s) /\
  (forall (r g b a a' : Z) (dest : ptr) (s : state),
     is_byte a -> is_byte a' ->
     packColor_UINT8 r g b a f dest s = packColor_UINT8 r g b a' f dest s) /\
  abits (getDescriptionFor f) = 0.
Proof.
  intros Hacc Halpha. split; [|split; [|split]].
  - intros s src Hsrc.
    destruct (load_holds_bytes s src _ (elemBytes_nonneg f) Hsrc)
      as (bs & s' & Hload & Hbs & Hheap).
    destruct (unpack_alpha_bytes f bs Hacc Halpha Hbs)
      as (r & g & b & Hu & Hu8).
    exists r, g, b, s'. split; [|split; [exact Hheap|]].
    + unfold unpackColor, bind, run_pure.
      rewrite (accessible_hasCodec f Hacc), Hload, Hu. reflexivity.
    + intros Hr Hg Hb. destruct (Hu8 Hr Hg Hb) as (r8 & g8 & b8 & H8).
      exists r8, g8, b8. unfold unpackColor_UINT8, bind, run_pure.
      rewrite (accessible_hasCodec f Hacc), Hload, H8. reflexivity.
  - intros r g b a a' dest s Hv Hv' Hn Hn'. unfold packColor, bind, run_pure.
    rewrite (packColor_bytes_alpha f r g b a a' Hacc Halpha Hv Hv' Hn Hn').
    reflexivity.
  - intros r g b a a' dest s Ha Ha'. unfold packColor_UINT8, bind, run_pure.
    rewrite (packColor_UINT8_bytes_alpha f r g b a a' Hacc Halpha Ha Ha').
    reflexivity.
  - apply no_alpha_no_width, Halpha.
Qed.

Lemma one_block_holds_bytes (n : Z) :
  n <= 16 -> holds_bytes one_block block_start n.
Proof.
  intros Hn. exists 0%nat, (replicate 16 0).
  split; [reflexivity|]. split; [reflexivity|].
  split; [|split; [reflexivity | exact Hn]].
  apply Forall_replicate. unfold is_byte. lia.
Qed.

Lemma alpha_default_witness :
  (exists r g b s',
     unpackColor PF_R8G8B8 block_start one_block
     = (Ret (r, g, b, F32.one), s') /\
     heap s' = heap one_block /\
     (F32.is_nan r = false -> F32.is_nan g = false ->
      F32.is_nan b = false ->
      exists r8 g8 b8,
        unpackColor_UINT8 PF_R8G8B8 block_start one_block
        = (Ret (r8, g8, b8, 255), s'))) /\
  packColor f_half f_half f_half F32.zero PF_R8G8B8 block_start one_block
  = packColor f_half f_half f_half F32.one PF_R8G8B8 block_start one_block.
Proof.
  pose proof (alpha_default PF_R8G8B8 eq_refl eq_refl) as (Hu & Hp & _).
  split.
  - apply Hu, one_block_holds_bytes. vm_compute. discriminate.
  - apply Hp; reflexivity.
Defined.

(** C5 as stated fails: [PF_X8R8G8B8] has no alpha channel and its alpha
    mask is [0xFF], not zero; and a format without alpha that is not
    accessible, such as [PF_D16], is not unpacked at all. *)
Lemma alpha_mask_counterexample :
  ~ (forall f : PixelFormat,
       hasAlpha f = false -> amask (getDescriptionFor f) = 0) /\
  hasAlpha PF_D16 = false /\
  fst (unpackColor PF_D16 block_start one_block)
  = Throw NotImplementedException.
Proof.
  split; [|split; reflexivity].
  intros H. specialize (H PF_X8R8G8B8 eq_refl). discriminate H.
Qed.

(** ** Bulk conversion *)

Lemma assert_true (b : bool) (s : state) :
  b = true -> assert b s = (Ret tt, s).
Proof. intros ->. reflexivity. Qed.

Lemma same_extents (src dst : PixelData) :
  getWidth src = getWidth dst -> getHeight src = getHeight dst ->
  getDepth src = getDepth dst ->
  (getWidth src =? getWidth dst) && (getHeight src =? getHeight dst)
  && (getDepth src =? getDepth dst) = true.
Proof. intros -> -> ->. rewrite !Z.eqb_refl. reflexivity. Qed.





(** The copy of a 4x4 DXT1 block moves its eight bytes and nothing else. *)
Example bulkPixelConversion_dxt1_block :
  let r := bulkPixelConversion (buffer_at 0 4 4 1 PF_DXT1)
                               (buffer_at 1 4 4 1 PF_DXT1) two_blocks in
  fst r = Ret tt /\
  heap (snd r) !! 1%nat
  = Some ([10; 20; 30; 40; 50; 60; 70; 80] ++ replicate 8 0) /\
  heap (snd r) !! 0%nat = heap two_blocks !! 0%nat.
Proof. vm_compute. repeat split. Qed.

(** ** Calls that leave memory alone *)

Lemma heap_stable_ret {A} (a : A) : heap_stable (ret a).
Proof. intros s. reflexivity. Qed.

Lemma heap_stable_throw {A} (e : exn) : heap_stable (@throw A e).
Proof. intros s. reflexivity. Qed.

Lemma heap_stable_abort {A} : heap_stable (@abort A).
Proof. intros s. reflexivity. Qed.

Lemma heap_stable_run_pure {A} (o : outcome A) : heap_stable (run_pure o).
Proof. intros s. reflexivity. Qed.

Lemma heap_stable_assert (b : bool) : heap_stable (assert b).
Proof. intros s. destruct b; reflexivity. Qed.

Lemma heap_stable_bind {A B} (c : M A) (k : A -> M B) :
  heap_stable c -> (forall a, heap_stable (k a)) -> heap_stable (bind c k).
Proof.
  intros Hc Hk s. unfold bind. specialize (Hc s).
  destruct (c s) as [[a | e |] s1]; cbn [snd] in *.
  - rewrite (Hk a s1). exact Hc.
  - exact Hc.
  - exact Hc.
Qed.

Lemma heap_stable_load (p : ptr) (n : Z) : heap_stable (load p n).
Proof.
  intros s. unfold load. destruct (pblock p); [|reflexivity].
  destruct (heap s !! n0); [|reflexivity].
  destruct (slice l (poff p) n); reflexivity.
Qed.

Lemma heap_stable_store_null (p : ptr) (bs : list Z) :
  pblock p = None -> heap_stable (store p bs).
Proof. intros Hp s. unfold store. rewrite Hp. reflexivity. Qed.

Lemma heap_stable_loop {S} (n : nat) (body : S -> M S) :
  (forall x, heap_stable (body x)) -> forall x, heap_stable (loop n body x).
Proof.
  intros Hb. induction n as [|n IH]; intros x; cbn [loop].
  - apply heap_stable_ret.
  - apply heap_stable_bind; [apply Hb | exact IH].
Qed.

(** The same for loops that carry a pointer which must stay null. *)
Lemma heap_stable_loop_inv {S} (I : S -> Prop) (n : nat) (body : S -> M S) :
  (forall x, I x -> heap_stable (body x)) ->
  (forall x s y s', I x -> body x s = (Ret y, s') -> I y) ->
  forall x, I x -> heap_stable (loop n body x).
Proof.
  intros Hb Hi. induction n as [|n IH]; intros x Hx s; cbn [loop].
  - reflexivity.
  - unfold bind. pose proof (Hb x Hx s) as H1.
    destruct (body x s) as [[y | e |] s1] eqn:E; cbn [snd] in *;
      try exact H1.
    rewrite (IH y (Hi x s y s1 Hx E) s1). exact H1.
Qed.

Lemma heap_stable_memcpy_null (dst src : ptr) (n : Z) :
  pblock dst = None -> heap_stable (memcpy dst src n).
Proof.
  intros Hd. apply heap_stable_bind; [apply heap_stable_load|].
  intros bs. apply heap_stable_store_null, Hd.
Qed.

Lemma heap_stable_unpackColor (f : PixelFormat) (p : ptr) :
  heap_stable (unpackColor f p).
Proof.
  unfold unpackColor. destruct (hasCodec f); [|apply heap_stable_throw].
  apply heap_stable_bind; [apply heap_stable_load|].
  intros bs. apply heap_stable_run_pure.
Qed.

Lemma heap_stable_packColor_null (r g b a : spec_float) (f : PixelFormat)
    (p : ptr) :
  pblock p = None -> heap_stable (packColor r g b a f p).
Proof.
  intros Hp. apply heap_stable_bind; [apply heap_stable_run_pure|].
  intros bs. apply heap_stable_store_null, Hp.
Qed.

Lemma loop_inv {S} (I : S -> Prop) (n : nat) (body : S -> M S) :
  (forall x s y s', I x -> body x s = (Ret y, s') -> I y) ->
  forall x s y s', I x -> loop n body x s = (Ret y, s') -> I y.
Proof.
  intros Hi. induction n as [|n IH]; intros x s y s' Hx; cbn [loop].
  - intros H. inversion H. subst. exact Hx.
  - unfold bind. destruct (body x s) as [[z | e |] s1] eqn:E;
      try discriminate.
    intros H. exact (IH z s1 y s' (Hi x s z s1 Hx E) H).
Qed.

Lemma bind_ret_inv {A B} (c : M A) (k : A -> M B) (s : state) (y : B)
    (s' : state) :
  bind c k s = (Ret y, s') ->
  exists a s1, c s = (Ret a, s1) /\ k a s1 = (Ret y, s').
Proof.
  unfold bind. destruct (c s) as [[a | e |] s1]; try discriminate.
  intros H. exists a, s1. split; [reflexivity | exact H].
Qed.

Lemma step_keeps_null (c : M unit) (sp dp : ptr) (d1 d2 : Z) (s : state)
    (y : ptr * ptr) (s' : state) :
  pblock dp = None ->
  bind c (fun _ => ret (ptr_add sp d1, ptr_add dp d2)) s = (Ret y, s') ->
  null_dst y.
Proof.
  intros Hd H. apply bind_ret_inv in H as (a & s1 & _ & H).
  inversion H. subst. exact Hd.
Qed.

Lemma advance_keeps_null (c : M (ptr * ptr)) (d1 d2 : Z) (s : state)
    (y : ptr * ptr) (s' : state) :
  (forall z s1, c s = (Ret z, s1) -> null_dst z) ->
  bind c (fun '(sp, dp) => ret (ptr_add sp d1, ptr_add dp d2)) s
  = (Ret y, s') ->
  null_dst y.
Proof.
  intros Hc H. apply bind_ret_inv in H as ([sp dp] & s1 & E & H).
  inversion H. subst. exact (Hc _ _ E).
Qed.

Lemma heap_stable_copyRows (src dst : PixelData) :
  mData dst = None -> heap_stable (copyRows src dst).
Proof.
  intros Hd. unfold copyRows. cbv zeta.
  apply heap_stable_bind; [|intros; apply heap_stable_ret].
  match goal with
  | |- context [loop (trip (mTop src) (mBottom src)) ?body] =>
      set (row := body)
  end.
  assert (Hrow_inv : forall x s y s', null_dst x -> row x s = (Ret y, s')
                                      -> null_dst y).
  { intros [sp dp] s y s' Hx H. exact (step_keeps_null _ _ _ _ _ _ _ _ Hx H). }
  assert (Hrow : forall x, null_dst x -> heap_stable (row x)).
  { intros [sp dp] Hx. apply heap_stable_bind.
    - apply heap_stable_memcpy_null, Hx.
    - intros _. apply heap_stable_ret. }
  apply (heap_stable_loop_inv null_dst); [| |exact Hd].
  - intros [sp dp] Hx. apply heap_stable_bind.
    + apply (heap_stable_loop_inv null_dst); assumption.
    + intros [sp' dp']. apply heap_stable_ret.
  - intros [sp dp] s y s' Hx H.
    apply (advance_keeps_null _ _ _ _ _ _ (fun z s1 E =>
             loop_inv null_dst _ row Hrow_inv _ _ _ _ Hx E) H).
Qed.

Lemma heap_stable_convertPixels (src dst : PixelData) :
  mData dst = None -> heap_stable (convertPixels src dst).
Proof.
  intros Hd. unfold convertPixels. cbv zeta.
  apply heap_stable_bind; [|intros; apply heap_stable_ret].
  match goal with
  | |- context [loop (trip (mLeft src) (mRight src)) ?body] =>
      set (px := body)
  end.
  assert (Hpx_inv : forall x s y s', null_dst x -> px x s = (Ret y, s')
                                     -> null_dst y).
  { intros [sp dp] s y s' Hx H. unfold px in H.
    apply bind_ret_inv in H as ([[[r g] b] a] & s1 & _ & H).
    exact (step_keeps_null _ _ _ _ _ _ _ _ Hx H). }
  assert (Hpx : forall x, null_dst x -> heap_stable (px x)).
  { intros [sp dp] Hx. apply heap_stable_bind.
    - apply heap_stable_unpackColor.
    - intros [[[r g] b] a]. apply heap_stable_bind.
      + apply heap_stable_packColor_null, Hx.
      + intros _. apply heap_stable_ret. }
  match goal with
  | |- context [loop (trip (mTop src) (mBottom src)) ?body] =>
      set (row := body)
  end.
  assert (Hrow_inv : forall x s y s', null_dst x -> row x s = (Ret y, s')
                                      -> null_dst y).
  { intros [sp dp] s y s' Hx H.
    apply (advance_keeps_null _ _ _ _ _ _ (fun z s1 E =>
             loop_inv null_dst _ px Hpx_inv _ _ _ _ Hx E) H). }
  assert (Hrow : forall x, null_dst x -> heap_stable (row x)).
  { intros [sp dp] Hx. apply heap_stable_bind.
    - apply (heap_stable_loop_inv null_dst); assumption.
    - intros [sp' dp']. apply heap_stable_ret. }
  apply (heap_stable_loop_inv null_dst); [| |exact Hd].
  - intros [sp dp] Hx. apply heap_stable_bind.
    + apply (heap_stable_loop_inv null_dst); assumption.
    + intros [sp' dp']. apply heap_stable_ret.
  - intros [sp dp] s y s' Hx H.
    apply (advance_keeps_null _ _ _ _ _ _ (fun z s1 E =>
             loop_inv null_dst _ row Hrow_inv _ _ _ _ Hx E) H).
Qed.

Lemma heap_stable_bulk_null (fuel : nat) :
  forall src dst : PixelData,
    mData dst = None -> heap_stable (bulkPixelConversion_rec fuel src dst).
Proof.
  induction fuel as [|fuel IH]; intros src dst Hd;
    cbn [bulkPixelConversion_rec]; [apply heap_stable_abort|].
  apply heap_stable_bind; [apply heap_stable_assert|]. intros _.
  assert (Hcopy : heap_stable
                    (let* n := run_pure (getConsecutiveSize src) in
                     memcpy (getData dst) (getData src) n)).
  { apply heap_stable_bind; [apply heap_stable_run_pure|].
    intros n. apply heap_stable_memcpy_null, Hd. }
  destruct (isCompressed (mFormat src) || isCompressed (mFormat dst)).
  { destruct (bool_decide (mFormat src = mFormat dst));
      [exact Hcopy | apply heap_stable_throw]. }
  destruct (bool_decide (mFormat src = mFormat dst)).
  { destruct (isConsecutive src && isConsecutive dst);
      [exact Hcopy | apply heap_stable_copyRows, Hd]. }
  destruct (bool_decide (mFormat dst = PF_X8R8G8B8)
            || bool_decide (mFormat dst = PF_X8B8G8R8)).
  { apply IH. reflexivity. }
  destruct ((bool_decide (mFormat src = PF_X8R8G8B8)
             || bool_decide (mFormat src = PF_X8B8G8R8))
            && negb (hasAlpha (mFormat dst))).
  { apply IH, Hd. }
  apply heap_stable_convertPixels, Hd.
Qed.

Lemma heap_stable_bulk_padded (fuel : nat) (src dst : PixelData) :
  isCompressed (mFormat src) = false ->
  mFormat dst = PF_X8R8G8B8 \/ mFormat dst = PF_X8B8G8R8 ->
  mFormat src <> mFormat dst ->
  heap_stable (bulkPixelConversion_rec (S fuel) src dst).
Proof.
  intros Hc Hd Hne. cbn [bulkPixelConversion_rec].
  apply heap_stable_bind; [apply heap_stable_assert|]. intros _.
  assert (Hcd : isCompressed (mFormat dst) = false)
    by (destruct Hd as [-> | ->]; reflexivity).
  rewrite Hc, Hcd. cbn [orb].
  rewrite (bool_decide_eq_false_2 _ Hne).
  assert (Hx : bool_decide (mFormat dst = PF_X8R8G8B8)
               || bool_decide (mFormat dst = PF_X8B8G8R8) = true)
    by (destruct Hd as [-> | ->]; reflexivity).
  rewrite Hx. apply heap_stable_bulk_null. reflexivity.
Qed.

(** C2, the code as it is.  Converting into a [PF_X8R8G8B8] or
    [PF_X8B8G8R8] destination from any other uncompressed format changes no
    byte of memory: the conversion is delegated to a temporary buffer that
    is built from the extents and the substitute format alone and is never
    given the destination's data. *)
Theorem bulkPixelConversion_padded_destination (src dst : PixelData)
    (s : state) :
  isCompressed (mFormat src) = false ->
  mFormat dst = PF_X8R8G8B8 \/ mFormat dst = PF_X8B8G8R8 ->
  mFormat src <> mFormat dst ->
  heap (snd (bulkPixelConversion src dst s)) = heap s.
Proof.
  intros Hc Hd Hne. apply (heap_stable_bulk_padded 2 src dst Hc Hd Hne).
Qed.

Lemma bulkPixelConversion_padded_destination_witness :
  heap (snd (bulkPixelConversion (buffer_at 0 1 1 1 PF_R8G8B8)
                                 (buffer_at 1 1 1 1 PF_X8R8G8B8) two_blocks))
  = heap two_blocks.
Proof.
  apply bulkPixelConversion_padded_destination.
  - reflexivity.
  - left. reflexivity.
  - discriminate.
Defined.

(** On one [PF_R8G8B8] pixel the conversion into [PF_X8R8G8B8] stops on a
    write through the null data pointer of the temporary buffer, where the
    conversion into the same memory described as [PF_A8R8G8B8] writes the
    four bytes of the pixel. *)
Example bulkPixelConversion_padded_destination_run :
  fst (bulkPixelConversion (buffer_at 0 1 1 1 PF_R8G8B8)
                           (buffer_at 1 1 1 1 PF_X8R8G8B8) two_blocks)
  = Abort /\
  (let r := bulkPixelConversion (buffer_at 0 1 1 1 PF_R8G8B8)
                                (buffer_at 1 1 1 1 PF_A8R8G8B8) two_blocks in
   fst r = Ret tt /\
   heap (snd r) !! 1%nat = Some ([255; 10; 20; 30] ++ replicate 12 0)).
Proof. vm_compute. repeat split. Qed.

(** In the other direction the temporary source is given the source's
    data, but not its bounds and pitches: for a source region that does not
    start at the origin of its memory the delegated conversion reads the
    pixel at the origin. *)
Example bulkPixelConversion_padded_source_run :
  (let r := bulkPixelConversion (buffer_at 0 1 1 1 PF_X8R8G8B8)
                                (buffer_at 1 1 1 1 PF_R8G8B8) two_blocks in
   let r' := bulkPixelConversion (buffer_at 0 1 1 1 PF_A8R8G8B8)
                                 (buffer_at 1 1 1 1 PF_R8G8B8) two_blocks in
   fst r = Ret tt /\ heap (snd r) = heap (snd r')) /\
  (let r := bulkPixelConversion (second_pixel PF_X8R8G8B8)
                                (buffer_at 1 1 1 1 PF_R8G8B8) two_blocks in
   let r' := bulkPixelConversion (second_pixel PF_A8R8G8B8)
                                 (buffer_at 1 1 1 1 PF_R8G8B8) two_blocks in
   heap (snd r) !! 1%nat = Some ([20; 30; 40] ++ replicate 13 0) /\
   heap (snd r') !! 1%nat = Some ([60; 70; 80] ++ replicate 13 0)).
Proof. vm_compute. repeat split. Qed.

(** The self-calls of [bulkPixelConversion] are at most one deep: more
    fuel than two changes nothing. *)
Lemma bulkPixelConversion_fuel (n : nat) (src dst : PixelData) :
  bulkPixelConversion_rec (2 + n) src dst = bulkPixelConversion_rec 2 src dst.
Proof.
  cbn [Nat.add bulkPixelConversion_rec].
  destruct (isCompressed (mFormat src) || isCompressed (mFormat dst));
    [reflexivity|].
  destruct (bool_decide (mFormat src = mFormat dst)); [reflexivity|].
  destruct (bool_decide (mFormat dst = PF_X8R8G8B8)
            || bool_decide (mFormat dst = PF_X8B8G8R8)) eqn:Ed.
  - cbn [mFormat PixelData_new].
    destruct (bool_decide (mFormat dst = PF_X8R8G8B8)).
    + rewrite !(bool_decide_eq_false_2 (PF_A8R8G8B8 = PF_X8R8G8B8))
        by discriminate.
      rewrite !(bool_decide_eq_false_2 (PF_A8R8G8B8 = PF_X8B8G8R8))
        by discriminate.
      change (hasAlpha PF_A8R8G8B8) with true.
      cbn [orb negb]. rewrite !andb_false_r. reflexivity.
    + rewrite !(bool_decide_eq_false_2 (PF_A8B8G8R8 = PF_X8R8G8B8))
        by discriminate.
      rewrite !(bool_decide_eq_false_2 (PF_A8B8G8R8 = PF_X8B8G8R8))
        by discriminate.
      change (hasAlpha PF_A8B8G8R8) with true.
      cbn [orb negb]. rewrite !andb_false_r. reflexivity.
  - destruct ((bool_decide (mFormat src = PF_X8R8G8B8)
               || bool_decide (mFormat src = PF_X8B8G8R8))
              && negb (hasAlpha (mFormat dst))) eqn:Es; [|reflexivity].
    clear Ed.
    cbn [mFormat PixelData_new setExternalBuffer].
    apply andb_prop in Es as [_ Ha]. rewrite Ha.
    destruct (bool_decide (mFormat src = PF_X8R8G8B8)).
    + rewrite !(bool_decide_eq_false_2 (PF_A8R8G8B8 = PF_X8R8G8B8))
        by discriminate.
      rewrite !(bool_decide_eq_false_2 (PF_A8R8G8B8 = PF_X8B8G8R8))
        by discriminate.
      cbn [orb andb]. reflexivity.
    + rewrite !(bool_decide_eq_false_2 (PF_A8B8G8R8 = PF_X8R8G8B8))
        by discriminate.
      rewrite !(bool_decide_eq_false_2 (PF_A8B8G8R8 = PF_X8B8G8R8))
        by discriminate.
      cbn [orb andb]. reflexivity.
Qed.

(** ** Sampling positions *)

Lemma coordAt_stuck (k : nat) : coordAt 0 k = 2 ^ 64 - 1.
Proof.
  induction k as [|k IH]; cbn [coordAt]; [reflexivity|].
  rewrite IH. reflexivity.
Qed.

Lemma coordAt_closed (step : Z) (k : nat) :
  2 <= step -> (Z.of_nat k + 1) * step <= 2 ^ 64 ->
  coordAt step k = step / 2 - 1 + Z.of_nat k * step.
Proof.
  intros H2. induction k as [|k IH]; intros Hk; cbn [coordAt].
  - unfold startCoord, u64. rewrite Z.shiftr_div_pow2 by lia.
    change (2 ^ 1) with 2.
    assert (1 <= step / 2) by (apply Z.div_le_lower_bound; lia).
    assert (step / 2 <= step) by (apply Z.div_le_upper_bound; lia).
    rewrite Z.mod_small by lia. lia.
  - rewrite IH by lia. unfold u64.
    assert (1 <= step / 2) by (apply Z.div_le_lower_bound; lia).
    assert (step / 2 <= step) by (apply Z.div_le_upper_bound; lia).
    rewrite Z.mod_small by nia. lia.
Qed.

(** Every sampling position of a destination axis of [dw] pixels lies,
    shifted back to a coordinate, within the [sw] pixels of the source
    axis. *)
Lemma coord_bound (sw dw step : Z) (k : nat) :
  1 <= sw < 2 ^ 32 -> 1 <= dw < 2 ^ 32 ->
  fixedStep sw dw = Some step -> Z.of_nat k < dw ->
  0 <= coordAt step k < 2 ^ 64 /\ Z.shiftr (coordAt step k) 48 < sw.
Proof.
  intros Hsw Hdw Hstep Hk. unfold fixedStep, udiv in Hstep.
  destruct (Z.eqb_spec dw 0) as [|_]; [lia|]. injection Hstep as Hs. unfold u64 in *. rewrite Z.shiftl_mul_pow2 in * by lia.
  change (2 ^ 64) with (2 ^ 16 * 2 ^ 48) in *.
  rewrite Z.mul_mod_distr_r in * by lia.
  pose proof (Z.mod_pos_bound sw (2 ^ 16) ltac:(lia)) as Hm.
  assert (Hle : sw mod 2 ^ 16 <= sw) by (apply Z.mod_le; lia).
  set (m := sw mod 2 ^ 16) in *.
  rewrite Z.shiftr_div_pow2 by lia.
  destruct (Z.eq_dec m 0) as [Hm0 | Hm0].
  - rewrite Hm0, Z.mul_0_l, Z.div_0_l in Hs by lia. subst step.
    rewrite coordAt_stuck.
    assert (Hsw16 : 2 ^ 16 <= sw).
    { pose proof (Z.div_mod sw (2 ^ 16) ltac:(lia)) as Hdm.
      fold m in Hdm. rewrite Hm0 in Hdm.
      assert (1 <= sw / 2 ^ 16) by lia. lia. }
    split; [change (2 ^ 16 * 2 ^ 48) with (2 ^ 64); lia|].
    change ((2 ^ 64 - 1) / 2 ^ 48) with 65535. lia.
  - assert (Hds : dw * step <= m * 2 ^ 48)
      by (rewrite <- Hs; apply Z.mul_div_le; lia).
    assert (Hst : 2 ^ 16 <= step).
    { rewrite <- Hs. apply Z.div_le_lower_bound; [lia|].
      change (2 ^ 48) with (2 ^ 32 * 2 ^ 16). nia. }
    assert (Hk1 : (Z.of_nat k + 1) * step <= dw * step)
      by (apply Z.mul_le_mono_nonneg_r; lia).
    assert (Hks : 0 <= Z.of_nat k * step) by (apply Z.mul_nonneg_nonneg; lia).
    rewrite Z.mul_add_distr_r, Z.mul_1_l in Hk1.
    assert (1 <= step / 2) by (apply Z.div_le_lower_bound; lia).
    assert (step / 2 < step) by (apply Z.div_lt_upper_bound; lia).
    rewrite coordAt_closed
      by (change (2 ^ 64) with (2 ^ 16 * 2 ^ 48);
          rewrite ?Z.mul_add_distr_r, ?Z.mul_1_l; lia).
    clear Hs. set (ks := Z.of_nat k * step) in *. set (h := step / 2) in *.
    set (ds := dw * step) in *.
    split; [lia|].
    apply Z.div_lt_upper_bound; lia.
Qed.

(** ** Properties kept by every step of a call *)

Section Keeps.

Variable R : state -> state -> Prop.
Hypothesis R_refl : forall s, R s s.
Hypothesis R_trans : forall s1 s2 s3, R s1 s2 -> R s2 s3 -> R s1 s3.

Lemma keeps_ret {A} (a : A) : keeps R (ret a).
Proof. intros s. apply R_refl. Qed.

Lemma keeps_throw {A} (e : exn) : keeps R (@throw A e).
Proof. intros s. apply R_refl. Qed.

Lemma keeps_abort {A} : keeps R (@abort A).
Proof. intros s. apply R_refl. Qed.

Lemma keeps_run_pure {A} (o : outcome A) : keeps R (run_pure o).
Proof. intros s. apply R_refl. Qed.

Lemma keeps_assert (b : bool) : keeps R (assert b).
Proof. intros s. destruct b; apply R_refl. Qed.

Lemma keeps_bind {A B} (c : M A) (k : A -> M B) :
  keeps R c ->
  (forall a s s', c s = (Ret a, s') -> keeps R (k a)) ->
  keeps R (bind c k).
Proof.
  intros Hc Hk s. unfold bind. specialize (Hc s).
  destruct (c s) as [[a | e |] s1] eqn:E; cbn [snd] in *; try exact Hc.
  exact (R_trans _ _ _ Hc (Hk a s s1 E s1)).
Qed.

Lemma keeps_lift {A B} (o : option A) (k : A -> M B) :
  (forall a, o = Some a -> keeps R (k a)) -> keeps R (bind (lift o) k).
Proof.
  intros Hk. destruct o as [a|].
  - intros s. exact (Hk a eq_refl s).
  - intros s. apply R_refl.
Qed.

(** The loop rule: an invariant of the loop-carried variables, indexed by
    the iteration. *)
Lemma keeps_loop {S} (I : nat -> S -> Prop) (n : nat) (body : S -> M S) :
  (forall k x, (k < n)%nat -> I k x -> keeps R (body x)) ->
  (forall k x s y s', (k < n)%nat -> I k x ->
                      body x s = (Ret y, s') -> I (Datatypes.S k) y) ->
  forall x, I 0%nat x -> keeps R (loop n body x).
Proof.
  intros Hb Hi.
  assert (H : forall m k x, (k + m = n)%nat -> I k x ->
                            keeps R (loop m body x)).
  { induction m as [|m IH]; intros k x Hk Hx; cbn [loop].
    - apply keeps_ret.
    - apply keeps_bind; [apply (Hb k); [lia | exact Hx]|].
      intros y s s' E. apply (IH (Datatypes.S k)); [lia|].
      apply (Hi k x s y s'); [lia | exact Hx | exact E]. }
  intros x Hx. apply (H n 0%nat); [lia | exact Hx].
Qed.

(** A loop along one axis: the position starts at [startCoord step] and
    advances by [step]. *)
Lemma keeps_axis_loop {T} (step : Z) (n : nat) (body : Z * T -> M (Z * T))
    (t0 : T) :
  (forall cur t s y s', body (cur, t) s = (Ret y, s') ->
                        fst y = u64 (cur + step)) ->
  (forall k t, (k < n)%nat -> keeps R (body (coordAt step k, t))) ->
  keeps R (loop n body (startCoord step, t0)).
Proof.
  intros Hshape Hb.
  apply (keeps_loop (fun k x => fst x = coordAt step k)).
  - intros k [cur t] Hk Hx. cbn [fst] in Hx. subst cur. apply Hb, Hk.
  - intros k [cur t] s y s' Hk Hx E. cbn [fst] in Hx. subst cur.
    rewrite (Hshape _ _ _ _ _ E). reflexivity.
  - reflexivity.
Qed.

Lemma keeps_mapM {A B} (f : A -> M B) (l : list A) :
  (forall a, In a l -> keeps R (f a)) -> keeps R (mapM f l).
Proof.
  induction l as [|a l IH]; intros Hf; cbn [mapM].
  - apply keeps_ret.
  - apply keeps_bind; [apply Hf; left; reflexivity|]. intros b _ _ _.
    apply keeps_bind; [apply IH; intros x Hx; apply Hf; right; exact Hx|].
    intros bs _ _ _. apply keeps_ret.
Qed.

Lemma keeps_foldM {A B} (f : A -> B -> M A) (l : list B) :
  (forall a b, In b l -> keeps R (f a b)) ->
  forall a, keeps R (foldM f a l).
Proof.
  induction l as [|b l IH]; intros Hf a; cbn [foldM].
  - apply keeps_ret.
  - apply keeps_bind; [apply Hf; left; reflexivity|]. intros a' _ _ _.
    apply IH. intros x y Hy. apply Hf. right. exact Hy.
Qed.

End Keeps.

(** ** Reads *)

Lemma reads_more_refl (P : access -> Prop) (s : state) : reads_more P s s.
Proof. exists []. split; [symmetry; apply app_nil_r | constructor]. Qed.

Lemma reads_more_trans (P : access -> Prop) (s1 s2 s3 : state) :
  reads_more P s1 s2 -> reads_more P s2 s3 -> reads_more P s1 s3.
Proof.
  intros (n1 & E1 & F1) (n2 & E2 & F2). exists (n1 ++ n2). split.
  - rewrite E2, E1. symmetry. apply app_assoc.
  - apply Forall_app. split; assumption.
Qed.

Lemma reads_only_load (P : access -> Prop) (p : ptr) (n : Z) :
  (forall b, pblock p = Some b -> P (mkAccess b (poff p) n)) ->
  reads_only P (load p n).
Proof.
  intros HP s. unfold load. destruct (pblock p) as [b|] eqn:Eb;
    [|apply reads_more_refl].
  assert (H : reads_more P s
                (mkState (heap s) (reads s ++ [mkAccess b (poff p) n]))).
  { exists [mkAccess b (poff p) n]. split; [reflexivity|].
    constructor; [apply HP; reflexivity | constructor]. }
  destruct (heap s !! b) as [l|]; [|exact H].
  destruct (slice l (poff p) n); exact H.
Qed.

Lemma reads_only_store (P : access -> Prop) (p : ptr) (bs : list Z) :
  reads_only P (store p bs).
Proof.
  intros s. unfold store. destruct (pblock p) as [b|];
    [|apply reads_more_refl].
  destruct (heap s !! b) as [l|]; [|apply reads_more_refl].
  destruct (splice l (poff p) bs); [|apply reads_more_refl].
  exists []. split; [symmetry; apply app_nil_r | constructor].
Qed.

(** ** Sample coordinates and offsets *)

(** The clamp: the second coordinate never exceeds [lastCoord], and the
    first one does not either once the position is within the source. *)
Lemma linearSample_bound (fracBits cur lastCoord : Z) :
  fracBits = 16 \/ fracBits = 12 ->
  0 <= cur < 2 ^ 64 -> Z.shiftr cur 48 <= lastCoord ->
  forall c1 c2 fr,
    linearSample fracBits cur lastCoord = (c1, c2, fr) ->
    0 <= c1 <= lastCoord /\ 0 <= c2 <= lastCoord /\ 0 <= fr < 2 ^ fracBits.
Proof.
  intros Hf Hcur Hlast c1 c2 fr. unfold linearSample. cbv zeta.
  set (temp0 := u32 (Z.shiftr cur (48 - fracBits))).
  set (half := Z.shiftl 1 (fracBits - 1)).
  set (temp := if temp0 >? half then u32 (temp0 - half) else 0).
  intros H. injection H as H1 H2 H3.
  assert (Hcur48 : 0 <= Z.shiftr cur 48)
    by (apply Z.shiftr_nonneg; lia).
  assert (Hhalf : 0 < half) by (destruct Hf as [-> | ->]; reflexivity).
  assert (Ht0 : 0 <= temp0 <= Z.shiftr cur (48 - fracBits)).
  { unfold temp0, u32.
    assert (0 <= Z.shiftr cur (48 - fracBits))
      by (apply Z.shiftr_nonneg; lia).
    pose proof (Z.mod_pos_bound (Z.shiftr cur (48 - fracBits)) (2 ^ 32)
                  ltac:(lia)).
    pose proof (Z.mod_le (Z.shiftr cur (48 - fracBits)) (2 ^ 32)
                  ltac:(lia) ltac:(lia)). lia. }
  assert (Ht : 0 <= temp <= temp0).
  { unfold temp. destruct (Z.gtb_spec temp0 half) as [Hgt | Hle]; [|lia].
    unfold u32. pose proof (Z.mod_pos_bound (temp0 - half) (2 ^ 32)
                              ltac:(lia)).
    pose proof (Z.mod_le (temp0 - half) (2 ^ 32) ltac:(lia) ltac:(lia)).
    lia. }
  assert (Hc1 : 0 <= Z.shiftr temp fracBits <= Z.shiftr cur 48).
  { split; [apply Z.shiftr_nonneg; lia|].
    replace (Z.shiftr cur 48)
      with (Z.shiftr (Z.shiftr cur (48 - fracBits)) fracBits)
      by (rewrite Z.shiftr_shiftr by (destruct Hf; lia);
          f_equal; lia).
    rewrite !(Z.shiftr_div_pow2 _ fracBits) by (destruct Hf; lia).
    apply Z.div_le_mono; [destruct Hf as [-> | ->]; reflexivity | lia]. }
  subst c1 c2 fr. split; [lia|]. split.
  - unfold u32.
    pose proof (Z.mod_pos_bound (Z.shiftr temp fracBits + 1) (2 ^ 32)
                  ltac:(lia)). lia.
  - replace (Z.shiftl 1 fracBits - 1) with (Z.ones fracBits)
      by (rewrite Z.ones_equiv, Z.shiftl_1_l; lia).
    rewrite Z.land_ones by (destruct Hf; lia).
    apply Z.mod_pos_bound. destruct Hf as [-> | ->]; reflexivity.
Qed.

Lemma index_bounds (source : PixelData) (x y z : Z) :
  samplable source -> in_extent source x y z ->
  0 <= y * mRowPitch source /\ 0 <= z * mSlicePitch source /\
  elemSize source * (x + y * mRowPitch source + z * mSlicePitch source + 1)
  <= 2 ^ 32.
Proof.
  intros (He & Hw & Hh & Hd & Hr & Hs & Hfit) (Hx & Hy & Hz).
  unfold pixelSpan in Hfit.
  assert (H1 : y * mRowPitch source <= (getHeight source - 1) * mRowPitch source)
    by (apply Z.mul_le_mono_nonneg_r; lia).
  assert (H2 : z * mSlicePitch source
               <= (getDepth source - 1) * mSlicePitch source)
    by (apply Z.mul_le_mono_nonneg_r; lia).
  assert (H3 : 0 <= y * mRowPitch source) by (apply Z.mul_nonneg_nonneg; lia).
  assert (H4 : 0 <= z * mSlicePitch source)
    by (apply Z.mul_nonneg_nonneg; lia).
  split; [exact H3|]. split; [exact H4|].
  etransitivity; [|exact Hfit].
  apply Z.mul_le_mono_nonneg_l; lia.
Qed.

Lemma elemIndex_exact (source : PixelData) (x y z : Z) :
  samplable source -> in_extent source x y z ->
  elemIndex source (x, y, z)
  = x + y * mRowPitch source + z * mSlicePitch source /\
  u32 (elemSize source * elemIndex source (x, y, z))
  = pixelStart source x y z /\
  0 <= elemIndex source (x, y, z) /\
  elemSize source * (elemIndex source (x, y, z) + 1) <= 2 ^ 32.
Proof.
  intros Hs Hin. destruct (index_bounds source x y z Hs Hin) as (Hy & Hz & Hb).
  destruct Hs as (He & _). destruct Hin as (Hx & _ & _).
  set (yr := y * mRowPitch source) in *.
  set (zs := z * mSlicePitch source) in *.
  assert (Hlt : x + yr + zs + 1 <= 2 ^ 32).
  { destruct (Z.le_gt_cases (x + yr + zs + 1) (2 ^ 32)) as [|Hgt];
      [assumption|].
    assert (1 * (x + yr + zs + 1) <= elemSize source * (x + yr + zs + 1))
      by (apply Z.mul_le_mono_nonneg_r; lia). lia. }
  assert (Hidx : elemIndex source (x, y, z) = x + yr + zs).
  { unfold elemIndex, u32. fold yr zs.
    rewrite (Z.mod_small yr) by lia. rewrite (Z.mod_small zs) by lia.
    rewrite (Z.mod_small (x + yr)) by lia. apply Z.mod_small. lia. }
  rewrite Hidx. split; [reflexivity|]. split; [|split; [lia | exact Hb]].
  unfold pixelStart. fold yr zs. unfold u32. apply Z.mod_small.
  split; [apply Z.mul_nonneg_nonneg; lia|].
  rewrite Z.mul_add_distr_l, Z.mul_1_r in Hb. lia.
Qed.

Ltac kbind := apply (keeps_bind _ (reads_more_trans _)).
Ltac klift := apply (keeps_lift _ (reads_more_refl _)).
Ltac kret := apply (keeps_ret _ (reads_more_refl _)).
Ltac kaxis :=
  apply (keeps_axis_loop _ (reads_more_refl _) (reads_more_trans _)).

Lemma axis_coord (slo shi dlo dhi step : Z) (k : nat) :
  1 <= u32 (shi - slo) -> dhi - dlo < 2 ^ 32 ->
  fixedStep (u32 (shi - slo)) (u32 (dhi - dlo)) = Some step ->
  (k < trip dlo dhi)%nat ->
  0 <= coordAt step k < 2 ^ 64 /\
  0 <= Z.shiftr (coordAt step k) 48 < u32 (shi - slo).
Proof.
  intros Hs Hd Hstep Hk. unfold trip in Hk.
  assert (Hdw : u32 (dhi - dlo) = dhi - dlo)
    by (unfold u32; apply Z.mod_small; lia).
  pose proof (Z.mod_pos_bound (shi - slo) (2 ^ 32) ltac:(lia)) as Hsw.
  fold (u32 (shi - slo)) in Hsw.
  destruct (coord_bound (u32 (shi - slo)) (u32 (dhi - dlo)) step k)
    as (Hc & Hlt); [lia | lia | exact Hstep | lia |].
  split; [exact Hc|]. split; [apply Z.shiftr_nonneg; lia | exact Hlt].
Qed.

Lemma nearestCoord_exact (cur sw : Z) :
  0 <= Z.shiftr cur 48 < sw -> sw < 2 ^ 32 ->
  nearestCoord cur = Z.shiftr cur 48.
Proof. intros H Hs. unfold nearestCoord, u32. apply Z.mod_small. lia. Qed.

Lemma u32_extent (x : Z) : u32 x < 2 ^ 32.
Proof. unfold u32. apply Z.mod_pos_bound. lia. Qed.

(** The shape of the body of an axis loop: it ends by advancing the
    position by the step. *)
Ltac axis_shape :=
  let E := fresh "E" in
  intros ? ? ? ? ? E; cbv beta iota in E;
  repeat match type of E with
         | context [linearSample ?a ?b ?c] =>
             destruct (linearSample a b c) as [[? ?] ?]
         end;
  repeat (let a := fresh "a" in
          apply bind_ret_inv in E as (a & ? & _ & E);
          try match type of a with
              | (_ * _)%type => destruct a
              end;
          cbv beta iota in E);
  inversion E; reflexivity.

Lemma nearest_reads (source dest : PixelData) :
  samplable source -> bounded_region dest ->
  reads_only (whole_pixel source)
             (NearestResampler_scale (elemSize source) source dest).
Proof.
  intros Hs (Hdx & Hdy & Hdz).
  pose proof Hs as (He & Hw & Hh & Hd & _).
  unfold reads_only, NearestResampler_scale. cbv zeta.
  klift. intros stepX HX.
  klift. intros stepY HY.
  klift. intros stepZ HZ.
  kbind;
    [|intros ? ? ? ?; kret].
  kaxis; [axis_shape|].
  intros kz pz Hkz.
  destruct (axis_coord _ _ _ _ _ _ Hd Hdz HZ Hkz) as (_ & Hz).
  kbind;
    [|intros [? ?] ? ? ?; kret].
  kaxis; [axis_shape|].
  intros ky py Hky.
  destruct (axis_coord _ _ _ _ _ _ Hh Hdy HY Hky) as (_ & Hy).
  kbind;
    [|intros [? ?] ? ? ?; kret].
  kaxis; [axis_shape|].
  intros kx px Hkx.
  destruct (axis_coord _ _ _ _ _ _ Hw Hdx HX Hkx) as (_ & Hx).
  kbind; [|intros _ _ _ _; kret].
  kbind; [|intros bs _ _ _; apply reads_only_store].
  apply reads_only_load. intros b Hb.
  rewrite (nearestCoord_exact _ _ Hx (u32_extent _)).
  rewrite (nearestCoord_exact _ _ Hy (u32_extent _)).
  rewrite (nearestCoord_exact _ _ Hz (u32_extent _)).
  set (x := Z.shiftr (coordAt stepX kx) 48) in *.
  set (y := Z.shiftr (coordAt stepY ky) 48) in *.
  set (z := Z.shiftr (coordAt stepZ kz) 48) in *.
  assert (Hin : in_extent source x y z)
    by (unfold in_extent, getWidth, getHeight, getDepth; lia).
  destruct (elemIndex_exact source x y z Hs Hin) as (_ & Hoff & _).
  split; [exact Hb|]. split; [reflexivity|].
  exists x, y, z. split; [exact Hin|].
  cbn [acc_off ptr_add poff getData]. rewrite <- Hoff. reflexivity.
Qed.

Lemma reads_only_unpackColor (P : access -> Prop) (f : PixelFormat)
    (p : ptr) :
  (forall b, pblock p = Some b ->
             P (mkAccess b (poff p) (getNumElemBytes f))) ->
  reads_only P (unpackColor f p).
Proof.
  intros HP. unfold unpackColor.
  destruct (hasCodec f); [|apply (keeps_throw _ (reads_more_refl _))].
  kbind; [apply reads_only_load, HP|].
  intros bs _ _ _. apply (keeps_run_pure _ (reads_more_refl _)).
Qed.

Lemma reads_only_packColor (P : access -> Prop) (r g b a : spec_float)
    (f : PixelFormat) (p : ptr) :
  reads_only P (packColor r g b a f p).
Proof.
  unfold packColor.
  kbind; [apply (keeps_run_pure _ (reads_more_refl _))|].
  intros bs _ _ _. apply reads_only_store.
Qed.

(** The two sample coordinates of a destination pixel along an axis lie
    in the source. *)
Lemma axis_sample (fracBits slo shi dlo dhi step : Z) (k : nat) :
  fracBits = 16 \/ fracBits = 12 ->
  1 <= u32 (shi - slo) -> dhi - dlo < 2 ^ 32 ->
  fixedStep (u32 (shi - slo)) (u32 (dhi - dlo)) = Some step ->
  (k < trip dlo dhi)%nat ->
  forall c1 c2 fr,
    linearSample fracBits (coordAt step k) (u32 (u32 (shi - slo) - 1))
    = (c1, c2, fr) ->
    0 <= c1 < u32 (shi - slo) /\ 0 <= c2 < u32 (shi - slo) /\
    0 <= fr < 2 ^ fracBits.
Proof.
  intros Hf Hs Hd Hstep Hk c1 c2 fr E.
  destruct (axis_coord _ _ _ _ _ _ Hs Hd Hstep Hk) as (Hc & Hlt).
  pose proof (u32_extent (shi - slo)) as Hsw.
  assert (Hlast : u32 (u32 (shi - slo) - 1) = u32 (shi - slo) - 1)
    by (unfold u32 at 1; apply Z.mod_small; lia).
  rewrite Hlast in E.
  assert (Hle : Z.shiftr (coordAt step k) 48 <= u32 (shi - slo) - 1) by lia.
  destruct (linearSample_bound fracBits _ _ Hf Hc Hle _ _ _ E)
    as (H1 & H2 & H3).
  lia.
Qed.

Lemma corner_in_extent (source : PixelData) (x1 x2 y1 y2 z1 z2 : Z)
    (c : Z * Z * Z) :
  0 <= x1 < getWidth source -> 0 <= x2 < getWidth source ->
  0 <= y1 < getHeight source -> 0 <= y2 < getHeight source ->
  0 <= z1 < getDepth source -> 0 <= z2 < getDepth source ->
  In c (sampleCorners x1 x2 y1 y2 z1 z2) ->
  exists x y z, c = (x, y, z) /\ in_extent source x y z.
Proof.
  intros Hx1 Hx2 Hy1 Hy2 Hz1 Hz2 Hc. unfold sampleCorners in Hc.
  cbn [In] in Hc.
  repeat (destruct Hc as [<- | Hc];
          [eexists _, _, _; split; [reflexivity|];
           unfold in_extent; auto|]).
  contradiction.
Qed.

Lemma linear_reads (source dest : PixelData) :
  samplable source -> bounded_region dest ->
  reads_only (whole_pixel source) (LinearResampler_scale source dest).
Proof.
  intros Hs (Hdx & Hdy & Hdz).
  pose proof Hs as (He & Hw & Hh & Hd & _).
  unfold reads_only, LinearResampler_scale. cbv zeta.
  klift. intros stepX HX. klift. intros stepY HY. klift. intros stepZ HZ.
  kbind; [|intros _ _ _ _; kret].
  kaxis; [axis_shape|]. intros kz pz Hkz.
  destruct (linearSample 16 (coordAt stepZ kz) _) as [[z1 z2] fz] eqn:Ez.
  destruct (axis_sample 16 _ _ _ _ _ _ (or_introl eq_refl) Hd Hdz HZ Hkz
              _ _ _ Ez) as (Hz1 & Hz2 & _).
  kbind; [|intros [? ?] _ _ _; kret].
  kaxis; [axis_shape|]. intros ky py Hky.
  destruct (linearSample 16 (coordAt stepY ky) _) as [[y1 y2] fy] eqn:Ey.
  destruct (axis_sample 16 _ _ _ _ _ _ (or_introl eq_refl) Hh Hdy HY Hky
              _ _ _ Ey) as (Hy1 & Hy2 & _).
  kbind; [|intros [? ?] _ _ _; kret].
  kaxis; [axis_shape|]. intros kx px Hkx.
  destruct (linearSample 16 (coordAt stepX kx) _) as [[x1 x2] fx] eqn:Ex.
  destruct (axis_sample 16 _ _ _ _ _ _ (or_introl eq_refl) Hw Hdx HX Hkx
              _ _ _ Ex) as (Hx1 & Hx2 & _).
  kbind.
  - apply (keeps_mapM _ (reads_more_refl _) (reads_more_trans _)).
    intros c Hc.
    destruct (corner_in_extent source _ _ _ _ _ _ c Hx1 Hx2 Hy1 Hy2 Hz1 Hz2 Hc)
      as (x & y & z & -> & Hin).
    unfold unpackColor_Color.
    kbind; [|intros [[[? ?] ?] ?] _ _ _; kret].
    apply reads_only_unpackColor. intros b Hb.
    destruct (elemIndex_exact source x y z Hs Hin) as (_ & Hoff & _).
    split; [exact Hb|]. split; [reflexivity|].
    exists x, y, z. split; [exact Hin|].
    cbn [acc_off ptr_add poff getData]. rewrite <- Hoff. reflexivity.
  - intros cs _ _ _. kbind; [|intros _ _ _ _; kret].
    apply reads_only_packColor.
Qed.

Lemma in_zip_l {A B} (l1 : list A) (l2 : list B) (a : A) (b : B) :
  In (a, b) (zip l1 l2) -> In a l1.
Proof.
  revert l2. induction l1 as [|x l1 IH]; intros [|y l2] H;
    cbn in H; try contradiction.
  destruct H as [H | H].
  - injection H as -> _. left. reflexivity.
  - right. exact (IH l2 H).
Qed.

Lemma accumulate_reads (ch : nat) (source : PixelData) (nsc : Z)
    (acc : list spec_float) (x y z : Z) (f : spec_float) :
  samplable source -> in_extent source x y z ->
  elemSize source = 4 * nsc -> Z.of_nat ch <= nsc ->
  reads_only (within_pixel source)
             (accumulate ch source nsc acc ((x, y, z), f)).
Proof.
  intros Hs Hin He Hch. unfold accumulate. cbv zeta.
  destruct (elemIndex_exact source x y z Hs Hin) as (Hidx & _ & H0 & Hb).
  kbind; [|intros vs _ _ _; kret].
  apply (keeps_mapM _ (reads_more_refl _) (reads_more_trans _)).
  intros i Hi. apply in_map_iff in Hi as (j & <- & Hj).
  apply in_seq in Hj. unfold loadFloat.
  kbind; [|intros bs _ _ _; kret].
  apply reads_only_load. intros b Hblock.
  set (idx := elemIndex source (x, y, z)) in *.
  assert (Hq : 0 <= idx * nsc) by (apply Z.mul_nonneg_nonneg; lia).
  rewrite He in Hb.
  replace (4 * nsc * (idx + 1)) with (4 * (idx * nsc) + 4 * nsc) in Hb
    by ring.
  assert (Hoff : u32 (u32 (idx * nsc) + Z.of_nat j)
                 = idx * nsc + Z.of_nat j).
  { unfold u32. rewrite (Z.mod_small (idx * nsc)) by lia.
    apply Z.mod_small. lia. }
  split; [exact Hblock|]. split; [cbn [acc_len]; lia|].
  exists x, y, z. split; [exact Hin|].
  cbn [acc_off acc_len ptr_add poff getData]. rewrite Hoff.
  unfold pixelStart. rewrite <- Hidx. fold idx. rewrite He.
  replace (4 * nsc * idx) with (4 * (idx * nsc)) by ring.
  lia.
Qed.

Lemma float32_reads (source dest : PixelData) :
  samplable source -> bounded_region dest ->
  mFormat source = PF_FLOAT32_RGB \/ mFormat source = PF_FLOAT32_RGBA ->
  reads_only (within_pixel source)
             (LinearResampler_Float32_scale source dest).
Proof.
  intros Hs (Hdx & Hdy & Hdz) Hfmt.
  pose proof Hs as (He & Hw & Hh & Hd & _).
  unfold reads_only, LinearResampler_Float32_scale. cbv zeta.
  set (nsc := getNumElemBytes (mFormat source) / 4).
  assert (Hnsc : elemSize source = 4 * nsc /\ (nsc = 3 \/ nsc = 4)).
  { unfold nsc, elemSize.
    destruct Hfmt as [-> | ->]; split; try reflexivity; auto. }
  destruct Hnsc as (Hel & Hn).
  klift. intros stepX HX. klift. intros stepY HY. klift. intros stepZ HZ.
  kbind; [|intros _ _ _ _; kret].
  kaxis; [axis_shape|]. intros kz pz Hkz.
  destruct (linearSample 16 (coordAt stepZ kz) _) as [[z1 z2] fz] eqn:Ez.
  destruct (axis_sample 16 _ _ _ _ _ _ (or_introl eq_refl) Hd Hdz HZ Hkz
              _ _ _ Ez) as (Hz1 & Hz2 & _).
  kbind; [|intros [? ?] _ _ _; kret].
  kaxis; [axis_shape|]. intros ky py Hky.
  destruct (linearSample 16 (coordAt stepY ky) _) as [[y1 y2] fy] eqn:Ey.
  destruct (axis_sample 16 _ _ _ _ _ _ (or_introl eq_refl) Hh Hdy HY Hky
              _ _ _ Ey) as (Hy1 & Hy2 & _).
  kbind; [|intros [? ?] _ _ _; kret].
  kaxis; [axis_shape|]. intros kx px Hkx.
  destruct (linearSample 16 (coordAt stepX kx) _) as [[x1 x2] fx] eqn:Ex.
  destruct (axis_sample 16 _ _ _ _ _ _ (or_introl eq_refl) Hw Hdx HX Hkx
              _ _ _ Ex) as (Hx1 & Hx2 & _).
  assert (Hacc : forall (ch : nat) a0,
             Z.of_nat ch <= nsc ->
             keeps (reads_more (within_pixel source))
               (foldM (accumulate ch source nsc) a0
                  (zip (sampleCorners x1 x2 y1 y2 z1 z2)
                       (blendFactors (sampleWeight fx) (sampleWeight fy)
                                     (sampleWeight fz))))).
  { intros ch a0 Hch.
    apply (keeps_foldM _ (reads_more_refl _) (reads_more_trans _)).
    intros a [c f] Hc. apply in_zip_l in Hc.
    destruct (corner_in_extent source _ _ _ _ _ _ c Hx1 Hx2 Hy1 Hy2 Hz1 Hz2 Hc)
      as (x & y & z & -> & Hin).
    apply accumulate_reads; assumption. }
  kbind; [|intros accum _ _ _; kbind;
           [apply reads_only_store | intros _ _ _ _; kret]].
  destruct ((nsc =? 3) || _) eqn:E3.
  - kbind; [apply Hacc; lia | intros acc _ _ _; kret].
  - apply Hacc. apply orb_false_elim in E3 as (E3 & _).
    apply Z.eqb_neq in E3. lia.
Qed.

Lemma reads_only_weaken (P Q : access -> Prop) {A} (c : M A) :
  (forall a, P a -> Q a) -> reads_only P c -> reads_only Q c.
Proof.
  intros HPQ Hc s. destruct (Hc s) as (new & E & F).
  exists new. split; [exact E|].
  rewrite List.Forall_forall in *. intros a Ha. apply HPQ, F, Ha.
Qed.

Lemma whole_within (source : PixelData) (a : access) :
  samplable source -> whole_pixel source a -> within_pixel source a.
Proof.
  intros (He & _) (Hb & Hl & x & y & z & Hin & Ho).
  split; [exact Hb|]. split; [lia|].
  exists x, y, z. split; [exact Hin|]. lia.
Qed.

Lemma byte_sample_read (source : PixelData) (x y k : Z) (b : nat) :
  samplable source -> in_extent source x y 0 ->
  0 <= k < elemSize source -> mData source = Some b ->
  within_pixel source
    (mkAccess b
       (0 + u32 (u32 (u32 (x + u32 (y * mRowPitch source))
                      * elemSize source) + k) + 0) 1).
Proof.
  intros Hs Hin Hk Hb.
  destruct (index_bounds source x y 0 Hs Hin) as (Hy & _ & Hfit).
  pose proof Hs as (He & _). pose proof Hin as (Hx & _).
  rewrite Z.mul_0_l, Z.add_0_r in Hfit.
  set (yr := y * mRowPitch source) in *.
  set (e := elemSize source) in *.
  assert (Hidx : x + yr + 1 <= 2 ^ 32).
  { destruct (Z.le_gt_cases (x + yr + 1) (2 ^ 32)) as [|Hgt]; [assumption|].
    assert (1 * (x + yr + 1) <= e * (x + yr + 1))
      by (apply Z.mul_le_mono_nonneg_r; lia). lia. }
  assert (Hq : 0 <= (x + yr) * e) by (apply Z.mul_nonneg_nonneg; lia).
  replace (e * (x + yr + 1)) with ((x + yr) * e + e) in Hfit by ring.
  assert (Hoff : u32 (u32 (u32 (x + u32 yr) * e) + k) = (x + yr) * e + k).
  { unfold u32. rewrite (Z.mod_small yr) by lia.
    rewrite (Z.mod_small (x + yr)) by lia.
    rewrite (Z.mod_small ((x + yr) * e)) by lia.
    apply Z.mod_small. lia. }
  rewrite Hoff.
  split; [exact Hb|]. split; [cbn [acc_len]; lia|].
  exists x, y, 0. split; [exact Hin|].
  cbn [acc_off acc_len]. unfold pixelStart. fold e yr.
  rewrite Z.mul_0_l, Z.add_0_r.
  replace (e * (x + yr)) with ((x + yr) * e) by ring. lia.
Qed.

Lemma byte_reads (source dest : PixelData) :
  samplable source -> bounded_region dest ->
  reads_only (within_pixel source)
             (LinearResampler_Byte_scale (elemSize source) source dest).
Proof.
  intros Hs Hdest. unfold LinearResampler_Byte_scale.
  destruct ((getDepth source >? 1) || (getDepth dest >? 1)).
  { apply (reads_only_weaken (whole_pixel source));
      [intros a; apply whole_within, Hs | apply linear_reads; assumption]. }
  destruct Hdest as (Hdx & Hdy & Hdz).
  pose proof Hs as (He & Hw & Hh & Hd & _).
  unfold reads_only. cbv zeta.
  klift. intros stepX HX. klift. intros stepY HY.
  kbind; [|intros _ _ _ _; kret].
  kaxis; [axis_shape|]. intros ky py Hky.
  destruct (linearSample 12 (coordAt stepY ky) _) as [[y1 y2] wy] eqn:Ey.
  destruct (axis_sample 12 _ _ _ _ _ _ (or_intror eq_refl) Hh Hdy HY Hky
              _ _ _ Ey) as (Hy1 & Hy2 & _).
  kbind; [|intros [? ?] _ _ _; kret].
  kaxis; [axis_shape|]. intros kx px Hkx.
  destruct (linearSample 12 (coordAt stepX kx) _) as [[x1 x2] wx] eqn:Ex.
  destruct (axis_sample 12 _ _ _ _ _ _ (or_intror eq_refl) Hw Hdx HX Hkx
              _ _ _ Ex) as (Hx1 & Hx2 & _).
  destruct (byteWeights wx wy) as [[[w11 w21] w12] w22].
  kbind; [|intros [? ?] _ _ _; kret].
  assert (Hin : forall x y, 0 <= x < getWidth source ->
                            0 <= y < getHeight source ->
                            in_extent source x y 0)
    by (intros x y Hx Hy; unfold in_extent; lia).
  apply (keeps_loop _ (reads_more_refl _) (reads_more_trans _)
           (fun j x => fst x = Z.of_nat j)).
  - intros j [k p] Hj Hk. cbn [fst] in Hk. subst k.
    assert (Hjk : 0 <= Z.of_nat j < elemSize source) by lia.
    repeat (kbind;
            [unfold loadU8; kbind;
             [apply reads_only_load; intros b Hb;
              apply byte_sample_read; auto
             |intros ? _ _ _; kret]
            |intros ? _ _ _]).
    kbind; [apply reads_only_store | intros _ _ _ _; kret].
  - intros j [k p] s y s' Hj Hk E. cbn [fst] in Hk. subst k.
    repeat (let a := fresh "a" in
            apply bind_ret_inv in E as (a & ? & _ & E)).
    inversion E. cbn [fst]. lia.
  - reflexivity.
Qed.

(** C9 (as amended).  For a source with at least one pixel along each axis
    whose pixel offsets fit 32 bits, and any destination with 32-bit
    bounds: the second sample coordinate
    of the linear kernels is clamped to the last coordinate of its axis,
    and every read that any of the four kernels attempts, whatever the
    outcome of the call, is a read of the source's memory at a pixel
    [(x, y, z)] within the source's extents: a whole pixel for the nearest
    and the generic linear kernel, a channel of one for the float and the
    byte kernel (the float kernel on the two formats [scale] gives it).
    For a 1x1x1 source these reads lie in the pixel at offset 0. *)
Theorem sampling_stays_in_source (source dest : PixelData) :
  samplable source -> bounded_region dest ->
  (forall fracBits cur lastCoord c1 c2 fr,
     0 <= lastCoord ->
     linearSample fracBits cur lastCoord = (c1, c2, fr) ->
     0 <= c2 <= lastCoord) /\
  reads_only (whole_pixel source)
             (NearestResampler_scale (elemSize source) source dest) /\
  reads_only (whole_pixel source) (LinearResampler_scale source dest) /\
  (mFormat source = PF_FLOAT32_RGB \/ mFormat source = PF_FLOAT32_RGBA ->
   reads_only (within_pixel source)
              (LinearResampler_Float32_scale source dest)) /\
  reads_only (within_pixel source)
             (LinearResampler_Byte_scale (elemSize source) source dest) /\
  (getWidth source = 1 -> getHeight source = 1 -> getDepth source = 1 ->
   forall a,
     (whole_pixel source a -> acc_off a = 0) /\
     (within_pixel source a ->
      0 <= acc_off a /\ acc_off a + acc_len a <= elemSize source)).
Proof.
  intros Hs Hd. split; [|split; [|split; [|split; [|split]]]].
  - intros fracBits cur lastCoord c1 c2 fr Hl E. unfold linearSample in E.
    injection E as _ <- _.
    pose proof (Z.mod_pos_bound
                  (Z.shiftr
                     (if u32 (Z.shiftr cur (48 - fracBits))
                         >? Z.shiftl 1 (fracBits - 1)
                      then u32 (u32 (Z.shiftr cur (48 - fracBits))
                                - Z.shiftl 1 (fracBits - 1))
                      else 0) fracBits + 1) (2 ^ 32) ltac:(lia)) as H.
    unfold u32 at 1. lia.
  - apply nearest_reads; assumption.
  - apply linear_reads; assumption.
  - intros Hf. apply float32_reads; assumption.
  - apply byte_reads; assumption.
  - intros Hw Hh Hz a.
    assert (H0 : forall x y z, in_extent source x y z ->
                               pixelStart source x y z = 0).
    { intros x y z (Hx & Hy & Hzz).
      replace x with 0 by lia. replace y with 0 by lia.
      replace z with 0 by lia. unfold pixelStart. ring. }
    split.
    + intros (_ & _ & x & y & z & Hin & Ho). rewrite Ho. apply H0, Hin.
    + intros (_ & _ & x & y & z & Hin & Ho1 & Ho2).
      rewrite (H0 x y z Hin) in *. lia.
Qed.

Lemma single_pixel_samplable : samplable (buffer_at 0 1 1 1 PF_R8).
Proof. unfold samplable. vm_compute. repeat split; discriminate. Qed.

Lemma sampling_stays_in_source_witness :
  reads_only (whole_pixel (buffer_at 0 1 1 1 PF_R8))
             (NearestResampler_scale 1 (buffer_at 0 1 1 1 PF_R8)
                                     (buffer_at 1 4 4 1 PF_R8)) /\
  reads_only (within_pixel (buffer_at 0 1 1 1 PF_R8))
             (LinearResampler_Byte_scale 1 (buffer_at 0 1 1 1 PF_R8)
                                         (buffer_at 1 4 4 1 PF_R8)).
Proof.
  pose proof (sampling_stays_in_source
                (buffer_at 0 1 1 1 PF_R8) (buffer_at 1 4 4 1 PF_R8)
                single_pixel_samplable) as H.
  destruct H as (_ & Hn & _ & _ & Hb & _).
  - unfold bounded_region. vm_compute. repeat split.
  - split; [exact Hn | exact Hb].
Defined.

(** C9 as stated fails for a source without a pixel along an axis: with a
    source width of 0 the step is 0, the first position [(0 >> 1) - 1]
    wraps to [2^64 - 1], and the nearest kernel reads the pixel 65535 of a
    source that has none, outside its eight bytes of memory; the byte
    kernel takes 65535 and 65536 as its two sample coordinates, the second
    one clamped to [(UINT32)(0 - 1)] only. *)
Lemma sampling_counterexample :
  getWidth zero_width = 0 /\
  fixedStep (getWidth zero_width) (getWidth one_pixel) = Some 0 /\
  nearestCoord (startCoord 0) = 65535 /\
  byte_at two_blocks 0 65535 = None /\
  scale zero_width one_pixel FILTER_NEAREST two_blocks
  = (Abort, mkState (heap two_blocks) [mkAccess 0 65535 1]) /\
  NearestResampler_scale 1 zero_width one_pixel two_blocks
  = (Abort, mkState (heap two_blocks) [mkAccess 0 65535 1]) /\
  ~ reads_only (whole_pixel zero_width)
      (NearestResampler_scale (elemSize zero_width) zero_width one_pixel) /\
  linearSample 12 (startCoord 0) (u32 (getWidth zero_width - 1))
  = (65535, 65536, 2047) /\
  reads (snd (LinearResampler_Byte_scale 1 zero_width one_pixel two_blocks))
  = [mkAccess 0 65535 1].
Proof.
  split; [reflexivity|]. split; [reflexivity|]. split; [reflexivity|].
  split; [reflexivity|].
  split; [vm_compute; reflexivity|]. split; [vm_compute; reflexivity|].
  split; [|split; vm_compute; reflexivity].
  intros H. specialize (H two_blocks).
  destruct H as (new & Hn & Hall).
  assert (E : reads (snd (NearestResampler_scale (elemSize zero_width)
                            zero_width one_pixel two_blocks))
              = [mkAccess 0 65535 1]) by (vm_compute; reflexivity).
  rewrite E in Hn. cbn [reads two_blocks app] in Hn. subst new.
  apply Forall_inv in Hall.
  destruct Hall as (_ & _ & x & y & z & (Hx & _) & _).
  change (getWidth zero_width) with 0 in Hx. lia.
Qed.

(** A single pixel scaled to 4x4: sixteen reads, all of the byte at
    offset 0, with the nearest filter; four times as many with the byte
    kernel, which samples four neighbours for every pixel. *)
Example single_pixel_reads :
  let src := buffer_at 0 1 1 1 PF_R8 in
  let dst := buffer_at 1 4 4 1 PF_R8 in
  reads (snd (NearestResampler_scale 1 src dst two_blocks))
  = replicate 16 (mkAccess 0 0 1) /\
  reads (snd (LinearResampler_Byte_scale 1 src dst two_blocks))
  = replicate 64 (mkAccess 0 0 1) /\
  heap (snd (LinearResampler_Byte_scale 1 src dst two_blocks)) !! 1%nat
  = Some (replicate 16 10).
Proof. vm_compute. repeat split. Qed.

(** ** binary32: a rounding adds at most one unit in the last place *)

Lemma Zdigits2_spec (m : Z) :
  0 < m -> 2 ^ (Zdigits2 m - 1) <= m < 2 ^ Zdigits2 m.
Proof.
  destruct m as [|p|p]; try lia. intros _. apply digits2_pos_spec.
Qed.

Lemma Zdigits2_unique (m d : Z) :
  0 < m -> 2 ^ (d - 1) <= m < 2 ^ d -> Zdigits2 m = d.
Proof.
  destruct m as [|p|p]; try lia. intros _. apply digits2_pos_unique.
Qed.

Lemma shr_1_m (r : shr_record) :
  0 <= shr_m r -> shr_m (shr_1 r) = shr_m r / 2.
Proof.
  destruct r as [m r s]. cbn [shr_m]. intros Hm.
  destruct m as [|[p|p|]|p]; cbn [shr_1 shr_m]; try lia.
  - reflexivity.
  - change (Zpos p~1) with (2 * Zpos p + 1).
    Z.div_mod_to_equations. lia.
  - change (Zpos p~0) with (2 * Zpos p).
    Z.div_mod_to_equations. lia.
  - reflexivity.
Qed.

Lemma iter_shr_1_m (n : nat) (r : shr_record) :
  0 <= shr_m r ->
  shr_m (@Nat.iter n shr_record shr_1 r) = shr_m r / 2 ^ Z.of_nat n.
Proof.
  intros Hm. induction n as [|n IH].
  - simpl. rewrite Z.div_1_r. reflexivity.
  - rewrite Nat.iter_succ. rewrite shr_1_m.
    + rewrite IH, Nat2Z.inj_succ, Z.pow_succ_r by lia.
      rewrite Z.div_div by (try apply Z.pow_pos_nonneg; lia).
      f_equal. ring.
    + rewrite IH. apply Z.div_pos; [exact Hm|].
      apply Z.pow_pos_nonneg; lia.
Qed.

Lemma shr_spec (r : shr_record) (e n : Z) :
  0 <= shr_m r -> 0 <= n ->
  shr_m (fst (shr r e n)) = shr_m r / 2 ^ n /\ snd (shr r e n) = e + n.
Proof.
  intros Hm Hn. destruct n as [|p|p]; [| |lia].
  - cbn [shr fst snd]. rewrite Z.div_1_r. split; [reflexivity | lia].
  - cbn [shr fst snd]. rewrite iter_pos_nat, iter_shr_1_m by exact Hm.
    rewrite positive_nat_Z. split; reflexivity.
Qed.

Lemma shr_m_of_loc (m : Z) (l : location) :
  shr_m (shr_record_of_loc m l) = m.
Proof. destruct l as [|[| |]]; reflexivity. Qed.

Lemma round_nearest_even_bound (m : Z) (l : location) :
  m <= round_nearest_even m l <= m + 1.
Proof.
  destruct l as [|[| |]]; cbn [round_nearest_even];
    try destruct (Z.even m); lia.
Qed.

Lemma canonical_24 (m : positive) (e : Z) :
  Zpos (digits2_pos m) = 24 -> -149 <= e <= 104 ->
  bounded 24 128 m e = true.
Proof.
  intros Hd He. unfold bounded, canonical_mantissa, fexp, emin.
  rewrite Hd. apply andb_true_intro. split.
  - apply Z.eqb_eq. lia.
  - apply Z.leb_le. lia.
Qed.

Lemma canonical_subnormal (m : positive) :
  Zpos (digits2_pos m) <= 24 -> bounded 24 128 m (-149) = true.
Proof.
  intros Hd. unfold bounded, canonical_mantissa, fexp, emin.
  apply andb_true_intro. split.
  - apply Z.eqb_eq. lia.
  - reflexivity.
Qed.

(** The second stage of [binary_round_aux]: a rounded mantissa of at most
    24 digits, or [2^24] after a carry, is renormalised without loss. *)
Lemma round_renormalise (mr E : Z) :
  0 <= mr <= 2 ^ 24 -> -149 <= E -> 2 ^ 23 <= mr \/ E = -149 ->
  let R :=
    let '(mrs, e2) := shr_fexp 24 128 mr E loc_Exact in
    match shr_m mrs with
    | Z0 => S754_zero false
    | Zpos m => if e2 <=? 128 - 24 then S754_finite false m e2
                else S754_infinity false
    | Zneg _ => S754_nan
    end in
  R = S754_zero false \/
  (R = S754_infinity false /\
   (104 < E /\ 2 ^ 23 <= mr \/ E = 104 /\ mr = 2 ^ 24)) \/
  exists m' e', R = S754_finite false m' e' /\ bounded 24 128 m' e' = true /\
                E <= e' /\ Zpos m' * 2 ^ (e' - E) = mr.
Proof.
  intros Hmr HE Hcase. cbv zeta. unfold shr_fexp, fexp, emin.
  change (3 - 128 - 24) with (-149). change (128 - 24) with 104.
  cbn [shr_record_of_loc].
  destruct (Z.eq_dec mr 0) as [-> | Hne].
  - left. cbn [Zdigits2].
    replace (Z.max (0 + E - 24) (-149) - E) with (- (E + 149)) by lia.
    destruct (- (E + 149)) as [|p|p] eqn:En; try lia; reflexivity.
  - right. assert (Hpos : 0 < mr) by lia.
    destruct (Z.eq_dec mr (2 ^ 24)) as [-> | Hlt].
    + (* a carry: one more digit *)
      replace (Zdigits2 (2 ^ 24)) with 25 by reflexivity.
      replace (Z.max (25 + E - 24) (-149) - E) with 1 by lia.
      cbn [shr iter_pos shr_1 shr_m].
      change (shr_m (shr_1 {| shr_m := 2 ^ 24; shr_r := false;
                              shr_s := false |})) with 8388608.
      cbv iota beta.
      destruct (Z.leb_spec (E + 1) 104) as [Hfin | Hinf].
      * right. exists 8388608%positive, (E + 1).
        split; [reflexivity|]. split; [apply canonical_24; [reflexivity|lia]|].
        split; [lia|]. replace (E + 1 - E) with 1 by lia. reflexivity.
      * left. split; [reflexivity|].
        destruct (Z.eq_dec E 104) as [E104 | E104];
          [right; split; [exact E104 | reflexivity]|].
        left. split; [lia|].
        change (2 ^ 23) with 8388608. change (2 ^ 24) with 16777216. lia.
    + pose proof (Zdigits2_spec mr Hpos) as [Hlo Hhi].
      assert (Hd : Zdigits2 mr <= 24).
      { destruct (Z.le_gt_cases (Zdigits2 mr) 24) as [|Hgt]; [assumption|].
        exfalso. assert (2 ^ 24 <= 2 ^ (Zdigits2 mr - 1))
          by (apply Z.pow_le_mono_r; lia). lia. }
      assert (Hn2 : Z.max (Zdigits2 mr + E - 24) (-149) - E = 0).
      { destruct Hcase as [H23 | ->]; [|lia].
        assert (24 <= Zdigits2 mr); [|lia].
        destruct (Z.le_gt_cases 24 (Zdigits2 mr)) as [|Hgt]; [assumption|].
        exfalso. assert (2 ^ Zdigits2 mr <= 2 ^ 23)
          by (apply Z.pow_le_mono_r; lia). lia. }
      rewrite Hn2. cbn [shr shr_m].
      destruct mr as [|m'|m']; try lia.
      destruct (Z.leb_spec E 104) as [Hfin | Hinf].
      * right. exists m', E. split; [reflexivity|].
        split; [|split; [lia|rewrite Z.sub_diag; lia]].
        cbn [Zdigits2] in *.
        destruct Hcase as [H23 | ->].
        -- apply canonical_24; [|lia].
           apply digits2_pos_unique. change (2 ^ (24 - 1)) with (2 ^ 23).
           lia.
        -- apply canonical_subnormal. exact Hd.
      * left. split; [reflexivity|]. left. split; [lia|].
        destruct Hcase as [H23 | ->]; [exact H23 | lia].
Qed.

(** What [binary_round_aux] returns for a positive mantissa [m] at an
    exponent [e] not above the one of its rounded form: zero, a canonical
    float that exceeds [m * 2^e] by at most one unit of that exponent, or,
    for a number that is at least the largest float, infinity. *)
Lemma round_aux_bound (m e : Z) (l : location) :
  0 < m -> e <= Z.max (Zdigits2 m + e - 24) (-149) ->
  let E := Z.max (Zdigits2 m + e - 24) (-149) in
  let R := binary_round_aux 24 128 false m e l in
  R = S754_zero false \/
  (R = S754_infinity false /\ 128 <= Zdigits2 m + e /\
   (e <= 104 -> (2 ^ 24 - 1) * 2 ^ (104 - e) <= m)) \/
  exists m' e', R = S754_finite false m' e' /\ bounded 24 128 m' e' = true /\
                E <= e' /\ Zpos m' * 2 ^ (e' - e) <= m + 2 ^ (E - e).
Proof.
  intros Hm He E R. subst R. fold E in He.
  pose proof (Zdigits2_spec m Hm) as [Hlo Hhi].
  set (d := Zdigits2 m) in *. set (n := E - e).
  assert (Hn : 0 <= n) by (unfold n; lia).
  assert (HPn : 0 < 2 ^ n) by (apply Z.pow_pos_nonneg; lia).
  assert (E1 : shr_fexp 24 128 m e l = shr (shr_record_of_loc m l) e n)
    by reflexivity.
  pose proof (shr_spec (shr_record_of_loc m l) e n) as Hshr.
  rewrite shr_m_of_loc in Hshr. specialize (Hshr ltac:(lia) Hn).
  unfold binary_round_aux. rewrite E1.
  destruct (shr (shr_record_of_loc m l) e n) as [rec1 e1].
  cbn [fst snd] in Hshr. destruct Hshr as [Hm1 He1].
  replace (e + n) with E in He1 by (unfold n; lia). subst e1.
  pose proof (round_nearest_even_bound (shr_m rec1) (loc_of_shr_record rec1))
    as Hr.
  set (mr := round_nearest_even (shr_m rec1) (loc_of_shr_record rec1)) in *.
  rewrite Hm1 in Hr.
  pose proof (Z.div_mod m (2 ^ n) ltac:(lia)) as Hdm.
  pose proof (Z.mod_pos_bound m (2 ^ n) HPn) as Hmb.
  assert (Hm1' : 0 <= m / 2 ^ n) by (apply Z.div_pos; lia).
  assert (Hcases : (2 ^ 23 <= m / 2 ^ n < 2 ^ 24 /\ E = d + e - 24)
                   \/ (m / 2 ^ n < 2 ^ 23 /\ E = -149)).
  { destruct (Z.le_gt_cases (-149) (d + e - 24)) as [Hnorm | Hsub].
    - left. assert (EE : E = d + e - 24) by (unfold E; lia).
      split; [|exact EE].
      assert (Hd : d = n + 24) by (unfold n; lia).
      rewrite Hd in Hlo, Hhi.
      replace (n + 24 - 1) with (n + 23) in Hlo by lia.
      rewrite Z.pow_add_r in Hlo, Hhi by lia. split.
      + apply Z.div_le_lower_bound; lia.
      + apply Z.div_lt_upper_bound; lia.
    - right. assert (EE : E = -149) by (unfold E; lia).
      split; [|exact EE].
      assert (Hd : d <= n + 23) by (unfold n; lia).
      assert (2 ^ d <= 2 ^ (n + 23)) by (apply Z.pow_le_mono_r; lia).
      rewrite Z.pow_add_r in * by lia.
      apply Z.div_lt_upper_bound; lia. }
  assert (HE : -149 <= E) by (unfold E; lia).
  assert (Hmr : 0 <= mr <= 2 ^ 24).
  { change (2 ^ 24) with 16777216. change (2 ^ 23) with 8388608 in Hcases.
    change (2 ^ 24) with 16777216 in Hcases. lia. }
  assert (Hc : 2 ^ 23 <= mr \/ E = -149) by lia.
  destruct (round_renormalise mr E Hmr HE Hc)
    as [Hz | [(Hi & HiE) | (m' & e' & Hf & Hb & Hee & Hv)]].
  - left. exact Hz.
  - right. left. split; [exact Hi|].
    assert (HE104 : 104 <= E) by lia.
    split; [unfold E in HE104; lia|]. intros He104.
    assert (Hn104 : 0 <= 104 - e) by lia.
    destruct Hcases as [(Hm23 & EE) | (_ & EE)]; [|lia].
    destruct HiE as [(Hgt & _) | (E104 & Hcarry)].
    + assert (Hp : 2 ^ (104 - e + 1) <= 2 ^ n)
        by (apply Z.pow_le_mono_r; unfold n; lia).
      rewrite Z.pow_add_r in Hp by lia. change (2 ^ 1) with 2 in Hp.
      assert (0 < 2 ^ (104 - e)) by (apply Z.pow_pos_nonneg; lia).
      change (2 ^ 24) with 16777216. change (2 ^ 23) with 8388608 in Hm23.
      nia.
    + replace (104 - e) with n by (unfold n; lia).
      rewrite Hcarry in Hr.
      change (2 ^ 24) with 16777216 in *. nia.
  - right. right. exists m', e'. split; [exact Hf|]. split; [exact Hb|].
    split; [exact Hee|].
    replace (e' - e) with (e' - E + n) by (unfold n; lia).
    rewrite Z.pow_add_r by lia. rewrite Z.mul_assoc, Hv.
    fold n. nia.
Qed.

Lemma bounded_range (m : positive) (e : Z) :
  bounded 24 128 m e = true ->
  -149 <= e <= 104 /\ Zpos m < 2 ^ 24 /\ (-149 < e -> 2 ^ 23 <= Zpos m).
Proof.
  intros Hb. pose proof (bounded_canonical m e Hb) as [Hcan Hmax].
  pose proof (digits2_pos_spec m) as [Hlo Hhi].
  split; [lia|]. split.
  - eapply Z.lt_le_trans; [exact Hhi|]. apply Z.pow_le_mono_r; lia.
  - intros He. assert (Hd : Zpos (digits2_pos m) = 24) by lia.
    rewrite Hd in Hlo. exact Hlo.
Qed.

Lemma sval_nonneg (x : spec_float) : 0 <= sval x.
Proof.
  destruct x as [s|s| |[|] m e]; cbn [sval];
    first [lia | apply Z.mul_nonneg_nonneg; [lia | apply Z.pow_nonneg; lia]].
Qed.

(** Canonical floats of a larger exponent are larger. *)
Lemma sval_exponent_lt (mx my : positive) (ex ey : Z) :
  bounded 24 128 mx ex = true -> bounded 24 128 my ey = true -> ex < ey ->
  Zpos mx * 2 ^ (ex + 149) < Zpos my * 2 ^ (ey + 149).
Proof.
  intros Hx Hy Hlt.
  destruct (bounded_range mx ex Hx) as (Hex & Hmx & _).
  destruct (bounded_range my ey Hy) as (Hey & _ & Hmy).
  specialize (Hmy ltac:(lia)).
  assert (HP : 0 < 2 ^ (ex + 149)) by (apply Z.pow_pos_nonneg; lia).
  assert (Hpow : 2 * 2 ^ (ex + 149) <= 2 ^ (ey + 149)).
  { rewrite <- Z.pow_succ_r by lia. apply Z.pow_le_mono_r; lia. }
  change (2 ^ 24) with (2 * 2 ^ 23) in Hmx.
  set (P := 2 ^ (ex + 149)) in *. set (Q := 2 ^ (ey + 149)) in *.
  set (T := 2 ^ 23) in *. assert (0 < T) by reflexivity.
  clearbody P Q T. nia.
Qed.

Lemma compare_sval (x y : spec_float) :
  nonneg_finite x -> nonneg_finite y ->
  SFcompare x y = Some (sval x ?= sval y).
Proof.
  destruct x as [sx|sx| |[|] mx ex]; try contradiction;
    destruct y as [sy|sy| |[|] my ey]; try contradiction;
    cbn [nonneg_finite]; intros Hx Hy.
  - reflexivity.
  - cbn [SFcompare sval]. f_equal. symmetry. apply Z.compare_lt_iff.
    destruct (bounded_range my ey Hy) as (Hey & _).
    apply Z.mul_pos_pos; [lia | apply Z.pow_pos_nonneg; lia].
  - cbn [SFcompare sval]. f_equal. symmetry. apply Z.compare_gt_iff.
    destruct (bounded_range mx ex Hx) as (Hex & _).
    apply Z.mul_pos_pos; [lia | apply Z.pow_pos_nonneg; lia].
  - cbn [SFcompare sval]. f_equal.
    destruct (Z.compare_spec ex ey) as [He | He | He].
    + subst ey. destruct (bounded_range mx ex Hx) as (Hex & _).
      rewrite <- Zmult_compare_compat_r
        by (apply Z.lt_gt, Z.pow_pos_nonneg; lia).
      reflexivity.
    + symmetry. apply Z.compare_lt_iff.
      apply sval_exponent_lt; assumption.
    + symmetry. apply Z.compare_gt_iff.
      apply sval_exponent_lt; assumption.
Qed.

Lemma ltb_sval (x y : spec_float) :
  nonneg_finite x -> nonneg_finite y ->
  (F32.ltb x y = true -> sval x < sval y) /\
  (F32.ltb x y = false -> sval y <= sval x).
Proof.
  intros Hx Hy. unfold F32.ltb, SFltb. rewrite (compare_sval x y Hx Hy).
  destruct (Z.compare_spec (sval x) (sval y)); split; intros; try lia;
    discriminate.
Qed.

Lemma leb_sval (x y : spec_float) :
  nonneg_finite x -> nonneg_finite y ->
  F32.leb x y = true -> sval x <= sval y.
Proof.
  intros Hx Hy. unfold F32.leb, SFleb. rewrite (compare_sval x y Hx Hy).
  destruct (Z.compare_spec (sval x) (sval y)); intros; try lia; discriminate.
Qed.

(** The exponent at which a product of canonical mantissas is rounded is
    not below the sum of the exponents. *)
Lemma product_exponent (mx my : positive) (ex ey : Z) :
  bounded 24 128 mx ex = true -> bounded 24 128 my ey = true ->
  ex + ey <= Z.max (Zdigits2 (Zpos (mx * my)) + (ex + ey) - 24) (-149).
Proof.
  intros Hx Hy.
  destruct (bounded_range mx ex Hx) as (Hex & _ & Hnx).
  destruct (bounded_range my ey Hy) as (Hey & _ & Hny).
  destruct (Z.le_gt_cases (ex + ey) (-149)) as [|Hgt]; [lia|].
  assert (H23 : 2 ^ 23 <= Zpos (mx * my)).
  { rewrite Pos2Z.inj_mul.
    destruct (Z.eq_dec ex (-149)) as [-> | Hne].
    - specialize (Hny ltac:(lia)). nia.
    - specialize (Hnx ltac:(lia)). nia. }
  pose proof (Zdigits2_spec (Zpos (mx * my)) ltac:(lia)) as [_ Hhi].
  assert (24 <= Zdigits2 (Zpos (mx * my))); [|lia].
  destruct (Z.le_gt_cases 24 (Zdigits2 (Zpos (mx * my)))) as [|Hlt];
    [assumption|].
  exfalso.
  assert (2 ^ Zdigits2 (Zpos (mx * my)) <= 2 ^ 23)
    by (apply Z.pow_le_mono_r; [lia|]; lia).
  lia.
Qed.

(** The product of two non-negative floats, when it is below the largest
    float: a float that exceeds the exact product by at most one unit in
    the last place. *)
Lemma mul_bound (x y : spec_float) :
  nonneg_finite x -> nonneg_finite y ->
  sval x * sval y < (2 ^ 24 - 1) * 2 ^ 402 ->
  nonneg_finite (F32.mul x y) /\
  (sval (F32.mul x y) * 2 ^ 149 - sval x * sval y - 2 ^ 149) * 2 ^ 23
  <= sval x * sval y.
Proof.
  intros Hx Hy Hlt.
  pose proof (sval_nonneg x) as H0x. pose proof (sval_nonneg y) as H0y.
  assert (Hzero : forall s, nonneg_finite (S754_zero s) /\
            (sval (S754_zero s) * 2 ^ 149 - sval x * sval y - 2 ^ 149)
            * 2 ^ 23 <= sval x * sval y).
  { intros s. split; [exact I|]. cbn [sval].
    assert (0 <= sval x * sval y) by (apply Z.mul_nonneg_nonneg; lia).
    assert (0 < 2 ^ 149) by reflexivity. assert (0 < 2 ^ 23) by reflexivity.
    nia. }
  destruct x as [sx|sx| |[|] mx ex]; try contradiction;
    destruct y as [sy|sy| |[|] my ey]; try contradiction;
    try apply Hzero.
  cbn [nonneg_finite] in Hx, Hy.
  unfold F32.mul, SFmul, F32.prec, F32.emax. cbn [xorb].
  destruct (bounded_range mx ex Hx) as (Hex & _).
  destruct (bounded_range my ey Hy) as (Hey & _).
  pose proof (product_exponent mx my ex ey Hx Hy) as Hexp.
  pose proof (Zdigits2_spec (Zpos (mx * my)) ltac:(lia)) as [Hlo Hhi].
  set (m := Zpos (mx * my)) in *. set (e := ex + ey) in *.
  set (d := Zdigits2 m) in *.
  assert (HP : sval (S754_finite false mx ex) * sval (S754_finite false my ey)
               = m * 2 ^ (e + 298)).
  { cbn [sval]. unfold m, e. rewrite Pos2Z.inj_mul.
    replace (ex + ey + 298) with ((ex + 149) + (ey + 149)) by lia.
    rewrite (Z.pow_add_r 2 (ex + 149) (ey + 149)) by lia. ring. }
  rewrite HP in *.
  assert (He298 : 0 <= e + 298) by (unfold e; lia).
  assert (Hd1 : 1 <= d).
  { destruct (Z.le_gt_cases 1 d) as [|Hd0]; [assumption|]. exfalso.
    assert (2 ^ d <= 2 ^ 0) by (apply Z.pow_le_mono_r; lia).
    simpl in *. lia. }
  assert (Hlow : 2 ^ (d - 1 + (e + 298)) <= m * 2 ^ (e + 298)).
  { rewrite Z.pow_add_r by lia.
    apply Z.mul_le_mono_nonneg_r; [apply Z.pow_nonneg; lia | exact Hlo]. }
  assert (Hde : d + e <= 128).
  { assert (d - 1 + (e + 298) < 426); [|lia].
    apply (Z.pow_lt_mono_r_iff 2); [lia | lia |].
    eapply Z.le_lt_trans; [exact Hlow|].
    eapply Z.lt_trans; [exact Hlt|]. reflexivity. }
  pose proof (round_aux_bound m e loc_Exact ltac:(unfold m; lia) Hexp)
    as Hr.
  cbv zeta in Hr. fold d in Hr.
  set (E := Z.max (d + e - 24) (-149)) in *.
  destruct Hr as [Hz | [(Hi & Hbig & Hmax) | (m' & e' & Hf & Hb & HEe & Hv)]].
  - rewrite Hz. apply Hzero.
  - exfalso. assert (He104 : e <= 104) by lia.
    specialize (Hmax He104).
    assert (Hp : 2 ^ 402 = 2 ^ (104 - e) * 2 ^ (e + 298)).
    { rewrite <- Z.pow_add_r by lia. f_equal. lia. }
    rewrite Hp in Hlt.
    assert (0 < 2 ^ (e + 298)) by (apply Z.pow_pos_nonneg; lia).
    assert (0 <= 2 ^ (104 - e)) by (apply Z.pow_nonneg; lia).
    change (2 ^ 24 - 1) with 16777215 in *.
    set (P := 2 ^ (e + 298)) in *. set (Q := 2 ^ (104 - e)) in *.
    clearbody P Q. nia.
  - rewrite Hf. split; [exact Hb|]. cbn [sval].
    destruct (bounded_range m' e' Hb) as (He' & _).
    (* m' * 2^(e'+149) * 2^149 = m' * 2^(e'-e) * 2^(e+298) *)
    assert (Hu : 2 ^ (E + 298) * 2 ^ 23 <= m * 2 ^ (e + 298)
                 \/ E = -149) by
      (destruct (Z.le_gt_cases (-149) (d + e - 24)) as [Hn | Hs];
       [left | right; unfold E; lia];
       rewrite <- Z.pow_add_r by (unfold E; lia);
       replace (E + 298 + 23) with (d - 1 + (e + 298)) by (unfold E; lia);
       exact Hlow).
    replace (Zpos m' * 2 ^ (e' + 149) * 2 ^ 149)
      with (Zpos m' * 2 ^ (e' - e) * 2 ^ (e + 298)).
    2:{ rewrite <- !Z.mul_assoc, <- !Z.pow_add_r by lia.
        f_equal. f_equal. lia. }
    assert (Hv' : Zpos m' * 2 ^ (e' - e) * 2 ^ (e + 298)
                  <= m * 2 ^ (e + 298) + 2 ^ (E + 298)).
    { replace (E + 298) with ((E - e) + (e + 298)) by lia.
      rewrite (Z.pow_add_r 2 (E - e)) by lia.
      rewrite <- Z.mul_add_distr_r.
      apply Z.mul_le_mono_nonneg_r; [apply Z.pow_nonneg; lia | exact Hv]. }
    assert (H149 : E = -149 -> 2 ^ (E + 298) = 2 ^ 149)
      by (intros ->; reflexivity).
    assert (0 < 2 ^ (E + 298)) by (apply Z.pow_pos_nonneg; unfold E; lia).
    set (V := Zpos m' * 2 ^ (e' - e) * 2 ^ (e + 298)) in *.
    set (P := m * 2 ^ (e + 298)) in *. set (U := 2 ^ (E + 298)) in *.
    assert (0 <= P) by (unfold P; apply Z.mul_nonneg_nonneg;
                        [unfold m; lia | apply Z.pow_nonneg; lia]).
    assert (HT : 0 < 2 ^ 23) by reflexivity.
    assert (HA : 0 < 2 ^ 149) by reflexivity.
    set (T := 2 ^ 23) in *. set (A := 2 ^ 149) in *.
    clearbody V P U T A.
    destruct Hu as [Hu | Hu]; [nia|]. rewrite (H149 Hu) in *. nia.
Qed.

(** A non-negative float below 256 converts to a byte. *)
Lemma to_unsigned_small (x : spec_float) :
  nonneg_finite x -> sval x < 256 * 2 ^ 149 ->
  exists q, F32.to_unsigned 8 x = Some q /\ 0 <= q <= 255.
Proof.
  intros Hx Hlt.
  destruct x as [s|s| |[|] m e]; try contradiction.
  - exists 0. split; [reflexivity | lia].
  - cbn [nonneg_finite] in Hx. cbn [sval] in Hlt.
    destruct (bounded_range m e Hx) as (He & _).
    unfold F32.to_unsigned, F32.trunc. cbn [cond_Zopp].
    set (z := if 0 <=? e then Zpos m * 2 ^ e else Zpos m / 2 ^ (- e)).
    assert (Hz : 0 <= z < 256).
    { unfold z. destruct (Z.leb_spec 0 e) as [H0 | H0].
      - rewrite Z.pow_add_r in Hlt by lia.
        assert (0 < 2 ^ e) by (apply Z.pow_pos_nonneg; lia).
        assert (0 < 2 ^ 149) by reflexivity.
        set (A := 2 ^ 149) in *. set (P := 2 ^ e) in *. clearbody A P.
        nia.
      - assert (HP : 0 < 2 ^ (- e)) by (apply Z.pow_pos_nonneg; lia).
        split; [apply Z.div_pos; lia|].
        apply Z.div_lt_upper_bound; [exact HP|].
        assert (HA : 2 ^ 149 = 2 ^ (- e) * 2 ^ (e + 149)).
        { rewrite <- Z.pow_add_r by lia. f_equal. lia. }
        assert (0 < 2 ^ (e + 149)) by (apply Z.pow_pos_nonneg; lia).
        rewrite HA in Hlt.
        set (Q := 2 ^ (e + 149)) in *. set (P := 2 ^ (- e)) in *.
        clearbody Q P. nia. }
    exists z. split; [|lia].
    replace ((0 <=? z) && (z <? 2 ^ 8)) with true; [reflexivity|].
    symmetry. apply andb_true_intro. split.
    + apply Z.leb_le. lia.
    + apply Z.ltb_lt. change (2 ^ 8) with 256. lia.
Qed.

Lemma f255_eq : F32.of_Z 255 = S754_finite false 16711680 (-16).
Proof. reflexivity. Qed.

(** The clip factor [255.0f / c] of a channel above 255, times the
    channel, is at most [255 + 2^-15]. *)
Lemma div_255_bound (c : spec_float) :
  nonneg_finite c -> F32.gtb c (F32.of_Z 255) = true ->
  nonneg_finite (F32.div (F32.of_Z 255) c) /\
  sval c * sval (F32.div (F32.of_Z 255) c) <= 255 * 2 ^ 298 + 2 ^ 283.
Proof.
  intros Hc Hgt. rewrite f255_eq in *.
  destruct c as [s|s| |[|] mc ec]; try contradiction;
    [discriminate Hgt|].
  cbn [nonneg_finite] in Hc.
  destruct (bounded_range mc ec Hc) as (Hec & Hmc & Hnorm).
  assert (Hec16 : -16 <= ec).
  { unfold F32.gtb, SFltb, SFcompare in Hgt.
    destruct (Z.compare_spec (-16) ec); first [lia | discriminate Hgt]. }
  specialize (Hnorm ltac:(lia)).
  assert (Hdc : Zpos (digits2_pos mc) = 24).
  { apply digits2_pos_unique. change (2 ^ (24 - 1)) with (2 ^ 23). lia. }
  set (N := 255 * 2 ^ 40).
  assert (Hcore : SFdiv_core_binary 24 128 16711680 (-16) (Zpos mc) ec
                  = (let '(q, r) := Z.div_eucl N (Zpos mc) in
                     (q, -40 - ec, new_location (Zpos mc) r))).
  { unfold SFdiv_core_binary. cbn [Zdigits2]. rewrite Hdc.
    change (Zpos (digits2_pos 16711680)) with 24.
    unfold fexp, emin. change (3 - 128 - 24) with (-149).
    replace (Z.min (Z.max (24 + -16 - (24 + ec) - 24) (-149)) (-16 - ec))
      with (-40 - ec) by lia.
    replace (-16 - ec - (-40 - ec)) with 24 by lia.
    reflexivity. }
  unfold F32.div, SFdiv, F32.prec, F32.emax. rewrite Hcore. cbn [xorb].
  pose proof (Z_div_mod N (Zpos mc) ltac:(lia)) as Hdm.
  destruct (Z.div_eucl N (Zpos mc)) as [q r].
  destruct Hdm as [HN Hr].
  change (2 ^ 24) with 16777216 in Hmc. change (2 ^ 23) with 8388608 in Hnorm.
  assert (HNv : N = 280375465082880) by reflexivity.
  assert (Hq : 16711680 <= q <= 33423360) by nia.
  assert (Hdq : 24 <= Zdigits2 q <= 25).
  { pose proof (Zdigits2_spec q ltac:(lia)) as [Hlo Hhi]. split.
    - destruct (Z.le_gt_cases 24 (Zdigits2 q)) as [|Hlt]; [assumption|].
      exfalso. assert (2 ^ Zdigits2 q <= 2 ^ 23)
        by (apply Z.pow_le_mono_r; lia).
      change (2 ^ 23) with 8388608 in *. lia.
    - destruct (Z.le_gt_cases (Zdigits2 q) 25) as [|Hlt]; [assumption|].
      exfalso. assert (2 ^ 25 <= 2 ^ (Zdigits2 q - 1))
        by (apply Z.pow_le_mono_r; lia).
      change (2 ^ 25) with 33554432 in *. lia. }
  pose proof (round_aux_bound q (-40 - ec) (new_location (Zpos mc) r)
                ltac:(lia) ltac:(lia)) as Hround.
  cbv zeta in Hround.
  destruct Hround
    as [Hz | [(Hi & Hbig & _) | (m' & e' & Hf & Hb & HEe & Hv)]].
  - rewrite Hz. split; [exact I|]. cbn [sval]. rewrite Z.mul_0_r.
    vm_compute. discriminate.
  - lia.
  - rewrite Hf. split; [exact Hb|]. cbn [sval].
    destruct (bounded_range m' e' Hb) as (He' & _).
    assert (Hulp : 2 ^ (Z.max (Zdigits2 q + (-40 - ec) - 24) (-149)
                        - (-40 - ec)) <= 2).
    { replace (Z.max (Zdigits2 q + (-40 - ec) - 24) (-149) - (-40 - ec))
        with (Zdigits2 q - 24) by lia.
      change 2 with (2 ^ 1) at 2. apply Z.pow_le_mono_r; lia. }
    assert (Hv2 : Zpos m' * 2 ^ (e' - (-40 - ec)) <= q + 2) by lia.
    replace (Zpos mc * 2 ^ (ec + 149) * (Zpos m' * 2 ^ (e' + 149)))
      with (Zpos mc * (Zpos m' * 2 ^ (e' - (-40 - ec))) * 2 ^ 258).
    2:{ replace (e' + 149) with ((e' - (-40 - ec)) + (109 - ec)) by lia.
        rewrite (Z.pow_add_r 2 (e' - (-40 - ec))) by lia.
        replace 258 with ((ec + 149) + (109 - ec)) by lia.
        rewrite (Z.pow_add_r 2 (ec + 149)) by lia. ring. }
    assert (Hprod : Zpos mc * (Zpos m' * 2 ^ (e' - (-40 - ec)))
                    <= N + 33554432) by nia.
    change (255 * 2 ^ 298 + 2 ^ 283) with ((N + 33554432) * 2 ^ 258).
    apply Z.mul_le_mono_nonneg_r; [apply Z.pow_nonneg; lia | exact Hprod].
Qed.

(** ** The clip of [applyGamma] *)

(** The float of a byte, checked on the 256 byte values. *)
Lemma of_Z_byte_table :
  forallb (fun x =>
             match F32.of_Z x with
             | S754_zero false => true
             | S754_finite false m e =>
                 bounded 24 128 m e
                 && (Zpos m * 2 ^ (e + 149) <=? 255 * 2 ^ 149)
             | _ => false
             end) all_bytes = true.
Proof. vm_compute. reflexivity. Qed.

Lemma of_Z_byte (x : Z) :
  is_byte x ->
  nonneg_finite (F32.of_Z x) /\ sval (F32.of_Z x) <= 255 * 2 ^ 149.
Proof.
  intros Hx. pose proof (byte_forall _ of_Z_byte_table x Hx) as H.
  cbv beta in H.
  destruct (F32.of_Z x) as [[|]|s| |[|] m e]; try discriminate H.
  - split; [exact I|]. vm_compute. discriminate.
  - apply andb_prop in H as [Hb Hv]. apply Z.leb_le in Hv.
    split; [exact Hb | exact Hv].
Qed.

Lemma gamma_range_bound (gamma : spec_float) :
  gamma_range gamma -> nonneg_finite gamma /\ sval gamma <= 2 ^ 269.
Proof.
  intros (Hv & H0 & H1).
  destruct gamma as [s|s| |[|] m e].
  - split; [exact I|]. vm_compute. discriminate.
  - destruct s; [discriminate H0 | discriminate H1].
  - discriminate H0.
  - discriminate H0.
  - split; [exact Hv|].
    apply (leb_sval (S754_finite false m e) (F32.of_Z (2 ^ 120)));
      [exact Hv | reflexivity | exact H1].
Qed.

Lemma gamma_channel (x : Z) (gamma : spec_float) :
  is_byte x -> gamma_range gamma ->
  nonneg_finite (F32.mul (F32.of_Z x) gamma).
Proof.
  intros Hx Hg. destruct (of_Z_byte x Hx) as (Hn & Hv).
  destruct (gamma_range_bound gamma Hg) as (Hgn & Hgv).
  apply mul_bound; [exact Hn | exact Hgn |].
  pose proof (sval_nonneg (F32.of_Z x)). pose proof (sval_nonneg gamma).
  assert (sval (F32.of_Z x) * sval gamma <= 255 * 2 ^ 149 * 2 ^ 269)
    by (apply Z.mul_le_mono_nonneg; lia).
  eapply Z.le_lt_trans; [eassumption|]. reflexivity.
Qed.

(** One step of the clip: the factor stays a number, does not grow, and
    caps the channel the step looks at. *)
Lemma clip_step (c scale : spec_float) :
  nonneg_finite c -> nonneg_finite scale ->
  let s' := if F32.gtb c (F32.of_Z 255)
               && F32.ltb (F32.div (F32.of_Z 255) c) scale
            then F32.div (F32.of_Z 255) c else scale in
  nonneg_finite s' /\ sval s' <= sval scale /\
  (F32.gtb c (F32.of_Z 255) = true ->
   sval c * sval s' <= 255 * 2 ^ 298 + 2 ^ 283).
Proof.
  intros Hc Hs. cbv zeta.
  destruct (F32.gtb c (F32.of_Z 255)) eqn:Hgt; cbn [andb].
  - destruct (div_255_bound c Hc Hgt) as (Hd & Hb).
    destruct (ltb_sval (F32.div (F32.of_Z 255) c) scale Hd Hs) as (Ht & Hf).
    destruct (F32.ltb (F32.div (F32.of_Z 255) c) scale).
    + split; [exact Hd|]. split; [specialize (Ht eq_refl); lia|].
      intros _. exact Hb.
    + split; [exact Hs|]. split; [lia|]. intros _.
      specialize (Hf eq_refl). pose proof (sval_nonneg c).
      eapply Z.le_trans; [|exact Hb].
      apply Z.mul_le_mono_nonneg_l; lia.
  - split; [exact Hs|]. split; [lia|]. discriminate.
Qed.

(** A channel times a clip factor of at most one that caps it is below
    256, and converts to a byte. *)
Lemma clipped_channel (c s : spec_float) :
  nonneg_finite c -> nonneg_finite s -> sval s <= 2 ^ 149 ->
  (F32.gtb c (F32.of_Z 255) = true ->
   sval c * sval s <= 255 * 2 ^ 298 + 2 ^ 283) ->
  exists q, F32.to_unsigned 8 (F32.mul c s) = Some q /\ 0 <= q <= 255.
Proof.
  intros Hc Hs H1 Hcap.
  pose proof (sval_nonneg c) as H0c. pose proof (sval_nonneg s) as H0s.
  assert (HB : sval c * sval s <= 255 * 2 ^ 298 + 2 ^ 283).
  { destruct (F32.gtb c (F32.of_Z 255)) eqn:Hgt; [exact (Hcap eq_refl)|].
    destruct (ltb_sval (F32.of_Z 255) c) as (_ & Hle);
      [reflexivity | exact Hc |].
    specialize (Hle Hgt).
    change (sval (F32.of_Z 255)) with (255 * 2 ^ 149) in Hle.
    assert (sval c * sval s <= 255 * 2 ^ 149 * 2 ^ 149)
      by (apply Z.mul_le_mono_nonneg; lia).
    eapply Z.le_trans; [eassumption|]. vm_compute. discriminate. }
  destruct (mul_bound c s Hc Hs) as (Hn & Hv).
  { eapply Z.le_lt_trans; [exact HB|]. reflexivity. }
  apply to_unsigned_small; [exact Hn|].
  set (P := sval c * sval s) in *. set (V := sval (F32.mul c s)) in *.
  clearbody P V.
  let A := eval vm_compute in (2 ^ 149) in
  change (2 ^ 149) with A in *.
  let T := eval vm_compute in (2 ^ 23) in
  change (2 ^ 23) with T in Hv.
  let B := eval vm_compute in (255 * 2 ^ 298 + 2 ^ 283) in
  change (255 * 2 ^ 298 + 2 ^ 283) with B in HB.
  lia.
Qed.

Lemma gammaPixel_bytes (gamma : spec_float) (r0 g0 b0 : Z) :
  gamma_range gamma -> is_byte r0 -> is_byte g0 -> is_byte b0 ->
  exists r8 g8 b8,
    (let '(r, g, b) := gammaPixel gamma r0 g0 b0 in
     F32.to_unsigned 8 r = Some r8 /\ F32.to_unsigned 8 g = Some g8 /\
     F32.to_unsigned 8 b = Some b8) /\
    0 <= r8 <= 255 /\ 0 <= g8 <= 255 /\ 0 <= b8 <= 255.
Proof.
  intros Hg Hr0 Hg0 Hb0. unfold gammaPixel. cbv zeta.
  pose proof (gamma_channel r0 gamma Hr0 Hg) as Hr.
  pose proof (gamma_channel g0 gamma Hg0 Hg) as Hgc.
  pose proof (gamma_channel b0 gamma Hb0 Hg) as Hb.
  set (r := F32.mul (F32.of_Z r0) gamma) in *.
  set (g := F32.mul (F32.of_Z g0) gamma) in *.
  set (b := F32.mul (F32.of_Z b0) gamma) in *.
  assert (H1 : nonneg_finite F32.one) by reflexivity.
  pose proof (clip_step r F32.one Hr H1) as (Hn1 & Hd1 & Hc1).
  set (s1 := if F32.gtb r (F32.of_Z 255)
                && F32.ltb (F32.div (F32.of_Z 255) r) F32.one
             then F32.div (F32.of_Z 255) r else F32.one) in *.
  pose proof (clip_step g s1 Hgc Hn1) as (Hn2 & Hd2 & Hc2).
  set (s2 := if F32.gtb g (F32.of_Z 255)
                && F32.ltb (F32.div (F32.of_Z 255) g) s1
             then F32.div (F32.of_Z 255) g else s1) in *.
  pose proof (clip_step b s2 Hb Hn2) as (Hn3 & Hd3 & Hc3).
  set (s3 := if F32.gtb b (F32.of_Z 255)
                && F32.ltb (F32.div (F32.of_Z 255) b) s2
             then F32.div (F32.of_Z 255) b else s2) in *.
  change (sval F32.one) with (2 ^ 149) in Hd1.
  pose proof (sval_nonneg r). pose proof (sval_nonneg g).
  pose proof (sval_nonneg b).
  destruct (clipped_channel r s3 Hr Hn3) as (r8 & Er & Rr); [lia| |].
  { intros Hgt. eapply Z.le_trans; [|exact (Hc1 Hgt)].
    apply Z.mul_le_mono_nonneg_l; lia. }
  destruct (clipped_channel g s3 Hgc Hn3) as (g8 & Eg & Rg); [lia| |].
  { intros Hgt. eapply Z.le_trans; [|exact (Hc2 Hgt)].
    apply Z.mul_le_mono_nonneg_l; lia. }
  destruct (clipped_channel b s3 Hb Hn3) as (b8 & Eb & Rb);
    [lia | exact Hc3 |].
  exists r8, g8, b8. repeat split; try assumption; lia.
Qed.

(** ** The frame of [applyGamma] *)

Lemma same_outside_refl (W : nat -> Z -> Prop) (s : state) :
  same_outside W s s.
Proof. intros b i _ _. reflexivity. Qed.

Lemma same_outside_trans (W : nat -> Z -> Prop) (s1 s2 s3 : state) :
  same_outside W s1 s2 -> same_outside W s2 s3 -> same_outside W s1 s3.
Proof.
  intros H12 H23 b i Hi Hw. rewrite (H23 b i Hi Hw). exact (H12 b i Hi Hw).
Qed.

Lemma keeps_heap_stable (W : nat -> Z -> Prop) {A} (c : M A) :
  heap_stable c -> keeps (same_outside W) c.
Proof. intros Hc s b i _ _. unfold byte_at. rewrite (Hc s). reflexivity. Qed.

Lemma heap_stable_loadU8 (p : ptr) (i : Z) : heap_stable (loadU8 p i).
Proof.
  unfold loadU8. apply heap_stable_bind; [apply heap_stable_load|].
  intros bs. apply heap_stable_ret.
Qed.

Lemma store_byte_outside (W : nat -> Z -> Prop) (p : ptr) (v : Z) :
  (forall b, pblock p = Some b -> W b (poff p)) ->
  keeps (same_outside W) (store p [v]).
Proof.
  intros HW s b i Hi Hn. unfold store.
  destruct (pblock p) as [b0|] eqn:Eb; [|reflexivity].
  specialize (HW b0 eq_refl).
  destruct (heap s !! b0) as [l|] eqn:El; [|reflexivity].
  unfold splice.
  destruct ((0 <=? poff p)
            && (poff p + Z.of_nat (length [v]) <=? Z.of_nat (length l)))
    eqn:Ec; [|reflexivity].
  apply andb_prop in Ec as (E0 & E1).
  apply Z.leb_le in E0. apply Z.leb_le in E1. cbn [length] in E1.
  cbn [snd]. unfold byte_at. cbn [heap].
  destruct (decide (b = b0)) as [-> | Hne].
  - rewrite lookup_insert_eq, El.
    assert (Hip : i <> poff p) by (intros ->; exact (Hn HW)).
    cbn [length app]. rewrite Nat.add_1_r.
    rewrite <- insert_take_drop by lia.
    apply list_lookup_insert_ne. lia.
  - rewrite lookup_insert_ne by congruence. reflexivity.
Qed.

Lemma applyGamma_keeps (buffer : ptr) (gamma : spec_float) (size bpp : Z) :
  keeps (same_outside
           (gamma_written buffer (Z.shiftr bpp 3) (size / Z.shiftr bpp 3)))
        (applyGamma buffer gamma size bpp).
Proof.
  unfold applyGamma. cbv zeta.
  set (stride := Z.shiftr bpp 3).
  set (W := gamma_written buffer stride (size / stride)).
  destruct (F32.eqb gamma F32.one);
    [apply (keeps_ret _ (same_outside_refl W))|].
  apply (keeps_lift _ (same_outside_refl W)). intros j Hj.
  assert (Ej : j = size / stride).
  { unfold udiv in Hj. destruct (stride =? 0); [discriminate|].
    injection Hj as <-. reflexivity. }
  apply (keeps_bind _ (same_outside_trans W));
    [|intros _ _ _ _; apply (keeps_ret _ (same_outside_refl W))].
  apply (keeps_loop _ (same_outside_refl W) (same_outside_trans W)
           (fun k p => p = ptr_add buffer (Z.of_nat k * stride))).
  - intros k p Hk ->.
    assert (Hw : forall c, 0 <= c < 3 -> forall b,
                 pblock (ptr_add (ptr_add buffer (Z.of_nat k * stride)) c)
                 = Some b ->
                 W b (poff (ptr_add (ptr_add buffer (Z.of_nat k * stride))
                                    c))).
    { intros c Hc b Hb. split; [exact Hb|].
      exists (Z.of_nat k), c. cbn [poff ptr_add]. lia. }
    repeat (apply (keeps_bind _ (same_outside_trans W));
            [apply keeps_heap_stable, heap_stable_loadU8 | intros ? _ _ _]).
    destruct (gammaPixel gamma _ _ _) as [[r g] b].
    repeat (apply (keeps_lift _ (same_outside_refl W)); intros ? _;
            apply (keeps_bind _ (same_outside_trans W));
            [apply store_byte_outside, Hw; lia | intros _ _ _ _]).
    apply (keeps_ret _ (same_outside_refl W)).
  - intros k p s y s' Hk -> E.
    repeat first
      [ let a := fresh "a" in apply bind_ret_inv in E as (a & ? & _ & E)
      | match type of E with
        | context [gammaPixel ?g ?x ?y ?z] =>
            destruct (gammaPixel g x y z) as [[? ?] ?]
        end ].
    inversion E. unfold ptr_add. cbn [pblock poff]. f_equal. lia.
  - unfold ptr_add. destruct buffer as [pb po]. cbn [pblock poff].
    f_equal. lia.
Qed.

(** C10 (as amended).  [applyGamma] with [gamma == 1.0f] returns at once
    and leaves the state as it was.  For any gamma and any outcome of the
    call, when the stride [bpp >> 3] is at least 3, every byte of the
    buffer at offset 3 or beyond within its group of [stride] bytes, every
    byte from the end of the last whole group on (the trailing
    [size mod stride] bytes among them), and every byte before the buffer
    holds what it held; so does every byte of any other allocation.  For a
    gamma that is a number from 0 to [2^120] the shared clip factor caps R,
    G and B together: whatever the three bytes of a pixel, each scaled
    channel is below 256, so that its conversion to [UINT8] is defined,
    and the byte written for it is at most 255. *)
Theorem applyGamma_frame (buffer : ptr) (gamma : spec_float) (size bpp : Z)
    (s : state) :
  (F32.eqb gamma F32.one = true ->
   applyGamma buffer gamma size bpp s = (Ret tt, s)) /\
  (3 <= Z.shiftr bpp 3 ->
   forall b i,
     pblock buffer = Some b -> 0 <= i ->
     i < poff buffer \/
     3 <= (i - poff buffer) mod Z.shiftr bpp 3 \/
     poff buffer + size / Z.shiftr bpp 3 * Z.shiftr bpp 3 <= i ->
     byte_at (snd (applyGamma buffer gamma size bpp s)) b i
     = byte_at s b i) /\
  (forall b i,
     pblock buffer <> Some b -> 0 <= i ->
     byte_at (snd (applyGamma buffer gamma size bpp s)) b i
     = byte_at s b i) /\
  (gamma_range gamma ->
   forall r0 g0 b0,
     is_byte r0 -> is_byte g0 -> is_byte b0 ->
     exists r8 g8 b8,
       (let '(r, g, b) := gammaPixel gamma r0 g0 b0 in
        F32.to_unsigned 8 r = Some r8 /\ F32.to_unsigned 8 g = Some g8 /\
        F32.to_unsigned 8 b = Some b8) /\
       0 <= r8 <= 255 /\ 0 <= g8 <= 255 /\ 0 <= b8 <= 255).
Proof.
  pose proof (applyGamma_keeps buffer gamma size bpp s) as Hk.
  split; [|split; [|split]].
  - intros Hg. unfold applyGamma. rewrite Hg. reflexivity.
  - intros Hs b i Hb Hi Hcase. apply Hk; [exact Hi|].
    intros (_ & g & c & Hg & Hc & Ei).
    set (stride := Z.shiftr bpp 3) in *.
    set (j := size / stride) in *.
    assert (Hgs : 0 <= g * stride) by (apply Z.mul_nonneg_nonneg; lia).
    destruct Hcase as [Hlt | [Hmod | Hend]].
    + lia.
    + replace (i - poff buffer) with (c + g * stride) in Hmod by lia.
      rewrite Z.mod_add, Z.mod_small in Hmod by lia. lia.
    + assert (g * stride <= (j - 1) * stride)
        by (apply Z.mul_le_mono_nonneg_r; lia).
      rewrite Z.mul_sub_distr_r in *. lia.
  - intros b i Hb Hi. apply Hk; [exact Hi|].
    intros (Hb' & _). exact (Hb Hb').
  - intros Hg r0 g0 b0 Hr0 Hg0 Hb0.
    apply gammaPixel_bytes; assumption.
Qed.

(** C10 as stated fails for a stride below 3: with 16 bits per pixel and
    five bytes, the two groups are bytes 0-1 and 2-3 and byte 4 is the
    trailing one; the writes of the second group reach it.  It also fails
    on the scaled value: for a gamma of 2 and a red byte of 149 the channel
    is 298, the clip factor 255/298, and their product in binary32 is
    255.0000153, above 255 (the byte written is 255); and for a negative
    gamma the scaled value has no conversion to [UINT8] at all. *)
Lemma applyGamma_counterexample :
  fst (applyGamma block_start (F32.of_Z 2) 5 16 five_bytes) = Ret tt /\
  5 / Z.shiftr 16 3 * Z.shiftr 16 3 = 4 /\
  byte_at five_bytes 0 4 = Some 10 /\
  byte_at (snd (applyGamma block_start (F32.of_Z 2) 5 16 five_bytes)) 0 4
  = Some 20 /\
  fst (fst (gammaPixel (F32.of_Z 2) 149 0 0)) = F32.of_bits 0x437F0001 /\
  F32.ltb (F32.of_Z 255) (F32.of_bits 0x437F0001) = true /\
  F32.to_unsigned 8 (F32.of_bits 0x437F0001) = Some 255 /\
  F32.to_unsigned 8 (fst (fst (gammaPixel (F32.of_Z (-2)) 100 0 0))) = None.
Proof. vm_compute. repeat split. Qed.

(** Two 32-bit pixels brightened by 2: the first is clipped by the shared
    factor 255/400, the second by 255/510; the fourth byte of each is
    kept. *)
Example applyGamma_run :
  fst (applyGamma block_start (F32.of_Z 2) 8 32 two_pixels) = Ret tt /\
  heap (snd (applyGamma block_start (F32.of_Z 2) 8 32 two_pixels)) !! 0%nat
  = Some [127; 255; 63; 7; 255; 255; 255; 9].
Proof. vm_compute. repeat split. Qed.

(** The conversion to [UINT8] has no defined result for a negative
    channel, nor for the NaN that an overflowed product times the zero clip
    factor gives: the model stops there. *)
Example applyGamma_undefined :
  fst (applyGamma block_start (F32.of_Z (-2)) 8 32 two_pixels) = Abort /\
  fst (applyGamma block_start (F32.of_bits 0x7E967699) 8 32 two_pixels)
  = Abort.
Proof. vm_compute. repeat split. Qed.

Lemma applyGamma_frame_witness :
  byte_at (snd (applyGamma block_start (F32.of_Z 2) 8 32 two_pixels)) 0 3
  = byte_at two_pixels 0 3 /\
  exists r8 g8 b8,
    (let '(r, g, b) := gammaPixel (F32.of_Z 2) 100 200 50 in
     F32.to_unsigned 8 r = Some r8 /\ F32.to_unsigned 8 g = Some g8 /\
     F32.to_unsigned 8 b = Some b8) /\
    0 <= r8 <= 255 /\ 0 <= g8 <= 255 /\ 0 <= b8 <= 255.
Proof.
  split.
  - apply (proj1 (proj2 (applyGamma_frame block_start (F32.of_Z 2) 8 32
                                          two_pixels))).
    + apply Z.leb_le. reflexivity.
    + reflexivity.
    + lia.
    + right. left. apply Z.leb_le. reflexivity.
  - apply (proj2 (proj2 (proj2 (applyGamma_frame block_start (F32.of_Z 2)
                                                 8 32 two_pixels)))).
    + repeat split; reflexivity.
    + unfold is_byte; lia.
    + unfold is_byte; lia.
    + unfold is_byte; lia.
Defined.

(** ** Same-size scaling *)

Lemma euclid_unique (b q r q' r' : Z) :
  0 <= r < b -> 0 <= r' < b -> r + q * b = r' + q' * b ->
  q = q' /\ r = r'.
Proof.
  intros Hr Hr' E.
  assert (q = q').
  { destruct (Z.lt_trichotomy q q') as [H | [H | H]]; [|exact H|].
    - assert ((q + 1) * b <= q' * b)
        by (apply Z.mul_le_mono_nonneg_r; lia).
      rewrite Z.mul_add_distr_r in *. lia.
    - assert ((q' + 1) * b <= q * b)
        by (apply Z.mul_le_mono_nonneg_r; lia).
      rewrite Z.mul_add_distr_r in *. lia. }
  subst q'. split; [reflexivity | lia].
Qed.

(** Distinct pixels of a well laid out buffer lie at distinct indices. *)
Lemma lex_unique (w h rp sp x y z x' y' z' : Z) :
  1 <= w <= rp -> 1 <= h -> h * rp <= sp ->
  0 <= x < w -> 0 <= y < h -> 0 <= x' < w -> 0 <= y' < h ->
  x + y * rp + z * sp = x' + y' * rp + z' * sp ->
  x = x' /\ y = y' /\ z = z'.
Proof.
  intros Hw Hh Hsp Hx Hy Hx' Hy' E.
  assert (Hyr : y * rp <= (h - 1) * rp)
    by (apply Z.mul_le_mono_nonneg_r; lia).
  assert (Hyr' : y' * rp <= (h - 1) * rp)
    by (apply Z.mul_le_mono_nonneg_r; lia).
  assert (H0 : 0 <= y * rp) by (apply Z.mul_nonneg_nonneg; lia).
  assert (H0' : 0 <= y' * rp) by (apply Z.mul_nonneg_nonneg; lia).
  rewrite Z.mul_sub_distr_r, Z.mul_1_l in Hyr, Hyr'.
  destruct (euclid_unique sp z (x + y * rp) z' (x' + y' * rp))
    as (Hz & Hxy); [lia | lia | lia |].
  destruct (euclid_unique rp y x y' x') as (Hy1 & Hx1); [lia | lia | lia |].
  auto.
Qed.

Lemma block_unique (e q c q' c' : Z) :
  0 <= c < e -> 0 <= c' < e -> e * q + c = e * q' + c' ->
  q = q' /\ c = c'.
Proof.
  intros Hc Hc' E. apply (euclid_unique e); [exact Hc | exact Hc' | lia].
Qed.

Lemma block_floor (e q c r : Z) :
  0 <= c < e -> e * r <= e * q + c < e * r + e -> q = r.
Proof.
  intros Hc H.
  destruct (Z.lt_trichotomy q r) as [Hlt | [Heq | Hgt]]; [|exact Heq|].
  - assert (e * (q + 1) <= e * r) by (apply Z.mul_le_mono_nonneg_l; lia).
    rewrite Z.mul_add_distr_l in *. lia.
  - assert (e * (r + 1) <= e * q) by (apply Z.mul_le_mono_nonneg_l; lia).
    rewrite Z.mul_add_distr_l in *. lia.
Qed.

(** Overwriting a stretch of a list leaves the rest, and holds the new
    bytes. *)
Lemma overwrite_outside (l bytes : list Z) (d j : nat) :
  (d + length bytes <= length l)%nat ->
  (j < d \/ d + length bytes <= j)%nat ->
  (take d l ++ bytes ++ drop (d + length bytes) l) !! j = l !! j.
Proof.
  intros Hd [Hj | Hj].
  - rewrite lookup_app_l by (rewrite length_take; lia).
    apply lookup_take_lt. exact Hj.
  - rewrite lookup_app_r by (rewrite length_take; lia).
    rewrite length_take, Nat.min_l by lia.
    rewrite lookup_app_r by lia.
    rewrite lookup_drop. f_equal. lia.
Qed.

Lemma overwrite_inside (l bytes : list Z) (d i : nat) :
  (d + length bytes <= length l)%nat -> (i < length bytes)%nat ->
  (take d l ++ bytes ++ drop (d + length bytes) l) !! (d + i)%nat
  = bytes !! i.
Proof.
  intros Hd Hi.
  rewrite lookup_app_r by (rewrite length_take; lia).
  rewrite length_take, Nat.min_l by lia.
  rewrite lookup_app_l by lia. f_equal. lia.
Qed.

Lemma bind_eq {A B} (c : M A) (k : A -> M B) (s s1 : state) (a : A) :
  c s = (Ret a, s1) -> bind c k s = k a s1.
Proof. intros E. unfold bind. rewrite E. reflexivity. Qed.

Lemma bind_lift_eq {A B} (o : option A) (k : A -> M B) (s : state) (a : A) :
  o = Some a -> bind (lift o) k s = k a s.
Proof. intros ->. reflexivity. Qed.

(** The loop rule for calls that return: an invariant of the loop-carried
    variables and the state, indexed by the iteration. *)
Lemma triple_loop {S} (I : nat -> S -> state -> Prop) (n : nat)
    (body : S -> M S) :
  (forall k x, (k < n)%nat ->
               triple (I k x) (body x) (I (Datatypes.S k))) ->
  forall x, triple (I 0%nat x) (loop n body x) (I n).
Proof.
  intros Hb.
  assert (H : forall m k x, (k + m = n)%nat ->
                            triple (I k x) (loop m body x) (I n)).
  { induction m as [|m IH]; intros k x Hk s Hs; cbn [loop].
    - exists x, s. replace n with k by lia. split; [reflexivity | exact Hs].
    - destruct (Hb k x ltac:(lia) s Hs) as (y & s1 & E & Hy).
      destruct (IH (Datatypes.S k) y ltac:(lia) s1 Hy)
        as (r & s2 & E2 & Hr).
      exists r, s2. split; [|exact Hr].
      rewrite (bind_eq _ _ _ _ _ E). exact E2. }
  intros x. apply (H n 0%nat). lia.
Qed.

(** Scaling to the same size: the step is one pixel, and the [k]-th
    position is the centre of pixel [k]. *)
Lemma same_size_step (w : Z) :
  1 <= w < 2 ^ 16 -> fixedStep w w = Some (2 ^ 48).
Proof.
  intros Hw. unfold fixedStep, udiv.
  destruct (Z.eqb_spec w 0) as [|_]; [lia|]. f_equal.
  unfold u64. rewrite Z.shiftl_mul_pow2 by lia.
  rewrite Z.mod_small
    by (change (2 ^ 64) with (2 ^ 16 * 2 ^ 48); split;
        [apply Z.mul_nonneg_nonneg; lia
        |apply Z.mul_lt_mono_pos_r; lia]).
  rewrite Z.mul_comm. apply Z.div_mul. lia.
Qed.

Lemma coordAt_same (k : nat) :
  Z.of_nat k < 2 ^ 16 ->
  coordAt (2 ^ 48) k = 2 ^ 47 - 1 + Z.of_nat k * 2 ^ 48.
Proof.
  intros Hk. rewrite coordAt_closed; [reflexivity | lia |].
  change (2 ^ 64) with (2 ^ 16 * 2 ^ 48).
  apply Z.mul_le_mono_nonneg_r; lia.
Qed.

Lemma nearestCoord_same (k : nat) :
  Z.of_nat k < 2 ^ 16 -> nearestCoord (coordAt (2 ^ 48) k) = Z.of_nat k.
Proof.
  intros Hk. rewrite coordAt_same by exact Hk.
  unfold nearestCoord, u32. rewrite Z.shiftr_div_pow2 by lia.
  replace ((2 ^ 47 - 1 + Z.of_nat k * 2 ^ 48) / 2 ^ 48) with (Z.of_nat k).
  - apply Z.mod_small. lia.
  - apply (Z.div_unique_pos _ _ _ (2 ^ 47 - 1)); lia.
Qed.

Lemma laid_out_extents (p : PixelData) (b : nat) (l : list Z) :
  laid_out p b l ->
  getWidth p = mRight p /\ getHeight p = mBottom p /\ getDepth p = mBack p.
Proof.
  intros (El & Et & Ef & Hw & Hh & Hd & _).
  unfold getWidth, getHeight, getDepth, u32.
  rewrite El, Et, Ef, !Z.sub_0_r.
  rewrite !Z.mod_small by lia. auto.
Qed.

(** A pixel of a laid out buffer lies within its allocation. *)
Lemma pixel_within (p : PixelData) (b : nat) (l : list Z) (x y z : Z) :
  laid_out p b l -> in_extent p x y z ->
  0 <= x + y * mRowPitch p + z * mSlicePitch p /\
  0 <= pixelStart p x y z /\
  pixelStart p x y z + elemSize p <= elemSize p * (mBack p * mSlicePitch p).
Proof.
  intros Hp (Hx & Hy & Hz).
  destruct (laid_out_extents _ _ _ Hp) as (Ew & Eh & Ed).
  rewrite Ew in Hx. rewrite Eh in Hy. rewrite Ed in Hz.
  destruct Hp as (_ & _ & _ & Hw & Hh & Hd & Hrp & Hsp & He & _).
  assert (Hbr : 0 <= mBottom p * mRowPitch p)
    by (apply Z.mul_nonneg_nonneg; lia).
  assert (Hyr : y * mRowPitch p <= (mBottom p - 1) * mRowPitch p)
    by (apply Z.mul_le_mono_nonneg_r; lia).
  assert (Hzs : z * mSlicePitch p <= (mBack p - 1) * mSlicePitch p)
    by (apply Z.mul_le_mono_nonneg_r; lia).
  assert (H0 : 0 <= y * mRowPitch p) by (apply Z.mul_nonneg_nonneg; lia).
  assert (H1 : 0 <= z * mSlicePitch p) by (apply Z.mul_nonneg_nonneg; lia).
  rewrite Z.mul_sub_distr_r, Z.mul_1_l in Hyr, Hzs.
  set (idx := x + y * mRowPitch p + z * mSlicePitch p).
  assert (Hidx : 0 <= idx /\ idx + 1 <= mBack p * mSlicePitch p)
    by (unfold idx; lia).
  split; [lia|]. unfold pixelStart. fold idx. split.
  - apply Z.mul_nonneg_nonneg; lia.
  - replace (elemSize p * idx + elemSize p) with (elemSize p * (idx + 1))
      by ring.
    apply Z.mul_le_mono_nonneg_l; lia.
Qed.

Lemma laid_out_samplable (p : PixelData) (b : nat) (l : list Z) :
  laid_out p b l -> samplable p.
Proof.
  intros Hp. destruct (laid_out_extents _ _ _ Hp) as (Ew & Eh & Ed).
  pose proof Hp as (_ & _ & _ & Hw & Hh & Hd & Hrp & Hsp & He & _ & H32 & _).
  unfold samplable. rewrite Ew, Eh, Ed.
  assert (0 <= mRowPitch p) by lia.
  assert (0 <= mSlicePitch p).
  { assert (0 <= mBottom p * mRowPitch p)
      by (apply Z.mul_nonneg_nonneg; lia). lia. }
  repeat (split; [lia|]).
  assert (Hin : in_extent p (mRight p - 1) (mBottom p - 1) (mBack p - 1))
    by (unfold in_extent; rewrite Ew, Eh, Ed; lia).
  destruct (pixel_within p b l _ _ _ Hp Hin) as (_ & _ & Hb).
  unfold pixelSpan. rewrite Ew, Eh, Ed. unfold pixelStart in Hb.
  apply Z.lt_le_incl. eapply Z.le_lt_trans; [|exact H32].
  etransitivity; [|exact Hb]. apply Z.eq_le_incl. ring.
Qed.

Lemma laid_out_pitches (p : PixelData) (b : nat) (l : list Z) :
  laid_out p b l ->
  1 <= mRowPitch p /\
  mRowPitch p <= mBottom p * mRowPitch p /\
  mSlicePitch p <= mBack p * mSlicePitch p /\
  mSlicePitch p < 2 ^ 32 /\
  elemSize p * mRowPitch p <= elemSize p * mSlicePitch p /\
  elemSize p * (mBottom p * mRowPitch p) <= elemSize p * mSlicePitch p /\
  elemSize p * mSlicePitch p < 2 ^ 32.
Proof.
  intros (_ & _ & _ & Hw & Hh & Hd & Hrp & Hsp & He & _ & H32 & _).
  assert (H1 : 1 * mRowPitch p <= mBottom p * mRowPitch p)
    by (apply Z.mul_le_mono_nonneg_r; lia).
  assert (H2 : 1 * mSlicePitch p <= mBack p * mSlicePitch p)
    by (apply Z.mul_le_mono_nonneg_r; lia).
  assert (H3 : elemSize p * mSlicePitch p
               <= elemSize p * (mBack p * mSlicePitch p))
    by (apply Z.mul_le_mono_nonneg_l; lia).
  assert (H4 : 1 * mSlicePitch p <= elemSize p * mSlicePitch p)
    by (apply Z.mul_le_mono_nonneg_r; lia).
  assert (H5 : elemSize p * mRowPitch p <= elemSize p * mSlicePitch p)
    by (apply Z.mul_le_mono_nonneg_l; lia).
  assert (H6 : elemSize p * (mBottom p * mRowPitch p)
               <= elemSize p * mSlicePitch p)
    by (apply Z.mul_le_mono_nonneg_l; lia).
  lia.
Qed.


Lemma blend_exact (s11 s21 s12 s22 wx wy : Z) :
  is_byte s11 -> is_byte s21 -> is_byte s12 -> is_byte s22 ->
  wx = 0 \/ wx = 0xFFF -> wy = 0 \/ wy = 0xFFF ->
  forall w11 w21 w12 w22,
    byteWeights wx wy = (w11, w21, w12, w22) ->
    roundToByte (u32 (u32 (u32 (u32 (s11 * w11) + u32 (s21 * w21))
                           + u32 (s12 * w12)) + u32 (s22 * w22)))
    = if wy =? 0 then (if wx =? 0 then s11 else s21)
      else (if wx =? 0 then s12 else s22).
Proof.
  unfold is_byte. intros H11 H21 H12 H22 Hx Hy w11 w21 w12 w22 Hw.
  destruct Hx as [-> | ->], Hy as [-> | ->]; vm_compute in Hw;
    injection Hw as <- <- <- <-; cbn [Z.eqb];
    unfold roundToByte, u32, u8; rewrite Z.shiftr_div_pow2 by lia;
    change (2 ^ 32) with 4294967296; change (2 ^ 24) with 16777216;
    change (2 ^ 8) with 256;
    Z.div_mod_to_equations; lia.
Qed.

(** Scaling to the same size with the byte kernel: along an axis of [w]
    pixels the [k]-th position samples either pixel [k] itself with weight
    0, or pixels [k - 1] and [k] with the whole weight but 1/4096 on the
    second. *)
Lemma linearSample12_same (k : nat) (w : Z) :
  1 <= w < 2 ^ 16 -> Z.of_nat k < w ->
  exists c1 c2 wgt,
    linearSample 12 (coordAt (2 ^ 48) k) (u32 (u32 w - 1))
    = (c1, c2, wgt) /\
    0 <= c1 < w /\ 0 <= c2 < w /\ (wgt = 0 \/ wgt = 0xFFF) /\
    (if wgt =? 0 then c1 else c2) = Z.of_nat k.
Proof.
  intros Hw Hk. rewrite coordAt_same by lia.
  unfold linearSample. cbv zeta.
  change (48 - 12) with 36. change (Z.shiftl 1 (12 - 1)) with 2048.
  change (Z.shiftl 1 12 - 1) with (Z.ones 12).
  set (K := Z.of_nat k) in *.
  assert (Ht0 : u32 (Z.shiftr (2 ^ 47 - 1 + K * 2 ^ 48) 36)
                = K * 4096 + 2047).
  { rewrite Z.shiftr_div_pow2 by lia.
    replace ((2 ^ 47 - 1 + K * 2 ^ 48) / 2 ^ 36) with (K * 4096 + 2047)
      by (apply (Z.div_unique_pos _ _ _ (2 ^ 36 - 1)); lia).
    unfold u32. apply Z.mod_small. lia. }
  rewrite Ht0.
  assert (Hlast : u32 (u32 w - 1) = w - 1)
    by (unfold u32; rewrite (Z.mod_small w) by lia;
        apply Z.mod_small; lia).
  rewrite Hlast.
  destruct (Z.gtb_spec (K * 4096 + 2047) 2048) as [Hgt | Hle].
  - assert (Ht : u32 (K * 4096 + 2047 - 2048) = (K - 1) * 4096 + 4095)
      by (unfold u32; rewrite Z.mod_small by lia; lia).
    rewrite Ht. rewrite Z.shiftr_div_pow2, Z.land_ones by lia.
    replace (((K - 1) * 4096 + 4095) / 2 ^ 12) with (K - 1)
      by (apply (Z.div_unique_pos _ _ _ 4095); lia).
    replace (((K - 1) * 4096 + 4095) mod 2 ^ 12) with 4095
      by (apply (Z.mod_unique_pos _ _ (K - 1)); lia).
    replace (u32 (K - 1 + 1)) with K
      by (unfold u32; rewrite Z.mod_small by lia; lia).
    rewrite Z.min_l by lia.
    eexists _, _, _. split; [reflexivity|].
    cbn [Z.eqb]. repeat split; lia.
  - assert (K = 0) by lia.
    change (Z.shiftr 0 12) with 0. change (Z.land 0 (Z.ones 12)) with 0.
    change (u32 (0 + 1)) with 1.
    eexists _, _, _. split; [reflexivity|].
    cbn [Z.eqb]. repeat split; lia.
Qed.

Lemma byte_offset_exact (source : PixelData) (x y k : Z) :
  samplable source -> in_extent source x y 0 ->
  0 <= k < elemSize source ->
  u32 (u32 (u32 (x + u32 (y * mRowPitch source)) * elemSize source) + k)
  = pixelStart source x y 0 + k.
Proof.
  intros Hs Hin Hk.
  destruct (index_bounds source x y 0 Hs Hin) as (Hy & _ & Hfit).
  pose proof Hs as (He & _). pose proof Hin as (Hx & _).
  rewrite Z.mul_0_l, Z.add_0_r in Hfit.
  unfold pixelStart. rewrite Z.mul_0_l, Z.add_0_r.
  set (yr := y * mRowPitch source) in *.
  set (e := elemSize source) in *.
  assert (Hidx : x + yr + 1 <= 2 ^ 32).
  { destruct (Z.le_gt_cases (x + yr + 1) (2 ^ 32)) as [|Hgt]; [assumption|].
    assert (1 * (x + yr + 1) <= e * (x + yr + 1))
      by (apply Z.mul_le_mono_nonneg_r; lia). lia. }
  assert (Hq : 0 <= (x + yr) * e) by (apply Z.mul_nonneg_nonneg; lia).
  replace (e * (x + yr + 1)) with ((x + yr) * e + e) in Hfit by ring.
  unfold u32. rewrite (Z.mod_small yr) by lia.
  rewrite (Z.mod_small (x + yr)) by lia.
  rewrite (Z.mod_small ((x + yr) * e)) by lia.
  rewrite Z.mod_small by lia. ring.
Qed.
Section SameSize.

Variables (src dst : PixelData) (bs bd : nat) (ls ld : list Z).
Hypothesis Hsrc : laid_out src bs ls.
Hypothesis Hdst : laid_out dst bd ld.
Hypothesis Hfmt : mFormat dst = mFormat src.
Hypothesis Hwid : mRight dst = mRight src.
Hypothesis Hhei : mBottom dst = mBottom src.
Hypothesis Hdep : mBack dst = mBack src.

Lemma same_elemSize : elemSize dst = elemSize src.
Proof. unfold elemSize. rewrite Hfmt. reflexivity. Qed.

Lemma same_extent (x y z : Z) : in_extent dst x y z -> in_extent src x y z.
Proof.
  destruct (laid_out_extents _ _ _ Hsrc) as (Ew & Eh & Ed).
  destruct (laid_out_extents _ _ _ Hdst) as (Ew' & Eh' & Ed').
  unfold in_extent. rewrite Ew, Eh, Ed, Ew', Eh', Ed', Hwid, Hhei, Hdep.
  auto.
Qed.

Lemma copied_heap (n : Z) (s s' : state) :
  heap s' = heap s -> copied src dst bs bd ls ld n s ->
  copied src dst bs bd ls ld n s'.
Proof. unfold copied. intros ->. auto. Qed.

Lemma copied_weaken (n n' : Z) (s : state) :
  n' <= n -> copied src dst bs bd ls ld n s ->
  copied src dst bs bd ls ld n' s.
Proof.
  intros Hn (Hs & ld' & Hd & Hl & Hc). split; [exact Hs|].
  exists ld'. split; [exact Hd|]. split; [exact Hl|].
  intros x y z c Hin Hc' Hlt. apply Hc; [exact Hin | exact Hc' | lia].
Qed.

(** Reading the source while the copy is under way. *)
Lemma copied_load (n off m : Z) (s : state) :
  copied src dst bs bd ls ld n s ->
  0 <= off -> 0 <= m -> off + m <= Z.of_nat (length ls) ->
  exists s',
    load (mkPtr (Some bs) off) m s
    = (Ret (take (Z.to_nat m) (drop (Z.to_nat off) ls)), s') /\
    copied src dst bs bd ls ld n s'.
Proof.
  intros Hc H0 Hm Hb. pose proof Hc as (Hs & _).
  unfold load. cbn [pblock poff]. rewrite Hs. unfold slice.
  replace ((0 <=? off) && (0 <=? m) && (off + m <=? Z.of_nat (length ls)))
    with true
    by (symmetry; repeat (apply andb_true_intro; split); apply Z.leb_le; lia).
  eexists. split; [reflexivity|].
  apply (copied_heap n s); [reflexivity | exact Hc].
Qed.

(** Writing the next bytes of the pixel whose turn it is. *)
Lemma copied_store (n : Z) (s : state) (X Y Z0 C : Z) (bytes : list Z) :
  bs <> bd -> copied src dst bs bd ls ld n s ->
  in_extent dst X Y Z0 -> 0 <= C ->
  C + Z.of_nat (length bytes) <= elemSize dst ->
  n = elemSize dst * rank dst X Y Z0 + C ->
  (forall i, (i < length bytes)%nat ->
             bytes !! i
             = ls !! Z.to_nat (pixelStart src X Y Z0 + C + Z.of_nat i)) ->
  exists s',
    store (mkPtr (Some bd) (pixelStart dst X Y Z0 + C)) bytes s
    = (Ret tt, s') /\
    copied src dst bs bd ls ld (n + Z.of_nat (length bytes)) s'.
Proof.
  intros Hdiff (Hs & ld' & Hd & Hl & Hc) Hin HC Hfit Hn Hbytes.
  destruct (laid_out_extents _ _ _ Hdst) as (Ew & Eh & Ed).
  destruct (pixel_within dst bd ld X Y Z0 Hdst Hin) as (_ & HP0 & HP1).
  pose proof Hdst as (_ & _ & _ & Hw & Hh & Hdd & Hrp & Hsp & He & Hlen & _).
  set (e := elemSize dst) in *.
  set (m := Z.of_nat (length bytes)) in *.
  set (D := pixelStart dst X Y Z0 + C).
  assert (HD : 0 <= D /\ D + m <= Z.of_nat (length ld')) by (unfold D; lia).
  unfold store. cbn [pblock poff]. rewrite Hd. unfold splice.
  replace ((0 <=? D) && (D + Z.of_nat (length bytes)
                         <=? Z.of_nat (length ld'))) with true
    by (symmetry; apply andb_true_intro; split; apply Z.leb_le;
        fold m; lia).
  eexists. split; [reflexivity|].
  split; [cbn [heap]; rewrite lookup_insert_ne by congruence; exact Hs|].
  eexists. split; [cbn [heap]; apply lookup_insert_eq|].
  split.
  { rewrite !length_app, length_take, length_drop. lia. }
  intros x y z c Hxyz Hcc Hlt.
  destruct (pixel_within dst bd ld x y z Hdst Hxyz) as (_ & Hp0 & _).
  assert (Hdn : (Z.to_nat D + length bytes <= length ld')%nat) by lia.
  destruct (Z_lt_le_dec (e * rank dst x y z + c) n) as [Hold | Hnew].
  - rewrite overwrite_outside; [apply Hc; assumption | exact Hdn |].
    destruct (Z_lt_le_dec (pixelStart dst x y z + c) D) as [|Hge];
      [left; lia|].
    destruct (Z_lt_le_dec (pixelStart dst x y z + c) (D + m)) as [Hin2|];
      [|right; lia].
    exfalso. unfold D, pixelStart in Hge, Hin2. fold e in Hge, Hin2.
    destruct (block_unique e
                (x + y * mRowPitch dst + z * mSlicePitch dst) c
                (X + Y * mRowPitch dst + Z0 * mSlicePitch dst)
                (C + (e * (x + y * mRowPitch dst + z * mSlicePitch dst) + c
                      - e * (X + Y * mRowPitch dst + Z0 * mSlicePitch dst)
                      - C)))
      as (Hidx & Hcc'); [lia | lia | lia |].
    destruct Hxyz as (Hx & Hy & Hz). destruct Hin as (HX & HY & HZ).
    rewrite Ew in Hx, HX. rewrite Eh in Hy, HY.
    assert (Hsame : x = X /\ y = Y /\ z = Z0)
      by (apply (lex_unique (mRight dst) (mBottom dst) (mRowPitch dst)
                   (mSlicePitch dst)); lia).
    destruct Hsame as (-> & -> & ->). lia.
  - assert (Hr : rank dst x y z = rank dst X Y Z0)
      by (apply (block_floor e _ c); lia).
    assert (Hsame : x = X /\ y = Y /\ z = Z0).
    { unfold rank in Hr. rewrite Ew, Eh in Hr.
      destruct Hxyz as (Hx & Hy & Hz). destruct Hin as (HX & HY & HZ).
      rewrite Ew in Hx, HX. rewrite Eh in Hy, HY.
      apply (lex_unique (mRight dst) (mBottom dst) (mRight dst)
               (mBottom dst * mRight dst)); try lia. }
    destruct Hsame as (-> & -> & ->).
    replace (Z.to_nat (pixelStart dst X Y Z0 + c))
      with (Z.to_nat D + Z.to_nat (c - C))%nat by (unfold D; lia).
    rewrite overwrite_inside by lia.
    rewrite Hbytes by lia. f_equal. lia.
Qed.

(** The bytes of a pixel of the source, as a load finds them. *)
Lemma source_pixel (x y z : Z) (i : nat) :
  in_extent src x y z -> (Z.of_nat i < elemSize src) ->
  (take (Z.to_nat (elemSize src)) (drop (Z.to_nat (pixelStart src x y z)) ls))
    !! i
  = ls !! Z.to_nat (pixelStart src x y z + 0 + Z.of_nat i) /\
  length (take (Z.to_nat (elemSize src))
               (drop (Z.to_nat (pixelStart src x y z)) ls))
  = Z.to_nat (elemSize src).
Proof.
  intros Hin Hi.
  destruct (pixel_within src bs ls x y z Hsrc Hin) as (_ & H0 & H1).
  pose proof Hsrc as (_ & _ & _ & _ & _ & _ & _ & _ & He & Hlen & _).
  split.
  - rewrite lookup_take_lt by lia. rewrite lookup_drop. f_equal. lia.
  - rewrite length_take, length_drop. lia.
Qed.

Lemma nearest_same_size (s : state) :
  bs <> bd -> copied src dst bs bd ls ld 0 s ->
  exists s',
    NearestResampler_scale (elemSize src) src dst s = (Ret tt, s') /\
    copied src dst bs bd ls ld
           (elemSize dst * rank dst 0 0 (getDepth dst)) s'.
Proof.
  intros Hdiff H0.
  destruct (laid_out_extents _ _ _ Hsrc) as (Ews & Ehs & Eds).
  destruct (laid_out_extents _ _ _ Hdst) as (Ew & Eh & Ed).
  pose proof Hdst as (El & Et & Ef & Hw & Hh & Hd & Hrp & Hsp & He & Hlen
                      & H32 & Hdata).
  pose proof Hsrc as (_ & _ & _ & _ & _ & _ & _ & _ & _ & Hlens & _ & Hdatas).
  pose proof (laid_out_samplable _ _ _ Hsrc) as Hsamp.
  pose proof (laid_out_pitches _ _ _ Hdst)
    as (Hp1 & Hp2 & Hp3 & Hp4 & Hp5 & Hp6 & Hp7).
  pose proof same_elemSize as Ee.
  unfold NearestResampler_scale. cbv zeta.
  rewrite Ews, Ehs, Eds, Ew, Eh, Ed, <- Hwid, <- Hhei, <- Hdep.
  rewrite (bind_lift_eq _ _ _ _ (same_size_step _ Hw)).
  rewrite (bind_lift_eq _ _ _ _ (same_size_step _ Hh)).
  rewrite (bind_lift_eq _ _ _ _ (same_size_step _ Hd)).
  set (e := elemSize dst) in *.
  unfold trip. rewrite El, Et, Ef, !Z.sub_0_r.
  match goal with
  | |- context [loop ?n0 ?b0 ?x0] =>
      destruct (triple_loop
                  (fun k (x : Z * ptr) s =>
                     fst x = coordAt (2 ^ 48) k /\
                     snd x = mkPtr (Some bd)
                                   (pixelStart dst 0 0 (Z.of_nat k)) /\
                     copied src dst bs bd ls ld
                            (e * rank dst 0 0 (Z.of_nat k)) s)
                  n0 b0) with (x := x0) (s := s) as (r & s' & E & _ & _ & Hc)
  end.
  - (* one slice *)
    intros kz [curZ pZ] HkZ sz (HcZ & HpZ & HZ). cbn [fst snd] in HcZ, HpZ.
    subst curZ pZ.
    match goal with
    | |- context [loop ?n0 ?b0 ?x0] =>
        destruct (triple_loop
                    (fun k (x : Z * ptr) s =>
                       fst x = coordAt (2 ^ 48) k /\
                       snd x = mkPtr (Some bd)
                                     (pixelStart dst 0 (Z.of_nat k)
                                                 (Z.of_nat kz)) /\
                       copied src dst bs bd ls ld
                              (e * rank dst 0 (Z.of_nat k) (Z.of_nat kz)) s)
                    n0 b0) with (x := x0) (s := sz)
          as ([curY pY] & sy & E & HcY & HpY & HY)
    end.
    + (* one row *)
      intros ky [curY pY] HkY sy (HcY & HpY & HY). cbn [fst snd] in HcY, HpY.
      subst curY pY.
      match goal with
      | |- context [loop ?n0 ?b0 ?x0] =>
          destruct (triple_loop
                      (fun k (x : Z * ptr) s =>
                         fst x = coordAt (2 ^ 48) k /\
                         snd x = mkPtr (Some bd)
                                       (pixelStart dst (Z.of_nat k)
                                          (Z.of_nat ky) (Z.of_nat kz)) /\
                         copied src dst bs bd ls ld
                                (e * rank dst (Z.of_nat k) (Z.of_nat ky)
                                              (Z.of_nat kz)) s)
                      n0 b0) with (x := x0) (s := sy)
            as ([curX pX] & sx & E & HcX & HpX & HX)
      end.
      * (* one pixel *)
        intros kx [curX pX] HkX sx (HcX & HpX & HX).
        cbn [fst snd] in HcX, HpX. subst curX pX.
        assert (Hin : in_extent dst (Z.of_nat kx) (Z.of_nat ky) (Z.of_nat kz))
          by (unfold in_extent; rewrite Ew, Eh, Ed; lia).
        pose proof (same_extent _ _ _ Hin) as Hins.
        rewrite !nearestCoord_same by lia.
        destruct (elemIndex_exact src _ _ _ Hsamp Hins) as (_ & Hoff & _).
        unfold elemIndex in Hoff. rewrite Hoff.
        destruct (pixel_within src bs ls _ _ _ Hsrc Hins) as (_ & Hs0 & Hs1).
        destruct (copied_load _ (pixelStart src (Z.of_nat kx) (Z.of_nat ky)
                                            (Z.of_nat kz))
                    (elemSize src) sx HX) as (s1 & El1 & H1); [lia | lia | lia |].
        set (bytes := take (Z.to_nat (elemSize src))
                           (drop (Z.to_nat (pixelStart src (Z.of_nat kx)
                                              (Z.of_nat ky) (Z.of_nat kz)))
                                 ls)) in *.
        assert (Hlb : length bytes = Z.to_nat (elemSize src))
          by (apply (source_pixel _ _ _ 0 Hins); lia).
        destruct (copied_store _ s1 (Z.of_nat kx) (Z.of_nat ky) (Z.of_nat kz)
                    0 bytes Hdiff H1 Hin) as (s2 & Es2 & H2);
          [lia | rewrite Hlb; fold e; lia | lia
          | intros i Hi; apply (source_pixel _ _ _ i Hins); lia |].
        exists (u64 (coordAt (2 ^ 48) kx + 2 ^ 48),
                ptr_add (mkPtr (Some bd)
                               (pixelStart dst (Z.of_nat kx) (Z.of_nat ky)
                                           (Z.of_nat kz))) (elemSize src)),
               s2.
        split.
        { unfold memcpy, getData, ptr_add. cbn [pblock poff].
          rewrite Hdatas, Z.add_0_l.
          rewrite (bind_eq _ _ sx s2 tt); [reflexivity|].
          rewrite (bind_eq _ _ _ _ _ El1).
          rewrite Z.add_0_r in Es2. exact Es2. }
        cbn [fst snd]. split; [reflexivity|]. split.
        { unfold ptr_add. cbn [pblock poff]. f_equal.
          unfold pixelStart. fold e. rewrite <- Ee. fold e.
          rewrite Nat2Z.inj_succ. ring. }
        rewrite Hlb in H2. rewrite <- Ee in H2. fold e in H2.
        replace (e * rank dst (Z.of_nat (S kx)) (Z.of_nat ky) (Z.of_nat kz))
          with (e * rank dst (Z.of_nat kx) (Z.of_nat ky) (Z.of_nat kz)
                + Z.of_nat (Z.to_nat e)); [exact H2|].
        unfold rank. rewrite Nat2Z.inj_succ, Z2Nat.id by lia. ring.
      * split; [reflexivity|]. split; [reflexivity | exact HY].
      * (* end of the row *)
        cbn [fst snd] in HcX, HpX. subst pX.
        rewrite (bind_eq _ _ _ _ _ E).
        eexists (_, _), sx. split; [reflexivity|].
        cbn [fst snd]. split; [reflexivity|]. split.
        { unfold ptr_add. cbn [pblock poff]. f_equal.
          unfold getRowSkip. rewrite Ew. fold e. rewrite <- Ee. fold e.
          assert (Hskip : u32 (mRowPitch dst - mRight dst)
                          = mRowPitch dst - mRight dst)
            by (unfold u32; apply Z.mod_small; lia).
          rewrite Hskip.
          assert (He32 : u32 (e * (mRowPitch dst - mRight dst))
                         = e * (mRowPitch dst - mRight dst)).
          { unfold u32. apply Z.mod_small.
            assert (0 <= e * (mRowPitch dst - mRight dst))
              by (apply Z.mul_nonneg_nonneg; lia).
            assert (0 <= e * mRight dst)
              by (apply Z.mul_nonneg_nonneg; lia).
            rewrite Z.mul_sub_distr_l in *. lia. }
          rewrite He32. unfold pixelStart. fold e.
          rewrite Z2Nat.id, Nat2Z.inj_succ by lia. ring. }
        replace (e * rank dst 0 (Z.of_nat (S ky)) (Z.of_nat kz))
          with (e * rank dst (Z.of_nat (Z.to_nat (mRight dst))) (Z.of_nat ky)
                             (Z.of_nat kz)); [exact HX|].
        unfold rank. rewrite Ew, Z2Nat.id, Nat2Z.inj_succ by lia. ring.
    + split; [reflexivity|]. split; [reflexivity | exact HZ].
    + (* end of the slice *)
      cbn [fst snd] in HcY, HpY. subst pY.
      rewrite (bind_eq _ _ _ _ _ E).
      eexists (_, _), sy. split; [reflexivity|].
      cbn [fst snd]. split; [reflexivity|]. split.
      { unfold ptr_add. cbn [pblock poff]. f_equal.
        unfold getSliceSkip. rewrite Eh. fold e. rewrite <- Ee. fold e.
        assert (Hhr : 0 <= mBottom dst * mRowPitch dst)
          by (apply Z.mul_nonneg_nonneg; lia).
        assert (Hhr32 : u32 (mBottom dst * mRowPitch dst)
                        = mBottom dst * mRowPitch dst)
          by (unfold u32; apply Z.mod_small; lia).
        rewrite Hhr32.
        assert (Hskip : u32 (mSlicePitch dst - mBottom dst * mRowPitch dst)
                        = mSlicePitch dst - mBottom dst * mRowPitch dst)
          by (unfold u32; apply Z.mod_small; lia).
        rewrite Hskip.
        assert (He32 : u32 (e * (mSlicePitch dst
                                 - mBottom dst * mRowPitch dst))
                       = e * (mSlicePitch dst - mBottom dst * mRowPitch dst)).
        { unfold u32. apply Z.mod_small.
          assert (0 <= e * (mSlicePitch dst - mBottom dst * mRowPitch dst))
            by (apply Z.mul_nonneg_nonneg; lia).
          assert (0 <= e * (mBottom dst * mRowPitch dst))
            by (apply Z.mul_nonneg_nonneg; lia).
          rewrite Z.mul_sub_distr_l in *. lia. }
        rewrite He32. unfold pixelStart. fold e.
        rewrite Z2Nat.id, Nat2Z.inj_succ by lia. ring. }
      replace (e * rank dst 0 0 (Z.of_nat (S kz)))
        with (e * rank dst 0 (Z.of_nat (Z.to_nat (mBottom dst)))
                           (Z.of_nat kz)); [exact HY|].
      unfold rank. rewrite Ew, Eh, Z2Nat.id, Nat2Z.inj_succ by lia. ring.
  - split; [reflexivity|]. split.
    + unfold getData. cbn [snd]. rewrite Hdata. unfold pixelStart.
      f_equal. ring.
    + apply (copied_weaken 0); [|exact H0].
      unfold rank. rewrite Ew, Eh. cbn [Z.of_nat]. lia.
  - exists s'. split.
    + rewrite (bind_eq _ _ _ _ _ E). reflexivity.
    + rewrite Z2Nat.id in Hc by lia. exact Hc.
Qed.

(** Reading one channel byte of the source while the copy is under way. *)
Lemma copied_loadU8 (n : Z) (s : state) (x y k : Z) :
  Forall is_byte ls -> copied src dst bs bd ls ld n s ->
  in_extent src x y 0 -> 0 <= k < elemSize src ->
  exists b s',
    loadU8 (ptr_add (getData src)
              (u32 (u32 (u32 (x + u32 (y * mRowPitch src)) * elemSize src)
                    + k))) 0 s
    = (Ret b, s') /\
    copied src dst bs bd ls ld n s' /\
    ls !! Z.to_nat (pixelStart src x y 0 + k) = Some b /\ is_byte b.
Proof.
  intros Hb Hc Hin Hk.
  pose proof (laid_out_samplable _ _ _ Hsrc) as Hsamp.
  pose proof Hsrc as (_ & _ & _ & _ & _ & _ & _ & _ & He & Hlen & _ & Hdata).
  destruct (pixel_within src bs ls x y 0 Hsrc Hin) as (_ & H0 & H1).
  rewrite (byte_offset_exact src x y k Hsamp Hin Hk).
  set (off := pixelStart src x y 0 + k) in *.
  destruct (lookup_lt_is_Some_2 ls (Z.to_nat off)) as (b & Eb); [lia|].
  destruct (copied_load n off 1 s Hc) as (s' & El & Hc'); [lia | lia | lia |].
  exists b, s'. unfold loadU8, ptr_add, getData. cbn [pblock poff].
  rewrite Hdata, Z.add_0_l, Z.add_0_r. rewrite (bind_eq _ _ _ _ _ El).
  rewrite (drop_S _ _ _ Eb). change (Z.to_nat 1) with 1%nat.
  cbn [take le_word]. rewrite Z.mul_0_r, Z.add_0_r.
  split; [reflexivity|].
  split; [exact Hc'|]. split; [exact Eb|].
  exact (Forall_lookup_1 _ _ _ _ Hb Eb).
Qed.

Lemma byte_same_size (s : state) :
  bs <> bd -> Forall is_byte ls -> mBack dst = 1 ->
  copied src dst bs bd ls ld 0 s ->
  exists s',
    LinearResampler_Byte_scale (elemSize src) src dst s = (Ret tt, s') /\
    copied src dst bs bd ls ld
           (elemSize dst * rank dst 0 0 (getDepth dst)) s'.
Proof.
  intros Hdiff Hbytes Hflat H0.
  destruct (laid_out_extents _ _ _ Hsrc) as (Ews & Ehs & Eds).
  destruct (laid_out_extents _ _ _ Hdst) as (Ew & Eh & Ed).
  pose proof Hdst as (El & Et & Ef & Hw & Hh & Hd & Hrp & Hsp & He & Hlen
                      & H32 & Hdata).
  pose proof Hsrc as (Els & Ets & Efs & _ & _ & _ & _ & _ & _ & Hlens & _
                      & Hdatas).
  pose proof (laid_out_pitches _ _ _ Hdst)
    as (Hp1 & Hp2 & Hp3 & Hp4 & Hp5 & Hp6 & Hp7).
  pose proof same_elemSize as Ee.
  unfold LinearResampler_Byte_scale.
  rewrite Eds, Ed, <- Hdep, Hflat.
  replace ((1 >? 1) || (1 >? 1)) with false by reflexivity.
  cbv zeta.
  rewrite Ews, Ehs, Ew, Eh, Els, Ets, <- Hwid, <- Hhei.
  rewrite (bind_lift_eq _ _ _ _ (same_size_step _ Hw)).
  rewrite (bind_lift_eq _ _ _ _ (same_size_step _ Hh)).
  set (e := elemSize dst) in *.
  unfold trip. rewrite El, Et, !Z.sub_0_r.
  match goal with
  | |- context [loop ?n0 ?b0 ?x0] =>
      destruct (triple_loop
                  (fun k (x : Z * ptr) s =>
                     fst x = coordAt (2 ^ 48) k /\
                     snd x = mkPtr (Some bd)
                                   (pixelStart dst 0 (Z.of_nat k) 0) /\
                     copied src dst bs bd ls ld
                            (e * rank dst 0 (Z.of_nat k) 0) s)
                  n0 b0) with (x := x0) (s := s)
        as (r & s' & E & _ & _ & Hc)
  end.
  - (* one row *)
    intros ky [curY pY] HkY sy (HcY & HpY & HY). cbn [fst snd] in HcY, HpY.
    subst curY pY.
    destruct (linearSample12_same ky (mBottom dst) Hh ltac:(lia))
      as (y1 & y2 & wy & Ey & Hy1 & Hy2 & Hwy & Hty).
    rewrite Ey.
    match goal with
    | |- context [loop ?n0 ?b0 ?x0] =>
        destruct (triple_loop
                    (fun k (x : Z * ptr) s =>
                       fst x = coordAt (2 ^ 48) k /\
                       snd x = mkPtr (Some bd)
                                     (pixelStart dst (Z.of_nat k)
                                                 (Z.of_nat ky) 0) /\
                       copied src dst bs bd ls ld
                              (e * rank dst (Z.of_nat k) (Z.of_nat ky) 0) s)
                    n0 b0) with (x := x0) (s := sy)
          as ([curX pX] & sx & E & HcX & HpX & HX)
    end.
    + (* one pixel *)
      intros kx [curX pX] HkX sx (HcX & HpX & HX).
      cbn [fst snd] in HcX, HpX. subst curX pX.
      destruct (linearSample12_same kx (mRight dst) Hw ltac:(lia))
        as (x1 & x2 & wx & Ex & Hx1 & Hx2 & Hwx & Htx).
      rewrite Ex.
      destruct (byteWeights wx wy) as [[[w11 w21] w12] w22] eqn:Ebw.
      assert (Hin : in_extent dst (Z.of_nat kx) (Z.of_nat ky) 0)
        by (unfold in_extent; rewrite Ew, Eh, Ed; lia).
      assert (Hins : forall x y, 0 <= x < mRight dst -> 0 <= y < mBottom dst ->
                                 in_extent src x y 0).
      { intros x y Hx Hy. apply same_extent. unfold in_extent.
        rewrite Ew, Eh, Ed. lia. }
      match goal with
      | |- context [loop ?n0 ?b0 ?x0] =>
          destruct (triple_loop
                      (fun k (x : Z * ptr) s =>
                         fst x = Z.of_nat k /\
                         snd x = mkPtr (Some bd)
                                   (pixelStart dst (Z.of_nat kx)
                                               (Z.of_nat ky) 0
                                    + Z.of_nat k) /\
                         copied src dst bs bd ls ld
                                (e * rank dst (Z.of_nat kx) (Z.of_nat ky) 0
                                 + Z.of_nat k) s)
                      n0 b0) with (x := x0) (s := sx)
            as ([kk pC] & sc & E & HcC & HpC & HC)
      end.
      * (* one channel *)
        intros j [kk pC] Hj sc (HcC & HpC & HC).
        cbn [fst snd] in HcC, HpC. subst kk pC.
        assert (Hjk : 0 <= Z.of_nat j < elemSize src) by lia.
        destruct (copied_loadU8 _ sc x1 y1 (Z.of_nat j) Hbytes HC
                    (Hins _ _ Hx1 Hy1) Hjk)
          as (b11 & s1 & E1 & C1 & L11 & B11).
        destruct (copied_loadU8 _ s1 x2 y1 (Z.of_nat j) Hbytes C1
                    (Hins _ _ Hx2 Hy1) Hjk)
          as (b21 & s2 & E2 & C2 & L21 & B21).
        destruct (copied_loadU8 _ s2 x1 y2 (Z.of_nat j) Hbytes C2
                    (Hins _ _ Hx1 Hy2) Hjk)
          as (b12 & s3 & E3 & C3 & L12 & B12).
        destruct (copied_loadU8 _ s3 x2 y2 (Z.of_nat j) Hbytes C3
                    (Hins _ _ Hx2 Hy2) Hjk)
          as (b22 & s4 & E4 & C4 & L22 & B22).
        rewrite (bind_eq _ _ _ _ _ E1), (bind_eq _ _ _ _ _ E2),
          (bind_eq _ _ _ _ _ E3), (bind_eq _ _ _ _ _ E4).
        rewrite (blend_exact b11 b21 b12 b22 wx wy B11 B21 B12 B22 Hwx Hwy
                   _ _ _ _ Ebw).
        set (t := if wy =? 0 then if wx =? 0 then b11 else b21
                  else if wx =? 0 then b12 else b22).
        assert (Ht : ls !! Z.to_nat (pixelStart src (Z.of_nat kx)
                                                (Z.of_nat ky) 0
                                     + Z.of_nat j) = Some t /\ is_byte t).
        { unfold t. rewrite <- Htx, <- Hty.
          destruct (wy =? 0), (wx =? 0); auto. }
        destruct Ht as (Lt & Bt).
        destruct (copied_store _ s4 (Z.of_nat kx) (Z.of_nat ky) 0
                    (Z.of_nat j) [t] Hdiff C4 Hin) as (s5 & E5 & C5);
          [lia | cbn [length]; fold e; lia | reflexivity
          | intros i Hi; cbn [length] in Hi;
            replace i with 0%nat by lia; rewrite Z.add_0_r; symmetry;
            exact Lt |].
        exists (Z.of_nat j + 1,
                ptr_add (mkPtr (Some bd)
                           (pixelStart dst (Z.of_nat kx) (Z.of_nat ky) 0
                            + Z.of_nat j)) 1), s5.
        split.
        { rewrite (bind_eq _ _ s4 s5 tt); [reflexivity|].
          unfold storeU8, ptr_add. cbn [pblock poff le_bytes].
          rewrite Z.add_0_r.
          replace (t mod 256) with t
            by (symmetry; apply Z.mod_small; exact Bt).
          exact E5. }
        cbn [fst snd]. split; [lia|]. split.
        { unfold ptr_add. cbn [pblock poff]. f_equal. lia. }
        cbn [length] in C5.
        replace (e * rank dst (Z.of_nat kx) (Z.of_nat ky) 0
                 + Z.of_nat (S j))
          with (e * rank dst (Z.of_nat kx) (Z.of_nat ky) 0 + Z.of_nat j
                + Z.of_nat 1) by lia.
        exact C5.
      * split; [reflexivity|]. split.
        { cbn [snd]. f_equal. lia. }
        rewrite Z.add_0_r. exact HX.
      * (* end of the pixel *)
        cbn [fst snd] in HcC, HpC. subst pC.
        rewrite (bind_eq _ _ _ _ _ E).
        eexists (_, _), sc. split; [reflexivity|].
        cbn [fst snd]. split; [reflexivity|]. split.
        { f_equal. rewrite <- Ee. fold e. rewrite Z2Nat.id by lia.
          unfold pixelStart. fold e. rewrite Nat2Z.inj_succ. ring. }
        rewrite <- Ee in HC. fold e in HC. rewrite Z2Nat.id in HC by lia.
        replace (e * rank dst (Z.of_nat (S kx)) (Z.of_nat ky) 0)
          with (e * rank dst (Z.of_nat kx) (Z.of_nat ky) 0 + e);
          [exact HC|].
        unfold rank. rewrite Nat2Z.inj_succ. ring.
    + split; [reflexivity|]. split; [reflexivity | exact HY].
    + (* end of the row *)
      cbn [fst snd] in HcX, HpX. subst pX.
      rewrite (bind_eq _ _ _ _ _ E).
      eexists (_, _), sx. split; [reflexivity|].
      cbn [fst snd]. split; [reflexivity|]. split.
      { unfold ptr_add. cbn [pblock poff]. f_equal.
        unfold getRowSkip. rewrite Ew. fold e. rewrite <- Ee. fold e.
        assert (Hskip : u32 (mRowPitch dst - mRight dst)
                        = mRowPitch dst - mRight dst)
          by (unfold u32; apply Z.mod_small; lia).
        rewrite Hskip.
        assert (He32 : u32 (e * (mRowPitch dst - mRight dst))
                       = e * (mRowPitch dst - mRight dst)).
        { unfold u32. apply Z.mod_small.
          assert (0 <= e * (mRowPitch dst - mRight dst))
            by (apply Z.mul_nonneg_nonneg; lia).
          assert (0 <= e * mRight dst)
            by (apply Z.mul_nonneg_nonneg; lia).
          rewrite Z.mul_sub_distr_l in *. lia. }
        rewrite He32. unfold pixelStart. fold e.
        rewrite Z2Nat.id, Nat2Z.inj_succ by lia. ring. }
      replace (e * rank dst 0 (Z.of_nat (S ky)) 0)
        with (e * rank dst (Z.of_nat (Z.to_nat (mRight dst))) (Z.of_nat ky)
                           0); [exact HX|].
      unfold rank. rewrite Ew, Z2Nat.id, Nat2Z.inj_succ by lia. ring.
  - split; [reflexivity|]. split.
    + unfold getData. cbn [snd]. rewrite Hdata. unfold pixelStart.
      f_equal. ring.
    + apply (copied_weaken 0); [|exact H0].
      unfold rank. rewrite Ew, Eh. cbn [Z.of_nat]. lia.
  - exists s'. split.
    + rewrite (bind_eq _ _ _ _ _ E). reflexivity.
    + rewrite Z2Nat.id in Hc by lia.
      replace (e * rank dst 0 0 1) with (e * rank dst 0 (mBottom dst) 0);
        [exact Hc|].
      unfold rank. rewrite Ew, Eh. ring.
Qed.

End SameSize.

Lemma rank_bound (p : PixelData) (b : nat) (l : list Z) (x y z : Z) :
  laid_out p b l -> in_extent p x y z ->
  rank p x y z + 1 <= rank p 0 0 (getDepth p).
Proof.
  intros Hp (Hx & Hy & Hz). unfold rank.
  destruct Hp as (_ & _ & _ & _).
  set (w := getWidth p) in *. set (h := getHeight p) in *.
  set (d := getDepth p) in *.
  assert (H1 : h * z <= h * (d - 1)) by (apply Z.mul_le_mono_nonneg_l; lia).
  assert (H2 : w * (y + h * z) <= w * (h - 1 + h * (d - 1)))
    by (apply Z.mul_le_mono_nonneg_l; lia).
  replace (w * (h - 1 + h * (d - 1))) with (w * (h * d) - w) in H2 by ring.
  lia.
Qed.

Lemma accessible_elemBytes (f : PixelFormat) :
  isAccessible f = true ->
  In (getNumElemBytes f) [1; 2; 3; 4; 6; 8; 12; 16].
Proof.
  destruct f; intros H; try discriminate H; vm_compute; auto 10.
Qed.

(** [scale] between two buffers of one format sets up no temporary: the
    kernel writes to the destination itself, and nothing is left to blit. *)
Lemma scale_same_format (src dst : PixelData) (s : state) :
  mFormat dst = mFormat src ->
  scaleTarget src dst s = (Ret dst, s) /\
  scaleFinish dst dst s = (Ret tt, s).
Proof.
  intros Hf. split.
  - unfold scaleTarget.
    rewrite (bool_decide_eq_true_2 _ (eq_sym Hf)). reflexivity.
  - unfold scaleFinish.
    rewrite (bool_decide_eq_true_2 _ eq_refl). reflexivity.
Qed.

(** C8 (as amended).  Scaling a source into a destination of the same
    format and the same extents, both laid out from the origin of two
    distinct allocations with extents below 65536, returns, leaves the
    source as it was, and makes every byte of every pixel of the
    destination equal to the byte of the pixel of the source at the same
    coordinates: with the nearest filter for every accessible format, and
    with the bilinear filter for the formats of the byte kernel when the
    buffers are one slice deep. *)
Theorem scale_same_size (src dst : PixelData) (filter : Filter)
    (bs bd : nat) (ls ld : list Z) (s : state) :
  isAccessible (mFormat src) = true ->
  laid_out src bs ls -> laid_out dst bd ld -> bs <> bd ->
  mFormat dst = mFormat src ->
  mRight dst = mRight src -> mBottom dst = mBottom src ->
  mBack dst = mBack src ->
  heap s !! bs = Some ls -> heap s !! bd = Some ld ->
  filter = FILTER_NEAREST \/
  (filter = FILTER_BILINEAR /\ byteKernelFormat (mFormat src) = true /\
   mBack src = 1 /\ Forall is_byte ls) ->
  exists s',
    scale src dst filter s = (Ret tt, s') /\
    heap s' !! bs = Some ls /\
    forall x y z c,
      in_extent dst x y z -> 0 <= c < elemSize dst ->
      exists v,
        byte_at s bs (pixelStart src x y z + c) = Some v /\
        byte_at s' bd (pixelStart dst x y z + c) = Some v.
Proof.
  intros Hacc Hsrc Hdst Hdiff Hf Hw Hh Hd Hs Hdd Hfilter.
  assert (H0 : copied src dst bs bd ls ld 0 s).
  { split; [exact Hs|]. exists ld. split; [exact Hdd|].
    split; [reflexivity|]. intros x y z c Hin Hc Hlt.
    pose proof Hdst as (_ & _ & _ & _ & _ & _ & _ & _ & He & _).
    destruct Hin as (Hx & Hy & Hz). unfold rank in Hlt.
    assert (0 <= getWidth dst * (y + getHeight dst * z)).
    { apply Z.mul_nonneg_nonneg; [lia|].
      assert (0 <= getHeight dst * z) by (apply Z.mul_nonneg_nonneg; lia).
      lia. }
    assert (0 <= elemSize dst * (x + getWidth dst * (y + getHeight dst * z)))
      by (apply Z.mul_nonneg_nonneg; lia).
    lia. }
  assert (Hfinal :
    forall s',
      copied src dst bs bd ls ld
             (elemSize dst * rank dst 0 0 (getDepth dst)) s' ->
      heap s' !! bs = Some ls /\
      forall x y z c,
        in_extent dst x y z -> 0 <= c < elemSize dst ->
        exists v,
          byte_at s bs (pixelStart src x y z + c) = Some v /\
          byte_at s' bd (pixelStart dst x y z + c) = Some v).
  { intros s' (Hs' & ld' & Hd' & Hl' & Hc). split; [exact Hs'|].
    intros x y z c Hin Hcc.
    pose proof (same_extent src dst bs bd ls ld Hsrc Hdst Hw Hh Hd _ _ _ Hin)
      as Hins.
    destruct (pixel_within src bs ls x y z Hsrc Hins) as (_ & Hp0 & Hp1).
    pose proof Hsrc as (_ & _ & _ & _ & _ & _ & _ & _ & He & Hlen & _).
    pose proof (same_elemSize src dst Hf) as Ee.
    destruct (lookup_lt_is_Some_2 ls (Z.to_nat (pixelStart src x y z + c)))
      as (v & Ev); [lia|].
    exists v. unfold byte_at. rewrite Hs, Hd'. split; [exact Ev|].
    rewrite Hc; [exact Ev | exact Hin | exact Hcc |].
    pose proof (rank_bound dst bd ld x y z Hdst Hin) as Hr.
    assert (elemSize dst * (rank dst x y z + 1)
            <= elemSize dst * rank dst 0 0 (getDepth dst))
      by (apply Z.mul_le_mono_nonneg_l; lia).
    rewrite Z.mul_add_distr_l in *. lia. }
  unfold scale. rewrite Hf, Hacc.
  rewrite (bind_eq _ _ s s tt eq_refl), (bind_eq _ _ s s tt eq_refl).
  destruct Hfilter as [-> | (-> & Hbk & Hflat & Hbytes)].
  - destruct (nearest_same_size src dst bs bd ls ld Hsrc Hdst Hf Hw Hh Hd s
                Hdiff H0) as (s' & Ek & Hc).
    exists s'. split; [|exact (Hfinal s' Hc)].
    destruct (scale_same_format src dst s Hf) as (Ht & _).
    rewrite (bind_eq _ _ _ _ _ Ht).
    unfold elemSize in Ek.
    destruct (accessible_elemBytes _ Hacc) as [E | [E | [E | [E | [E | [E |
      [E | [E | []]]]]]]]]; rewrite <- E in Ek |- *;
      rewrite (bind_eq _ _ _ _ _ Ek);
      apply (scale_same_format src dst s' Hf).
  - rewrite <- Hd in Hflat.
    destruct (byte_same_size src dst bs bd ls ld Hsrc Hdst Hf Hw Hh Hd s
                Hdiff Hbytes Hflat H0) as (s' & Ek & Hc).
    exists s'. split; [|exact (Hfinal s' Hc)].
    destruct (scale_same_format src dst s Hf) as (Ht & _).
    unfold elemSize in Ek.
    destruct (mFormat src) eqn:Ef; try discriminate Hbk;
      rewrite (bind_eq _ _ _ _ _ Ht);
      match goal with
      | |- context [getNumElemBytes ?f] =>
          let v := eval vm_compute in (getNumElemBytes f) in
          change (getNumElemBytes f) with v in Ek |- *
      end;
      cbv iota; rewrite (bind_eq _ _ _ _ _ Ek);
      unfold scaleFinish; rewrite (bool_decide_eq_true_2 _ eq_refl);
      reflexivity.
Qed.

Lemma two_blocks_laid_out :
  laid_out (buffer_at 0 2 2 1 PF_R8G8) 0 [10; 20; 30; 40; 50; 60; 70; 80] /\
  laid_out (buffer_at 1 2 2 1 PF_R8G8) 1 (replicate 16 0).
Proof.
  unfold laid_out. vm_compute.
  repeat split; try reflexivity; discriminate.
Qed.

Lemma scale_same_size_witness :
  exists s',
    scale (buffer_at 0 2 2 1 PF_R8G8) (buffer_at 1 2 2 1 PF_R8G8)
          FILTER_BILINEAR two_blocks = (Ret tt, s') /\
    heap s' !! 0%nat = Some [10; 20; 30; 40; 50; 60; 70; 80] /\
    forall x y z c,
      in_extent (buffer_at 1 2 2 1 PF_R8G8) x y z ->
      0 <= c < elemSize (buffer_at 1 2 2 1 PF_R8G8) ->
      exists v,
        byte_at two_blocks 0
                (pixelStart (buffer_at 0 2 2 1 PF_R8G8) x y z + c) = Some v /\
        byte_at s' 1 (pixelStart (buffer_at 1 2 2 1 PF_R8G8) x y z + c)
        = Some v.
Proof.
  apply (scale_same_size (buffer_at 0 2 2 1 PF_R8G8)
           (buffer_at 1 2 2 1 PF_R8G8) FILTER_BILINEAR 0 1
           [10; 20; 30; 40; 50; 60; 70; 80] (replicate 16 0) two_blocks);
    try reflexivity.
  - apply two_blocks_laid_out.
  - apply two_blocks_laid_out.
  - discriminate.
  - right. split; [reflexivity|]. split; [reflexivity|].
    split; [reflexivity|].
    repeat constructor; discriminate.
Defined.

(** C8 as stated fails for the bilinear filter on a float format: scaling
    the two pixels 0.0f and 1.0f to the same size blends the second with
    the first by 1/65536, and writes 0x3F7FFF00 where the source holds
    0x3F800000. *)
Lemma scale_bilinear_counterexample :
  isAccessible PF_FLOAT32_R = true /\
  fst (scale (buffer_at 0 2 1 1 PF_FLOAT32_R) (buffer_at 1 2 1 1 PF_FLOAT32_R)
             FILTER_BILINEAR float_pair) = Ret tt /\
  heap float_pair !! 0%nat = Some [0; 0; 0; 0; 0; 0; 128; 63] /\
  heap (snd (scale (buffer_at 0 2 1 1 PF_FLOAT32_R)
                   (buffer_at 1 2 1 1 PF_FLOAT32_R)
                   FILTER_BILINEAR float_pair)) !! 1%nat
  = Some [0; 0; 0; 0; 0; 255; 127; 63].
Proof. vm_compute. repeat split. Qed.

(** The nearest filter copies the same two pixels as they are. *)
Example scale_nearest_run :
  heap (snd (scale (buffer_at 0 2 1 1 PF_FLOAT32_R)
                   (buffer_at 1 2 1 1 PF_FLOAT32_R)
                   FILTER_NEAREST float_pair)) !! 1%nat
  = Some [0; 0; 0; 0; 0; 0; 128; 63].
Proof. vm_compute. reflexivity. Qed.

(* ===================================================================== *)
(** * Part III: the rest of [PixelUtil]                                   *)
(* ===================================================================== *)

(** ** Mip chains *)

Lemma halve_max (a b : Z) :
  (if Z.max a b >? 1 then Z.max a b / 2 else Z.max a b)
  = Z.max (if a >? 1 then a / 2 else a) (if b >? 1 then b / 2 else b).
Proof.
  destruct (Z.max_spec a b) as [[Hlt ->] | [Hle ->]].
  - destruct (Z.gtb_spec b 1), (Z.gtb_spec a 1); try lia.
    + assert (a / 2 <= b / 2) by (apply Z.div_le_mono; lia). lia.
    + assert (1 <= b / 2) by (apply Z.div_le_lower_bound; lia). lia.
  - destruct (Z.gtb_spec a 1), (Z.gtb_spec b 1); try lia.
    + assert (b / 2 <= a / 2) by (apply Z.div_le_mono; lia). lia.
    + assert (1 <= a / 2) by (apply Z.div_le_lower_bound; lia). lia.
Qed.

Lemma halve_pos (a : Z) : 1 <= a -> 1 <= (if a >? 1 then a / 2 else a).
Proof.
  intros Ha. destruct (Z.gtb_spec a 1); [|lia].
  apply Z.div_le_lower_bound; lia.
Qed.

Lemma getMaxMipmaps_loop_spec (fuel : nat) :
  forall w h d c,
    1 <= w -> 1 <= h -> 1 <= d -> 0 <= c ->
    c + Z.max 1 (Z.log2 (Z.max w (Z.max h d))) < 2 ^ 32 ->
    Z.log2 (Z.max w (Z.max h d)) <= Z.of_nat fuel -> (1 <= fuel)%nat ->
    getMaxMipmaps_loop fuel w h d c
    = Some (c + Z.max 1 (Z.log2 (Z.max w (Z.max h d)))).
Proof.
  induction fuel as [|fuel IH]; intros w h d c Hw Hh Hd Hc Hcf Hlog Hf;
    [lia|].
  cbn [getMaxMipmaps_loop]. cbv zeta.
  set (w' := if w >? 1 then w / 2 else w).
  set (h' := if h >? 1 then h / 2 else h).
  set (d' := if d >? 1 then d / 2 else d).
  set (m := Z.max w (Z.max h d)) in *.
  assert (Hm' : Z.max w' (Z.max h' d') = if m >? 1 then m / 2 else m).
  { unfold m, w', h', d'. rewrite !halve_max. reflexivity. }
  assert (Hw' : 1 <= w') by (apply halve_pos, Hw).
  assert (Hh' : 1 <= h') by (apply halve_pos, Hh).
  assert (Hd' : 1 <= d') by (apply halve_pos, Hd).
  assert (Hc1 : u32 (c + 1) = c + 1)
    by (unfold u32; apply Z.mod_small; lia).
  rewrite Hc1.
  assert (Hm1 : 1 <= m) by (unfold m; lia).
  destruct (Z.le_gt_cases m 3) as [Hsmall | Hbig].
  - assert (Hone : Z.max w' (Z.max h' d') = 1).
    { rewrite Hm'. destruct (Z.gtb_spec m 1); [|lia].
      assert (m / 2 < 2) by (apply Z.div_lt_upper_bound; lia).
      assert (1 <= m / 2) by (apply Z.div_le_lower_bound; lia). lia. }
    replace w' with 1 by lia. replace h' with 1 by lia.
    replace d' with 1 by lia. cbn [Z.eqb Pos.eqb andb negb].
    f_equal.
    assert (Hl : Z.log2 m <= 1).
    { destruct (Z.le_gt_cases (Z.log2 m) 1) as [|Hgt]; [assumption|].
      assert (2 ^ 2 <= 2 ^ Z.log2 m) by (apply Z.pow_le_mono_r; lia).
      pose proof (Z.log2_spec m ltac:(lia)). lia. }
    pose proof (Z.log2_nonneg m). lia.
  - assert (Hhalf : Z.max w' (Z.max h' d') = m / 2)
      by (rewrite Hm'; destruct (Z.gtb_spec m 1); lia).
    assert (Hm2 : 2 <= m / 2) by (apply Z.div_le_lower_bound; lia).
    assert (Hlog2 : Z.log2 (m / 2) = Z.log2 m - 1).
    { rewrite <- Z.div2_div, Z.div2_spec, Z.log2_shiftr by lia.
      assert (2 <= Z.log2 m).
      { apply Z.log2_le_pow2; [lia|]. change (2 ^ 2) with 4. lia. }
      lia. }
    assert (Hl2 : 2 <= Z.log2 m).
    { apply Z.log2_le_pow2; [lia|]. change (2 ^ 2) with 4. lia. }
    assert (Hnot : (w' =? 1) && (h' =? 1) && (d' =? 1) = false).
    { destruct (Z.eqb_spec w' 1), (Z.eqb_spec h' 1), (Z.eqb_spec d' 1);
        try reflexivity. lia. }
    rewrite Hnot. cbn [negb].
    rewrite IH; rewrite ?Hhalf, ?Hlog2; try lia.
    f_equal. lia.
Qed.

(** X1.  For extents of at least one pixel, [getMaxMipmaps] returns, within
    32 turns of its loop, the binary logarithm of the largest extent, and 1
    when that is 0: a 1x1x1 image and a 2x2x1 image both count one level.
    The format plays no part. *)
Theorem getMaxMipmaps_value (fuel : nat) (width height depth : Z)
    (format : PixelFormat) :
  1 <= width < 2 ^ 32 -> 1 <= height < 2 ^ 32 -> 1 <= depth < 2 ^ 32 ->
  (32 <= fuel)%nat ->
  getMaxMipmaps fuel width height depth format
  = Some (Z.max 1 (Z.log2 (Z.max width (Z.max height depth)))).
Proof.
  intros Hw Hh Hd Hf. unfold getMaxMipmaps.
  replace ((width >? 0) && (height >? 0)) with true
    by (symmetry; apply andb_true_intro; split; apply Z.gtb_lt; lia).
  assert (Hlog : Z.log2 (Z.max width (Z.max height depth)) < 32).
  { apply Z.log2_lt_pow2; lia. }
  rewrite getMaxMipmaps_loop_spec; try lia.
  reflexivity.
Qed.

Lemma getMaxMipmaps_value_witness :
  getMaxMipmaps 32 1024 300 1 PF_R8G8B8 = Some 10 /\
  getMaxMipmaps 32 1 1 1 PF_R8G8B8 = Some 1.
Proof.
  split.
  - apply (getMaxMipmaps_value 32 1024 300 1 PF_R8G8B8); lia.
  - apply (getMaxMipmaps_value 32 1 1 1 PF_R8G8B8); lia.
Defined.

(** X2.  With a depth of 0, [getMaxMipmaps] returns 0 when the width or the
    height is 0, and otherwise never returns, whatever the number of turns
    allowed: the depth stays 0 and the exit test waits for it to be 1. *)
Theorem getMaxMipmaps_zero_depth (fuel : nat) (width height : Z)
    (format : PixelFormat) :
  getMaxMipmaps fuel width height 0 format
  = if (width >? 0) && (height >? 0) then None else Some 0.
Proof.
  unfold getMaxMipmaps.
  destruct ((width >? 0) && (height >? 0)); [|reflexivity].
  generalize 0 at 2 as c. revert width height.
  induction fuel as [|fuel IH]; intros w h c; [reflexivity|].
  cbn [getMaxMipmaps_loop]. cbv zeta.
  change (0 >? 1) with false. cbv iota. change (0 =? 1) with false.
  rewrite !andb_false_r. cbn [negb]. apply IH.
Qed.

(** ** Sizes *)

(** X3.  [getMemorySize] never raises its exception: every compressed
    format is one of the five DXT cases.  It returns a 32-bit size, and the
    size of [depth] slices is [depth] times the size of one slice, modulo
    2^32. *)
Theorem getMemorySize_slices (width height depth : Z) (format : PixelFormat) :
  exists slice : Z,
    getMemorySize width height 1 format = Ret slice /\
    0 <= slice < 2 ^ 32 /\
    getMemorySize width height depth format = Ret (u32 (slice * depth)).
Proof.
  assert (Hu : forall x e : Z,
             u32 (u32 (x * depth) * e)
             = u32 (u32 (u32 (x * 1) * e) * depth)).
  { intros x e. rewrite (u32_mul_l (x * depth) e).
    rewrite (u32_mul_l (u32 (x * 1) * e) depth).
    rewrite <- (Z.mul_assoc (u32 (x * 1))), u32_mul_l. f_equal. lia. }
  assert (Hc : forall x : Z, u32 (x * depth) = u32 (u32 (x * 1) * depth)).
  { intros x. rewrite u32_mul_l. f_equal. lia. }
  unfold getMemorySize.
  destruct (isCompressed format) eqn:Hcomp.
  - destruct format; try discriminate Hcomp;
      (eexists; split; [reflexivity|]; split;
       [apply u32_range | f_equal; apply Hc]).
  - eexists; split; [reflexivity|]; split; [apply u32_range|].
    f_equal. apply Hu.
Qed.

(** X4.  For a compressed format, [isValidExtent] accepts exactly the
    single slices whose width and height are multiples of four; the
    [getMemorySize] of such an image, when width times height fits 32 bits,
    is half a byte per pixel for DXT1 and one byte per pixel for DXT2 to
    DXT5. *)
Theorem isValidExtent_blocks (width height depth : Z) (format : PixelFormat) :
  isCompressed format = true ->
  0 <= width < 2 ^ 32 -> 0 <= height < 2 ^ 32 -> width * height < 2 ^ 32 ->
  (isValidExtent width height depth format = true
   <-> width mod 4 = 0 /\ height mod 4 = 0 /\ depth = 1) /\
  (isValidExtent width height depth format = true ->
   getMemorySize width height depth format
   = Ret (if bool_decide (format = PF_DXT1) then width * height / 2
          else width * height)).
Proof.
  intros Hcomp Hw Hh Hwh.
  assert (Hland : forall x, Z.land x 3 = x mod 4).
  { intros x. change 3 with (Z.ones 2). rewrite Z.land_ones by lia.
    reflexivity. }
  assert (Hiff : isValidExtent width height depth format = true
                 <-> width mod 4 = 0 /\ height mod 4 = 0 /\ depth = 1).
  { unfold isValidExtent. rewrite Hcomp.
    assert (Hgen : (Z.land width 3 =? 0) && (Z.land height 3 =? 0)
                   && (depth =? 1) = true
                   <-> width mod 4 = 0 /\ height mod 4 = 0 /\ depth = 1).
    { rewrite !andb_true_iff, !Z.eqb_eq, !Hland. tauto. }
    destruct format; try discriminate Hcomp; exact Hgen. }
  split; [exact Hiff|].
  intros Hvalid. apply Hiff in Hvalid as (Hwm & Hhm & ->).
  set (a := width / 4). set (b := height / 4).
  assert (Hwa : width = 4 * a)
    by (unfold a; pose proof (Z.div_mod width 4 ltac:(lia)); lia).
  assert (Hhb : height = 4 * b)
    by (unfold b; pose proof (Z.div_mod height 4 ltac:(lia)); lia).
  assert (Ha : 0 <= a) by lia. assert (Hb : 0 <= b) by lia.
  assert (Hab : 16 * (a * b) < 2 ^ 32) by (rewrite Hwa, Hhb in Hwh; lia).
  assert (Hqa : u32 (width + 3) / 4 = a).
  { rewrite u32_small by lia. rewrite Hwa.
    replace (4 * a + 3) with (3 + a * 4) by lia.
    rewrite Z.div_add by lia. reflexivity. }
  assert (Hqb : u32 (height + 3) / 4 = b).
  { rewrite u32_small by lia. rewrite Hhb.
    replace (4 * b + 3) with (3 + b * 4) by lia.
    rewrite Z.div_add by lia. reflexivity. }
  assert (Hp : 0 <= a * b) by (apply Z.mul_nonneg_nonneg; lia).
  assert (Hwh16 : width * height = 16 * (a * b)) by (rewrite Hwa, Hhb; lia).
  assert (Hhalf : width * height / 2 = a * b * 8).
  { rewrite Hwh16. replace (16 * (a * b)) with (a * b * 8 * 2) by lia.
    apply Z.div_mul. lia. }
  unfold getMemorySize. rewrite Hcomp, Hqa, Hqb.
  destruct format; try discriminate Hcomp;
    rewrite ?bool_decide_eq_true_2 by reflexivity;
    rewrite ?bool_decide_eq_false_2 by discriminate;
    f_equal; rewrite !(u32_small (a * b)) by lia;
    rewrite ?(u32_small (a * b * 8)), ?(u32_small (a * b * 16)) by lia;
    rewrite ?Z.mul_1_r, ?(u32_small (a * b * 8)), ?(u32_small (a * b * 16)) by lia;
    rewrite ?Hhalf; lia.
Qed.

Lemma isValidExtent_blocks_witness :
  (isValidExtent 8 4 1 PF_DXT1 = true
   <-> 8 mod 4 = 0 /\ 4 mod 4 = 0 /\ 1 = 1) /\
  (isValidExtent 8 4 1 PF_DXT1 = true ->
   getMemorySize 8 4 1 PF_DXT1 = Ret 16).
Proof.
  apply (isValidExtent_blocks 8 4 1 PF_DXT1); [reflexivity|lia|lia|lia].
Defined.

(** ** The catalog, column against column *)

(** X5.  No two formats share a name: [getFormatName] tells the formats
    apart. *)
Theorem getFormatName_injective (f g : PixelFormat) :
  getFormatName f = getFormatName g <-> f = g.
Proof.
  split; [|intros ->; reflexivity].
  destruct f, g; intros H; try reflexivity; vm_compute in H; discriminate H.
Qed.

(** X6.  In every entry of the table the channel masks share no bit and lie
    within the bits of one pixel. *)
Theorem catalog_masks_disjoint (f : PixelFormat) :
  disjoint_masks (getBitMasks f) /\
  (let '(r, g, b, a) := getBitMasks f in
   Z.lor (Z.lor (Z.lor r g) b) a < 2 ^ getNumElemBits f).
Proof.
  destruct f; vm_compute; repeat split; reflexivity.
Qed.

(** X7.  For an accessible format the columns of the table agree: the
    component count is the number of channels of non-zero width, each such
    channel has the width of the component type, and the channel widths
    add up to the size of the pixel, less the eight bits of padding of the
    four padded formats. *)
Theorem catalog_components (f : PixelFormat) :
  isAccessible f = true ->
  let '(r, g, b, a) := getBitDepths f in
  getNumElements f = channelsPresent (r, g, b, a) /\
  Forall (fun bits => bits = 0 \/ bits = componentBits (getElementType f))
         [r; g; b; a] /\
  r + g + b + a + (if isPadded f then 8 else 0) = getNumElemBits f.
Proof.
  intros Hacc.
  destruct f; try discriminate Hacc; vm_compute;
    (split; [reflexivity|]; split; [|reflexivity]);
    repeat (constructor; [first [left; reflexivity | right; reflexivity]|]);
    constructor.
Qed.

Lemma catalog_components_witness :
  getNumElements PF_X8R8G8B8 = channelsPresent (8, 8, 8, 0) /\
  Forall (fun bits => bits = 0 \/ bits = componentBits PCT_BYTE)
         [8; 8; 8; 0] /\
  8 + 8 + 8 + 0 + 8 = getNumElemBits PF_X8R8G8B8.
Proof.
  apply (catalog_components PF_X8R8G8B8). reflexivity.
Defined.

(** X8.  The flags agree with the other columns: a format has the float
    flag exactly when its components are floats, it has no pixel size
    exactly when it is compressed or unknown, no format is both compressed
    and a depth format, and the native-endian flag is only on accessible
    formats of byte components. *)
Theorem catalog_flags (f : PixelFormat) :
  isFloatingPoint f
  = match getElementType f with
    | PCT_FLOAT16 | PCT_FLOAT32 => true
    | _ => false
    end /\
  (getNumElemBytes f =? 0)
  = (isCompressed f || bool_decide (f = PF_UNKNOWN)) /\
  isCompressed f && isDepth f = false /\
  implb (isNativeEndian f)
        (isAccessible f
         && match getElementType f with PCT_BYTE => true | _ => false end)
  = true.
Proof.
  destruct f; vm_compute; repeat split; reflexivity.
Qed.

(** ** The codec and the accessible formats *)

Lemma store_outcome (p : ptr) (bs : list Z) (s : state) :
  fst (store p bs s) = Ret tt \/ store p bs s = (Abort, s).
Proof.
  unfold store. destruct (pblock p); [|right; reflexivity].
  destruct (heap s !! n); [|right; reflexivity].
  destruct (splice l (poff p) bs); [left|right]; reflexivity.
Qed.

Lemma load_outcome (p : ptr) (n : Z) (s : state) :
  (exists bs, fst (load p n s) = Ret bs) \/ fst (load p n s) = Abort.
Proof.
  unfold load. destruct (pblock p); [|right; reflexivity].
  destruct (heap s !! n0); [|right; reflexivity].
  destruct (slice l (poff p) n); [left; eexists|right]; reflexivity.
Qed.

Lemma olift_bind_quiet {A B} (o : option A) (k : A -> outcome B) (e : exn) :
  (forall a, k a <> Throw e) -> obind (olift o) k <> Throw e.
Proof. intros Hk. destruct o; cbn; [apply Hk|discriminate]. Qed.

Lemma packColor_bytes_quiet (f : PixelFormat) (r g b a : spec_float)
    (e : exn) :
  hasCodec f = true -> packColor_bytes r g b a f <> Throw e.
Proof.
  intros Hc. unfold packColor_bytes.
  destruct (has_flag (flags (getDescriptionFor f)) PFF_NATIVEENDIAN) eqn:Hn.
  - repeat (apply olift_bind_quiet; intros ?). discriminate.
  - unfold hasCodec in Hc. rewrite Hn in Hc. cbn [orb] in Hc.
    destruct f; try discriminate Hc; try discriminate;
      repeat (apply olift_bind_quiet; intros ?); discriminate.
Qed.

Lemma packColor_UINT8_bytes_quiet (f : PixelFormat) (r g b a : Z) (e : exn) :
  hasCodec f = true -> packColor_UINT8_bytes r g b a f <> Throw e.
Proof.
  intros Hc. unfold packColor_UINT8_bytes.
  destruct (has_flag (flags (getDescriptionFor f)) PFF_NATIVEENDIAN) eqn:Hn.
  - repeat (apply olift_bind_quiet; intros ?). discriminate.
  - apply packColor_bytes_quiet, Hc.
Qed.

Lemma unpackColor_bytes_returns (f : PixelFormat) (bs : list Z) :
  hasCodec f = true -> exists c, unpackColor_bytes f bs = Ret c.
Proof.
  intros Hc. unfold unpackColor_bytes.
  destruct (has_flag (flags (getDescriptionFor f)) PFF_NATIVEENDIAN) eqn:Hn.
  - destruct (has_flag _ PFF_HASALPHA); eexists; reflexivity.
  - unfold hasCodec in Hc. rewrite Hn in Hc. cbn [orb] in Hc.
    destruct f; try discriminate Hc; eexists; reflexivity.
Qed.

Lemma unpackColor_UINT8_bytes_quiet (f : PixelFormat) (bs : list Z)
    (e : exn) :
  hasCodec f = true -> unpackColor_UINT8_bytes f bs <> Throw e.
Proof.
  intros Hc. unfold unpackColor_UINT8_bytes.
  destruct (has_flag (flags (getDescriptionFor f)) PFF_NATIVEENDIAN) eqn:Hn.
  - repeat (apply olift_bind_quiet; intros ?).
    destruct (has_flag _ PFF_HASALPHA);
      repeat (apply olift_bind_quiet; intros ?); discriminate.
  - destruct (unpackColor_bytes_returns f bs Hc) as ([[[rr gg] bb] aa] & ->).
    cbn [obind].
    repeat (apply olift_bind_quiet; intros ?). discriminate.
Qed.

Lemma pack_quiet (o : outcome (list Z)) (p : ptr) (s : state) :
  (forall e, o <> Throw e) ->
  ~ raises (let* bs := run_pure o in store p bs) s.
Proof.
  intros Ho (e & He). unfold bind, run_pure in He.
  destruct o as [bs| e' |]; [| exact (Ho e' eq_refl) | discriminate He].
  destruct (store_outcome p bs s) as [H | H]; rewrite H in He;
    discriminate He.
Qed.

Lemma unpack_quiet {A} (n : Z) (k : list Z -> outcome A) (p : ptr)
    (s : state) :
  (forall bs e, k bs <> Throw e) ->
  ~ raises (let* bs := load p n in run_pure (k bs)) s.
Proof.
  intros Hk (e & He). unfold bind, run_pure in He.
  destruct (load p n s) as [[bs| e' |] s1] eqn:El; cbn [fst] in He.
  - exact (Hk bs e He).
  - destruct (load_outcome p n s) as [(bs & H) | H]; rewrite El in H;
      discriminate H.
  - discriminate He.
Qed.

Lemma inaccessible_no_codec (f : PixelFormat) :
  isAccessible f = false -> hasCodec f = false.
Proof. destruct f; intros H; try discriminate H; reflexivity. Qed.

(** X9.  The four overloads of the codec serve exactly the accessible
    formats.  For an accessible format none of them raises an exception;
    for any other format each of them raises [NotImplementedException]
    before it reads or writes a byte. *)
Theorem codec_iff_accessible (f : PixelFormat) (r g b a : spec_float)
    (r8 g8 b8 a8 : Z) (p : ptr) (s : state) :
  (isAccessible f = true /\
   ~ raises (packColor r g b a f p) s /\
   ~ raises (packColor_UINT8 r8 g8 b8 a8 f p) s /\
   ~ raises (unpackColor f p) s /\
   ~ raises (unpackColor_UINT8 f p) s)
  \/
  (isAccessible f = false /\
   packColor r g b a f p s = (Throw NotImplementedException, s) /\
   packColor_UINT8 r8 g8 b8 a8 f p s = (Throw NotImplementedException, s) /\
   unpackColor f p s = (Throw NotImplementedException, s) /\
   unpackColor_UINT8 f p s = (Throw NotImplementedException, s)).
Proof.
  destruct (isAccessible f) eqn:Hacc; [left|right];
    (split; [reflexivity|]).
  - pose proof (accessible_hasCodec f Hacc) as Hc.
    split; [|split; [|split]].
    + apply pack_quiet. intros e. apply packColor_bytes_quiet, Hc.
    + apply pack_quiet. intros e. apply packColor_UINT8_bytes_quiet, Hc.
    + unfold unpackColor. rewrite Hc. apply unpack_quiet.
      intros bs e. destruct (unpackColor_bytes_returns f bs Hc) as (c & ->).
      discriminate.
    + unfold unpackColor_UINT8. rewrite Hc. apply unpack_quiet.
      intros bs e. apply unpackColor_UINT8_bytes_quiet, Hc.
  - pose proof (inaccessible_no_codec f Hacc) as Hc.
    unfold unpackColor, unpackColor_UINT8. rewrite Hc.
    repeat split; destruct f; try discriminate Hacc; reflexivity.
Qed.

(** ** What one pack and one unpack touch *)

Lemma same_sizes_refl (s : state) : same_sizes s s.
Proof. intros b. reflexivity. Qed.

Lemma same_sizes_trans (s1 s2 s3 : state) :
  same_sizes s1 s2 -> same_sizes s2 s3 -> same_sizes s1 s3.
Proof. intros H1 H2 b. rewrite H2. apply H1. Qed.

Lemma store_frame (p : ptr) (bs : list Z) (s : state) :
  same_outside (bytes_at p (Z.of_nat (length bs))) s (snd (store p bs s)) /\
  same_sizes s (snd (store p bs s)) /\
  reads (snd (store p bs s)) = reads s.
Proof.
  unfold store.
  destruct (pblock p) as [b0|] eqn:Eb;
    [|split; [apply same_outside_refl|split; [apply same_sizes_refl|reflexivity]]].
  destruct (heap s !! b0) as [l|] eqn:El;
    [|split; [apply same_outside_refl|split; [apply same_sizes_refl|reflexivity]]].
  unfold splice.
  destruct ((0 <=? poff p)
            && (poff p + Z.of_nat (length bs) <=? Z.of_nat (length l)))
    eqn:Ec;
    [|split; [apply same_outside_refl|split; [apply same_sizes_refl|reflexivity]]].
  apply andb_prop in Ec as (E0 & E1).
  apply Z.leb_le in E0. apply Z.leb_le in E1.
  cbn [snd]. split; [|split; [|reflexivity]].
  - intros b i Hi Hn. unfold byte_at. cbn [heap].
    destruct (decide (b = b0)) as [-> | Hne].
    + rewrite lookup_insert_eq, El.
      apply overwrite_outside; [lia|].
      unfold bytes_at in Hn. rewrite Eb in Hn.
      assert (~ (poff p <= i < poff p + Z.of_nat (length bs)))
        by (intros H; apply Hn; split; [reflexivity|exact H]).
      lia.
    + rewrite lookup_insert_ne by congruence. reflexivity.
  - intros b. cbn [heap].
    destruct (decide (b = b0)) as [-> | Hne].
    + rewrite lookup_insert_eq, El. cbn. f_equal.
      rewrite !length_app, length_take, length_drop. lia.
    + rewrite lookup_insert_ne by congruence. reflexivity.
Qed.

Lemma packColor_bytes_length (f : PixelFormat) (r g b a : spec_float)
    (bs : list Z) :
  packColor_bytes r g b a f = Ret bs ->
  Z.of_nat (length bs) = getNumElemBytes f.
Proof.
  unfold packColor_bytes.
  destruct (has_flag (flags (getDescriptionFor f)) PFF_NATIVEENDIAN) eqn:Hn.
  - destruct (Bitwise.floatToFixed r _); [|discriminate].
    destruct (Bitwise.floatToFixed g _); [|discriminate].
    destruct (Bitwise.floatToFixed b _); [|discriminate].
    destruct (Bitwise.floatToFixed a _); [|discriminate].
    cbn [olift obind]. intros [= <-]. apply intWrite_length.
    destruct f; try discriminate Hn; vm_compute; split; discriminate.
  - destruct f; try discriminate Hn; try discriminate;
      cbn [olift obind];
      repeat match goal with
             | |- context [Bitwise.floatToFixed ?v ?k] =>
                 destruct (Bitwise.floatToFixed v k); cbn [olift obind];
                 [|discriminate]
             end;
      intros [= <-];
      rewrite ?length_app, ?floatBytes_length, ?halfBytes_length;
      reflexivity.
Qed.

Lemma packColor_UINT8_bytes_length (f : PixelFormat) (r g b a : Z)
    (bs : list Z) :
  packColor_UINT8_bytes r g b a f = Ret bs ->
  Z.of_nat (length bs) = getNumElemBytes f.
Proof.
  unfold packColor_UINT8_bytes.
  destruct (has_flag (flags (getDescriptionFor f)) PFF_NATIVEENDIAN) eqn:Hn.
  - destruct (Bitwise.fixedToFixed r _ _); [|discriminate].
    destruct (Bitwise.fixedToFixed g _ _); [|discriminate].
    destruct (Bitwise.fixedToFixed b _ _); [|discriminate].
    destruct (Bitwise.fixedToFixed a _ _); [|discriminate].
    cbn [olift obind]. intros [= <-]. apply intWrite_length.
    destruct f; try discriminate Hn; vm_compute; split; discriminate.
  - apply packColor_bytes_length.
Qed.

Lemma pack_frame (o : outcome (list Z)) (n : Z) (p : ptr) (s : state) :
  (forall bs, o = Ret bs -> Z.of_nat (length bs) = n) ->
  let s' := snd ((let* bs := run_pure o in store p bs) s) in
  same_outside (bytes_at p n) s s' /\ same_sizes s s' /\ reads s' = reads s.
Proof.
  intros Hlen. unfold bind, run_pure.
  destruct o as [bs| e |];
    [|split; [apply same_outside_refl|split; [apply same_sizes_refl|reflexivity]]..].
  rewrite <- (Hlen bs eq_refl). cbv zeta.
  destruct (store p bs s) as [[[]| e |] s1] eqn:Es;
    pose proof (store_frame p bs s) as H; rewrite Es in H; exact H.
Qed.

(** X10.  Whatever its outcome, a [packColor] (float or byte overload)
    changes no byte but the [getNumElemBytes] bytes of the pixel at
    [dest]; it creates, frees and resizes no allocation, and reads no
    memory. *)
Theorem packColor_frame (f : PixelFormat) (r g b a : spec_float)
    (r8 g8 b8 a8 : Z) (dest : ptr) (s : state) :
  (let s' := snd (packColor r g b a f dest s) in
   same_outside (bytes_at dest (getNumElemBytes f)) s s' /\
   same_sizes s s' /\ reads s' = reads s) /\
  (let s' := snd (packColor_UINT8 r8 g8 b8 a8 f dest s) in
   same_outside (bytes_at dest (getNumElemBytes f)) s s' /\
   same_sizes s s' /\ reads s' = reads s).
Proof.
  split.
  - apply pack_frame. apply packColor_bytes_length.
  - apply pack_frame. apply packColor_UINT8_bytes_length.
Qed.

(** ** Bulk conversion and the formats without a codec *)

Lemma fails_bind {A B} (c : M A) (k : A -> M B) (s0 s : state) :
  fails_from s0 (c s) -> fails_from s0 (bind c k s).
Proof.
  unfold fails_from, bind. intros (Hh & Ho).
  destruct (c s) as [[a | e |] s1]; cbn [fst snd] in *.
  - destruct Ho as [Ho | Ho]; discriminate Ho.
  - split; [exact Hh|]. destruct Ho as [Ho | Ho]; [discriminate Ho|].
    right. injection Ho as ->. reflexivity.
  - split; [exact Hh|]. left. reflexivity.
Qed.

Lemma fails_loop {S} (n : nat) (body : S -> M S) (x : S) (s0 s : state) :
  (0 < n)%nat -> fails_from s0 (body x s) ->
  fails_from s0 (loop n body x s).
Proof.
  intros Hn H. destruct n as [|n]; [lia|]. cbn [loop].
  apply fails_bind, H.
Qed.

Lemma fails_after {A B} (c : M A) (k : A -> M B) (s : state) :
  heap_stable c ->
  (fst (c s) = Abort \/ fst (c s) = Throw NotImplementedException \/
   exists a, fst (c s) = Ret a) ->
  (forall a s1, heap s1 = heap s -> fails_from s (k a s1)) ->
  fails_from s (bind c k s).
Proof.
  intros Hst Ho Hk. unfold bind. pose proof (Hst s) as Hh.
  destruct (c s) as [[a | e |] s1]; cbn [fst snd] in *.
  - apply Hk, Hh.
  - split; [exact Hh|]. right.
    destruct Ho as [Ho | [Ho | (a & Ho)]]; try discriminate Ho.
    injection Ho as ->. reflexivity.
  - split; [exact Hh|]. left. reflexivity.
Qed.

Lemma unpackColor_outcome (f : PixelFormat) (p : ptr) (s : state) :
  fst (unpackColor f p s) = Abort \/
  fst (unpackColor f p s) = Throw NotImplementedException \/
  exists c, fst (unpackColor f p s) = Ret c.
Proof.
  unfold unpackColor. destruct (hasCodec f) eqn:Hc;
    [|right; left; reflexivity].
  unfold bind, run_pure.
  destruct (load_outcome p (getNumElemBytes f) s) as [(bs & H) | H];
    destruct (load p (getNumElemBytes f) s) as [[bs' | e |] s1];
    cbn [fst] in *; try discriminate H.
  - destruct (unpackColor_bytes_returns f bs' Hc) as (c & ->).
    right; right. exists c. reflexivity.
  - left. reflexivity.
Qed.

Lemma packColor_inaccessible (f : PixelFormat) (r g b a : spec_float)
    (p : ptr) (s : state) :
  isAccessible f = false ->
  packColor r g b a f p s = (Throw NotImplementedException, s).
Proof. destruct f; intros H; try discriminate H; reflexivity. Qed.

Lemma trip_pos (lo hi : Z) : 0 < hi - lo -> (0 < trip lo hi)%nat.
Proof. unfold trip. lia. Qed.

Lemma convertPixels_fails (src dst : PixelData) (s : state) :
  0 < mRight src - mLeft src -> 0 < mBottom src - mTop src ->
  0 < mBack src - mFront src ->
  isAccessible (mFormat src) = false \/ isAccessible (mFormat dst) = false ->
  fails_from s (convertPixels src dst s).
Proof.
  intros Hx Hy Hz Hacc. unfold convertPixels. cbv zeta.
  apply fails_bind.
  apply fails_loop; [apply trip_pos, Hz|]. apply fails_bind.
  apply fails_loop; [apply trip_pos, Hy|]. apply fails_bind.
  apply fails_loop; [apply trip_pos, Hx|].
  destruct (isAccessible (mFormat src)) eqn:Hs.
  - destruct Hacc as [Hacc | Hd]; [discriminate Hacc|].
    apply fails_after.
    + apply heap_stable_unpackColor.
    + apply unpackColor_outcome.
    + intros [[[r g] b] a] s1 Hh. apply fails_bind.
      rewrite (packColor_inaccessible _ r g b a _ s1 Hd).
      split; [exact Hh | right; reflexivity].
  - apply fails_bind. unfold unpackColor.
    rewrite (inaccessible_no_codec _ Hs).
    split; [reflexivity | right; reflexivity].
Qed.

Lemma accessible_not_compressed (f : PixelFormat) :
  isAccessible f = true -> isCompressed f = false.
Proof. destruct f; intros H; try discriminate H; reflexivity. Qed.

Lemma bulk_direct_fails (fuel : nat) (src dst : PixelData) (s : state) :
  0 < mRight src - mLeft src -> 0 < mBottom src - mTop src ->
  0 < mBack src - mFront src ->
  mFormat src <> mFormat dst ->
  isAccessible (mFormat src) = false \/ isAccessible (mFormat dst) = false ->
  bool_decide (mFormat dst = PF_X8R8G8B8)
  || bool_decide (mFormat dst = PF_X8B8G8R8) = false ->
  (bool_decide (mFormat src = PF_X8R8G8B8)
   || bool_decide (mFormat src = PF_X8B8G8R8))
  && negb (hasAlpha (mFormat dst)) = false ->
  fails_from s (bulkPixelConversion_rec (S fuel) src dst s).
Proof.
  intros Hx Hy Hz Hne Hacc Ed Es. cbn [bulkPixelConversion_rec].
  unfold bind at 1, assert at 1.
  destruct ((getWidth src =? getWidth dst) && (getHeight src =? getHeight dst)
            && (getDepth src =? getDepth dst));
    [|split; [reflexivity | left; reflexivity]].
  cbn [ret].
  rewrite (bool_decide_eq_false_2 _ Hne), Ed, Es.
  destruct (isCompressed (mFormat src) || isCompressed (mFormat dst));
    [split; [reflexivity | right; reflexivity]|].
  apply convertPixels_fails; assumption.
Qed.

Lemma extent_of_new (lo hi : Z) : 0 < hi - lo < 2 ^ 32 -> 0 < u32 (hi - lo) - 0.
Proof. intros H. rewrite u32_small by lia. lia. Qed.

(** X12.  Between two different formats of which one is not accessible
    (compressed, depth or unknown), [bulkPixelConversion] of a region with
    at least one pixel never returns: it ends by
    [NotImplementedException] or by undefined behaviour, and no byte of
    any allocation has changed. *)
Theorem bulkPixelConversion_inaccessible (src dst : PixelData) (s : state) :
  nonempty_region src ->
  mFormat src <> mFormat dst ->
  isAccessible (mFormat src) = false \/ isAccessible (mFormat dst) = false ->
  heap (snd (bulkPixelConversion src dst s)) = heap s /\
  (fst (bulkPixelConversion src dst s) = Abort \/
   fst (bulkPixelConversion src dst s) = Throw NotImplementedException).
Proof.
  intros (Hx & Hy & Hz) Hne Hacc.
  change (fails_from s (bulkPixelConversion src dst s)).
  destruct (bool_decide (mFormat dst = PF_X8R8G8B8)
            || bool_decide (mFormat dst = PF_X8B8G8R8)) eqn:Ed;
    [|destruct ((bool_decide (mFormat src = PF_X8R8G8B8)
                 || bool_decide (mFormat src = PF_X8B8G8R8))
                && negb (hasAlpha (mFormat dst))) eqn:Es;
      [|apply bulk_direct_fails; first [assumption | lia]]];
    unfold bulkPixelConversion; remember 2%nat as fuel eqn:Hfuel;
    cbn [bulkPixelConversion_rec]; subst fuel;
    unfold bind at 1, assert at 1;
    (destruct ((getWidth src =? getWidth dst)
               && (getHeight src =? getHeight dst)
               && (getDepth src =? getDepth dst));
     [|split; [reflexivity | left; reflexivity]]);
    cbn [ret]; rewrite (bool_decide_eq_false_2 _ Hne);
    (destruct (isCompressed (mFormat src) || isCompressed (mFormat dst));
     [split; [reflexivity | right; reflexivity]|]);
    rewrite Ed; try rewrite Es.
  - (* the destination is padded, so the source is the format without a
       codec *)
    assert (Has : isAccessible (mFormat src) = false).
    { destruct Hacc as [H | H]; [exact H|].
      apply orb_prop in Ed as [E | E]; apply bool_decide_eq_true_1 in E;
        rewrite E in H; discriminate H. }
    assert (Hsx : bool_decide (mFormat src = PF_X8R8G8B8)
                  || bool_decide (mFormat src = PF_X8B8G8R8) = false).
    { apply orb_false_intro; apply bool_decide_eq_false_2; intros E;
        rewrite E in Has; discriminate Has. }
    apply bulk_direct_fails; try lia.
    + cbn [mFormat PixelData_new]. intros E.
      destruct (bool_decide (mFormat dst = PF_X8R8G8B8));
        rewrite E in Has; discriminate Has.
    + left. exact Has.
    + cbn [mFormat PixelData_new].
      destruct (bool_decide (mFormat dst = PF_X8R8G8B8)); reflexivity.
    + rewrite Hsx. reflexivity.
  - (* the source is padded, so the destination is the format without a
       codec *)
    apply andb_prop in Es as [Es Hal].
    assert (Had : isAccessible (mFormat dst) = false).
    { destruct Hacc as [H | H]; [|exact H].
      apply orb_prop in Es as [E | E]; apply bool_decide_eq_true_1 in E;
        rewrite E in H; discriminate H. }
    apply bulk_direct_fails;
      cbn [mFormat mLeft mRight mTop mBottom mFront mBack PixelData_new
           setExternalBuffer].
    + apply extent_of_new, Hx.
    + apply extent_of_new, Hy.
    + apply extent_of_new, Hz.
    + intros E.
      destruct (bool_decide (mFormat src = PF_X8R8G8B8));
        rewrite <- E in Had; discriminate Had.
    + right. exact Had.
    + exact Ed.
    + destruct (bool_decide (mFormat src = PF_X8R8G8B8)); reflexivity.
Qed.

Lemma bulkPixelConversion_inaccessible_witness :
  heap (snd (bulkPixelConversion (buffer_at 0 2 1 1 PF_D32)
                                 (buffer_at 1 2 1 1 PF_A8R8G8B8)
                                 two_blocks))
  = heap two_blocks /\
  (fst (bulkPixelConversion (buffer_at 0 2 1 1 PF_D32)
                            (buffer_at 1 2 1 1 PF_A8R8G8B8) two_blocks)
   = Abort \/
   fst (bulkPixelConversion (buffer_at 0 2 1 1 PF_D32)
                            (buffer_at 1 2 1 1 PF_A8R8G8B8) two_blocks)
   = Throw NotImplementedException).
Proof.
  apply (bulkPixelConversion_inaccessible
           (buffer_at 0 2 1 1 PF_D32) (buffer_at 1 2 1 1 PF_A8R8G8B8)
           two_blocks).
  - unfold nonempty_region. cbn. lia.
  - discriminate.
  - left. reflexivity.
Defined.

(** X13.  [bulkPixelConversion] calls itself at most once in a row: a run
    whose self-calls may nest two deep is the run with any larger bound,
    so the recursion always ends. *)
Theorem bulkPixelConversion_nesting (n : nat) (src dst : PixelData) :
  bulkPixelConversion_rec (2 + n) src dst = bulkPixelConversion src dst.
Proof.
  unfold bulkPixelConversion.
  rewrite (bulkPixelConversion_fuel n), (bulkPixelConversion_fuel 1).
  reflexivity.
Qed.

(** ** The kernels [scale] chooses *)

(** [scale] with its two inner switches resolved, in the form the proofs
    below use. *)
Lemma scale_kernels (src scaled : PixelData) (filter : Filter)
    (s : state) :
  scale src scaled filter s
  = (assert (isAccessible (mFormat src)) ;;;
     assert (isAccessible (mFormat scaled)) ;;;
     match filter with
     | FILTER_NEAREST =>
         let* temp := scaleTarget src scaled in
         NearestResampler_scale (getNumElemBytes (mFormat src)) src temp ;;;
         scaleFinish temp scaled
     | FILTER_BILINEAR =>
         if byteKernelFormat (mFormat src) then
           let* temp := scaleTarget src scaled in
           LinearResampler_Byte_scale (getNumElemBytes (mFormat src))
                                      src temp ;;;
           scaleFinish temp scaled
         else if (bool_decide (mFormat src = PF_FLOAT32_RGB)
                  || bool_decide (mFormat src = PF_FLOAT32_RGBA))
                 && (bool_decide (mFormat scaled = PF_FLOAT32_RGB)
                     || bool_decide (mFormat scaled = PF_FLOAT32_RGBA))
         then LinearResampler_Float32_scale src scaled
         else LinearResampler_scale src scaled
     end) s.
Proof.
  unfold scale. unfold bind at 1. unfold bind at 3.
  destruct (isAccessible (mFormat src)) eqn:Hacc; [|reflexivity].
  cbn [assert ret].
  unfold bind at 1. unfold bind at 3.
  destruct (isAccessible (mFormat scaled)); [|reflexivity].
  cbn [assert ret].
  destruct filter, (mFormat src); try discriminate Hacc; reflexivity.
Qed.

(** X14.  The two [assert(false)] of [scale] are never reached: after its
    two assertions on the formats, [scale] runs the nearest kernel
    instantiated at the pixel size of the source for the nearest filter;
    for the bilinear filter it runs the byte kernel instantiated at that
    size for the nine formats it lists, the float kernel between the two
    formats of three or four floats, and the generic kernel otherwise. *)
Theorem scale_dispatch (src scaled : PixelData) (filter : Filter)
    (s : state) :
  scale src scaled filter s
  = (assert (isAccessible (mFormat src)) ;;;
     assert (isAccessible (mFormat scaled)) ;;;
     match filter with
     | FILTER_NEAREST =>
         let* temp := scaleTarget src scaled in
         NearestResampler_scale (getNumElemBytes (mFormat src)) src temp ;;;
         scaleFinish temp scaled
     | FILTER_BILINEAR =>
         if byteKernelFormat (mFormat src) then
           let* temp := scaleTarget src scaled in
           LinearResampler_Byte_scale (getNumElemBytes (mFormat src))
                                      src temp ;;;
           scaleFinish temp scaled
         else if (bool_decide (mFormat src = PF_FLOAT32_RGB)
                  || bool_decide (mFormat src = PF_FLOAT32_RGBA))
                 && (bool_decide (mFormat scaled = PF_FLOAT32_RGB)
                     || bool_decide (mFormat scaled = PF_FLOAT32_RGBA))
         then LinearResampler_Float32_scale src scaled
         else LinearResampler_scale src scaled
     end) s.
Proof.
  unfold scale. unfold bind at 1. unfold bind at 3.
  destruct (isAccessible (mFormat src)) eqn:Hacc; [|reflexivity].
  cbn [assert ret].
  unfold bind at 1. unfold bind at 3.
  destruct (isAccessible (mFormat scaled)); [|reflexivity].
  cbn [assert ret].
  destruct filter, (mFormat src); try discriminate Hacc; reflexivity.
Qed.

(** ** An empty destination *)

Lemma fixedStep_zero (srcExtent : Z) : fixedStep srcExtent 0 = None.
Proof. reflexivity. Qed.

Lemma nearest_empty (n : Z) (source dest : PixelData) (s : state) :
  getWidth dest = 0 \/ getHeight dest = 0 ->
  NearestResampler_scale n source dest s = (Abort, s).
Proof.
  intros [H | H]; unfold NearestResampler_scale; cbv zeta;
    rewrite H, fixedStep_zero; [reflexivity|].
  unfold bind at 1. destruct (fixedStep _ _); reflexivity.
Qed.

Lemma linear_empty (source dest : PixelData) (s : state) :
  getWidth dest = 0 \/ getHeight dest = 0 ->
  LinearResampler_scale source dest s = (Abort, s).
Proof.
  intros [H | H]; unfold LinearResampler_scale; cbv zeta;
    rewrite H, fixedStep_zero; [reflexivity|].
  unfold bind at 1. destruct (fixedStep _ _); reflexivity.
Qed.

Lemma float32_empty (source dest : PixelData) (s : state) :
  getWidth dest = 0 \/ getHeight dest = 0 ->
  LinearResampler_Float32_scale source dest s = (Abort, s).
Proof.
  intros [H | H]; unfold LinearResampler_Float32_scale; cbv zeta;
    rewrite H, fixedStep_zero; [reflexivity|].
  unfold bind at 1. destruct (fixedStep _ _); reflexivity.
Qed.

Lemma byte_empty (n : Z) (source dest : PixelData) (s : state) :
  getWidth dest = 0 \/ getHeight dest = 0 ->
  LinearResampler_Byte_scale n source dest s = (Abort, s).
Proof.
  intros H. unfold LinearResampler_Byte_scale.
  destruct ((getDepth source >? 1) || (getDepth dest >? 1));
    [apply linear_empty, H|].
  destruct H as [H | H]; cbv zeta; rewrite H, fixedStep_zero; [reflexivity|].
  unfold bind at 1. destruct (fixedStep _ _); reflexivity.
Qed.

Lemma getMemorySize_returns (w h d : Z) (f : PixelFormat) :
  exists n, getMemorySize w h d f = Ret n.
Proof.
  unfold getMemorySize. destruct (isCompressed f) eqn:Hc; [|eexists; reflexivity].
  destruct f; try discriminate Hc; eexists; reflexivity.
Qed.

Lemma u32_idem (a : Z) : u32 (u32 a) = u32 a.
Proof. unfold u32. apply Z.mod_mod. lia. Qed.

Lemma scaleTarget_returns (src scaled : PixelData) (s : state) :
  exists temp s1,
    scaleTarget src scaled s = (Ret temp, s1) /\
    getWidth temp = getWidth scaled /\ getHeight temp = getHeight scaled /\
    getDepth temp = getDepth scaled.
Proof.
  unfold scaleTarget.
  destruct (bool_decide (mFormat src = mFormat scaled)).
  - exists scaled, s. repeat split.
  - unfold allocateInternalBuffer, getConsecutiveSize.
    destruct (getMemorySize_returns
                (getWidth (PixelData_new (getWidth scaled) (getHeight scaled)
                             (getDepth scaled) (mFormat src)))
                (getHeight (PixelData_new (getWidth scaled) (getHeight scaled)
                              (getDepth scaled) (mFormat src)))
                (getDepth (PixelData_new (getWidth scaled) (getHeight scaled)
                             (getDepth scaled) (mFormat src)))
                (mFormat (PixelData_new (getWidth scaled) (getHeight scaled)
                            (getDepth scaled) (mFormat src))))
      as (n & Hn).
    unfold bind, run_pure. rewrite Hn. cbn [alloc ret].
    eexists _, _. split; [reflexivity|].
    unfold getWidth, getHeight, getDepth.
    cbn [mLeft mRight mTop mBottom mFront mBack PixelData_new
         setExternalBuffer].
    rewrite !Z.sub_0_r. repeat split; apply u32_idem.
Qed.

(** X15.  A destination of zero width or zero height is not an empty job
    but a division by zero: each of the four kernels stops there, before
    any access to memory, and so [scale] never returns, whatever the
    formats and the filter. *)
Theorem scale_empty_destination (src scaled : PixelData) (filter : Filter)
    (n : Z) (s : state) :
  getWidth scaled = 0 \/ getHeight scaled = 0 ->
  NearestResampler_scale n src scaled s = (Abort, s) /\
  LinearResampler_scale src scaled s = (Abort, s) /\
  LinearResampler_Float32_scale src scaled s = (Abort, s) /\
  LinearResampler_Byte_scale n src scaled s = (Abort, s) /\
  fst (scale src scaled filter s) = Abort.
Proof.
  intros H.
  split; [apply nearest_empty, H|].
  split; [apply linear_empty, H|].
  split; [apply float32_empty, H|].
  split; [apply byte_empty, H|].
  rewrite scale_kernels. unfold bind at 1.
  destruct (isAccessible (mFormat src)); [|reflexivity]. cbn [assert ret].
  unfold bind at 1.
  destruct (isAccessible (mFormat scaled)); [|reflexivity]. cbn [assert ret].
  destruct (scaleTarget_returns src scaled s)
    as (temp & s1 & Ht & Hw & Hh & _).
  assert (Htemp : getWidth temp = 0 \/ getHeight temp = 0)
    by (rewrite Hw, Hh; exact H).
  destruct filter.
  - unfold bind at 1. rewrite Ht. unfold bind at 1.
    rewrite (nearest_empty _ _ _ _ Htemp). reflexivity.
  - destruct (byteKernelFormat (mFormat src)).
    + unfold bind at 1. rewrite Ht. unfold bind at 1.
      rewrite (byte_empty _ _ _ _ Htemp). reflexivity.
    + destruct ((bool_decide (mFormat src = PF_FLOAT32_RGB)
                 || bool_decide (mFormat src = PF_FLOAT32_RGBA))
                && (bool_decide (mFormat scaled = PF_FLOAT32_RGB)
                    || bool_decide (mFormat scaled = PF_FLOAT32_RGBA))).
      * rewrite (float32_empty _ _ _ H). reflexivity.
      * rewrite (linear_empty _ _ _ H). reflexivity.
Qed.

Lemma scale_empty_destination_witness :
  NearestResampler_scale 1 (buffer_at 0 2 2 1 PF_R8) (buffer_at 1 0 2 1 PF_R8)
                         two_blocks = (Abort, two_blocks) /\
  LinearResampler_scale (buffer_at 0 2 2 1 PF_R8) (buffer_at 1 0 2 1 PF_R8)
                        two_blocks = (Abort, two_blocks) /\
  LinearResampler_Float32_scale (buffer_at 0 2 2 1 PF_R8)
                                (buffer_at 1 0 2 1 PF_R8) two_blocks
  = (Abort, two_blocks) /\
  LinearResampler_Byte_scale 1 (buffer_at 0 2 2 1 PF_R8)
                             (buffer_at 1 0 2 1 PF_R8) two_blocks
  = (Abort, two_blocks) /\
  fst (scale (buffer_at 0 2 2 1 PF_R8) (buffer_at 1 0 2 1 PF_R8)
             FILTER_NEAREST two_blocks) = Abort.
Proof.
  apply (scale_empty_destination (buffer_at 0 2 2 1 PF_R8)
           (buffer_at 1 0 2 1 PF_R8) FILTER_NEAREST 1 two_blocks).
  left. reflexivity.
Defined.

(** ** The pixels [applyGamma] needs *)

Lemma loop_reaches {S} (R : state -> state -> Prop) (I : nat -> S -> Prop)
    (body : S -> M S) :
  (forall s, R s s) ->
  (forall s1 s2 s3, R s1 s2 -> R s2 s3 -> R s1 s3) ->
  (forall x, keeps R (body x)) ->
  (forall k x s y s', I k x -> body x s = (Ret y, s') ->
                      I (Datatypes.S k) y) ->
  forall n k x s y s',
    I k x -> loop (Datatypes.S n) body x s = (Ret y, s') ->
    exists xn sn, I (k + n)%nat xn /\ R s sn /\ body xn sn = (Ret y, s').
Proof.
  intros Hrefl Htrans Hkeeps Hinv.
  induction n as [|n IH]; intros k x s y s' Hx Hrun.
  - exists x, s. rewrite Nat.add_0_r. split; [exact Hx|].
    split; [apply Hrefl|].
    cbn [loop] in Hrun. unfold bind in Hrun.
    destruct (body x s) as [[z | e |] s1]; try discriminate Hrun.
    exact Hrun.
  - change (loop (Datatypes.S (Datatypes.S n)) body x)
      with (bind (body x) (loop (Datatypes.S n) body)) in Hrun.
    unfold bind at 1 in Hrun. pose proof (Hkeeps x s) as Hstep.
    destruct (body x s) as [[z | e |] s1] eqn:E; try discriminate Hrun.
    cbn [snd] in Hstep.
    destruct (IH (Datatypes.S k) z s1 y s' (Hinv k x s z s1 Hx E) Hrun)
      as (xn & sn & Hxn & Hr & Hb).
    exists xn, sn. replace (k + Datatypes.S n)%nat
      with (Datatypes.S k + n)%nat by lia.
    split; [exact Hxn|]. split; [exact (Htrans _ _ _ Hstep Hr) | exact Hb].
Qed.

Lemma load_ret_inv (p : ptr) (n : Z) (s s' : state) (bs : list Z) :
  load p n s = (Ret bs, s') ->
  exists b l, pblock p = Some b /\ heap s !! b = Some l /\
              0 <= poff p /\ poff p + n <= Z.of_nat (length l).
Proof.
  unfold load. destruct (pblock p) as [b|] eqn:Eb; [|discriminate].
  destruct (heap s !! b) as [l|] eqn:El; [|discriminate].
  unfold slice.
  destruct ((0 <=? poff p) && (0 <=? n)
            && (poff p + n <=? Z.of_nat (length l))) eqn:E; [|discriminate].
  intros _. apply andb_prop in E as (E & E2). apply andb_prop in E as (E0 & _).
  apply Z.leb_le in E0. apply Z.leb_le in E2.
  exists b, l. split; [reflexivity|]. split; [exact El|].
  split; assumption.
Qed.

Lemma same_sizes_heap_stable {A} (c : M A) :
  heap_stable c -> keeps same_sizes c.
Proof. intros H s b. rewrite (H s). reflexivity. Qed.

Lemma same_sizes_store (p : ptr) (bs : list Z) : keeps same_sizes (store p bs).
Proof. intros s. apply store_frame. Qed.

Lemma gamma_step_sizes (gamma : spec_float) (stride : Z) (p : ptr) :
  keeps same_sizes
    (let* r0 := loadU8 p 0 in
     let* g0 := loadU8 p 1 in
     let* b0 := loadU8 p 2 in
     let '(r, g, b) := gammaPixel gamma r0 g0 b0 in
     let* r8 := lift (F32.to_unsigned 8 r) in
     storeU8 p 0 r8 ;;;
     let* g8 := lift (F32.to_unsigned 8 g) in
     storeU8 p 1 g8 ;;;
     let* b8 := lift (F32.to_unsigned 8 b) in
     storeU8 p 2 b8 ;;;
     ret (ptr_add p stride)).
Proof.
  repeat (apply (keeps_bind _ same_sizes_trans);
          [apply same_sizes_heap_stable, heap_stable_loadU8 | intros ? _ _ _]).
  destruct (gammaPixel gamma _ _ _) as [[r g] b].
  repeat (apply (keeps_lift _ same_sizes_refl); intros ? _;
          apply (keeps_bind _ same_sizes_trans);
          [apply same_sizes_store | intros _ _ _ _]).
  apply (keeps_ret _ same_sizes_refl).
Qed.

(** X16.  When [applyGamma], with a gamma other than 1, returns, the pixel
    stride [bpp >> 3] is not zero, and if there is at least one pixel the
    allocation extends three bytes beyond the start of the last pixel:
    the three channel bytes are read and written whatever the stride, so
    pixels of one or two bytes make the call run into the bytes that
    follow. *)
Theorem applyGamma_three_bytes (buffer : ptr) (gamma : spec_float)
    (size bpp : Z) (s : state) :
  F32.eqb gamma F32.one = false ->
  fst (applyGamma buffer gamma size bpp s) = Ret tt ->
  Z.shiftr bpp 3 <> 0 /\
  (1 <= size / Z.shiftr bpp 3 ->
   exists b l,
     pblock buffer = Some b /\ heap s !! b = Some l /\
     poff buffer + (size / Z.shiftr bpp 3 - 1) * Z.shiftr bpp 3 + 3
     <= Z.of_nat (length l)).
Proof.
  intros Hg Hret. unfold applyGamma in Hret. rewrite Hg in Hret.
  cbv zeta in Hret. set (stride := Z.shiftr bpp 3) in *.
  unfold udiv in Hret.
  destruct (Z.eqb_spec stride 0) as [E0 | Hne]; [discriminate Hret|].
  split; [exact Hne|]. intros Hj.
  cbn [lift] in Hret. unfold bind at 1 in Hret. cbn [ret] in Hret.
  unfold bind at 1 in Hret.
  match type of Hret with
  | context [loop ?n ?body ?x s] =>
      destruct (loop n body x s) as [[y | e |] s'] eqn:Hloop;
      try discriminate Hret;
      set (step := body) in *
  end.
  clear Hret.
  set (j := size / stride) in *.
  assert (Hn : Z.to_nat j = Datatypes.S (Z.to_nat (j - 1))) by lia.
  rewrite Hn in Hloop.
  destruct (loop_reaches same_sizes
              (fun k p => p = ptr_add buffer (Z.of_nat k * stride)) step
              same_sizes_refl same_sizes_trans) with
      (n := Z.to_nat (j - 1)) (k := 0%nat) (x := buffer) (s := s)
      (y := y) (s' := s')
    as (p & sn & Hp & Hsz & Hrun).
  - intros x. apply gamma_step_sizes.
  - intros k x s0 y0 s0' -> E. unfold step in E.
    repeat first
      [ let a := fresh "a" in apply bind_ret_inv in E as (a & ? & _ & E)
      | match type of E with
        | context [gammaPixel ?g ?x ?y ?z] =>
            destruct (gammaPixel g x y z) as [[? ?] ?]
        end ].
    inversion E. unfold ptr_add. cbn [pblock poff]. f_equal. lia.
  - unfold ptr_add. destruct buffer as [pb po]. cbn [pblock poff].
    f_equal. lia.
  - exact Hloop.
  - subst p. cbn [Nat.add] in Hrun. unfold step in Hrun.
    apply bind_ret_inv in Hrun as (r0 & s1 & H1 & Hrun).
    apply bind_ret_inv in Hrun as (g0 & s2 & H2 & Hrun).
    apply bind_ret_inv in Hrun as (b0 & s3 & H3 & _).
    match type of H1 with
    | loadU8 ?q 0 sn = _ =>
        pose proof (heap_stable_loadU8 q 0 sn) as Hh1;
        pose proof (heap_stable_loadU8 q 1 s1) as Hh2
    end.
    rewrite H1 in Hh1. rewrite H2 in Hh2.
    cbn [snd] in Hh1, Hh2.
    unfold loadU8 in H3.
    apply bind_ret_inv in H3 as (bs & s4 & H3 & _).
    apply load_ret_inv in H3 as (b & l & Hb & Hl & _ & Hlen).
    cbn [pblock poff ptr_add] in Hb, Hlen.
    rewrite Hh2, Hh1 in Hl.
    pose proof (Hsz b) as Hsb. rewrite Hl in Hsb. cbn in Hsb.
    destruct (heap s !! b) as [l0|] eqn:El0; [|discriminate Hsb].
    cbn in Hsb. injection Hsb as Hsb.
    exists b, l0. split; [exact Hb|]. split; [exact El0|].
    rewrite <- Hsb. rewrite Z2Nat.id in Hlen by lia. lia.
Qed.

Lemma applyGamma_three_bytes_witness :
  Z.shiftr 16 3 <> 0 /\
  (1 <= 5 / Z.shiftr 16 3 ->
   exists b l,
     pblock block_start = Some b /\ heap five_bytes !! b = Some l /\
     poff block_start + (5 / Z.shiftr 16 3 - 1) * Z.shiftr 16 3 + 3
     <= Z.of_nat (length l)).
Proof.
  apply (applyGamma_three_bytes block_start (F32.of_Z 2) 5 16 five_bytes).
  - reflexivity.
  - vm_compute. reflexivity.
Defined.

(** ** The weights of the byte kernel *)

(** The weights of one destination pixel of the byte kernel. *)
Lemma byteWeights_sum (wx wy : Z) :
  0 <= wx < 4096 -> 0 <= wy < 4096 ->
  let '(w11, w21, w12, w22) := byteWeights wx wy in
  (0 <= w11 /\ 0 <= w21 /\ 0 <= w12 /\ 0 <= w22) /\
  w11 + w21 + w12 + w22 = 2 ^ 24.
Proof.
  intros Hx Hy. unfold byteWeights. cbv zeta.
  rewrite !Z.shiftl_mul_pow2 by lia. change (2 ^ 12) with 4096.
  change 0x1000000 with 16777216.
  set (p := wx * wy).
  assert (Hp : 0 <= p <= 4095 * 4095) by (unfold p; nia).
  assert (Hpx : p <= wx * 4095) by (unfold p; nia).
  assert (Hpy : p <= wy * 4095) by (unfold p; nia).
  assert (Hq : 0 <= (4096 - wx) * (4096 - wy)) by nia.
  assert (Hq' : (4096 - wx) * (4096 - wy)
                = 16777216 - wx * 4096 - wy * 4096 + p) by (unfold p; ring).
  assert (Ep : u32 p = p) by (apply u32_small; lia).
  assert (Ex : u32 (wx * 4096) = wx * 4096) by (apply u32_small; lia).
  assert (Ey : u32 (wy * 4096) = wy * 4096) by (apply u32_small; lia).
  rewrite Ep, Ex, Ey.
  rewrite (u32_small (16777216 - wx * 4096)) by lia.
  assert (E11 : u32 (u32 (16777216 - wx * 4096 - wy * 4096) + p)
                = 16777216 - wx * 4096 - wy * 4096 + p).
  { unfold u32. rewrite Zplus_mod_idemp_l. apply Z.mod_small. lia. }
  rewrite E11.
  rewrite (u32_small (wx * 4096 - p)) by lia.
  rewrite (u32_small (wy * 4096 - p)) by lia.
  change (2 ^ 24) with 16777216. lia.
Qed.

(** The rounded sum of four bytes under weights that add up to 2^24. *)
Lemma blend_between (s11 s21 s12 s22 w11 w21 w12 w22 : Z) :
  is_byte s11 -> is_byte s21 -> is_byte s12 -> is_byte s22 ->
  0 <= w11 -> 0 <= w21 -> 0 <= w12 -> 0 <= w22 ->
  w11 + w21 + w12 + w22 = 2 ^ 24 ->
  Z.min (Z.min s11 s21) (Z.min s12 s22)
  <= roundToByte (u32 (u32 (u32 (u32 (s11 * w11) + u32 (s21 * w21))
                           + u32 (s12 * w12)) + u32 (s22 * w22)))
  <= Z.max (Z.max s11 s21) (Z.max s12 s22).
Proof.
  unfold is_byte. intros H11 H21 H12 H22 N1 N2 N3 N4 Hsum.
  change (2 ^ 24) with 16777216 in Hsum.
  set (lo := Z.min (Z.min s11 s21) (Z.min s12 s22)).
  set (hi := Z.max (Z.max s11 s21) (Z.max s12 s22)).
  assert (Hlo : 0 <= lo /\ lo <= s11 /\ lo <= s21 /\ lo <= s12 /\ lo <= s22)
    by (unfold lo; lia).
  assert (Hhi : hi <= 255 /\ s11 <= hi /\ s21 <= hi /\ s12 <= hi /\ s22 <= hi)
    by (unfold hi; lia).
  clearbody lo hi.
  assert (B11 : lo * w11 <= s11 * w11 <= hi * w11) by nia.
  assert (B21 : lo * w21 <= s21 * w21 <= hi * w21) by nia.
  assert (B12 : lo * w12 <= s12 * w12 <= hi * w12) by nia.
  assert (B22 : lo * w22 <= s22 * w22 <= hi * w22) by nia.
  assert (Elo : lo * w11 + lo * w21 + lo * w12 + lo * w22 = lo * 16777216)
    by (rewrite <- Hsum; ring).
  assert (Ehi : hi * w11 + hi * w21 + hi * w12 + hi * w22 = hi * 16777216)
    by (rewrite <- Hsum; ring).
  assert (L11 : 0 <= lo * w11) by nia. assert (L21 : 0 <= lo * w21) by nia.
  assert (L12 : 0 <= lo * w12) by nia. assert (L22 : 0 <= lo * w22) by nia.
  assert (M11 : 0 <= hi * w11) by nia. assert (M21 : 0 <= hi * w21) by nia.
  assert (M12 : 0 <= hi * w12) by nia. assert (M22 : 0 <= hi * w22) by nia.
  rewrite (u32_small (s11 * w11)) by lia.
  rewrite (u32_small (s21 * w21)) by lia.
  rewrite (u32_small (s12 * w12)) by lia.
  rewrite (u32_small (s22 * w22)) by lia.
  rewrite (u32_small (s11 * w11 + s21 * w21)) by lia.
  rewrite (u32_small (s11 * w11 + s21 * w21 + s12 * w12)) by lia.
  rewrite (u32_small (s11 * w11 + s21 * w21 + s12 * w12 + s22 * w22)) by lia.
  unfold roundToByte.
  rewrite (u32_small (_ + 0x800000)) by lia.
  rewrite Z.shiftr_div_pow2 by lia. change (2 ^ 24) with 16777216.
  set (acc := s11 * w11 + s21 * w21 + s12 * w12 + s22 * w22) in *.
  assert (Hacc : lo * 16777216 <= acc <= hi * 16777216) by lia.
  assert (Hq1 : lo <= (acc + 0x800000) / 16777216)
    by (apply Z.div_le_lower_bound; lia).
  assert (Hq2 : (acc + 0x800000) / 16777216 <= hi).
  { assert ((acc + 0x800000) / 16777216 < hi + 1); [|lia].
    apply Z.div_lt_upper_bound; lia. }
  unfold u8. rewrite Z.mod_small by (change (2 ^ 8) with 256; lia). lia.
Qed.

(** X17.  For fractional parts of 12 bits, the four weights of the byte
    kernel are not negative and add up to 2^24 without overflow, and the
    byte it rounds the weighted sum of four samples to lies between the
    smallest and the largest of the samples: the bilinear blend of bytes
    never overshoots, and a constant neighbourhood gives that constant. *)
Theorem byte_blend_between (s11 s21 s12 s22 wx wy : Z) :
  is_byte s11 -> is_byte s21 -> is_byte s12 -> is_byte s22 ->
  0 <= wx < 4096 -> 0 <= wy < 4096 ->
  let '(w11, w21, w12, w22) := byteWeights wx wy in
  (0 <= w11 /\ 0 <= w21 /\ 0 <= w12 /\ 0 <= w22) /\
  w11 + w21 + w12 + w22 = 2 ^ 24 /\
  Z.min (Z.min s11 s21) (Z.min s12 s22)
  <= roundToByte (u32 (u32 (u32 (u32 (s11 * w11) + u32 (s21 * w21))
                           + u32 (s12 * w12)) + u32 (s22 * w22)))
  <= Z.max (Z.max s11 s21) (Z.max s12 s22).
Proof.
  intros H11 H21 H12 H22 Hx Hy.
  pose proof (byteWeights_sum wx wy Hx Hy) as Hw.
  destruct (byteWeights wx wy) as [[[w11 w21] w12] w22].
  destruct Hw as ((N1 & N2 & N3 & N4) & Hsum).
  split; [auto|]. split; [exact Hsum|].
  apply blend_between; assumption.
Qed.

Lemma byte_blend_between_witness :
  let '(w11, w21, w12, w22) := byteWeights 1024 2048 in
  (0 <= w11 /\ 0 <= w21 /\ 0 <= w12 /\ 0 <= w22) /\
  w11 + w21 + w12 + w22 = 2 ^ 24 /\
  Z.min (Z.min 10 200) (Z.min 30 40)
  <= roundToByte (u32 (u32 (u32 (u32 (10 * w11) + u32 (200 * w21))
                           + u32 (30 * w12)) + u32 (40 * w22)))
  <= Z.max (Z.max 10 200) (Z.max 30 40).
Proof.
  apply (byte_blend_between 10 200 30 40 1024 2048);
    unfold is_byte; lia.
Defined.

(** ** Nearest sampling by a whole factor *)

Lemma shift48 (w : Z) : 0 <= w < 2 ^ 16 -> u64 (Z.shiftl w 48) = w * 2 ^ 48.
Proof.
  intros Hw. unfold u64. rewrite Z.shiftl_mul_pow2 by lia.
  apply Z.mod_small. change (2 ^ 64) with (2 ^ 16 * 2 ^ 48). nia.
Qed.

(** Enlarging [w] pixels to [m * w]: the step is [2^48 / m], and the
    position of the destination pixel [k] falls in the source pixel
    [k / m]. *)
Lemma enlarge_coord (w m : Z) :
  1 <= w -> 1 <= m -> m * w < 2 ^ 16 ->
  exists step,
    fixedStep w (m * w) = Some step /\
    forall k : nat,
      Z.of_nat k < m * w ->
      nearestCoord (coordAt step k) = Z.of_nat k / m.
Proof.
  intros Hw Hm Hmw.
  assert (Hw16 : w < 2 ^ 16) by nia.
  assert (Hm16 : m < 2 ^ 16) by nia.
  set (q := 2 ^ 48 / m).
  assert (Hq : fixedStep w (m * w) = Some q).
  { unfold fixedStep, udiv.
    destruct (Z.eqb_spec (m * w) 0) as [E|_]; [nia|].
    rewrite shift48 by lia. f_equal.
    rewrite (Z.mul_comm m w). rewrite Z.div_mul_cancel_l by lia.
    reflexivity. }
  exists q. split; [exact Hq|]. intros k Hk.
  pose proof (Z.div_mod (2 ^ 48) m ltac:(lia)) as Hdm. fold q in Hdm.
  pose proof (Z.mod_pos_bound (2 ^ 48) m ltac:(lia)) as Hr.
  set (r := 2 ^ 48 mod m) in *.
  assert (Hq32 : 2 ^ 32 <= q).
  { unfold q. apply Z.div_le_lower_bound; [lia|].
    change (2 ^ 48) with (2 ^ 16 * 2 ^ 32). nia. }
  assert (Hq48 : q <= 2 ^ 48)
    by (unfold q; apply Z.div_le_upper_bound; [lia|nia]).
  rewrite coordAt_closed; [|lia|].
  2:{ change (2 ^ 64) with (2 ^ 16 * 2 ^ 48). nia. }
  pose proof (Z.div_mod (Z.of_nat k) m ltac:(lia)) as Hkm.
  pose proof (Z.mod_pos_bound (Z.of_nat k) m ltac:(lia)) as Hb.
  set (a := Z.of_nat k / m) in *. set (b := Z.of_nat k mod m) in *.
  assert (Ha : 0 <= a) by (unfold a; apply Z.div_pos; lia).
  assert (Hh : 2 ^ 31 <= q / 2 <= q).
  { split; [apply Z.div_le_lower_bound; lia
           |apply Z.div_le_upper_bound; lia]. }
  assert (Hpos : q / 2 - 1 + Z.of_nat k * q
                 = a * 2 ^ 48 + (b * q + q / 2 - 1 - a * r)).
  { rewrite Hkm at 1. replace (2 ^ 48) with (m * q + r) by lia. ring. }
  assert (Hrem : 0 <= b * q + q / 2 - 1 - a * r < 2 ^ 48).
  { assert (a * r <= a * m) by nia.
    assert (a * m <= Z.of_nat k) by nia.
    assert (0 <= b * q) by nia.
    assert (b * q <= (m - 1) * q) by nia.
    assert (m * q <= 2 ^ 48) by lia.
    assert (0 <= a * r) by nia.
    split; [lia|]. nia. }
  unfold nearestCoord. rewrite Z.shiftr_div_pow2 by lia.
  rewrite Hpos. rewrite Z.add_comm, Z.div_add by lia.
  rewrite (Z.div_small _ _ Hrem). cbn [Z.add].
  apply u32_small. nia.
Qed.

(** Reducing [m * w] pixels to [w]: the step is [m] pixels, and the
    position of the destination pixel [k] falls in the source pixel
    [k * m + (m - 1) / 2]. *)
Lemma reduce_coord (w m : Z) :
  1 <= w -> 1 <= m -> m * w < 2 ^ 16 ->
  exists step,
    fixedStep (m * w) w = Some step /\
    forall k : nat,
      Z.of_nat k < w ->
      nearestCoord (coordAt step k) = Z.of_nat k * m + (m - 1) / 2.
Proof.
  intros Hw Hm Hmw.
  assert (Hw16 : w < 2 ^ 16) by nia.
  assert (Hm16 : m < 2 ^ 16) by nia.
  set (q := m * 2 ^ 48).
  assert (Hq : fixedStep (m * w) w = Some q).
  { unfold fixedStep, udiv.
    destruct (Z.eqb_spec w 0) as [E|_]; [lia|].
    rewrite shift48 by nia. f_equal.
    replace (m * w * 2 ^ 48) with (q * w) by (unfold q; ring).
    apply Z.div_mul. lia. }
  exists q. split; [exact Hq|]. intros k Hk.
  rewrite coordAt_closed; [|unfold q; lia|].
  2:{ unfold q. change (2 ^ 64) with (2 ^ 16 * 2 ^ 48). nia. }
  assert (Hhalf : q / 2 = m * 2 ^ 47).
  { unfold q. change (2 ^ 48) with (2 ^ 47 * 2).
    rewrite Z.mul_assoc. apply Z.div_mul. lia. }
  rewrite Hhalf.
  pose proof (Z.div_mod (m - 1) 2 ltac:(lia)) as Hc.
  pose proof (Z.mod_pos_bound (m - 1) 2 ltac:(lia)) as Hd.
  set (c := (m - 1) / 2) in *. set (d := (m - 1) mod 2) in *.
  assert (Hc0 : 0 <= c) by (unfold c; apply Z.div_pos; lia).
  assert (Hpos : m * 2 ^ 47 - 1 + Z.of_nat k * q
                 = (Z.of_nat k * m + c) * 2 ^ 48
                   + ((d + 1) * 2 ^ 47 - 1)).
  { unfold q. change (2 ^ 48) with (2 * 2 ^ 47).
    generalize (2 ^ 47). intros T.
    replace (m * T) with ((2 * c + d + 1) * T) by (f_equal; lia).
    ring. }
  unfold nearestCoord. rewrite Z.shiftr_div_pow2 by lia.
  rewrite Hpos. rewrite Z.add_comm, Z.div_add by lia.
  rewrite Z.div_small by lia. cbn [Z.add].
  apply u32_small. nia.
Qed.

(** X18.  The nearest kernel by a whole factor [m], for extents below
    2^16: enlarging [w] pixels to [m * w], the destination pixel [k] takes
    the source pixel [k / m], so that every source pixel is repeated [m]
    times; reducing [m * w] pixels to [w], the destination pixel [k] takes
    the source pixel [k * m + (m - 1) / 2], the middle one of its [m]
    source pixels (the lower middle for an even [m]). *)
Theorem nearest_whole_factor (w m : Z) :
  1 <= w -> 1 <= m -> m * w < 2 ^ 16 ->
  (exists step,
     fixedStep w (m * w) = Some step /\
     forall k : nat,
       Z.of_nat k < m * w ->
       nearestCoord (coordAt step k) = Z.of_nat k / m) /\
  (exists step,
     fixedStep (m * w) w = Some step /\
     forall k : nat,
       Z.of_nat k < w ->
       nearestCoord (coordAt step k) = Z.of_nat k * m + (m - 1) / 2).
Proof.
  intros Hw Hm Hmw. split.
  - exact (enlarge_coord w m Hw Hm Hmw).
  - exact (reduce_coord w m Hw Hm Hmw).
Qed.

Lemma nearest_whole_factor_witness :
  (exists step,
     fixedStep 3 (2 * 3) = Some step /\
     forall k : nat,
       Z.of_nat k < 2 * 3 ->
       nearestCoord (coordAt step k) = Z.of_nat k / 2) /\
  (exists step,
     fixedStep (2 * 3) 3 = Some step /\
     forall k : nat,
       Z.of_nat k < 3 ->
       nearestCoord (coordAt step k) = Z.of_nat k * 2 + (2 - 1) / 2).
Proof. apply (nearest_whole_factor 3 2); lia. Defined.

(** ** The allocation a conversion writes to *)

Lemma only_block_refl (d : option nat) (s : state) : only_block d s s.
Proof. split; [apply same_sizes_refl | reflexivity]. Qed.

Lemma only_block_trans (d : option nat) (s1 s2 s3 : state) :
  only_block d s1 s2 -> only_block d s2 s3 -> only_block d s1 s3.
Proof.
  intros (H1 & F1) (H2 & F2). split; [exact (same_sizes_trans _ _ _ H1 H2)|].
  intros b Hb. rewrite (F2 b Hb). apply F1, Hb.
Qed.

Lemma only_block_weaken (d : option nat) (s s' : state) :
  only_block None s s' -> only_block d s s'.
Proof.
  intros (H & F). split; [exact H|]. intros b _. apply F. discriminate.
Qed.

Lemma ob_stable (d : option nat) {A} (c : M A) :
  heap_stable c -> keeps (only_block d) c.
Proof.
  intros H s. split.
  - apply (same_sizes_heap_stable c H).
  - intros b _. rewrite (H s). reflexivity.
Qed.

Lemma ob_store (p : ptr) (bs : list Z) :
  keeps (only_block (pblock p)) (store p bs).
Proof.
  intros s. split; [apply same_sizes_store|].
  intros b Hb. unfold store.
  destruct (pblock p) as [b0|]; [|reflexivity].
  destruct (heap s !! b0) as [l|]; [|reflexivity].
  destruct (splice l (poff p) bs); [|reflexivity].
  cbn [snd heap]. apply lookup_insert_ne. congruence.
Qed.

Ltac bbind := apply (keeps_bind _ (only_block_trans _)).
Ltac blift := apply (keeps_lift _ (only_block_refl _)).
Ltac bret := apply (keeps_ret _ (only_block_refl _)).

Lemma ob_memcpy (dst src : ptr) (n : Z) :
  keeps (only_block (pblock dst)) (memcpy dst src n).
Proof.
  unfold memcpy. bbind; [apply ob_stable, heap_stable_load|].
  intros bs _ _ _. apply ob_store.
Qed.

Lemma ob_packColor (r g b a : spec_float) (f : PixelFormat) (p : ptr) :
  keeps (only_block (pblock p)) (packColor r g b a f p).
Proof.
  unfold packColor.
  bbind; [apply (keeps_run_pure _ (only_block_refl _))|].
  intros bs _ _ _. apply ob_store.
Qed.

Lemma heap_stable_loadFloat (p : ptr) (i : Z) : heap_stable (loadFloat p i).
Proof.
  unfold loadFloat. apply heap_stable_bind; [apply heap_stable_load|].
  intros bs. apply heap_stable_ret.
Qed.

Lemma heap_stable_unpackColor_Color (f : PixelFormat) (p : ptr) :
  heap_stable (unpackColor_Color f p).
Proof.
  unfold unpackColor_Color.
  apply heap_stable_bind; [apply heap_stable_unpackColor|].
  intros [[[r g] b] a]. apply heap_stable_ret.
Qed.

(** *** Walking pointers *)

Lemma walks_ret (d : option nat) {U} (u : U) (p : ptr) :
  pblock p = d -> walks d (ret (u, p)).
Proof.
  intros Hp. split; [bret|].
  intros s y s' E. inversion E. exact Hp.
Qed.

Lemma walks_bind (d : option nat) {A U} (c : M A) (k : A -> M (U * ptr)) :
  keeps (only_block d) c -> (forall a, walks d (k a)) -> walks d (bind c k).
Proof.
  intros Hc Hk. split.
  - bbind; [exact Hc|]. intros a _ _ _. apply Hk.
  - intros s y s' E. apply bind_ret_inv in E as (a & s1 & _ & E).
    exact (proj2 (Hk a) _ _ _ E).
Qed.

Lemma walks_lift (d : option nat) {A U} (o : option A)
    (k : A -> M (U * ptr)) :
  (forall a, walks d (k a)) -> walks d (bind (lift o) k).
Proof.
  intros Hk. apply walks_bind; [|exact Hk].
  destruct o; [bret | apply (keeps_abort _ (only_block_refl _))].
Qed.

Lemma walks_advance (d : option nat) {V U} (c : M (V * ptr))
    (k : V * ptr -> M (U * ptr)) :
  walks d c -> (forall v p, pblock p = d -> walks d (k (v, p))) ->
  walks d (bind c k).
Proof.
  intros (Hc & Hi) Hk. split.
  - bbind; [exact Hc|]. intros [v p] s s' E.
    apply Hk. exact (Hi _ _ _ E).
  - intros s y s' E. apply bind_ret_inv in E as ([v p] & s1 & E1 & E).
    exact (proj2 (Hk v p (Hi _ _ _ E1)) _ _ _ E).
Qed.

Lemma walks_loop (d : option nat) {U} (n : nat)
    (body : U * ptr -> M (U * ptr)) :
  (forall u p, pblock p = d -> walks d (body (u, p))) ->
  forall u p, pblock p = d -> walks d (loop n body (u, p)).
Proof.
  intros Hb. induction n as [|n IH]; intros u p Hp; cbn [loop].
  - apply walks_ret, Hp.
  - apply walks_advance; [apply Hb, Hp|]. intros v q Hq. apply IH, Hq.
Qed.

Lemma walks_keeps (d : option nat) {U} (c : M (U * ptr)) :
  walks d c -> keeps (only_block d) (c ;;; ret tt).
Proof.
  intros (Hc & _). bbind; [exact Hc|]. intros ? _ _ _. bret.
Qed.

Lemma nearest_block (n : Z) (source dest : PixelData) :
  keeps (only_block (mData dest)) (NearestResampler_scale n source dest).
Proof.
  unfold NearestResampler_scale. cbv zeta.
  blift. intros stepX _. blift. intros stepY _. blift. intros stepZ _.
  apply walks_keeps.
  apply walks_loop; [|reflexivity]. intros curZ pz Hz. cbv beta iota.
  apply walks_advance; [|intros ? q Hq; apply walks_ret, Hq].
  apply walks_loop; [|exact Hz]. intros curY py Hy. cbv beta iota.
  apply walks_advance; [|intros ? q Hq; apply walks_ret, Hq].
  apply walks_loop; [|exact Hy]. intros curX px Hx. cbv beta iota.
  apply walks_bind; [|intros _; apply walks_ret, Hx].
  rewrite <- Hx. apply ob_memcpy.
Qed.

Lemma copyRows_block (src dst : PixelData) :
  keeps (only_block (mData dst)) (copyRows src dst).
Proof.
  unfold copyRows. cbv zeta. apply walks_keeps.
  apply walks_loop; [|reflexivity]. intros sz pz Hz. cbv beta iota.
  apply walks_advance; [|intros ? q Hq; apply walks_ret, Hq].
  apply walks_loop; [|exact Hz]. intros sy py Hy. cbv beta iota.
  apply walks_bind; [|intros _; apply walks_ret, Hy].
  rewrite <- Hy. apply ob_memcpy.
Qed.

Lemma convertPixels_block (src dst : PixelData) :
  keeps (only_block (mData dst)) (convertPixels src dst).
Proof.
  unfold convertPixels. cbv zeta. apply walks_keeps.
  apply walks_loop; [|reflexivity]. intros sz pz Hz. cbv beta iota.
  apply walks_advance; [|intros ? q Hq; apply walks_ret, Hq].
  apply walks_loop; [|exact Hz]. intros sy py Hy. cbv beta iota.
  apply walks_advance; [|intros ? q Hq; apply walks_ret, Hq].
  apply walks_loop; [|exact Hy]. intros sx px Hx. cbv beta iota.
  apply walks_bind; [apply ob_stable, heap_stable_unpackColor|].
  intros [[[r g] b] a].
  apply walks_bind; [|intros _; apply walks_ret, Hx].
  rewrite <- Hx. apply ob_packColor.
Qed.

Lemma bulk_block (fuel : nat) :
  forall src dst : PixelData,
    keeps (only_block (mData dst)) (bulkPixelConversion_rec fuel src dst).
Proof.
  induction fuel as [|fuel IH]; intros src dst;
    cbn [bulkPixelConversion_rec];
    [apply (keeps_abort _ (only_block_refl _))|].
  bbind; [apply (keeps_assert _ (only_block_refl _))|]. intros _ _ _ _.
  assert (Hcopy : keeps (only_block (mData dst))
                    (let* n := run_pure (getConsecutiveSize src) in
                     memcpy (getData dst) (getData src) n)).
  { bbind; [apply (keeps_run_pure _ (only_block_refl _))|].
    intros n _ _ _. apply (ob_memcpy (getData dst)). }
  destruct (isCompressed (mFormat src) || isCompressed (mFormat dst)).
  { destruct (bool_decide (mFormat src = mFormat dst));
      [exact Hcopy | apply (keeps_throw _ (only_block_refl _))]. }
  destruct (bool_decide (mFormat src = mFormat dst)).
  { destruct (isConsecutive src && isConsecutive dst);
      [exact Hcopy | apply copyRows_block]. }
  destruct (bool_decide (mFormat dst = PF_X8R8G8B8)
            || bool_decide (mFormat dst = PF_X8B8G8R8)).
  { intros s. apply only_block_weaken.
    exact (IH src (PixelData_new (getWidth dst) (getHeight dst)
                     (getDepth dst)
                     (if bool_decide (mFormat dst = PF_X8R8G8B8)
                      then PF_A8R8G8B8 else PF_A8B8G8R8)) s). }
  destruct ((bool_decide (mFormat src = PF_X8R8G8B8)
             || bool_decide (mFormat src = PF_X8B8G8R8))
            && negb (hasAlpha (mFormat dst))).
  { apply IH. }
  apply convertPixels_block.
Qed.

(** X19.  Whatever its outcome, [bulkPixelConversion] changes no byte
    outside the allocation of the destination buffer, and it creates,
    frees and resizes no allocation; a source in another allocation is
    left as it was. *)
Theorem bulkPixelConversion_frame (src dst : PixelData) (s : state) :
  same_sizes s (snd (bulkPixelConversion src dst s)) /\
  (forall b, mData dst <> Some b ->
             heap (snd (bulkPixelConversion src dst s)) !! b = heap s !! b).
Proof. exact (bulk_block 3 src dst s). Qed.

Lemma linear_block (source dest : PixelData) :
  keeps (only_block (mData dest)) (LinearResampler_scale source dest).
Proof.
  unfold LinearResampler_scale. cbv zeta.
  blift. intros stepX _. blift. intros stepY _. blift. intros stepZ _.
  apply walks_keeps.
  apply walks_loop; [|reflexivity]. intros curZ pz Hz. cbv beta iota.
  destruct (linearSample 16 curZ _) as [[z1 z2] fz].
  apply walks_advance; [|intros ? q Hq; apply walks_ret, Hq].
  apply walks_loop; [|exact Hz]. intros curY py Hy. cbv beta iota.
  destruct (linearSample 16 curY _) as [[y1 y2] fy].
  apply walks_advance; [|intros ? q Hq; apply walks_ret, Hq].
  apply walks_loop; [|exact Hy]. intros curX px Hx. cbv beta iota.
  destruct (linearSample 16 curX _) as [[x1 x2] fx].
  apply walks_bind.
  { apply (keeps_mapM _ (only_block_refl _) (only_block_trans _)).
    intros c _. apply ob_stable, heap_stable_unpackColor_Color. }
  intros cs.
  apply walks_bind; [|intros _; apply walks_ret, Hx].
  rewrite <- Hx. apply ob_packColor.
Qed.

Lemma accumulate_stable (ch : nat) (source : PixelData) (nsc : Z)
    (acc : list spec_float) (cf : (Z * Z * Z) * spec_float) :
  heap_stable (accumulate ch source nsc acc cf).
Proof.
  destruct cf as [c f]. unfold accumulate.
  apply heap_stable_bind; [|intros vs; apply heap_stable_ret].
  generalize (map Z.of_nat (seq 0 ch)). intros l.
  induction l as [|i l IH]; cbn [mapM]; [apply heap_stable_ret|].
  apply heap_stable_bind; [apply heap_stable_loadFloat|]. intros v.
  apply heap_stable_bind; [exact IH|]. intros vs. apply heap_stable_ret.
Qed.

Lemma float32_block (source dest : PixelData) :
  keeps (only_block (mData dest)) (LinearResampler_Float32_scale source dest).
Proof.
  unfold LinearResampler_Float32_scale. cbv zeta.
  blift. intros stepX _. blift. intros stepY _. blift. intros stepZ _.
  apply walks_keeps.
  apply walks_loop; [|reflexivity]. intros curZ pz Hz. cbv beta iota.
  destruct (linearSample 16 curZ _) as [[z1 z2] fz].
  apply walks_advance; [|intros ? q Hq; apply walks_ret, Hq].
  apply walks_loop; [|exact Hz]. intros curY py Hy. cbv beta iota.
  destruct (linearSample 16 curY _) as [[y1 y2] fy].
  apply walks_advance; [|intros ? q Hq; apply walks_ret, Hq].
  apply walks_loop; [|exact Hy]. intros curX px Hx. cbv beta iota.
  destruct (linearSample 16 curX _) as [[x1 x2] fx].
  assert (Hfold : forall ch l,
             keeps (only_block (mData dest))
               (foldM (accumulate ch source
                         (getNumElemBytes (mFormat source) / 4))
                      [F32.zero; F32.zero; F32.zero; F32.zero] l)).
  { intros ch l.
    apply (keeps_foldM _ (only_block_refl _) (only_block_trans _)).
    intros acc cf _. apply ob_stable, accumulate_stable. }
  apply walks_bind.
  { destruct ((_ =? 3) || (_ =? 3)); [|apply Hfold].
    bbind; [apply Hfold|]. intros acc _ _ _. bret. }
  intros accum.
  apply walks_bind; [|intros _; apply walks_ret, Hx].
  rewrite <- Hx. apply ob_store.
Qed.

Lemma byte_block (n : Z) (source dest : PixelData) :
  keeps (only_block (mData dest)) (LinearResampler_Byte_scale n source dest).
Proof.
  unfold LinearResampler_Byte_scale.
  destruct ((getDepth source >? 1) || (getDepth dest >? 1));
    [apply linear_block|].
  cbv zeta. blift. intros stepX _. blift. intros stepY _.
  apply walks_keeps.
  apply walks_loop; [|reflexivity]. intros curY py Hy. cbv beta iota.
  destruct (linearSample 12 curY _) as [[y1 y2] fy].
  apply walks_advance; [|intros ? q Hq; apply walks_ret, Hq].
  apply walks_loop; [|exact Hy]. intros curX px Hx. cbv beta iota.
  destruct (linearSample 12 curX _) as [[x1 x2] fx].
  destruct (byteWeights fx fy) as [[[w11 w21] w12] w22].
  apply walks_advance; [|intros ? q Hq; apply walks_ret, Hq].
  apply walks_loop; [|exact Hx]. intros k pk Hk. cbv beta iota.
  repeat (apply walks_bind;
          [apply ob_stable, heap_stable_loadU8 | intros ?]).
  apply walks_bind; [|intros _; apply walks_ret, Hk].
  rewrite <- Hk. apply (ob_store (ptr_add pk 0)).
Qed.

(** ** The allocations of [scale] *)

Lemma only_block_survives (d : option nat) (s s' : state) :
  only_block d s s' -> survives d s s'.
Proof.
  intros (Hs & Hf) b l Hl. pose proof (Hs b) as Hb. rewrite Hl in Hb.
  destruct (heap s' !! b) as [l'|] eqn:El'; [|discriminate Hb].
  cbn in Hb. injection Hb as Hb. exists l'. split; [reflexivity|].
  split; [exact Hb|]. intros Hd. pose proof (Hf b Hd) as E.
  rewrite El', Hl in E. injection E as E. exact E.
Qed.

Lemma scaleTarget_cases (src scaled : PixelData) (s : state) :
  scaleTarget src scaled s = (Ret scaled, s) \/
  exists temp n,
    mData temp = Some (fresh (dom (heap s))) /\
    scaleTarget src scaled s
    = (Ret temp,
       mkState (<[fresh (dom (heap s)) := replicate n 0]> (heap s))
               (reads s)).
Proof.
  unfold scaleTarget.
  destruct (bool_decide (mFormat src = mFormat scaled)); [left; reflexivity|].
  right. unfold allocateInternalBuffer, getConsecutiveSize.
  match goal with
  | |- context [getMemorySize ?w ?h ?d ?f] =>
      destruct (getMemorySize_returns w h d f) as (n & Hn)
  end.
  unfold bind, run_pure. rewrite Hn. cbn [alloc ret].
  eexists _, _. split; [|reflexivity]. reflexivity.
Qed.

Lemma scale_via_temp (K : PixelData -> M unit) (src scaled : PixelData)
    (s : state) :
  (forall temp, keeps (only_block (mData temp)) (K temp)) ->
  (forall b, mData scaled = Some b -> is_Some (heap s !! b)) ->
  let r := (let* temp := scaleTarget src scaled in
            K temp ;;; scaleFinish temp scaled) s in
  survives (mData scaled) s (snd r) /\
  (fst r = Ret tt -> same_sizes s (snd r)).
Proof.
  intros HK Hdata. cbv zeta.
  destruct (scaleTarget_cases src scaled s) as [E | (temp & n & Ht & E)];
    rewrite (bind_eq _ _ _ _ _ E).
  - assert (Hk : keeps (only_block (mData scaled))
                   (K scaled ;;; scaleFinish scaled scaled)).
    { apply (keeps_bind _ (only_block_trans _)); [apply HK|].
      intros _ _ _ _. unfold scaleFinish.
      rewrite (bool_decide_eq_true_2 _ eq_refl).
      apply (keeps_ret _ (only_block_refl _)). }
    specialize (Hk s). split; [apply only_block_survives, Hk|].
    intros _. exact (proj1 Hk).
  - set (bt := fresh (dom (heap s))) in *.
    assert (Hfresh : heap s !! bt = None)
      by (apply not_elem_of_dom; unfold bt; apply is_fresh).
    set (s1 := mkState (<[bt := replicate n 0]> (heap s)) (reads s)).
    assert (F1 : forall b, b <> bt -> heap s1 !! b = heap s !! b)
      by (intros b Hb; cbn [heap s1]; apply lookup_insert_ne; congruence).
    assert (Hnot : getData temp <> getData scaled).
    { unfold getData. rewrite Ht. intros Eq. injection Eq as Eq.
      destruct (Hdata bt (eq_sym Eq)) as (l & Hl).
      rewrite Hfresh in Hl. discriminate Hl. }
    pose proof (HK temp s1) as (Hs2 & Hf2). rewrite Ht in Hf2.
    unfold bind.
    destruct (K temp s1) as [[[]| e |] s2] eqn:EK; cbn [snd fst] in *.
    2,3: split; [|discriminate];
         intros b l Hl;
         assert (Hb : b <> bt) by (intros ->; congruence);
         exists l; rewrite (Hf2 b) by congruence;
         rewrite (F1 b Hb); auto.
    unfold scaleFinish. rewrite (bool_decide_eq_false_2 _ Hnot).
    pose proof (bulk_block 3 temp scaled s2) as (Hs3 & Hf3).
    fold (bulkPixelConversion temp scaled) in Hs3, Hf3.
    assert (Hkeep : forall s3, same_sizes s2 s3 ->
              (forall b, mData scaled <> Some b ->
                         heap s3 !! b = heap s2 !! b) ->
              forall b l, b <> bt -> heap s !! b = Some l ->
              exists l', heap s3 !! b = Some l' /\ length l' = length l /\
                         (mData scaled <> Some b -> l' = l)).
    { intros s3 H3 G3 b l Hb Hl.
      assert (E2 : heap s2 !! b = Some l)
        by (rewrite (Hf2 b) by congruence; rewrite (F1 b Hb); exact Hl).
      pose proof (H3 b) as Hsz. rewrite E2 in Hsz.
      destruct (heap s3 !! b) as [l'|] eqn:E3; [|discriminate Hsz].
      cbn in Hsz. injection Hsz as Hsz.
      exists l'. split; [reflexivity|]. split; [exact Hsz|].
      intros Hd. pose proof (G3 b Hd) as G. rewrite E3, E2 in G.
      injection G as G. exact G. }
    unfold bind.
    destruct (bulkPixelConversion temp scaled s2) as [[[]| e |] s3] eqn:EB;
      cbn [snd fst] in *.
    2,3: split; [|discriminate];
         intros b l Hl; apply (Hkeep s3 Hs3 Hf3 b l); [|exact Hl];
         intros ->; congruence.
    unfold freeInternalBuffer. rewrite Ht. unfold free. cbn [snd fst heap].
    split.
    + intros b l Hl.
      assert (Hb : b <> bt) by (intros ->; congruence).
      cbn [heap]. rewrite lookup_delete_ne by congruence.
      apply (Hkeep s3 Hs3 Hf3 b l Hb Hl).
    + intros _ b. cbn [heap].
      destruct (decide (b = bt)) as [-> | Hb].
      * rewrite lookup_delete_eq, Hfresh. reflexivity.
      * rewrite lookup_delete_ne by congruence.
        rewrite (Hs3 b), (Hs2 b), (F1 b Hb). reflexivity.
Qed.

(** X20.  [scale] into a buffer whose memory is allocated (or null):
    whatever the outcome, every allocation is still there with its size,
    and with its bytes unless it is the destination's; and when [scale]
    returns, the allocations are the same as before, each of the same
    size: the temporary buffer it converts through has been freed. *)
Theorem scale_frame (src scaled : PixelData) (filter : Filter) (s : state) :
  (forall b, mData scaled = Some b -> is_Some (heap s !! b)) ->
  survives (mData scaled) s (snd (scale src scaled filter s)) /\
  (fst (scale src scaled filter s) = Ret tt ->
   same_sizes s (snd (scale src scaled filter s))).
Proof.
  intros Hdata. rewrite scale_kernels.
  assert (Hrefl : survives (mData scaled) s s /\ same_sizes s s)
    by (split; [apply only_block_survives, only_block_refl
               |apply same_sizes_refl]).
  unfold bind at 1.
  destruct (isAccessible (mFormat src));
    [|cbn; split; [apply Hrefl | discriminate]].
  cbn [assert ret]. unfold bind at 1.
  destruct (isAccessible (mFormat scaled));
    [|cbn; split; [apply Hrefl | discriminate]].
  cbn [assert ret].
  assert (Hdirect : forall c : M unit,
             keeps (only_block (mData scaled)) c ->
             survives (mData scaled) s (snd (c s)) /\
             (fst (c s) = Ret tt -> same_sizes s (snd (c s)))).
  { intros c Hc. specialize (Hc s).
    split; [apply only_block_survives, Hc | intros _; exact (proj1 Hc)]. }
  destruct filter.
  - apply (scale_via_temp
             (fun temp => NearestResampler_scale
                            (getNumElemBytes (mFormat src)) src temp));
      [intros temp; apply nearest_block | exact Hdata].
  - destruct (byteKernelFormat (mFormat src)).
    + apply (scale_via_temp
               (fun temp => LinearResampler_Byte_scale
                              (getNumElemBytes (mFormat src)) src temp));
        [intros temp; apply byte_block | exact Hdata].
    + destruct ((bool_decide (mFormat src = PF_FLOAT32_RGB)
                 || bool_decide (mFormat src = PF_FLOAT32_RGBA))
                && (bool_decide (mFormat scaled = PF_FLOAT32_RGB)
                    || bool_decide (mFormat scaled = PF_FLOAT32_RGBA)));
        apply Hdirect; [apply float32_block | apply linear_block].
Qed.

Lemma scale_frame_witness :
  survives (mData (buffer_at 1 2 1 1 PF_A8R8G8B8)) two_blocks
    (snd (scale (buffer_at 0 2 1 1 PF_R8G8B8A8)
                (buffer_at 1 2 1 1 PF_A8R8G8B8) FILTER_NEAREST two_blocks)) /\
  (fst (scale (buffer_at 0 2 1 1 PF_R8G8B8A8)
              (buffer_at 1 2 1 1 PF_A8R8G8B8) FILTER_NEAREST two_blocks)
   = Ret tt ->
   same_sizes two_blocks
     (snd (scale (buffer_at 0 2 1 1 PF_R8G8B8A8)
                 (buffer_at 1 2 1 1 PF_A8R8G8B8) FILTER_NEAREST
                 two_blocks))).
Proof.
  apply (scale_frame (buffer_at 0 2 1 1 PF_R8G8B8A8)
           (buffer_at 1 2 1 1 PF_A8R8G8B8) FILTER_NEAREST two_blocks).
  intros b Hb. injection Hb as <-. exists (replicate 16 0). reflexivity.
Defined.

(** A run of that call: the four-byte pixels are converted through a
    temporary buffer, which is gone at the end. *)
Example scale_converting_run :
  fst (scale (buffer_at 0 2 1 1 PF_R8G8B8A8)
             (buffer_at 1 2 1 1 PF_A8R8G8B8) FILTER_NEAREST two_blocks)
  = Ret tt /\
  dom (heap (snd (scale (buffer_at 0 2 1 1 PF_R8G8B8A8)
                        (buffer_at 1 2 1 1 PF_A8R8G8B8) FILTER_NEAREST
                        two_blocks)))
  = dom (heap two_blocks).
Proof. vm_compute. split; reflexivity. Qed.

(** ** The nearest kernel, pixel by pixel *)

Section Sampled.

Variables (src dst : PixelData) (bs bd : nat) (ls ld : list Z).
Variables (fx fy fz : Z -> Z).
Hypothesis Hdst : laid_out dst bd ld.

Lemma sampled_heap (n : Z) (s s' : state) :
  heap s' = heap s -> sampled src dst bs bd ls ld fx fy fz n s ->
  sampled src dst bs bd ls ld fx fy fz n s'.
Proof. unfold sampled. intros ->. auto. Qed.

Lemma sampled_weaken (n n' : Z) (s : state) :
  n' <= n -> sampled src dst bs bd ls ld fx fy fz n s ->
  sampled src dst bs bd ls ld fx fy fz n' s.
Proof.
  intros Hn (Hs & ld' & Hd & Hl & Hc). split; [exact Hs|].
  exists ld'. split; [exact Hd|]. split; [exact Hl|].
  intros x y z c Hin Hc' Hlt. apply Hc; [exact Hin | exact Hc' | lia].
Qed.

(** Reading the source while the copy is under way. *)
Lemma sampled_load (n off m : Z) (s : state) :
  sampled src dst bs bd ls ld fx fy fz n s ->
  0 <= off -> 0 <= m -> off + m <= Z.of_nat (length ls) ->
  exists s',
    load (mkPtr (Some bs) off) m s
    = (Ret (take (Z.to_nat m) (drop (Z.to_nat off) ls)), s') /\
    sampled src dst bs bd ls ld fx fy fz n s'.
Proof.
  intros Hc H0 Hm Hb. pose proof Hc as (Hs & _).
  unfold load. cbn [pblock poff]. rewrite Hs. unfold slice.
  replace ((0 <=? off) && (0 <=? m) && (off + m <=? Z.of_nat (length ls)))
    with true
    by (symmetry; repeat (apply andb_true_intro; split); apply Z.leb_le; lia).
  eexists. split; [reflexivity|].
  apply (sampled_heap n s); [reflexivity | exact Hc].
Qed.

(** Writing the next bytes of the pixel whose turn it is. *)
Lemma sampled_store (n : Z) (s : state) (X Y Z0 C : Z) (bytes : list Z) :
  bs <> bd -> sampled src dst bs bd ls ld fx fy fz n s ->
  in_extent dst X Y Z0 -> 0 <= C ->
  C + Z.of_nat (length bytes) <= elemSize dst ->
  n = elemSize dst * rank dst X Y Z0 + C ->
  (forall i, (i < length bytes)%nat ->
             bytes !! i
             = ls !! Z.to_nat (pixelStart src (fx X) (fy Y) (fz Z0) + C
                                + Z.of_nat i)) ->
  exists s',
    store (mkPtr (Some bd) (pixelStart dst X Y Z0 + C)) bytes s
    = (Ret tt, s') /\
    sampled src dst bs bd ls ld fx fy fz (n + Z.of_nat (length bytes)) s'.
Proof.
  intros Hdiff (Hs & ld' & Hd & Hl & Hc) Hin HC Hfit Hn Hbytes.
  destruct (laid_out_extents _ _ _ Hdst) as (Ew & Eh & Ed).
  destruct (pixel_within dst bd ld X Y Z0 Hdst Hin) as (_ & HP0 & HP1).
  pose proof Hdst as (_ & _ & _ & Hw & Hh & Hdd & Hrp & Hsp & He & Hlen & _).
  set (e := elemSize dst) in *.
  set (m := Z.of_nat (length bytes)) in *.
  set (D := pixelStart dst X Y Z0 + C).
  assert (HD : 0 <= D /\ D + m <= Z.of_nat (length ld')) by (unfold D; lia).
  unfold store. cbn [pblock poff]. rewrite Hd. unfold splice.
  replace ((0 <=? D) && (D + Z.of_nat (length bytes)
                         <=? Z.of_nat (length ld'))) with true
    by (symmetry; apply andb_true_intro; split; apply Z.leb_le;
        fold m; lia).
  eexists. split; [reflexivity|].
  split; [cbn [heap]; rewrite lookup_insert_ne by congruence; exact Hs|].
  eexists. split; [cbn [heap]; apply lookup_insert_eq|].
  split.
  { rewrite !length_app, length_take, length_drop. lia. }
  intros x y z c Hxyz Hcc Hlt.
  destruct (pixel_within dst bd ld x y z Hdst Hxyz) as (_ & Hp0 & _).
  assert (Hdn : (Z.to_nat D + length bytes <= length ld')%nat) by lia.
  destruct (Z_lt_le_dec (e * rank dst x y z + c) n) as [Hold | Hnew].
  - rewrite overwrite_outside; [apply Hc; assumption | exact Hdn |].
    destruct (Z_lt_le_dec (pixelStart dst x y z + c) D) as [|Hge];
      [left; lia|].
    destruct (Z_lt_le_dec (pixelStart dst x y z + c) (D + m)) as [Hin2|];
      [|right; lia].
    exfalso. unfold D, pixelStart in Hge, Hin2. fold e in Hge, Hin2.
    destruct (block_unique e
                (x + y * mRowPitch dst + z * mSlicePitch dst) c
                (X + Y * mRowPitch dst + Z0 * mSlicePitch dst)
                (C + (e * (x + y * mRowPitch dst + z * mSlicePitch dst) + c
                      - e * (X + Y * mRowPitch dst + Z0 * mSlicePitch dst)
                      - C)))
      as (Hidx & Hcc'); [lia | lia | lia |].
    destruct Hxyz as (Hx & Hy & Hz). destruct Hin as (HX & HY & HZ).
    rewrite Ew in Hx, HX. rewrite Eh in Hy, HY.
    assert (Hsame : x = X /\ y = Y /\ z = Z0)
      by (apply (lex_unique (mRight dst) (mBottom dst) (mRowPitch dst)
                   (mSlicePitch dst)); lia).
    destruct Hsame as (-> & -> & ->). lia.
  - assert (Hr : rank dst x y z = rank dst X Y Z0)
      by (apply (block_floor e _ c); lia).
    assert (Hsame : x = X /\ y = Y /\ z = Z0).
    { unfold rank in Hr. rewrite Ew, Eh in Hr.
      destruct Hxyz as (Hx & Hy & Hz). destruct Hin as (HX & HY & HZ).
      rewrite Ew in Hx, HX. rewrite Eh in Hy, HY.
      apply (lex_unique (mRight dst) (mBottom dst) (mRight dst)
               (mBottom dst * mRight dst)); try lia. }
    destruct Hsame as (-> & -> & ->).
    replace (Z.to_nat (pixelStart dst X Y Z0 + c))
      with (Z.to_nat D + Z.to_nat (c - C))%nat by (unfold D; lia).
    rewrite overwrite_inside by lia.
    rewrite Hbytes by lia. f_equal. lia.
Qed.

End Sampled.

Lemma nearest_sampled (src dst : PixelData) (bs bd : nat) (ls ld : list Z)
    (stepX stepY stepZ : Z) (s : state) :
  laid_out src bs ls -> laid_out dst bd ld ->
  mFormat dst = mFormat src -> bs <> bd ->
  fixedStep (getWidth src) (getWidth dst) = Some stepX ->
  fixedStep (getHeight src) (getHeight dst) = Some stepY ->
  fixedStep (getDepth src) (getDepth dst) = Some stepZ ->
  sampled src dst bs bd ls ld (nearestSource stepX) (nearestSource stepY)
          (nearestSource stepZ) 0 s ->
  exists s',
    NearestResampler_scale (elemSize src) src dst s = (Ret tt, s') /\
    sampled src dst bs bd ls ld (nearestSource stepX) (nearestSource stepY)
            (nearestSource stepZ)
            (elemSize dst * rank dst 0 0 (getDepth dst)) s'.
Proof.
  intros Hsrc Hdst Hfmt Hdiff Sx Sy Sz H0.
  destruct (laid_out_extents _ _ _ Hsrc) as (Ews & Ehs & Eds).
  destruct (laid_out_extents _ _ _ Hdst) as (Ew & Eh & Ed).
  pose proof Hdst as (El & Et & Ef & Hw & Hh & Hd & Hrp & Hsp & He & Hlen
                      & H32 & Hdata).
  pose proof Hsrc as (_ & _ & _ & _ & _ & _ & _ & _ & _ & Hlens & _ & Hdatas).
  pose proof (laid_out_samplable _ _ _ Hsrc) as Hsamp.
  pose proof (laid_out_pitches _ _ _ Hdst)
    as (Hp1 & Hp2 & Hp3 & Hp4 & Hp5 & Hp6 & Hp7).
  assert (Ee : elemSize dst = elemSize src)
    by (unfold elemSize; rewrite Hfmt; reflexivity).
  unfold NearestResampler_scale. cbv zeta.
  rewrite (bind_lift_eq _ _ _ _ Sx).
  rewrite (bind_lift_eq _ _ _ _ Sy).
  rewrite (bind_lift_eq _ _ _ _ Sz).
  pose proof Hsrc as (Els & Ets & Efs & Hws & Hhs & Hds & _).
  assert (AX : forall k, (k < Z.to_nat (mRight dst))%nat ->
             0 <= nearestCoord (coordAt stepX k) < mRight src).
  { intros k Hk. unfold getWidth in Sx.
    destruct (axis_coord (mLeft src) (mRight src) (mLeft dst) (mRight dst)
                stepX k) as (_ & H);
      [fold (getWidth src); lia | lia | exact Sx | unfold trip; lia|].
    fold (getWidth src) in H. rewrite Ews in H.
    rewrite (nearestCoord_exact _ (mRight src)); lia. }
  assert (AY : forall k, (k < Z.to_nat (mBottom dst))%nat ->
             0 <= nearestCoord (coordAt stepY k) < mBottom src).
  { intros k Hk. unfold getHeight in Sy.
    destruct (axis_coord (mTop src) (mBottom src) (mTop dst) (mBottom dst)
                stepY k) as (_ & H);
      [fold (getHeight src); lia | lia | exact Sy | unfold trip; lia|].
    fold (getHeight src) in H. rewrite Ehs in H.
    rewrite (nearestCoord_exact _ (mBottom src)); lia. }
  assert (AZ : forall k, (k < Z.to_nat (mBack dst))%nat ->
             0 <= nearestCoord (coordAt stepZ k) < mBack src).
  { intros k Hk. unfold getDepth in Sz.
    destruct (axis_coord (mFront src) (mBack src) (mFront dst) (mBack dst)
                stepZ k) as (_ & H);
      [fold (getDepth src); lia | lia | exact Sz | unfold trip; lia|].
    fold (getDepth src) in H. rewrite Eds in H.
    rewrite (nearestCoord_exact _ (mBack src)); lia. }
  set (e := elemSize dst) in *.
  unfold trip. rewrite El, Et, Ef, !Z.sub_0_r.
  match goal with
  | |- context [loop ?n0 ?b0 ?x0] =>
      destruct (triple_loop
                  (fun k (x : Z * ptr) s =>
                     fst x = coordAt stepZ k /\
                     snd x = mkPtr (Some bd)
                                   (pixelStart dst 0 0 (Z.of_nat k)) /\
                     sampled src dst bs bd ls ld (nearestSource stepX) (nearestSource stepY)
            (nearestSource stepZ)
                            (e * rank dst 0 0 (Z.of_nat k)) s)
                  n0 b0) with (x := x0) (s := s) as (r & s' & E & _ & _ & Hc)
  end.
  - (* one slice *)
    intros kz [curZ pZ] HkZ sz (HcZ & HpZ & HZ). cbn [fst snd] in HcZ, HpZ.
    subst curZ pZ.
    match goal with
    | |- context [loop ?n0 ?b0 ?x0] =>
        destruct (triple_loop
                    (fun k (x : Z * ptr) s =>
                       fst x = coordAt stepY k /\
                       snd x = mkPtr (Some bd)
                                     (pixelStart dst 0 (Z.of_nat k)
                                                 (Z.of_nat kz)) /\
                       sampled src dst bs bd ls ld (nearestSource stepX) (nearestSource stepY)
            (nearestSource stepZ)
                              (e * rank dst 0 (Z.of_nat k) (Z.of_nat kz)) s)
                    n0 b0) with (x := x0) (s := sz)
          as ([curY pY] & sy & E & HcY & HpY & HY)
    end.
    + (* one row *)
      intros ky [curY pY] HkY sy (HcY & HpY & HY). cbn [fst snd] in HcY, HpY.
      subst curY pY.
      match goal with
      | |- context [loop ?n0 ?b0 ?x0] =>
          destruct (triple_loop
                      (fun k (x : Z * ptr) s =>
                         fst x = coordAt stepX k /\
                         snd x = mkPtr (Some bd)
                                       (pixelStart dst (Z.of_nat k)
                                          (Z.of_nat ky) (Z.of_nat kz)) /\
                         sampled src dst bs bd ls ld (nearestSource stepX) (nearestSource stepY)
            (nearestSource stepZ)
                                (e * rank dst (Z.of_nat k) (Z.of_nat ky)
                                              (Z.of_nat kz)) s)
                      n0 b0) with (x := x0) (s := sy)
            as ([curX pX] & sx & E & HcX & HpX & HX)
      end.
      * (* one pixel *)
        intros kx [curX pX] HkX sx (HcX & HpX & HX).
        cbn [fst snd] in HcX, HpX. subst curX pX.
        assert (Hin : in_extent dst (Z.of_nat kx) (Z.of_nat ky) (Z.of_nat kz))
          by (unfold in_extent; rewrite Ew, Eh, Ed; lia).
        pose proof (AX kx HkX) as Hsx. pose proof (AY ky HkY) as Hsy.
        pose proof (AZ kz HkZ) as Hsz.
        set (sX := nearestCoord (coordAt stepX kx)) in *.
        set (sY := nearestCoord (coordAt stepY ky)) in *.
        set (sZ := nearestCoord (coordAt stepZ kz)) in *.
        assert (Hins : in_extent src sX sY sZ)
          by (unfold in_extent; rewrite Ews, Ehs, Eds; lia).
        destruct (elemIndex_exact src _ _ _ Hsamp Hins) as (_ & Hoff & _).
        unfold elemIndex in Hoff. rewrite Hoff.
        destruct (pixel_within src bs ls _ _ _ Hsrc Hins) as (_ & Hs0 & Hs1).
        destruct (sampled_load src dst bs bd ls ld _ _ _ _
                    (pixelStart src sX sY sZ) (elemSize src) sx HX)
          as (s1 & El1 & H1); [lia | lia | lia |].
        set (bytes := take (Z.to_nat (elemSize src))
                           (drop (Z.to_nat (pixelStart src sX sY sZ)) ls))
          in *.
        assert (Hlb : length bytes = Z.to_nat (elemSize src))
          by (apply (source_pixel src bs ls Hsrc _ _ _ 0%nat Hins); lia).
        destruct (sampled_store src dst bs bd ls ld _ _ _ Hdst _ s1
                    (Z.of_nat kx) (Z.of_nat ky) (Z.of_nat kz)
                    0 bytes Hdiff H1 Hin) as (s2 & Es2 & H2);
          [lia | rewrite Hlb; fold e; lia | lia
          | intros i Hi; unfold nearestSource; rewrite !Nat2Z.id;
            apply (source_pixel src bs ls Hsrc _ _ _ i Hins); lia |].
        exists (u64 (coordAt stepX kx + stepX),
                ptr_add (mkPtr (Some bd)
                               (pixelStart dst (Z.of_nat kx) (Z.of_nat ky)
                                           (Z.of_nat kz))) (elemSize src)),
               s2.
        split.
        { unfold memcpy, getData, ptr_add. cbn [pblock poff].
          rewrite Hdatas, Z.add_0_l.
          rewrite (bind_eq _ _ sx s2 tt); [reflexivity|].
          rewrite (bind_eq _ _ _ _ _ El1).
          rewrite Z.add_0_r in Es2. exact Es2. }
        cbn [fst snd]. split; [reflexivity|]. split.
        { unfold ptr_add. cbn [pblock poff]. f_equal.
          unfold pixelStart. fold e. rewrite <- Ee. fold e.
          rewrite Nat2Z.inj_succ. ring. }
        rewrite Hlb in H2. rewrite <- Ee in H2. fold e in H2.
        replace (e * rank dst (Z.of_nat (S kx)) (Z.of_nat ky) (Z.of_nat kz))
          with (e * rank dst (Z.of_nat kx) (Z.of_nat ky) (Z.of_nat kz)
                + Z.of_nat (Z.to_nat e)); [exact H2|].
        unfold rank. rewrite Nat2Z.inj_succ, Z2Nat.id by lia. ring.
      * split; [reflexivity|]. split; [reflexivity | exact HY].
      * (* end of the row *)
        cbn [fst snd] in HcX, HpX. subst pX.
        rewrite (bind_eq _ _ _ _ _ E).
        eexists (_, _), sx. split; [reflexivity|].
        cbn [fst snd]. split; [reflexivity|]. split.
        { unfold ptr_add. cbn [pblock poff]. f_equal.
          unfold getRowSkip. rewrite Ew. fold e. rewrite <- Ee. fold e.
          assert (Hskip : u32 (mRowPitch dst - mRight dst)
                          = mRowPitch dst - mRight dst)
            by (unfold u32; apply Z.mod_small; lia).
          rewrite Hskip.
          assert (He32 : u32 (e * (mRowPitch dst - mRight dst))
                         = e * (mRowPitch dst - mRight dst)).
          { unfold u32. apply Z.mod_small.
            assert (0 <= e * (mRowPitch dst - mRight dst))
              by (apply Z.mul_nonneg_nonneg; lia).
            assert (0 <= e * mRight dst)
              by (apply Z.mul_nonneg_nonneg; lia).
            rewrite Z.mul_sub_distr_l in *. lia. }
          rewrite He32. unfold pixelStart. fold e.
          rewrite Z2Nat.id, Nat2Z.inj_succ by lia. ring. }
        replace (e * rank dst 0 (Z.of_nat (S ky)) (Z.of_nat kz))
          with (e * rank dst (Z.of_nat (Z.to_nat (mRight dst))) (Z.of_nat ky)
                             (Z.of_nat kz)); [exact HX|].
        unfold rank. rewrite Ew, Z2Nat.id, Nat2Z.inj_succ by lia. ring.
    + split; [reflexivity|]. split; [reflexivity | exact HZ].
    + (* end of the slice *)
      cbn [fst snd] in HcY, HpY. subst pY.
      rewrite (bind_eq _ _ _ _ _ E).
      eexists (_, _), sy. split; [reflexivity|].
      cbn [fst snd]. split; [reflexivity|]. split.
      { unfold ptr_add. cbn [pblock poff]. f_equal.
        unfold getSliceSkip. rewrite Eh. fold e. rewrite <- Ee. fold e.
        assert (Hhr : 0 <= mBottom dst * mRowPitch dst)
          by (apply Z.mul_nonneg_nonneg; lia).
        assert (Hhr32 : u32 (mBottom dst * mRowPitch dst)
                        = mBottom dst * mRowPitch dst)
          by (unfold u32; apply Z.mod_small; lia).
        rewrite Hhr32.
        assert (Hskip : u32 (mSlicePitch dst - mBottom dst * mRowPitch dst)
                        = mSlicePitch dst - mBottom dst * mRowPitch dst)
          by (unfold u32; apply Z.mod_small; lia).
        rewrite Hskip.
        assert (He32 : u32 (e * (mSlicePitch dst
                                 - mBottom dst * mRowPitch dst))
                       = e * (mSlicePitch dst - mBottom dst * mRowPitch dst)).
        { unfold u32. apply Z.mod_small.
          assert (0 <= e * (mSlicePitch dst - mBottom dst * mRowPitch dst))
            by (apply Z.mul_nonneg_nonneg; lia).
          assert (0 <= e * (mBottom dst * mRowPitch dst))
            by (apply Z.mul_nonneg_nonneg; lia).
          rewrite Z.mul_sub_distr_l in *. lia. }
        rewrite He32. unfold pixelStart. fold e.
        rewrite Z2Nat.id, Nat2Z.inj_succ by lia. ring. }
      replace (e * rank dst 0 0 (Z.of_nat (S kz)))
        with (e * rank dst 0 (Z.of_nat (Z.to_nat (mBottom dst)))
                           (Z.of_nat kz)); [exact HY|].
      unfold rank. rewrite Ew, Eh, Z2Nat.id, Nat2Z.inj_succ by lia. ring.
  - split; [reflexivity|]. split.
    + unfold getData. cbn [snd]. rewrite Hdata. unfold pixelStart.
      f_equal. ring.
    + apply (sampled_weaken src dst bs bd ls ld _ _ _ 0); [|exact H0].
      unfold rank. rewrite Ew, Eh. cbn [Z.of_nat]. lia.
  - exists s'. split.
    + rewrite (bind_eq _ _ _ _ _ E). reflexivity.
    + rewrite Z2Nat.id in Hc by lia. rewrite Ed. exact Hc.
Qed.


Lemma fixedStep_defined (a b : Z) :
  b <> 0 -> exists step, fixedStep a b = Some step.
Proof.
  intros Hb. unfold fixedStep, udiv.
  destruct (Z.eqb_spec b 0) as [E|_]; [contradiction|]. eexists; reflexivity.
Qed.

Lemma nearestSource_bound (slo shi dlo dhi step x : Z) :
  1 <= u32 (shi - slo) -> dhi - dlo < 2 ^ 32 ->
  fixedStep (u32 (shi - slo)) (u32 (dhi - dlo)) = Some step ->
  0 <= x < dhi - dlo ->
  0 <= nearestSource step x < u32 (shi - slo).
Proof.
  intros Hs Hd Hstep Hx. unfold nearestSource.
  destruct (axis_coord slo shi dlo dhi step (Z.to_nat x) Hs Hd Hstep)
    as (_ & H); [unfold trip; lia|].
  rewrite (nearestCoord_exact _ (u32 (shi - slo))); [exact H | exact H|].
  apply u32_extent.
Qed.

Lemma sampled_start (src dst : PixelData) (bs bd : nat) (ls ld : list Z)
    (fx fy fz : Z -> Z) (s : state) :
  laid_out dst bd ld ->
  heap s !! bs = Some ls -> heap s !! bd = Some ld ->
  sampled src dst bs bd ls ld fx fy fz 0 s.
Proof.
  intros Hdst Hs Hdd. split; [exact Hs|]. exists ld. split; [exact Hdd|].
  split; [reflexivity|]. intros x y z c Hin Hc Hlt.
  pose proof Hdst as (_ & _ & _ & _ & _ & _ & _ & _ & He & _).
  destruct Hin as (Hx & Hy & Hz). unfold rank in Hlt.
  assert (0 <= getWidth dst * (y + getHeight dst * z)).
  { apply Z.mul_nonneg_nonneg; [lia|].
    assert (0 <= getHeight dst * z) by (apply Z.mul_nonneg_nonneg; lia).
    lia. }
  assert (0 <= elemSize dst * (x + getWidth dst * (y + getHeight dst * z)))
    by (apply Z.mul_nonneg_nonneg; lia).
  lia.
Qed.

(** The nearest filter between two buffers of the same format, through
    [scale]. *)
Lemma scale_nearest_sampled (src dst : PixelData) (bs bd : nat)
    (ls ld : list Z) (s : state) :
  isAccessible (mFormat src) = true ->
  laid_out src bs ls -> laid_out dst bd ld -> bs <> bd ->
  mFormat dst = mFormat src ->
  heap s !! bs = Some ls -> heap s !! bd = Some ld ->
  exists stepX stepY stepZ s',
    fixedStep (getWidth src) (getWidth dst) = Some stepX /\
    fixedStep (getHeight src) (getHeight dst) = Some stepY /\
    fixedStep (getDepth src) (getDepth dst) = Some stepZ /\
    scale src dst FILTER_NEAREST s = (Ret tt, s') /\
    heap s' !! bs = Some ls /\
    forall x y z c,
      in_extent dst x y z -> 0 <= c < elemSize dst ->
      in_extent src (nearestSource stepX x) (nearestSource stepY y)
                (nearestSource stepZ z) /\
      exists v,
        byte_at s bs (pixelStart src (nearestSource stepX x)
                        (nearestSource stepY y) (nearestSource stepZ z) + c)
        = Some v /\
        byte_at s' bd (pixelStart dst x y z + c) = Some v.
Proof.
  intros Hacc Hsrc Hdst Hdiff Hf Hs Hdd.
  destruct (laid_out_extents _ _ _ Hsrc) as (Ews & Ehs & Eds).
  destruct (laid_out_extents _ _ _ Hdst) as (Ew & Eh & Ed).
  pose proof Hdst as (El & Et & Ef & Hw & Hh & Hd & _).
  pose proof Hsrc as (Els & Ets & Efs & Hws & Hhs & Hds & _ & _ & He & Hlen
                      & _).
  destruct (fixedStep_defined (getWidth src) (getWidth dst)) as (stepX & SX);
    [lia|].
  destruct (fixedStep_defined (getHeight src) (getHeight dst))
    as (stepY & SY); [lia|].
  destruct (fixedStep_defined (getDepth src) (getDepth dst)) as (stepZ & SZ);
    [lia|].
  destruct (nearest_sampled src dst bs bd ls ld stepX stepY stepZ s
              Hsrc Hdst Hf Hdiff SX SY SZ
              (sampled_start _ _ _ _ _ _ _ _ _ _ Hdst Hs Hdd))
    as (s' & Ek & (Hs' & ld' & Hd' & Hl' & Hc)).
  exists stepX, stepY, stepZ, s'.
  split; [exact SX|]. split; [exact SY|]. split; [exact SZ|].
  split; [|split; [exact Hs'|]].
  - rewrite scale_kernels. rewrite Hf, Hacc.
    rewrite (bind_eq _ _ s s tt eq_refl), (bind_eq _ _ s s tt eq_refl).
    destruct (scale_same_format src dst s Hf) as (Ht & _).
    rewrite (bind_eq _ _ _ _ _ Ht).
    fold (elemSize src). rewrite (bind_eq _ _ _ _ _ Ek).
    apply (scale_same_format src dst s' Hf).
  - intros x y z c (Hx & Hy & Hz) Hcc.
    assert (Hins : in_extent src (nearestSource stepX x)
                     (nearestSource stepY y) (nearestSource stepZ z)).
    { unfold getWidth in SX. unfold getHeight in SY. unfold getDepth in SZ.
      unfold in_extent, getWidth, getHeight, getDepth.
      split; [|split].
      - apply (nearestSource_bound _ _ (mLeft dst) (mRight dst));
          [fold (getWidth src); lia | lia | exact SX|].
        rewrite Ew in Hx. lia.
      - apply (nearestSource_bound _ _ (mTop dst) (mBottom dst));
          [fold (getHeight src); lia | lia | exact SY|].
        rewrite Eh in Hy. lia.
      - apply (nearestSource_bound _ _ (mFront dst) (mBack dst));
          [fold (getDepth src); lia | lia | exact SZ|].
        rewrite Ed in Hz. lia. }
    split; [exact Hins|].
    destruct (pixel_within src bs ls _ _ _ Hsrc Hins) as (_ & Hp0 & Hp1).
    assert (Ee : elemSize dst = elemSize src)
      by (unfold elemSize; rewrite Hf; reflexivity).
    set (P := pixelStart src (nearestSource stepX x) (nearestSource stepY y)
                (nearestSource stepZ z)) in *.
    destruct (lookup_lt_is_Some_2 ls (Z.to_nat (P + c))) as (v & Ev); [lia|].
    exists v. unfold byte_at. rewrite Hs, Hd'. split; [exact Ev|].
    rewrite Hc; [exact Ev | split; [exact Hx | split; [exact Hy | exact Hz]]
                | exact Hcc |].
    pose proof (rank_bound dst bd ld x y z Hdst
                  (conj Hx (conj Hy Hz))) as Hr.
    assert (elemSize dst * (rank dst x y z + 1)
            <= elemSize dst * rank dst 0 0 (getDepth dst))
      by (apply Z.mul_le_mono_nonneg_l; lia).
    rewrite Z.mul_add_distr_l in *. lia.
Qed.

(** X21.  The nearest filter of [scale] between two buffers of the same
    accessible format, laid out in two different allocations, whatever
    their sizes: the call returns, the source allocation is unchanged, and
    every pixel [(x, y, z)] of the destination holds the bytes of the
    source pixel whose coordinate along each axis is the integer part of
    the fixed-point position [(step >> 1) - 1 + k * step] of that axis,
    which lies within the source. *)
Theorem scale_nearest_pixels (src dst : PixelData) (bs bd : nat)
    (ls ld : list Z) (s : state) :
  isAccessible (mFormat src) = true ->
  laid_out src bs ls -> laid_out dst bd ld -> bs <> bd ->
  mFormat dst = mFormat src ->
  heap s !! bs = Some ls -> heap s !! bd = Some ld ->
  exists stepX stepY stepZ s',
    fixedStep (getWidth src) (getWidth dst) = Some stepX /\
    fixedStep (getHeight src) (getHeight dst) = Some stepY /\
    fixedStep (getDepth src) (getDepth dst) = Some stepZ /\
    scale src dst FILTER_NEAREST s = (Ret tt, s') /\
    heap s' !! bs = Some ls /\
    forall x y z c,
      in_extent dst x y z -> 0 <= c < elemSize dst ->
      in_extent src (nearestSource stepX x) (nearestSource stepY y)
                (nearestSource stepZ z) /\
      exists v,
        byte_at s bs (pixelStart src (nearestSource stepX x)
                        (nearestSource stepY y) (nearestSource stepZ z) + c)
        = Some v /\
        byte_at s' bd (pixelStart dst x y z + c) = Some v.
Proof. apply scale_nearest_sampled. Qed.

Lemma row_and_quad_laid_out :
  laid_out (buffer_at 0 2 1 1 PF_R8G8) 0 [10; 20; 30; 40; 50; 60; 70; 80] /\
  laid_out (buffer_at 1 4 2 1 PF_R8G8) 1 (replicate 16 0).
Proof.
  unfold laid_out. vm_compute.
  repeat split; try reflexivity; discriminate.
Qed.

Lemma scale_nearest_pixels_witness :
  exists stepX stepY stepZ s',
    fixedStep (getWidth (buffer_at 0 2 1 1 PF_R8G8))
              (getWidth (buffer_at 1 4 2 1 PF_R8G8)) = Some stepX /\
    fixedStep (getHeight (buffer_at 0 2 1 1 PF_R8G8))
              (getHeight (buffer_at 1 4 2 1 PF_R8G8)) = Some stepY /\
    fixedStep (getDepth (buffer_at 0 2 1 1 PF_R8G8))
              (getDepth (buffer_at 1 4 2 1 PF_R8G8)) = Some stepZ /\
    scale (buffer_at 0 2 1 1 PF_R8G8) (buffer_at 1 4 2 1 PF_R8G8)
          FILTER_NEAREST two_blocks = (Ret tt, s') /\
    heap s' !! 0%nat = Some [10; 20; 30; 40; 50; 60; 70; 80] /\
    forall x y z c,
      in_extent (buffer_at 1 4 2 1 PF_R8G8) x y z ->
      0 <= c < elemSize (buffer_at 1 4 2 1 PF_R8G8) ->
      in_extent (buffer_at 0 2 1 1 PF_R8G8) (nearestSource stepX x)
                (nearestSource stepY y) (nearestSource stepZ z) /\
      exists v,
        byte_at two_blocks 0
          (pixelStart (buffer_at 0 2 1 1 PF_R8G8) (nearestSource stepX x)
             (nearestSource stepY y) (nearestSource stepZ z) + c)
        = Some v /\
        byte_at s' 1 (pixelStart (buffer_at 1 4 2 1 PF_R8G8) x y z + c)
        = Some v.
Proof.
  apply (scale_nearest_pixels (buffer_at 0 2 1 1 PF_R8G8)
           (buffer_at 1 4 2 1 PF_R8G8) 0 1
           [10; 20; 30; 40; 50; 60; 70; 80] (replicate 16 0) two_blocks);
    try reflexivity.
  - apply row_and_quad_laid_out.
  - apply row_and_quad_laid_out.
  - discriminate.
Defined.

Lemma fixedStep_unique (a b step step' : Z) :
  fixedStep a b = Some step -> fixedStep a b = Some step' -> step' = step.
Proof. intros H H'. rewrite H in H'. injection H' as <-. reflexivity. Qed.

Lemma nearestSource_enlarge (w m step x : Z) :
  1 <= w -> 1 <= m -> m * w < 2 ^ 16 ->
  fixedStep w (m * w) = Some step -> 0 <= x < m * w ->
  nearestSource step x = x / m.
Proof.
  intros Hw Hm Hmw Hstep Hx.
  destruct (enlarge_coord w m Hw Hm Hmw) as (step' & Hs' & Hk).
  rewrite (fixedStep_unique _ _ _ _ Hstep Hs') in Hk.
  unfold nearestSource. rewrite Hk by lia. rewrite Z2Nat.id by lia.
  reflexivity.
Qed.

(** X22.  Enlarging by whole factors with the nearest filter repeats the
    pixels, within the 16 integer bits of the fixed-point positions: for a
    source and a destination that each start at the origin of an
    allocation of their own (left, top and front 0) and have extents from
    1 to 65535 along every axis, of the same accessible format, when the
    destination is [mx] times as wide, [my] times as high and [mz] times
    as deep as the source, [scale] returns, the source is unchanged, and
    the destination pixel [(x, y, z)] holds the bytes of the source pixel
    [(x / mx, y / my, z / mz)]. *)
Theorem scale_nearest_enlarge (src dst : PixelData) (bs bd : nat)
    (ls ld : list Z) (mx my mz : Z) (s : state) :
  isAccessible (mFormat src) = true ->
  laid_out src bs ls -> laid_out dst bd ld -> bs <> bd ->
  mFormat dst = mFormat src ->
  heap s !! bs = Some ls -> heap s !! bd = Some ld ->
  mRight dst = mx * mRight src -> mBottom dst = my * mBottom src ->
  mBack dst = mz * mBack src ->
  exists s',
    scale src dst FILTER_NEAREST s = (Ret tt, s') /\
    heap s' !! bs = Some ls /\
    forall x y z c,
      in_extent dst x y z -> 0 <= c < elemSize dst ->
      exists v,
        byte_at s bs (pixelStart src (x / mx) (y / my) (z / mz) + c)
        = Some v /\
        byte_at s' bd (pixelStart dst x y z + c) = Some v.
Proof.
  intros Hacc Hsrc Hdst Hdiff Hf Hs Hdd Hmx Hmy Hmz.
  destruct (scale_nearest_sampled src dst bs bd ls ld s Hacc Hsrc Hdst Hdiff
              Hf Hs Hdd)
    as (stepX & stepY & stepZ & s' & SX & SY & SZ & Hrun & Hs' & Hpix).
  destruct (laid_out_extents _ _ _ Hsrc) as (Ews & Ehs & Eds).
  destruct (laid_out_extents _ _ _ Hdst) as (Ew & Eh & Ed).
  pose proof Hdst as (_ & _ & _ & Hw & Hh & Hd & _).
  pose proof Hsrc as (_ & _ & _ & Hws & Hhs & Hds & _).
  rewrite Ews, Ew, Hmx in SX. rewrite Ehs, Eh, Hmy in SY.
  rewrite Eds, Ed, Hmz in SZ.
  assert (Hmx1 : 1 <= mx) by nia. assert (Hmy1 : 1 <= my) by nia.
  assert (Hmz1 : 1 <= mz) by nia.
  exists s'. split; [exact Hrun|]. split; [exact Hs'|].
  intros x y z c Hin Hc. destruct (Hpix x y z c Hin Hc) as (_ & Hv).
  destruct Hin as (Hx & Hy & Hz). rewrite Ew in Hx. rewrite Eh in Hy.
  rewrite Ed in Hz.
  rewrite (nearestSource_enlarge (mRight src) mx stepX x) in Hv
    by (try exact SX; lia).
  rewrite (nearestSource_enlarge (mBottom src) my stepY y) in Hv
    by (try exact SY; lia).
  rewrite (nearestSource_enlarge (mBack src) mz stepZ z) in Hv
    by (try exact SZ; lia).
  exact Hv.
Qed.

Lemma scale_nearest_enlarge_witness :
  exists s',
    scale (buffer_at 0 2 1 1 PF_R8G8) (buffer_at 1 4 2 1 PF_R8G8)
          FILTER_NEAREST two_blocks = (Ret tt, s') /\
    heap s' !! 0%nat = Some [10; 20; 30; 40; 50; 60; 70; 80] /\
    forall x y z c,
      in_extent (buffer_at 1 4 2 1 PF_R8G8) x y z ->
      0 <= c < elemSize (buffer_at 1 4 2 1 PF_R8G8) ->
      exists v,
        byte_at two_blocks 0
          (pixelStart (buffer_at 0 2 1 1 PF_R8G8) (x / 2) (y / 2) (z / 1) + c)
        = Some v /\
        byte_at s' 1 (pixelStart (buffer_at 1 4 2 1 PF_R8G8) x y z + c)
        = Some v.
Proof.
  apply (scale_nearest_enlarge (buffer_at 0 2 1 1 PF_R8G8)
           (buffer_at 1 4 2 1 PF_R8G8) 0 1
           [10; 20; 30; 40; 50; 60; 70; 80] (replicate 16 0) 2 2 1
           two_blocks);
    try reflexivity.
  - apply row_and_quad_laid_out.
  - apply row_and_quad_laid_out.
  - discriminate.
Defined.

(** That run: each of the two pixels twice in each of the two rows. *)
Example scale_nearest_enlarge_run :
  heap (snd (scale (buffer_at 0 2 1 1 PF_R8G8) (buffer_at 1 4 2 1 PF_R8G8)
                   FILTER_NEAREST two_blocks)) !! 1%nat
  = Some [10; 20; 10; 20; 30; 40; 30; 40; 10; 20; 10; 20; 30; 40; 30; 40].
Proof. vm_compute. reflexivity. Qed.

(** ** Buffers of any extents

    The facts about a buffer laid out from the origin of its allocation
    that do not depend on the 16 integer bits of the kernels' positions. *)

Lemma laid_out_placed (p : PixelData) (b : nat) (l : list Z) :
  laid_out p b l -> placed p b l.
Proof.
  intros (El & Et & Ef & Hw & Hh & Hd & Hrest).
  change (2 ^ 16) with 65536 in *.
  unfold placed. change (2 ^ 32) with 4294967296 in *.
  split; [exact El|]. split; [exact Et|]. split; [exact Ef|].
  split; [lia|]. split; [lia|]. split; [lia|]. exact Hrest.
Qed.

Lemma placed_extents (p : PixelData) (b : nat) (l : list Z) :
  placed p b l ->
  getWidth p = mRight p /\ getHeight p = mBottom p /\ getDepth p = mBack p.
Proof.
  intros (El & Et & Ef & Hw & Hh & Hd & _).
  unfold getWidth, getHeight, getDepth, u32.
  rewrite El, Et, Ef, !Z.sub_0_r.
  rewrite !Z.mod_small by lia. auto.
Qed.

Lemma placed_pitches (p : PixelData) (b : nat) (l : list Z) :
  placed p b l ->
  1 <= mRowPitch p /\
  mRowPitch p <= mBottom p * mRowPitch p /\
  mSlicePitch p <= mBack p * mSlicePitch p /\
  mSlicePitch p < 2 ^ 32 /\
  elemSize p * mRowPitch p <= elemSize p * mSlicePitch p /\
  elemSize p * (mBottom p * mRowPitch p) <= elemSize p * mSlicePitch p /\
  elemSize p * mSlicePitch p < 2 ^ 32.
Proof.
  intros (_ & _ & _ & Hw & Hh & Hd & Hrp & Hsp & He & _ & H32 & _).
  assert (H1 : 1 * mRowPitch p <= mBottom p * mRowPitch p)
    by (apply Z.mul_le_mono_nonneg_r; lia).
  assert (H2 : 1 * mSlicePitch p <= mBack p * mSlicePitch p)
    by (apply Z.mul_le_mono_nonneg_r; lia).
  assert (H3 : elemSize p * mSlicePitch p
               <= elemSize p * (mBack p * mSlicePitch p))
    by (apply Z.mul_le_mono_nonneg_l; lia).
  assert (H4 : 1 * mSlicePitch p <= elemSize p * mSlicePitch p)
    by (apply Z.mul_le_mono_nonneg_r; lia).
  assert (H5 : elemSize p * mRowPitch p <= elemSize p * mSlicePitch p)
    by (apply Z.mul_le_mono_nonneg_l; lia).
  assert (H6 : elemSize p * (mBottom p * mRowPitch p)
               <= elemSize p * mSlicePitch p)
    by (apply Z.mul_le_mono_nonneg_l; lia).
  lia.
Qed.

Lemma placed_pixel_within (p : PixelData) (b : nat) (l : list Z) (x y z : Z) :
  placed p b l -> in_extent p x y z ->
  0 <= x + y * mRowPitch p + z * mSlicePitch p /\
  0 <= pixelStart p x y z /\
  pixelStart p x y z + elemSize p <= elemSize p * (mBack p * mSlicePitch p).
Proof.
  intros Hp (Hx & Hy & Hz).
  destruct (placed_extents _ _ _ Hp) as (Ew & Eh & Ed).
  rewrite Ew in Hx. rewrite Eh in Hy. rewrite Ed in Hz.
  destruct Hp as (_ & _ & _ & Hw & Hh & Hd & Hrp & Hsp & He & _).
  assert (Hbr : 0 <= mBottom p * mRowPitch p)
    by (apply Z.mul_nonneg_nonneg; lia).
  assert (Hyr : y * mRowPitch p <= (mBottom p - 1) * mRowPitch p)
    by (apply Z.mul_le_mono_nonneg_r; lia).
  assert (Hzs : z * mSlicePitch p <= (mBack p - 1) * mSlicePitch p)
    by (apply Z.mul_le_mono_nonneg_r; lia).
  assert (H0 : 0 <= y * mRowPitch p) by (apply Z.mul_nonneg_nonneg; lia).
  assert (H1 : 0 <= z * mSlicePitch p) by (apply Z.mul_nonneg_nonneg; lia).
  rewrite Z.mul_sub_distr_r, Z.mul_1_l in Hyr, Hzs.
  set (idx := x + y * mRowPitch p + z * mSlicePitch p).
  assert (Hidx : 0 <= idx /\ idx + 1 <= mBack p * mSlicePitch p)
    by (unfold idx; lia).
  split; [lia|]. unfold pixelStart. fold idx. split.
  - apply Z.mul_nonneg_nonneg; lia.
  - replace (elemSize p * idx + elemSize p) with (elemSize p * (idx + 1))
      by ring.
    apply Z.mul_le_mono_nonneg_l; lia.
Qed.

Lemma placed_rank_bound (p : PixelData) (b : nat) (l : list Z) (x y z : Z) :
  placed p b l -> in_extent p x y z ->
  rank p x y z + 1 <= rank p 0 0 (getDepth p).
Proof.
  intros Hp (Hx & Hy & Hz). unfold rank.
  destruct Hp as (_ & _ & _ & _).
  set (w := getWidth p) in *. set (h := getHeight p) in *.
  set (d := getDepth p) in *.
  assert (H1 : h * z <= h * (d - 1)) by (apply Z.mul_le_mono_nonneg_l; lia).
  assert (H2 : w * (y + h * z) <= w * (h - 1 + h * (d - 1)))
    by (apply Z.mul_le_mono_nonneg_l; lia).
  replace (w * (h - 1 + h * (d - 1))) with (w * (h * d) - w) in H2 by ring.
  lia.
Qed.

Section PlacedSampled.

Variables (src dst : PixelData) (bs bd : nat) (ls ld : list Z).
Variables (fx fy fz : Z -> Z).
Hypothesis Hdst : placed dst bd ld.

(** Writing the next bytes of the pixel whose turn it is. *)
Lemma placed_sampled_store (n : Z) (s : state) (X Y Z0 C : Z) (bytes : list Z) :
  bs <> bd -> sampled src dst bs bd ls ld fx fy fz n s ->
  in_extent dst X Y Z0 -> 0 <= C ->
  C + Z.of_nat (length bytes) <= elemSize dst ->
  n = elemSize dst * rank dst X Y Z0 + C ->
  (forall i, (i < length bytes)%nat ->
             bytes !! i
             = ls !! Z.to_nat (pixelStart src (fx X) (fy Y) (fz Z0) + C
                                + Z.of_nat i)) ->
  exists s',
    store (mkPtr (Some bd) (pixelStart dst X Y Z0 + C)) bytes s
    = (Ret tt, s') /\
    sampled src dst bs bd ls ld fx fy fz (n + Z.of_nat (length bytes)) s'.
Proof.
  intros Hdiff (Hs & ld' & Hd & Hl & Hc) Hin HC Hfit Hn Hbytes.
  destruct (placed_extents _ _ _ Hdst) as (Ew & Eh & Ed).
  destruct (placed_pixel_within dst bd ld X Y Z0 Hdst Hin) as (_ & HP0 & HP1).
  pose proof Hdst as (_ & _ & _ & Hw & Hh & Hdd & Hrp & Hsp & He & Hlen & _).
  set (e := elemSize dst) in *.
  set (m := Z.of_nat (length bytes)) in *.
  set (D := pixelStart dst X Y Z0 + C).
  assert (HD : 0 <= D /\ D + m <= Z.of_nat (length ld')) by (unfold D; lia).
  unfold store. cbn [pblock poff]. rewrite Hd. unfold splice.
  replace ((0 <=? D) && (D + Z.of_nat (length bytes)
                         <=? Z.of_nat (length ld'))) with true
    by (symmetry; apply andb_true_intro; split; apply Z.leb_le;
        fold m; lia).
  eexists. split; [reflexivity|].
  split; [cbn [heap]; rewrite lookup_insert_ne by congruence; exact Hs|].
  eexists. split; [cbn [heap]; apply lookup_insert_eq|].
  split.
  { rewrite !length_app, length_take, length_drop. lia. }
  intros x y z c Hxyz Hcc Hlt.
  destruct (placed_pixel_within dst bd ld x y z Hdst Hxyz) as (_ & Hp0 & _).
  assert (Hdn : (Z.to_nat D + length bytes <= length ld')%nat) by lia.
  destruct (Z_lt_le_dec (e * rank dst x y z + c) n) as [Hold | Hnew].
  - rewrite overwrite_outside; [apply Hc; assumption | exact Hdn |].
    destruct (Z_lt_le_dec (pixelStart dst x y z + c) D) as [|Hge];
      [left; lia|].
    destruct (Z_lt_le_dec (pixelStart dst x y z + c) (D + m)) as [Hin2|];
      [|right; lia].
    exfalso. unfold D, pixelStart in Hge, Hin2. fold e in Hge, Hin2.
    destruct (block_unique e
                (x + y * mRowPitch dst + z * mSlicePitch dst) c
                (X + Y * mRowPitch dst + Z0 * mSlicePitch dst)
                (C + (e * (x + y * mRowPitch dst + z * mSlicePitch dst) + c
                      - e * (X + Y * mRowPitch dst + Z0 * mSlicePitch dst)
                      - C)))
      as (Hidx & Hcc'); [lia | lia | lia |].
    destruct Hxyz as (Hx & Hy & Hz). destruct Hin as (HX & HY & HZ).
    rewrite Ew in Hx, HX. rewrite Eh in Hy, HY.
    assert (Hsame : x = X /\ y = Y /\ z = Z0)
      by (apply (lex_unique (mRight dst) (mBottom dst) (mRowPitch dst)
                   (mSlicePitch dst)); lia).
    destruct Hsame as (-> & -> & ->). lia.
  - assert (Hr : rank dst x y z = rank dst X Y Z0)
      by (apply (block_floor e _ c); lia).
    assert (Hsame : x = X /\ y = Y /\ z = Z0).
    { unfold rank in Hr. rewrite Ew, Eh in Hr.
      destruct Hxyz as (Hx & Hy & Hz). destruct Hin as (HX & HY & HZ).
      rewrite Ew in Hx, HX. rewrite Eh in Hy, HY.
      apply (lex_unique (mRight dst) (mBottom dst) (mRight dst)
               (mBottom dst * mRight dst)); try lia. }
    destruct Hsame as (-> & -> & ->).
    replace (Z.to_nat (pixelStart dst X Y Z0 + c))
      with (Z.to_nat D + Z.to_nat (c - C))%nat by (unfold D; lia).
    rewrite overwrite_inside by lia.
    rewrite Hbytes by lia. f_equal. lia.
Qed.

End PlacedSampled.

Lemma placed_sampled_start (src dst : PixelData) (bs bd : nat) (ls ld : list Z)
    (fx fy fz : Z -> Z) (s : state) :
  placed dst bd ld ->
  heap s !! bs = Some ls -> heap s !! bd = Some ld ->
  sampled src dst bs bd ls ld fx fy fz 0 s.
Proof.
  intros Hdst Hs Hdd. split; [exact Hs|]. exists ld. split; [exact Hdd|].
  split; [reflexivity|]. intros x y z c Hin Hc Hlt.
  pose proof Hdst as (_ & _ & _ & _ & _ & _ & _ & _ & He & _).
  destruct Hin as (Hx & Hy & Hz). unfold rank in Hlt.
  assert (0 <= getWidth dst * (y + getHeight dst * z)).
  { apply Z.mul_nonneg_nonneg; [lia|].
    assert (0 <= getHeight dst * z) by (apply Z.mul_nonneg_nonneg; lia).
    lia. }
  assert (0 <= elemSize dst * (x + getWidth dst * (y + getHeight dst * z)))
    by (apply Z.mul_nonneg_nonneg; lia).
  lia.
Qed.

(** ** The copy between buffers of one format *)

(** From the byte of a pixel back to the pixel, within a range of whole
    pixels. *)
Lemma pixel_range (e idx c lo n : Z) :
  0 <= c < e -> e * lo <= e * idx + c < e * lo + e * n ->
  lo <= idx < lo + n.
Proof.
  intros Hc (H1 & H2). split.
  - destruct (Z_lt_le_dec idx lo) as [Hlt|]; [|assumption].
    assert (e * (idx + 1) <= e * lo) by (apply Z.mul_le_mono_nonneg_l; lia).
    rewrite Z.mul_add_distr_l in *. lia.
  - destruct (Z_lt_le_dec idx (lo + n)) as [|Hge]; [assumption|].
    assert (e * (lo + n) <= e * idx) by (apply Z.mul_le_mono_nonneg_l; lia).
    rewrite Z.mul_add_distr_l in *. lia.
Qed.

(** Writing the row whose turn it is. *)
Lemma sampled_store_row (src dst : PixelData) (bs bd : nat) (ls ld : list Z)
    (s : state) (Y Z0 : Z) (bytes : list Z) :
  placed dst bd ld -> bs <> bd -> elemSize src = elemSize dst ->
  sampled src dst bs bd ls ld (fun v => v) (fun v => v) (fun v => v)
          (elemSize dst * rank dst 0 Y Z0) s ->
  0 <= Y < mBottom dst -> 0 <= Z0 < mBack dst ->
  Z.of_nat (length bytes) = elemSize dst * mRight dst ->
  (forall i, (i < length bytes)%nat ->
             bytes !! i
             = ls !! Z.to_nat (pixelStart src 0 Y Z0 + Z.of_nat i)) ->
  exists s',
    store (mkPtr (Some bd) (pixelStart dst 0 Y Z0)) bytes s = (Ret tt, s') /\
    sampled src dst bs bd ls ld (fun v => v) (fun v => v) (fun v => v)
            (elemSize dst * rank dst 0 (Y + 1) Z0) s'.
Proof.
  intros Hdst Hdiff Hee (Hs & ld' & Hd & Hl & Hc) HY HZ Hm Hbytes.
  destruct (placed_extents _ _ _ Hdst) as (Ew & Eh & Ed).
  pose proof Hdst as (_ & _ & _ & Hw & Hh & Hdd & Hrp & Hsp & He & Hlen & _).
  set (e := elemSize dst) in *. set (w := mRight dst) in *.
  set (h := mBottom dst) in *. set (rp := mRowPitch dst) in *.
  set (sp := mSlicePitch dst) in *.
  assert (Hlast : in_extent dst (w - 1) Y Z0)
    by (unfold in_extent; rewrite Ew, Eh, Ed; fold w h; lia).
  destruct (placed_pixel_within dst bd ld _ _ _ Hdst Hlast) as (_ & _ & HP1).
  assert (Hfirst : in_extent dst 0 Y Z0)
    by (unfold in_extent; rewrite Ew, Eh, Ed; fold w h; lia).
  destruct (placed_pixel_within dst bd ld _ _ _ Hdst Hfirst) as (_ & HP0 & _).
  set (D := pixelStart dst 0 Y Z0) in *.
  set (B := Y * rp + Z0 * sp).
  assert (ED : D = e * B) by (unfold D, pixelStart, B; fold e rp sp; ring).
  assert (Eend : pixelStart dst (w - 1) Y Z0 + e = D + e * w)
    by (unfold D, pixelStart; fold e rp sp; ring).
  fold e in HP1. rewrite Eend in HP1.
  set (m := Z.of_nat (length bytes)) in *.
  unfold store. cbn [pblock poff]. rewrite Hd. unfold splice.
  replace ((0 <=? D) && (D + Z.of_nat (length bytes)
                         <=? Z.of_nat (length ld'))) with true
    by (symmetry; apply andb_true_intro; split; apply Z.leb_le;
        fold m; lia).
  eexists. split; [reflexivity|].
  split; [cbn [heap]; rewrite lookup_insert_ne by congruence; exact Hs|].
  eexists. split; [cbn [heap]; apply lookup_insert_eq|].
  split.
  { rewrite !length_app, length_take, length_drop. lia. }
  intros x y z c Hxyz Hcc Hlt. cbv beta.
  destruct (placed_pixel_within dst bd ld x y z Hdst Hxyz) as (_ & Hp0 & _).
  assert (Hdn : (Z.to_nat D + length bytes <= length ld')%nat) by lia.
  pose proof Hxyz as (Hx & Hy & Hz). rewrite Ew in Hx. rewrite Eh in Hy.
  rewrite Ed in Hz. fold w in Hx. fold h in Hy.
  set (T := Y + h * Z0).
  assert (En : e * rank dst 0 Y Z0 = e * (w * T))
    by (unfold rank; rewrite Ew, Eh; fold w h; unfold T; ring).
  assert (En1 : e * rank dst 0 (Y + 1) Z0 = e * (w * T) + e * w)
    by (unfold rank; rewrite Ew, Eh; fold w h; unfold T; ring).
  rewrite En1 in Hlt.
  assert (Er : rank dst x y z = x + (y + z * h) * w)
    by (unfold rank; rewrite Ew, Eh; fold w h; ring).
  set (idx := x + y * rp + z * sp).
  assert (EP : pixelStart dst x y z = e * idx)
    by (unfold pixelStart, idx; fold e rp sp; reflexivity).
  destruct (Z_lt_le_dec (e * rank dst x y z + c) (e * (w * T)))
    as [Hold | Hnew].
  - rewrite overwrite_outside;
      [apply Hc; [exact Hxyz | exact Hcc | rewrite En; exact Hold]
      | exact Hdn |].
    destruct (Z_lt_le_dec (e * idx + c) D) as [|Hge];
      [left; rewrite EP; lia|].
    destruct (Z_lt_le_dec (e * idx + c) (D + m)) as [Hin2|];
      [|right; rewrite EP; lia].
    exfalso. rewrite ED in Hge, Hin2. rewrite Hm in Hin2. fold e w in Hin2.
    destruct (pixel_range e idx c B w Hcc (conj Hge Hin2)) as (Hi1 & Hi2).
    destruct (lex_unique w h rp sp x y z (idx - B) Y Z0)
      as (_ & Ey & Ez); [lia | lia | lia | lia | lia | lia | lia
                         | unfold idx, B in *; lia |].
    subst y z.
    assert (0 <= e * x) by (apply Z.mul_nonneg_nonneg; lia).
    rewrite Er in Hold.
    replace (e * (x + (Y + Z0 * h) * w)) with (e * (w * T) + e * x) in Hold
      by (unfold T; ring).
    lia.
  - assert (Hrk : w * T <= rank dst x y z < w * T + w)
      by (apply (pixel_range e _ c); [exact Hcc | lia]).
    destruct (euclid_unique w (y + z * h) x T (rank dst x y z - w * T))
      as (ET & _); [lia | lia | lia |].
    destruct (euclid_unique h z y Z0 Y) as (Ez & Ey);
      [lia | lia | unfold T in ET; lia |].
    subst y z.
    assert (Hex : 0 <= e * x /\ e * x + e <= e * w).
    { split; [apply Z.mul_nonneg_nonneg; lia|].
      replace (e * x + e) with (e * (x + 1)) by ring.
      apply Z.mul_le_mono_nonneg_l; lia. }
    replace (Z.to_nat (pixelStart dst x Y Z0 + c))
      with (Z.to_nat D + Z.to_nat (e * x + c))%nat
      by (rewrite EP, ED; unfold idx, B; lia).
    rewrite overwrite_inside by lia.
    rewrite Hbytes by lia. f_equal.
    unfold pixelStart. rewrite Hee. fold e. lia.
Qed.

Lemma u32_pitch (p : PixelData) (b : nat) (l : list Z) :
  placed p b l ->
  u32 (mRowPitch p * elemSize p) = elemSize p * mRowPitch p /\
  u32 (getSliceSkip p * elemSize p)
  = elemSize p * (mSlicePitch p - mBottom p * mRowPitch p) /\
  u32 (getWidth p * elemSize p) = elemSize p * mRight p /\
  originBytes p (elemSize p) = 0.
Proof.
  intros Hp. destruct (placed_extents _ _ _ Hp) as (Ew & Eh & Ed).
  pose proof (placed_pitches _ _ _ Hp)
    as (Hp1 & Hp2 & Hp3 & Hp4 & Hp5 & Hp6 & Hp7).
  pose proof Hp as (El & Et & Ef & Hw & Hh & Hd & Hrp & Hsp & He & _).
  assert (Hhr : 0 <= mBottom p * mRowPitch p)
    by (apply Z.mul_nonneg_nonneg; lia).
  assert (Her : 0 <= elemSize p * mRowPitch p)
    by (apply Z.mul_nonneg_nonneg; lia).
  assert (Hew : 0 <= elemSize p * mRight p <= elemSize p * mRowPitch p).
  { split; [apply Z.mul_nonneg_nonneg; lia|].
    apply Z.mul_le_mono_nonneg_l; lia. }
  assert (Hes : 0 <= elemSize p * (mSlicePitch p - mBottom p * mRowPitch p)
                <= elemSize p * mSlicePitch p).
  { split; [apply Z.mul_nonneg_nonneg; lia|].
    apply Z.mul_le_mono_nonneg_l; lia. }
  split; [|split; [|split]].
  - rewrite Z.mul_comm. apply u32_small. lia.
  - unfold getSliceSkip. rewrite Eh.
    rewrite (u32_small (mBottom p * mRowPitch p)) by lia.
    rewrite (u32_small (mSlicePitch p - mBottom p * mRowPitch p)) by lia.
    rewrite Z.mul_comm. apply u32_small. lia.
  - rewrite Ew, Z.mul_comm. apply u32_small. lia.
  - unfold originBytes. rewrite El, Et, Ef. reflexivity.
Qed.

Lemma copyRows_sampled (src dst : PixelData) (bs bd : nat) (ls ld : list Z)
    (s : state) :
  placed src bs ls -> placed dst bd ld -> bs <> bd ->
  mFormat dst = mFormat src ->
  mRight dst = mRight src -> mBottom dst = mBottom src ->
  mBack dst = mBack src ->
  sampled src dst bs bd ls ld (fun v => v) (fun v => v) (fun v => v) 0 s ->
  exists s',
    copyRows src dst s = (Ret tt, s') /\
    sampled src dst bs bd ls ld (fun v => v) (fun v => v) (fun v => v)
            (elemSize dst * rank dst 0 0 (getDepth dst)) s'.
Proof.
  intros Hsrc Hdst Hdiff Hf Hwid Hhei Hdep H0.
  destruct (placed_extents _ _ _ Hsrc) as (Ews & Ehs & Eds).
  destruct (placed_extents _ _ _ Hdst) as (Ew & Eh & Ed).
  pose proof Hdst as (El & Et & Ef & Hw & Hh & Hd & Hrp & Hsp & He & Hlen
                      & H32 & Hdata).
  pose proof Hsrc as (Els & Ets & Efs & Hws & Hhs & Hds & Hrps & Hsps & Hes
                      & Hlens & _ & Hdatas).
  assert (Ee : elemSize src = elemSize dst)
    by (unfold elemSize; rewrite Hf; reflexivity).
  destruct (u32_pitch _ _ _ Hsrc) as (Ps1 & Ps2 & Ps3 & Ps4).
  destruct (u32_pitch _ _ _ Hdst) as (Pd1 & Pd2 & Pd3 & Pd4).
  unfold copyRows. cbv zeta.
  fold (elemSize src) (elemSize dst).
  rewrite Ps1, Ps2, Ps3, Ps4, Pd1, Pd2, Pd4.
  unfold trip. rewrite Ets, Efs, !Z.sub_0_r.
  set (e := elemSize dst) in *.
  match goal with
  | |- context [loop ?n0 ?b0 ?x0] =>
      destruct (triple_loop
                  (fun k (x : ptr * ptr) s =>
                     fst x = mkPtr (Some bs)
                                   (pixelStart src 0 0 (Z.of_nat k)) /\
                     snd x = mkPtr (Some bd)
                                   (pixelStart dst 0 0 (Z.of_nat k)) /\
                     sampled src dst bs bd ls ld (fun v => v) (fun v => v)
                             (fun v => v)
                             (e * rank dst 0 0 (Z.of_nat k)) s)
                  n0 b0) with (x := x0) (s := s) as (r & s' & E & _ & _ & Hc)
  end.
  - (* one slice *)
    intros kz [pS pD] HkZ sz (HpS & HpD & HZ). cbn [fst snd] in HpS, HpD.
    subst pS pD.
    match goal with
    | |- context [loop ?n0 ?b0 ?x0] =>
        destruct (triple_loop
                    (fun k (x : ptr * ptr) s =>
                       fst x = mkPtr (Some bs)
                                     (pixelStart src 0 (Z.of_nat k)
                                                 (Z.of_nat kz)) /\
                       snd x = mkPtr (Some bd)
                                     (pixelStart dst 0 (Z.of_nat k)
                                                 (Z.of_nat kz)) /\
                       sampled src dst bs bd ls ld (fun v => v) (fun v => v)
                               (fun v => v)
                               (e * rank dst 0 (Z.of_nat k) (Z.of_nat kz)) s)
                    n0 b0) with (x := x0) (s := sz)
          as ([pS pD] & sy & E & HpS & HpD & HY)
    end.
    + (* one row *)
      intros ky [pS pD] HkY sy (HpS & HpD & HY). cbn [fst snd] in HpS, HpD.
      subst pS pD.
      assert (Hlast : in_extent src (mRight src - 1) (Z.of_nat ky)
                        (Z.of_nat kz))
        by (unfold in_extent; rewrite Ews, Ehs, Eds; lia).
      destruct (placed_pixel_within src bs ls _ _ _ Hsrc Hlast) as (_ & _ & Hs1).
      assert (Hfirst : in_extent src 0 (Z.of_nat ky) (Z.of_nat kz))
        by (unfold in_extent; rewrite Ews, Ehs, Eds; lia).
      destruct (placed_pixel_within src bs ls _ _ _ Hsrc Hfirst) as (_ & Hs0 & _).
      set (off := pixelStart src 0 (Z.of_nat ky) (Z.of_nat kz)) in *.
      assert (Eend : pixelStart src (mRight src - 1) (Z.of_nat ky)
                       (Z.of_nat kz) + elemSize src
                     = off + elemSize src * mRight src)
        by (unfold off, pixelStart; ring).
      rewrite Eend in Hs1.
      assert (Hm0 : 0 <= elemSize src * mRight src)
        by (apply Z.mul_nonneg_nonneg; lia).
      destruct (sampled_load src dst bs bd ls ld _ _ _ _ off
                  (elemSize src * mRight src) sy HY)
        as (s1 & El1 & H1); [lia | lia | lia |].
      set (bytes := take (Z.to_nat (elemSize src * mRight src))
                         (drop (Z.to_nat off) ls)) in *.
      assert (Hlb : length bytes = Z.to_nat (elemSize src * mRight src))
        by (unfold bytes; rewrite length_take, length_drop; lia).
      destruct (sampled_store_row src dst bs bd ls ld s1 (Z.of_nat ky)
                  (Z.of_nat kz) bytes Hdst Hdiff Ee H1)
        as (s2 & Es2 & H2);
        [lia | lia | rewrite Hlb, Ee, Hwid; fold e; lia
        | intros i Hi; unfold bytes; rewrite lookup_take_lt by lia;
          rewrite lookup_drop; f_equal; lia |].
      eexists (_, _), s2. split.
      { unfold memcpy.
        rewrite (bind_eq _ _ sy s2 tt); [reflexivity|].
        rewrite (bind_eq _ _ _ _ _ El1). exact Es2. }
      cbn [fst snd]. split; [|split].
      * unfold ptr_add. cbn [pblock poff]. f_equal.
        unfold off, pixelStart. rewrite Nat2Z.inj_succ. ring.
      * unfold ptr_add. cbn [pblock poff]. f_equal.
        unfold pixelStart. fold e. rewrite Nat2Z.inj_succ. ring.
      * replace (Z.of_nat (S ky)) with (Z.of_nat ky + 1) by lia. exact H2.
    + split; [reflexivity|]. split; [reflexivity | exact HZ].
    + (* end of the slice *)
      cbn [fst snd] in HpS, HpD. subst pS pD.
      rewrite (bind_eq _ _ _ _ _ E).
      eexists (_, _), sy. split; [reflexivity|].
      cbn [fst snd]. split; [|split].
      * unfold ptr_add. cbn [pblock poff]. f_equal.
        unfold pixelStart. rewrite Z2Nat.id, Nat2Z.inj_succ by lia. ring.
      * unfold ptr_add. cbn [pblock poff]. f_equal.
        unfold pixelStart. fold e. rewrite <- Hhei.
        rewrite Z2Nat.id, Nat2Z.inj_succ by lia. ring.
      * replace (e * rank dst 0 0 (Z.of_nat (S kz)))
          with (e * rank dst 0 (Z.of_nat (Z.to_nat (mBottom src)))
                             (Z.of_nat kz)); [exact HY|].
        unfold rank. rewrite Ew, Eh, <- Hhei, Z2Nat.id, Nat2Z.inj_succ by lia.
        ring.
  - split; [|split].
    + unfold getData, ptr_add. cbn [fst pblock poff]. rewrite Hdatas.
      unfold pixelStart. f_equal. cbn [Z.of_nat]. ring.
    + unfold getData, ptr_add. cbn [snd pblock poff]. rewrite Hdata.
      unfold pixelStart. f_equal. cbn [Z.of_nat]. ring.
    + apply (sampled_weaken src dst bs bd ls ld _ _ _ 0); [|exact H0].
      unfold rank. rewrite Ew, Eh. cbn [Z.of_nat]. lia.
  - exists s'. split.
    + rewrite (bind_eq _ _ _ _ _ E). reflexivity.
    + rewrite <- Hdep, Z2Nat.id in Hc by lia. rewrite Ed. exact Hc.
Qed.

Lemma consecutive_copy_sampled (src dst : PixelData) (bs bd : nat)
    (ls ld : list Z) (s : state) :
  placed src bs ls -> placed dst bd ld -> bs <> bd ->
  mFormat dst = mFormat src -> isCompressed (mFormat src) = false ->
  mRight dst = mRight src -> mBottom dst = mBottom src ->
  mBack dst = mBack src ->
  isConsecutive src && isConsecutive dst = true ->
  heap s !! bs = Some ls -> heap s !! bd = Some ld ->
  exists s',
    (let* n := run_pure (getConsecutiveSize src) in
     memcpy (getData dst) (getData src) n) s = (Ret tt, s') /\
    sampled src dst bs bd ls ld (fun v => v) (fun v => v) (fun v => v)
            (elemSize dst * rank dst 0 0 (getDepth dst)) s'.
Proof.
  intros Hsrc Hdst Hdiff Hf Hcomp Hwid Hhei Hdep Hcons Hs Hdd.
  destruct (placed_extents _ _ _ Hsrc) as (Ews & Ehs & Eds).
  destruct (placed_extents _ _ _ Hdst) as (Ew & Eh & Ed).
  pose proof Hdst as (El & Et & Ef & Hw & Hh & Hd & Hrp & Hsp & He & Hlen
                      & H32 & Hdata).
  pose proof Hsrc as (Els & Ets & Efs & Hws & Hhs & Hds & Hrps & Hsps & Hes
                      & Hlens & H32s & Hdatas).
  assert (Ee : elemSize src = elemSize dst)
    by (unfold elemSize; rewrite Hf; reflexivity).
  apply andb_prop in Hcons as (Hcs & Hcd).
  unfold isConsecutive in Hcs, Hcd.
  apply andb_prop in Hcs as (Hrs & Hss). apply andb_prop in Hcd as (Hrd & Hsd).
  apply Z.eqb_eq in Hrs, Hss, Hrd, Hsd.
  rewrite Ews in Hrs, Hss. rewrite Ehs in Hss.
  rewrite Ew in Hrd, Hsd. rewrite Eh in Hsd.
  assert (Hwh : 0 <= mRight src * mBottom src)
    by (apply Z.mul_nonneg_nonneg; lia).
  assert (Hwh16 : mRight src * mBottom src < 2 ^ 32).
  { pose proof (placed_pitches _ _ _ Hsrc) as (_ & _ & _ & Hp4 & _).
    rewrite Hrs in Hsps. nia. }
  rewrite u32_small in Hss by lia.
  rewrite <- Hwid, <- Hhei in Hwh, Hwh16.
  rewrite u32_small in Hsd by lia.
  set (e := elemSize dst) in *.
  set (n := e * (mRight dst * mBottom dst * mBack dst)).
  assert (Hn : n = e * (mBack dst * mSlicePitch dst))
    by (unfold n; rewrite Hsd; ring).
  assert (Hn0 : 0 <= n).
  { rewrite Hn. apply Z.mul_nonneg_nonneg; [lia|].
    apply Z.mul_nonneg_nonneg; lia. }
  assert (Hsize : getConsecutiveSize src = Ret n).
  { unfold getConsecutiveSize, getMemorySize. rewrite Hcomp.
    rewrite Ews, Ehs, Eds, <- Hwid, <- Hhei, <- Hdep.
    fold (elemSize src). rewrite Ee. fold e. f_equal.
    rewrite !u32_mul_l. unfold n.
    rewrite (u32_small (mRight dst * mBottom dst)) by lia.
    rewrite u32_small; [ring|].
    replace (mRight dst * mBottom dst * mBack dst * e) with n
      by (unfold n; ring).
    lia. }
  rewrite (bind_eq _ _ s s n) by (unfold run_pure; rewrite Hsize; reflexivity).
  unfold memcpy, getData. rewrite Hdata, Hdatas.
  assert (Hls : n <= Z.of_nat (length ls)).
  { rewrite Hn, Hsd, <- Ee, Hwid, Hhei, Hdep, <- Hss. exact Hlens. }
  destruct (sampled_load src dst bs bd ls ld (fun v => v) (fun v => v)
              (fun v => v) 0 0 n s
              (placed_sampled_start _ _ _ _ _ _ _ _ _ _ Hdst Hs Hdd))
    as (s1 & El1 & (Hs1 & ld1 & Hd1 & Hl1 & _)); [lia | lia | lia |].
  rewrite (bind_eq _ _ _ _ _ El1).
  set (bytes := take (Z.to_nat n) (drop (Z.to_nat 0) ls)).
  assert (Hlb : length bytes = Z.to_nat n)
    by (unfold bytes; rewrite length_take, length_drop; lia).
  unfold store. cbn [pblock poff]. rewrite Hd1. unfold splice.
  replace ((0 <=? 0) && (0 + Z.of_nat (length bytes)
                         <=? Z.of_nat (length ld1))) with true
    by (symmetry; apply andb_true_intro; split; apply Z.leb_le; lia).
  eexists. split; [reflexivity|].
  split; [cbn [heap]; rewrite lookup_insert_ne by congruence; exact Hs1|].
  eexists. split; [cbn [heap]; apply lookup_insert_eq|].
  split.
  { rewrite !length_app, length_take, length_drop. lia. }
  intros x y z c Hin Hcc Hlt. cbv beta.
  destruct (placed_pixel_within dst bd ld x y z Hdst Hin) as (_ & Hp0 & Hp1).
  fold e in Hp1. rewrite <- Hn in Hp1.
  replace (Z.to_nat (pixelStart dst x y z + c))
    with (Z.to_nat 0 + Z.to_nat (pixelStart dst x y z + c))%nat by lia.
  rewrite overwrite_inside by lia.
  unfold bytes. rewrite lookup_take_lt by lia. rewrite lookup_drop.
  f_equal.
  assert (Eps : pixelStart src x y z = pixelStart dst x y z).
  { unfold pixelStart. rewrite Ee. fold e.
    rewrite Hrs, Hss, Hrd, Hsd, Hwid, Hhei. reflexivity. }
  rewrite Eps. lia.
Qed.

(** X23.  Between two buffers of the same uncompressed format and the same
    extents that each start at the origin of an allocation of their own
    (left, top and front 0), whatever their extents (at least one pixel
    along every axis, rows within the row pitch, slices within the slice
    pitch, all slices inside the allocation and within 32-bit byte
    offsets), [bulkPixelConversion] returns, leaves the source allocation
    as it was, and puts in every pixel of the destination the bytes of the
    pixel of the source at the same coordinates, whether it copies in one
    piece (both buffers consecutive) or row by row (pitches with
    padding).  Nothing is said of a region that starts off the origin. *)
Theorem bulkPixelConversion_same_format (src dst : PixelData) (bs bd : nat)
    (ls ld : list Z) (s : state) :
  isCompressed (mFormat src) = false ->
  placed src bs ls -> placed dst bd ld -> bs <> bd ->
  mFormat dst = mFormat src ->
  mRight dst = mRight src -> mBottom dst = mBottom src ->
  mBack dst = mBack src ->
  heap s !! bs = Some ls -> heap s !! bd = Some ld ->
  exists s',
    bulkPixelConversion src dst s = (Ret tt, s') /\
    heap s' !! bs = Some ls /\
    forall x y z c,
      in_extent dst x y z -> 0 <= c < elemSize dst ->
      exists v,
        byte_at s bs (pixelStart src x y z + c) = Some v /\
        byte_at s' bd (pixelStart dst x y z + c) = Some v.
Proof.
  intros Hcomp Hsrc Hdst Hdiff Hf Hwid Hhei Hdep Hs Hdd.
  destruct (placed_extents _ _ _ Hsrc) as (Ews & Ehs & Eds).
  destruct (placed_extents _ _ _ Hdst) as (Ew & Eh & Ed).
  assert (Hrun : exists s',
             bulkPixelConversion src dst s = (Ret tt, s') /\
             sampled src dst bs bd ls ld (fun v => v) (fun v => v)
                     (fun v => v)
                     (elemSize dst * rank dst 0 0 (getDepth dst)) s').
  { unfold bulkPixelConversion. remember 2%nat as fuel eqn:Hfuel.
    cbn [bulkPixelConversion_rec].
    assert (Hext : (getWidth src =? getWidth dst)
                   && (getHeight src =? getHeight dst)
                   && (getDepth src =? getDepth dst) = true)
      by (apply same_extents; congruence).
    rewrite (bind_eq _ _ s s tt (assert_true _ s Hext)).
    rewrite Hf, Hcomp. cbn [orb].
    rewrite (bool_decide_eq_true_2 _ eq_refl).
    destruct (isConsecutive src && isConsecutive dst) eqn:Hcons.
    - apply (consecutive_copy_sampled src dst bs bd ls ld s); assumption.
    - apply (copyRows_sampled src dst bs bd ls ld s); try assumption.
      apply placed_sampled_start; assumption. }
  destruct Hrun as (s' & Hrun & Hs' & ld' & Hd' & Hl' & Hc).
  exists s'. split; [exact Hrun|]. split; [exact Hs'|].
  intros x y z c Hin Hcc.
  assert (Hins : in_extent src x y z).
  { destruct Hin as (Hx & Hy & Hz). unfold in_extent.
    rewrite Ews, Ehs, Eds, <- Hwid, <- Hhei, <- Hdep, <- Ew, <- Eh, <- Ed.
    auto. }
  destruct (placed_pixel_within src bs ls x y z Hsrc Hins) as (_ & Hp0 & Hp1).
  pose proof Hsrc as (_ & _ & _ & _ & _ & _ & _ & _ & He & Hlen & _).
  assert (Ee : elemSize dst = elemSize src)
    by (unfold elemSize; rewrite Hf; reflexivity).
  destruct (lookup_lt_is_Some_2 ls (Z.to_nat (pixelStart src x y z + c)))
    as (v & Ev); [lia|].
  exists v. unfold byte_at. rewrite Hs, Hd'. split; [exact Ev|].
  rewrite Hc; [exact Ev | exact Hin | exact Hcc |].
  pose proof (placed_rank_bound dst bd ld x y z Hdst Hin) as Hr.
  pose proof Hdst as (_ & _ & _ & _ & _ & _ & _ & _ & Hed & _).
  assert (elemSize dst * (rank dst x y z + 1)
          <= elemSize dst * rank dst 0 0 (getDepth dst))
    by (apply Z.mul_le_mono_nonneg_l; lia).
  rewrite Z.mul_add_distr_l in *. lia.
Qed.

(** A row of two pixels inside rows of four: a source and a destination
    with padding, for the row-by-row copy. *)
Lemma padded_rows_placed :
  placed (mkPixelData 0 0 1 2 0 1 2 4 PF_R8G8 (Some 0%nat)) 0
         [10; 20; 30; 40; 50; 60; 70; 80] /\
  placed (mkPixelData 0 0 1 2 0 1 4 8 PF_R8G8 (Some 1%nat)) 1
         (replicate 16 0).
Proof.
  unfold placed. vm_compute.
  repeat split; try reflexivity; discriminate.
Qed.

Lemma bulkPixelConversion_same_format_witness :
  exists s',
    bulkPixelConversion (mkPixelData 0 0 1 2 0 1 2 4 PF_R8G8 (Some 0%nat))
                        (mkPixelData 0 0 1 2 0 1 4 8 PF_R8G8 (Some 1%nat))
                        two_blocks = (Ret tt, s') /\
    heap s' !! 0%nat = Some [10; 20; 30; 40; 50; 60; 70; 80] /\
    forall x y z c,
      in_extent (mkPixelData 0 0 1 2 0 1 4 8 PF_R8G8 (Some 1%nat)) x y z ->
      0 <= c < elemSize (mkPixelData 0 0 1 2 0 1 4 8 PF_R8G8 (Some 1%nat)) ->
      exists v,
        byte_at two_blocks 0
          (pixelStart (mkPixelData 0 0 1 2 0 1 2 4 PF_R8G8 (Some 0%nat))
                      x y z + c) = Some v /\
        byte_at s' 1
          (pixelStart (mkPixelData 0 0 1 2 0 1 4 8 PF_R8G8 (Some 1%nat))
                      x y z + c) = Some v.
Proof.
  apply (bulkPixelConversion_same_format
           (mkPixelData 0 0 1 2 0 1 2 4 PF_R8G8 (Some 0%nat))
           (mkPixelData 0 0 1 2 0 1 4 8 PF_R8G8 (Some 1%nat)) 0 1
           [10; 20; 30; 40; 50; 60; 70; 80] (replicate 16 0) two_blocks);
    try reflexivity.
  - apply padded_rows_placed.
  - apply padded_rows_placed.
  - discriminate.
Defined.

(** That run: the first pixel of each source row, at the start of each
    destination row. *)
Example bulkPixelConversion_rows_run :
  heap (snd (bulkPixelConversion
               (mkPixelData 0 0 1 2 0 1 2 4 PF_R8G8 (Some 0%nat))
               (mkPixelData 0 0 1 2 0 1 4 8 PF_R8G8 (Some 1%nat))
               two_blocks)) !! 1%nat
  = Some [10; 20; 0; 0; 0; 0; 0; 0; 50; 60; 0; 0; 0; 0; 0; 0].
Proof. vm_compute. reflexivity. Qed.

(** ** The channels a format does not store *)

(** X24.  What [unpackColor] returns for a colour channel that an
    accessible format does not store depends on the kind of format: from a
    byte format the missing green or blue is 0, from a float format it is a
    copy of the channel before it (a one-channel float format reads as
    grey, a one-channel byte format as red). *)
Theorem unpackColor_missing_channels (f : PixelFormat) (bs : list Z) :
  isAccessible f = true ->
  exists r g b a,
    unpackColor_bytes f bs = Ret (r, g, b, a) /\
    (gbits (getDescriptionFor f) = 0 ->
     g = if isFloatingPoint f then r else F32.zero) /\
    (bbits (getDescriptionFor f) = 0 ->
     b = if isFloatingPoint f then g else F32.zero).
Proof.
  intros Hacc.
  destruct f; try discriminate Hacc;
    (eexists _, _, _, _; split; [reflexivity|]);
    split; intros H; try discriminate H; reflexivity.
Qed.

Lemma unpackColor_missing_channels_witness :
  exists r g b a,
    unpackColor_bytes PF_FLOAT32_R [0; 0; 0; 63] = Ret (r, g, b, a) /\
    (gbits (getDescriptionFor PF_FLOAT32_R) = 0 ->
     g = if isFloatingPoint PF_FLOAT32_R then r else F32.zero) /\
    (bbits (getDescriptionFor PF_FLOAT32_R) = 0 ->
     b = if isFloatingPoint PF_FLOAT32_R then g else F32.zero).
Proof.
  apply (unpackColor_missing_channels PF_FLOAT32_R [0; 0; 0; 63]).
  reflexivity.
Defined.

(** ** Extents beyond the fixed-point range *)

(** X25.  The step of a kernel sees only the low 16 bits of the source
    extent, since [(UINT64)extent << 48] keeps no more: a source extent of
    [w + 65536 * n] gives the step of the extent [w], and a source extent
    of exactly 65536 gives the step 0, with which every sampling position
    is [2^64 - 1] and every destination pixel takes the source coordinate
    65535. *)
Theorem fixedStep_wraps (w n dstExtent : Z) (k : nat) :
  fixedStep (w + 65536 * n) dstExtent = fixedStep w dstExtent /\
  fixedStep 65536 dstExtent = (if dstExtent =? 0 then None else Some 0) /\
  nearestCoord (coordAt 0 k) = 65535.
Proof.
  split; [|split].
  - unfold fixedStep. f_equal. unfold u64.
    rewrite !Z.shiftl_mul_pow2 by lia.
    replace ((w + 65536 * n) * 2 ^ 48) with (w * 2 ^ 48 + n * 2 ^ 64)
      by (change (2 ^ 64) with (65536 * 2 ^ 48); ring).
    apply Z.mod_add. lia.
  - unfold fixedStep, udiv. destruct (dstExtent =? 0); reflexivity.
  - rewrite coordAt_stuck. reflexivity.
Qed.

(** ** The bilinear filter on an image of one colour *)

(** Reading one channel byte of the source while the destination is being
    filled. *)
Lemma sampled_loadU8 (src dst : PixelData) (bs bd : nat) (ls ld : list Z)
    (fx fy fz : Z -> Z) (n : Z) (s : state) (x y k : Z) :
  laid_out src bs ls -> Forall is_byte ls ->
  sampled src dst bs bd ls ld fx fy fz n s ->
  in_extent src x y 0 -> 0 <= k < elemSize src ->
  exists b s',
    loadU8 (ptr_add (getData src)
              (u32 (u32 (u32 (x + u32 (y * mRowPitch src)) * elemSize src)
                    + k))) 0 s
    = (Ret b, s') /\
    sampled src dst bs bd ls ld fx fy fz n s' /\
    ls !! Z.to_nat (pixelStart src x y 0 + k) = Some b /\ is_byte b.
Proof.
  intros Hsrc Hb Hc Hin Hk.
  pose proof (laid_out_samplable _ _ _ Hsrc) as Hsamp.
  pose proof Hsrc as (_ & _ & _ & _ & _ & _ & _ & _ & He & Hlen & _ & Hdata).
  destruct (pixel_within src bs ls x y 0 Hsrc Hin) as (_ & H0 & H1).
  rewrite (byte_offset_exact src x y k Hsamp Hin Hk).
  set (off := pixelStart src x y 0 + k) in *.
  destruct (lookup_lt_is_Some_2 ls (Z.to_nat off)) as (b & Eb); [lia|].
  destruct (sampled_load src dst bs bd ls ld fx fy fz n off 1 s Hc)
    as (s' & El & Hc'); [lia | lia | lia |].
  exists b, s'. unfold loadU8, ptr_add, getData. cbn [pblock poff].
  rewrite Hdata, Z.add_0_l, Z.add_0_r. rewrite (bind_eq _ _ _ _ _ El).
  rewrite (drop_S _ _ _ Eb). change (Z.to_nat 1) with 1%nat.
  cbn [take le_word]. rewrite Z.mul_0_r, Z.add_0_r.
  split; [reflexivity|].
  split; [exact Hc'|]. split; [exact Eb|].
  exact (Forall_lookup_1 _ _ _ _ Hb Eb).
Qed.

(** The two samples and the weight along one axis of the byte kernel. *)
Lemma byte_axis (slo shi dlo dhi step : Z) (k : nat) :
  1 <= u32 (shi - slo) -> dhi - dlo < 2 ^ 32 ->
  fixedStep (u32 (shi - slo)) (u32 (dhi - dlo)) = Some step ->
  (k < trip dlo dhi)%nat ->
  exists c1 c2 wgt,
    linearSample 12 (coordAt step k) (u32 (u32 (shi - slo) - 1))
    = (c1, c2, wgt) /\
    0 <= c1 < u32 (shi - slo) /\ 0 <= c2 < u32 (shi - slo) /\
    0 <= wgt < 4096.
Proof.
  intros Hs Hd Hstep Hk.
  destruct (linearSample 12 (coordAt step k) (u32 (u32 (shi - slo) - 1)))
    as [[c1 c2] wgt] eqn:E.
  exists c1, c2, wgt. split; [reflexivity|].
  exact (axis_sample 12 slo shi dlo dhi step k (or_intror eq_refl) Hs Hd
           Hstep Hk c1 c2 wgt E).
Qed.

Lemma blend_flat (t w11 w21 w12 w22 : Z) :
  is_byte t -> 0 <= w11 -> 0 <= w21 -> 0 <= w12 -> 0 <= w22 ->
  w11 + w21 + w12 + w22 = 2 ^ 24 ->
  roundToByte (u32 (u32 (u32 (u32 (t * w11) + u32 (t * w21))
                         + u32 (t * w12)) + u32 (t * w22))) = t.
Proof.
  intros Ht N1 N2 N3 N4 Hsum.
  pose proof (blend_between t t t t w11 w21 w12 w22 Ht Ht Ht Ht N1 N2 N3 N4
                Hsum) as H.
  rewrite !Z.min_id, !Z.max_id in H. lia.
Qed.

Lemma byte_flat (src dst : PixelData) (bs bd : nat) (ls ld : list Z)
    (stepX stepY : Z) (s : state) :
  laid_out src bs ls -> laid_out dst bd ld ->
  mFormat dst = mFormat src -> bs <> bd ->
  Forall is_byte ls -> flat src ls ->
  mBack src = 1 -> mBack dst = 1 ->
  fixedStep (getWidth src) (getWidth dst) = Some stepX ->
  fixedStep (getHeight src) (getHeight dst) = Some stepY ->
  sampled src dst bs bd ls ld (fun _ => 0) (fun _ => 0) (fun _ => 0) 0 s ->
  exists s',
    LinearResampler_Byte_scale (elemSize src) src dst s = (Ret tt, s') /\
    sampled src dst bs bd ls ld (fun _ => 0) (fun _ => 0) (fun _ => 0)
            (elemSize dst * rank dst 0 0 (getDepth dst)) s'.
Proof.
  intros Hsrc Hdst Hfmt Hdiff Hbytes Hflat Hfs Hfd SX SY H0.
  destruct (laid_out_extents _ _ _ Hsrc) as (Ews & Ehs & Eds).
  destruct (laid_out_extents _ _ _ Hdst) as (Ew & Eh & Ed).
  pose proof Hdst as (El & Et & Ef & Hw & Hh & Hd & Hrp & Hsp & He & Hlen
                      & H32 & Hdata).
  pose proof Hsrc as (Els & Ets & Efs & Hws & Hhs & Hds & _ & _ & Hes & Hlens
                      & _ & Hdatas).
  pose proof (laid_out_pitches _ _ _ Hdst)
    as (Hp1 & Hp2 & Hp3 & Hp4 & Hp5 & Hp6 & Hp7).
  assert (Ee : elemSize dst = elemSize src)
    by (unfold elemSize; rewrite Hfmt; reflexivity).
  assert (AX : forall k, (k < Z.to_nat (mRight dst))%nat ->
             exists c1 c2 wgt,
               linearSample 12 (coordAt stepX k)
                 (u32 (u32 (mRight src - mLeft src) - 1)) = (c1, c2, wgt) /\
               0 <= c1 < mRight src /\ 0 <= c2 < mRight src /\
               0 <= wgt < 4096).
  { intros k Hk. unfold getWidth in SX.
    destruct (byte_axis (mLeft src) (mRight src) (mLeft dst) (mRight dst)
                stepX k) as (c1 & c2 & wgt & E & H1 & H2 & H3);
      [fold (getWidth src); lia | lia | exact SX | unfold trip; lia|].
    fold (getWidth src) in H1, H2. rewrite Ews in H1, H2.
    exists c1, c2, wgt. auto. }
  assert (AY : forall k, (k < Z.to_nat (mBottom dst))%nat ->
             exists c1 c2 wgt,
               linearSample 12 (coordAt stepY k)
                 (u32 (u32 (mBottom src - mTop src) - 1)) = (c1, c2, wgt) /\
               0 <= c1 < mBottom src /\ 0 <= c2 < mBottom src /\
               0 <= wgt < 4096).
  { intros k Hk. unfold getHeight in SY.
    destruct (byte_axis (mTop src) (mBottom src) (mTop dst) (mBottom dst)
                stepY k) as (c1 & c2 & wgt & E & H1 & H2 & H3);
      [fold (getHeight src); lia | lia | exact SY | unfold trip; lia|].
    fold (getHeight src) in H1, H2. rewrite Ehs in H1, H2.
    exists c1, c2, wgt. auto. }
  unfold LinearResampler_Byte_scale.
  rewrite Eds, Ed, Hfs, Hfd.
  replace ((1 >? 1) || (1 >? 1)) with false by reflexivity.
  cbv zeta.
  rewrite (bind_lift_eq _ _ _ _ SX).
  rewrite (bind_lift_eq _ _ _ _ SY).
  set (e := elemSize dst) in *.
  unfold trip. rewrite El, Et, !Z.sub_0_r.
  match goal with
  | |- context [loop ?n0 ?b0 ?x0] =>
      destruct (triple_loop
                  (fun k (x : Z * ptr) s =>
                     fst x = coordAt stepY k /\
                     snd x = mkPtr (Some bd)
                                   (pixelStart dst 0 (Z.of_nat k) 0) /\
                     sampled src dst bs bd ls ld (fun _ => 0) (fun _ => 0)
                             (fun _ => 0)
                             (e * rank dst 0 (Z.of_nat k) 0) s)
                  n0 b0) with (x := x0) (s := s)
        as (r & s' & E & _ & _ & Hc)
  end.
  - (* one row *)
    intros ky [curY pY] HkY sy (HcY & HpY & HY). cbn [fst snd] in HcY, HpY.
    subst curY pY.
    destruct (AY ky HkY) as (y1 & y2 & wy & Ey & Hy1 & Hy2 & Hwy).
    rewrite Ey.
    match goal with
    | |- context [loop ?n0 ?b0 ?x0] =>
        destruct (triple_loop
                    (fun k (x : Z * ptr) s =>
                       fst x = coordAt stepX k /\
                       snd x = mkPtr (Some bd)
                                     (pixelStart dst (Z.of_nat k)
                                                 (Z.of_nat ky) 0) /\
                       sampled src dst bs bd ls ld (fun _ => 0) (fun _ => 0)
                               (fun _ => 0)
                               (e * rank dst (Z.of_nat k) (Z.of_nat ky) 0) s)
                    n0 b0) with (x := x0) (s := sy)
          as ([curX pX] & sx & E & HcX & HpX & HX)
    end.
    + (* one pixel *)
      intros kx [curX pX] HkX sx (HcX & HpX & HX).
      cbn [fst snd] in HcX, HpX. subst curX pX.
      destruct (AX kx HkX) as (x1 & x2 & wx & Ex & Hx1 & Hx2 & Hwx).
      rewrite Ex.
      pose proof (byteWeights_sum wx wy Hwx Hwy) as Hbw.
      destruct (byteWeights wx wy) as [[[w11 w21] w12] w22].
      destruct Hbw as ((N1 & N2 & N3 & N4) & Hsum).
      assert (Hin : in_extent dst (Z.of_nat kx) (Z.of_nat ky) 0)
        by (unfold in_extent; rewrite Ew, Eh, Ed; lia).
      assert (Hins : forall x y, 0 <= x < mRight src -> 0 <= y < mBottom src ->
                                 in_extent src x y 0)
        by (intros x y Hx Hy; unfold in_extent; rewrite Ews, Ehs, Eds; lia).
      match goal with
      | |- context [loop ?n0 ?b0 ?x0] =>
          destruct (triple_loop
                      (fun k (x : Z * ptr) s =>
                         fst x = Z.of_nat k /\
                         snd x = mkPtr (Some bd)
                                   (pixelStart dst (Z.of_nat kx)
                                               (Z.of_nat ky) 0
                                    + Z.of_nat k) /\
                         sampled src dst bs bd ls ld (fun _ => 0)
                                 (fun _ => 0) (fun _ => 0)
                                 (e * rank dst (Z.of_nat kx) (Z.of_nat ky) 0
                                  + Z.of_nat k) s)
                      n0 b0) with (x := x0) (s := sx)
            as ([kk pC] & sc & E & HcC & HpC & HC)
      end.
      * (* one channel *)
        intros j [kk pC] Hj sc (HcC & HpC & HC).
        cbn [fst snd] in HcC, HpC. subst kk pC.
        assert (Hjk : 0 <= Z.of_nat j < elemSize src) by lia.
        destruct (sampled_loadU8 src dst bs bd ls ld _ _ _ _ sc x1 y1
                    (Z.of_nat j) Hsrc Hbytes HC (Hins _ _ Hx1 Hy1) Hjk)
          as (b11 & s1 & E1 & C1 & L11 & B11).
        destruct (sampled_loadU8 src dst bs bd ls ld _ _ _ _ s1 x2 y1
                    (Z.of_nat j) Hsrc Hbytes C1 (Hins _ _ Hx2 Hy1) Hjk)
          as (b21 & s2 & E2 & C2 & L21 & B21).
        destruct (sampled_loadU8 src dst bs bd ls ld _ _ _ _ s2 x1 y2
                    (Z.of_nat j) Hsrc Hbytes C2 (Hins _ _ Hx1 Hy2) Hjk)
          as (b12 & s3 & E3 & C3 & L12 & B12).
        destruct (sampled_loadU8 src dst bs bd ls ld _ _ _ _ s3 x2 y2
                    (Z.of_nat j) Hsrc Hbytes C3 (Hins _ _ Hx2 Hy2) Hjk)
          as (b22 & s4 & E4 & C4 & L22 & B22).
        rewrite (bind_eq _ _ _ _ _ E1), (bind_eq _ _ _ _ _ E2),
          (bind_eq _ _ _ _ _ E3), (bind_eq _ _ _ _ _ E4).
        rewrite (Hflat _ _ _ _ (Hins _ _ Hx1 Hy1) Hjk) in L11.
        rewrite (Hflat _ _ _ _ (Hins _ _ Hx2 Hy1) Hjk) in L21.
        rewrite (Hflat _ _ _ _ (Hins _ _ Hx1 Hy2) Hjk) in L12.
        rewrite (Hflat _ _ _ _ (Hins _ _ Hx2 Hy2) Hjk) in L22.
        assert (b21 = b11) by congruence. assert (b12 = b11) by congruence.
        assert (b22 = b11) by congruence. subst b21 b12 b22.
        rewrite (blend_flat b11 w11 w21 w12 w22 B11 N1 N2 N3 N4 Hsum).
        destruct (sampled_store src dst bs bd ls ld _ _ _ Hdst _ s4
                    (Z.of_nat kx) (Z.of_nat ky) 0
                    (Z.of_nat j) [b11] Hdiff C4 Hin) as (s5 & E5 & C5);
          [lia | cbn [length]; fold e; lia | reflexivity
          | intros i Hi; cbn [length] in Hi;
            replace i with 0%nat by lia; cbv beta;
            change ([b11] !! 0%nat) with (Some b11);
            rewrite <- L11; f_equal; unfold pixelStart; lia |].
        exists (Z.of_nat j + 1,
                ptr_add (mkPtr (Some bd)
                           (pixelStart dst (Z.of_nat kx) (Z.of_nat ky) 0
                            + Z.of_nat j)) 1), s5.
        split.
        { rewrite (bind_eq _ _ s4 s5 tt); [reflexivity|].
          unfold storeU8, ptr_add. cbn [pblock poff le_bytes].
          rewrite Z.add_0_r.
          replace (b11 mod 256) with b11
            by (symmetry; apply Z.mod_small; exact B11).
          exact E5. }
        cbn [fst snd]. split; [lia|]. split.
        { unfold ptr_add. cbn [pblock poff]. f_equal. lia. }
        cbn [length] in C5.
        replace (e * rank dst (Z.of_nat kx) (Z.of_nat ky) 0
                 + Z.of_nat (S j))
          with (e * rank dst (Z.of_nat kx) (Z.of_nat ky) 0 + Z.of_nat j
                + Z.of_nat 1) by lia.
        exact C5.
      * split; [reflexivity|]. split.
        { cbn [snd]. f_equal. lia. }
        rewrite Z.add_0_r. exact HX.
      * (* end of the pixel *)
        cbn [fst snd] in HcC, HpC. subst pC.
        rewrite (bind_eq _ _ _ _ _ E).
        eexists (_, _), sc. split; [reflexivity|].
        cbn [fst snd]. split; [reflexivity|]. split.
        { f_equal. rewrite <- Ee. fold e. rewrite Z2Nat.id by lia.
          unfold pixelStart. fold e. rewrite Nat2Z.inj_succ. ring. }
        rewrite <- Ee in HC. fold e in HC. rewrite Z2Nat.id in HC by lia.
        replace (e * rank dst (Z.of_nat (S kx)) (Z.of_nat ky) 0)
          with (e * rank dst (Z.of_nat kx) (Z.of_nat ky) 0 + e);
          [exact HC|].
        unfold rank. rewrite Nat2Z.inj_succ. ring.
    + split; [reflexivity|]. split; [reflexivity | exact HY].
    + (* end of the row *)
      cbn [fst snd] in HcX, HpX. subst pX.
      rewrite (bind_eq _ _ _ _ _ E).
      eexists (_, _), sx. split; [reflexivity|].
      cbn [fst snd]. split; [reflexivity|]. split.
      { unfold ptr_add. cbn [pblock poff]. f_equal.
        unfold getRowSkip. rewrite Ew. rewrite <- Ee. fold e.
        assert (Hskip : u32 (mRowPitch dst - mRight dst)
                        = mRowPitch dst - mRight dst)
          by (unfold u32; apply Z.mod_small; lia).
        rewrite Hskip.
        assert (He32 : u32 (e * (mRowPitch dst - mRight dst))
                       = e * (mRowPitch dst - mRight dst)).
        { unfold u32. apply Z.mod_small.
          assert (0 <= e * (mRowPitch dst - mRight dst))
            by (apply Z.mul_nonneg_nonneg; lia).
          assert (0 <= e * mRight dst)
            by (apply Z.mul_nonneg_nonneg; lia).
          rewrite Z.mul_sub_distr_l in *. lia. }
        rewrite He32. unfold pixelStart. fold e.
        rewrite Z2Nat.id, Nat2Z.inj_succ by lia. ring. }
      replace (e * rank dst 0 (Z.of_nat (S ky)) 0)
        with (e * rank dst (Z.of_nat (Z.to_nat (mRight dst))) (Z.of_nat ky)
                           0); [exact HX|].
      unfold rank. rewrite Ew, Z2Nat.id, Nat2Z.inj_succ by lia. ring.
  - split; [reflexivity|]. split.
    + unfold getData. cbn [snd]. rewrite Hdata. unfold pixelStart.
      f_equal. ring.
    + apply (sampled_weaken src dst bs bd ls ld _ _ _ 0); [|exact H0].
      unfold rank. rewrite Ew, Eh. cbn [Z.of_nat]. lia.
  - exists s'. split.
    + rewrite (bind_eq _ _ _ _ _ E). reflexivity.
    + rewrite Z2Nat.id in Hc by lia.
      replace (e * rank dst 0 0 1) with (e * rank dst 0 (mBottom dst) 0);
        [exact Hc|].
      unfold rank. rewrite Ew, Eh. ring.
Qed.

(** X26.  The bilinear filter of [scale] keeps an image of one colour: for
    a flat source of one of the byte formats the byte kernel serves and a
    destination of the same format, each starting at the origin of an
    allocation of its own, one slice deep, with a width and a height from
    1 to 65535 (the two sizes need not agree), [scale] returns, the source
    is unchanged, and every pixel of the destination holds the bytes of
    that colour. *)
Theorem scale_bilinear_flat (src dst : PixelData) (bs bd : nat)
    (ls ld : list Z) (s : state) :
  byteKernelFormat (mFormat src) = true ->
  laid_out src bs ls -> laid_out dst bd ld -> bs <> bd ->
  mFormat dst = mFormat src ->
  mBack src = 1 -> mBack dst = 1 ->
  Forall is_byte ls -> flat src ls ->
  heap s !! bs = Some ls -> heap s !! bd = Some ld ->
  exists s',
    scale src dst FILTER_BILINEAR s = (Ret tt, s') /\
    heap s' !! bs = Some ls /\
    forall x y z c,
      in_extent dst x y z -> 0 <= c < elemSize dst ->
      exists v,
        byte_at s bs c = Some v /\
        byte_at s' bd (pixelStart dst x y z + c) = Some v.
Proof.
  intros Hbk Hsrc Hdst Hdiff Hf Hfs Hfd Hbytes Hflat Hs Hdd.
  destruct (laid_out_extents _ _ _ Hsrc) as (Ews & Ehs & Eds).
  destruct (laid_out_extents _ _ _ Hdst) as (Ew & Eh & Ed).
  pose proof Hdst as (_ & _ & _ & Hw & Hh & Hd & _ & _ & Hed & _).
  pose proof Hsrc as (_ & _ & _ & Hws & Hhs & Hds & _ & _ & He & Hlen & _).
  destruct (fixedStep_defined (getWidth src) (getWidth dst)) as (stepX & SX);
    [lia|].
  destruct (fixedStep_defined (getHeight src) (getHeight dst))
    as (stepY & SY); [lia|].
  destruct (byte_flat src dst bs bd ls ld stepX stepY s Hsrc Hdst Hf Hdiff
              Hbytes Hflat Hfs Hfd SX SY
              (sampled_start _ _ _ _ _ _ _ _ _ _ Hdst Hs Hdd))
    as (s' & Ek & (Hs' & ld' & Hd' & Hl' & Hc)).
  assert (Hacc : isAccessible (mFormat src) = true)
    by (destruct (mFormat src); try discriminate Hbk; reflexivity).
  exists s'. split; [|split; [exact Hs'|]].
  - rewrite scale_kernels. rewrite Hf, Hacc, Hbk.
    rewrite (bind_eq _ _ s s tt eq_refl), (bind_eq _ _ s s tt eq_refl).
    destruct (scale_same_format src dst s Hf) as (Ht & _).
    rewrite (bind_eq _ _ _ _ _ Ht).
    fold (elemSize src). rewrite (bind_eq _ _ _ _ _ Ek).
    apply (scale_same_format src dst s' Hf).
  - intros x y z c Hin Hcc.
    assert (Ee : elemSize dst = elemSize src)
      by (unfold elemSize; rewrite Hf; reflexivity).
    assert (Hlen1 : elemSize src <= Z.of_nat (length ls)).
    { assert (Hin0 : in_extent src 0 0 0)
        by (unfold in_extent; rewrite Ews, Ehs, Eds; lia).
      destruct (pixel_within src bs ls 0 0 0 Hsrc Hin0) as (_ & _ & H1).
      unfold pixelStart in H1. lia. }
    destruct (lookup_lt_is_Some_2 ls (Z.to_nat c)) as (v & Ev); [lia|].
    exists v. unfold byte_at. rewrite Hs, Hd'. split; [exact Ev|].
    rewrite Hc; [|exact Hin | exact Hcc |].
    + rewrite <- Ev. f_equal. unfold pixelStart. lia.
    + pose proof (rank_bound dst bd ld x y z Hdst Hin) as Hr.
      assert (elemSize dst * (rank dst x y z + 1)
              <= elemSize dst * rank dst 0 0 (getDepth dst))
        by (apply Z.mul_le_mono_nonneg_l; lia).
      rewrite Z.mul_add_distr_l in *. lia.
Qed.

Lemma flat_blocks_laid_out :
  laid_out (buffer_at 0 2 2 1 PF_R8G8) 0 [10; 20; 10; 20; 10; 20; 10; 20] /\
  laid_out (buffer_at 1 3 3 1 PF_R8G8) 1 (replicate 18 0).
Proof.
  unfold laid_out. vm_compute.
  repeat split; try reflexivity; discriminate.
Qed.

Lemma flat_blocks_flat :
  flat (buffer_at 0 2 2 1 PF_R8G8) [10; 20; 10; 20; 10; 20; 10; 20].
Proof.
  intros x y z c (Hx & Hy & Hz) Hc.
  change (getWidth (buffer_at 0 2 2 1 PF_R8G8)) with 2 in Hx.
  change (getHeight (buffer_at 0 2 2 1 PF_R8G8)) with 2 in Hy.
  change (getDepth (buffer_at 0 2 2 1 PF_R8G8)) with 1 in Hz.
  change (elemSize (buffer_at 0 2 2 1 PF_R8G8)) with 2 in Hc.
  assert (Ex : x = 0 \/ x = 1) by lia. assert (Ey : y = 0 \/ y = 1) by lia.
  assert (Ez : z = 0) by lia. assert (Ec : c = 0 \/ c = 1) by lia.
  destruct Ex as [-> | ->], Ey as [-> | ->], Ec as [-> | ->]; subst z;
    reflexivity.
Qed.

Lemma scale_bilinear_flat_witness :
  exists s',
    scale (buffer_at 0 2 2 1 PF_R8G8) (buffer_at 1 3 3 1 PF_R8G8)
          FILTER_BILINEAR flat_blocks = (Ret tt, s') /\
    heap s' !! 0%nat = Some [10; 20; 10; 20; 10; 20; 10; 20] /\
    forall x y z c,
      in_extent (buffer_at 1 3 3 1 PF_R8G8) x y z ->
      0 <= c < elemSize (buffer_at 1 3 3 1 PF_R8G8) ->
      exists v,
        byte_at flat_blocks 0 c = Some v /\
        byte_at s' 1 (pixelStart (buffer_at 1 3 3 1 PF_R8G8) x y z + c)
        = Some v.
Proof.
  apply (scale_bilinear_flat (buffer_at 0 2 2 1 PF_R8G8)
           (buffer_at 1 3 3 1 PF_R8G8) 0 1
           [10; 20; 10; 20; 10; 20; 10; 20] (replicate 18 0) flat_blocks);
    try reflexivity.
  - apply flat_blocks_laid_out.
  - apply flat_blocks_laid_out.
  - discriminate.
  - repeat constructor; discriminate.
  - apply flat_blocks_flat.
Defined.
